(** * MultipleQueue: a call-centre queueing network simulated with SimPy

    Shallow embedding of [main.py] together with the part of the SimPy
    kernel the program runs on (event heap, processes, conditions and
    resources), and the properties of the statistics it collects.

    Conventions.
    - Python floats are modelled as exact rationals ([Q]); Python integers
      as [Z] or [nat].
    - The two pseudo-random sources ([random.expovariate] and
      [numpy.random.choice]) are tapes of draws that the program consumes
      from the front.
    - An uncaught Python exception aborts the run ([Raise]); an exhausted
      tape or an exhausted step budget is [Starved], which is an outcome of
      the model and not of the program. *)

From Stdlib Require Import QArith Qround Lqa Lia ZArith.
From stdpp Require Import base option list gmap strings functions sorting.

Local Open Scope Q_scope.

(** ** Outcomes of fallible code *)

Inductive exn :=
| KeyError | ValueError | ZeroDivisionError | RuntimeError | IndexError | StatisticsError.

Inductive result (A : Type) :=
| Ok (a : A)
| Raise (e : exn)
| Starved.
Arguments Ok {A} a.
Arguments Raise {A} e.
Arguments Starved {A}.

Definition bind {A B} (m : result A) (k : A -> result B) : result B :=
  match m with
  | Ok a => k a
  | Raise e => Raise e
  | Starved => Starved
  end.

Notation "'let*' x ':=' m 'in' k" := (bind m (fun x => k))
  (at level 10, x pattern, m at level 100, k at level 200).

Definition of_option {A} (e : exn) (o : option A) : result A :=
  match o with Some a => Ok a | None => Raise e end.

(** ** Configuration: the module-level constants of main.py *)

Definition node := string.

Record Params := { mu : Q; servers : Z }.

Record Config := {
  TOTAL_CUSTOMERS : nat;
  parameters : gmap node Params;
  transition_probabilities : gmap node (list (node * Q));
  arrival_rate : Q
}.

Definition Completed_Support : node := "Completed Support"%string.
Definition CRS : node := "CRS"%string.

(** The patience window of [customer]: [env.timeout(0.5)]. *)
Definition PATIENCE : Q := 1 # 2.

Definition reference_parameters : gmap node Params :=
  list_to_map
    [ ("CRS"%string, {| mu := 1 # 2; servers := 10 |});
      ("AI/Robotics"%string, {| mu := 2; servers := 5 |});
      ("TSD"%string, {| mu := 5; servers := 5 |});
      ("PGT"%string, {| mu := 7; servers := 5 |});
      ("CSD"%string, {| mu := 5; servers := 15 |}) ].

Definition reference_transitions : gmap node (list (node * Q)) :=
  list_to_map
    [ ("CRS"%string,
        [("TSD"%string, 1 # 10); ("AI/Robotics"%string, 3 # 10);
         ("PGT"%string, 1 # 10); ("CSD"%string, 5 # 10)]);
      ("TSD"%string, [("CSD"%string, 2 # 10); (Completed_Support, 8 # 10)]);
      ("PGT"%string, [("CSD"%string, 2 # 10); (Completed_Support, 8 # 10)]);
      ("AI/Robotics"%string,
        [("CSD"%string, 3 # 10); ("TSD"%string, 1 # 10);
         ("PGT"%string, 1 # 10); (Completed_Support, 5 # 10)]);
      ("CSD"%string,
        [("PGT"%string, 1 # 10); ("TSD"%string, 1 # 10); (Completed_Support, 8 # 10)]) ].

Definition reference_config : Config :=
  {| TOTAL_CUSTOMERS := Z.to_nat 30000;
     parameters := reference_parameters;
     transition_probabilities := reference_transitions;
     arrival_rate := 10 |}.

(** ** Statistics collectors *)

Definition Qsum (l : list Q) : Q := foldr Qplus 0 l.

(** [statistics.mean]: the exact sum divided by the number of samples; it
    refuses an empty list. *)
Definition mean (l : list Q) : result Q :=
  match l with
  | [] => Raise StatisticsError
  | _ => Ok (Qsum l / inject_Z (Z.of_nat (length l)))
  end.

(** Python's [/] on integers. *)
Definition true_div (a b : Z) : result Q :=
  if Z.eqb b 0 then Raise ZeroDivisionError else Ok (inject_Z a / inject_Z b).

Record NodeStats := {
  waiting_times : list Q;
  service_times : list Q;
  queue_lengths : list nat;
  utilization : list Q;
  abandonment_count : Z
}.

Definition NodeStats_init : NodeStats :=
  {| waiting_times := []; service_times := []; queue_lengths := [];
     utilization := []; abandonment_count := 0 |}.

Definition customer_abandoned (s : NodeStats) : NodeStats :=
  {| waiting_times := waiting_times s; service_times := service_times s;
     queue_lengths := queue_lengths s; utilization := utilization s;
     abandonment_count := abandonment_count s + 1 |}.

(** [add_stats(wait, service, count, servers)]: [qlen] is [len(count.queue)]
    and [cnt] is [count.count]; the division raises when [servers] is 0. *)
Definition add_stats (wait service : Q) (qlen cnt : nat) (srv : Z) (s : NodeStats)
  : result NodeStats :=
  let* u := true_div (Z.of_nat cnt) srv in
  Ok {| waiting_times := waiting_times s ++ [wait];
        service_times := service_times s ++ [service];
        queue_lengths := queue_lengths s ++ [qlen];
        utilization := utilization s ++ [u];
        abandonment_count := abandonment_count s |}.

Record Metrics := {
  average_waiting_time : Q;
  average_service_time : Q;
  average_queue_length : Q;
  average_utilization : Q;
  abandonment_rate : Q
}.

Definition nat_samples (l : list nat) : list Q := map (fun n => inject_Z (Z.of_nat n)) l.

(** [statistics.mean(l) if l else 0] *)
Definition mean_or_zero (l : list Q) : result Q :=
  match l with [] => Ok 0 | _ => mean l end.

Definition compute_metrics (s : NodeStats) : result Metrics :=
  let total_customers := (Z.of_nat (length (waiting_times s)) + abandonment_count s)%Z in
  let* w := mean_or_zero (waiting_times s) in
  let* sv := mean_or_zero (service_times s) in
  let* ql := mean_or_zero (nat_samples (queue_lengths s)) in
  let* ut := mean_or_zero (utilization s) in
  let* ar := if Z.eqb total_customers 0 then Ok 0
             else true_div (abandonment_count s) total_customers in
  Ok {| average_waiting_time := w;
        average_service_time := sv;
        average_queue_length := ql;
        average_utilization := ut;
        abandonment_rate := ar |}.

Record GeneStats := {
  first_call_resolution_count : Z;
  transfer_count : Z
}.

Definition GeneStats_init : GeneStats :=
  {| first_call_resolution_count := 0; transfer_count := 0 |}.

(** The classification at the end of [customer_pathway]. *)
Definition classify (pathway : list node) (g : GeneStats) : GeneStats :=
  if Nat.eqb (length pathway) 2 then
    {| first_call_resolution_count := first_call_resolution_count g + 1;
       transfer_count := transfer_count g |}
  else
    {| first_call_resolution_count := first_call_resolution_count g;
       transfer_count := transfer_count g + (Z.of_nat (length pathway) - 2) |}.

(** ** Routing: weighted choice and path construction *)

Definition Qltb (a b : Q) : bool := negb (Qle_bool b a).

(** [cdf.searchsorted] with side right over the running sums: the first
    option whose cumulative weight exceeds the draw. *)
Fixpoint searchsorted (choices : list (node * Q)) (acc u : Q) : result node :=
  match choices with
  | [] => Raise IndexError
  | (c, p) :: rest =>
      if Qltb u (acc + p) then Ok c else searchsorted rest (acc + p) u
  end.

Definition valid_probabilities (choices : list (node * Q)) : bool :=
  forallb (fun cp => Qle_bool 0 (snd cp)) choices
  && Qeq_bool (Qsum (map snd choices)) 1.

(** [weighted_random_choice]: unzipping the choices fails on an empty list and
    [np.random.choice] rejects weights that are negative or do not add up
    to one, both before a variate is drawn. *)
Definition weighted_random_choice (choices : list (node * Q)) (draws : list Q)
  : result (node * list Q) :=
  match choices with
  | [] => Raise ValueError
  | _ =>
      if valid_probabilities choices then
        match draws with
        | [] => Starved
        | u :: draws' =>
            let* c := searchsorted choices 0 u in Ok (c, draws')
        end
      else Raise ValueError
  end.

(** The [while] loop of [customer_pathway]; one draw per iteration. *)
Fixpoint path_loop (tp : gmap node (list (node * Q))) (current_node : node)
    (pathway : list node) (draws : list Q) (fuel : nat)
  : result (list node * list Q) :=
  if decide (current_node = Completed_Support) then Ok (pathway, draws)
  else
    match fuel with
    | O => Starved
    | S fuel' =>
        let* next_nodes := of_option KeyError (tp !! current_node) in
        let* (next_node, draws') := weighted_random_choice next_nodes draws in
        if decide (next_node = Completed_Support) then Ok (pathway, draws')
        else path_loop tp next_node (pathway ++ [next_node]) draws' fuel'
    end.

(** Every iteration consumes a draw, so the tape length bounds the loop. *)
Definition build_path (tp : gmap node (list (node * Q))) (draws : list Q)
  : result (list node * list Q) :=
  path_loop tp CRS [CRS] draws (S (length draws)).


(** ** The SimPy kernel: events, callbacks, processes, resources *)

Definition URGENT : nat := 0.
Definition NORMAL : nat := 1.

(** Bound methods registered in an event's callback list. *)
Inductive Callback :=
| Resume (p : nat)          (* Process._resume of process p *)
| Check (c : nat)           (* Condition._check of condition c *)
| BuildValue (c : nat)      (* Condition._build_value of condition c *)
| TriggerGet (n : node)     (* BaseResource._trigger_get of station n *)
| TriggerPut (n : node).    (* BaseResource._trigger_put of station n *)

Global Instance Callback_eq_dec : EqDecision Callback.
Proof. solve_decision. Defined.

Inductive Kind :=
| KTimeout
| KInitialize
| KProcess
| KRequest (n : node)
| KRelease (n : node) (request : nat)
| KCondition (evs : list nat).

(** An event object: [callbacks] is [None] once the event is processed,
    [triggered] says that its value is no longer pending, [value] is the
    list of events of a condition value. *)
Record Event := {
  kind : Kind;
  callbacks : option (list Callback);
  triggered : bool;
  value : list nat
}.

Definition processed (e : Event) : bool :=
  match callbacks e with None => true | Some _ => false end.

(** The entries of the environment's heap: [(time, priority, eid, event)]. *)
Record Entry := { e_time : Q; e_prio : nat; e_eid : nat; e_ev : nat }.

Definition key_ltb (a b : Entry) : bool :=
  match e_time a ?= e_time b with
  | Lt => true
  | Gt => false
  | Eq => (e_prio a <? e_prio b)%nat
          || ((e_prio a =? e_prio b)%nat && (e_eid a <? e_eid b)%nat)
  end.

(** The heap is kept as a list sorted by key, so that [heappop] is the head. *)
Fixpoint heappush (x : Entry) (q : list Entry) : list Entry :=
  match q with
  | [] => [x]
  | y :: q' => if key_ltb x y then x :: y :: q' else y :: heappush x q'
  end.

(** A [simpy.Resource]. *)
Record Resource := {
  capacity : Z;
  users : list nat;
  put_queue : list nat;
  get_queue : list nat
}.

(** The suspended generators. *)
Inductive Gen :=
| Arrivals (i : nat)
    (* customer_arrivals, about to run iteration i of its loop *)
| Pathway_start (customer_id : nat)
    (* customer_pathway, not yet started *)
| Pathway_wait
    (* customer_pathway, waiting for its customer process *)
| Customer_loop (pathway : list node)
    (* customer, at the head of its loop with these stations left *)
| Customer_race (n : node) (rest : list node) (arrival_time : Q) (request : nat)
    (* customer, waiting for request | timeout at station n *)
| Customer_service (n : node) (rest : list node) (wait service_time : Q) (request : nat)
    (* customer, in service at station n *)
| Finished.

(** A [simpy.Process]: its generator and the event it waits for
    ([Process._target]). *)
Record Proc := { gen : Gen; target : option nat }.

(** History of the run, newest first.  It is written by the transitions
    and never read by them. *)
Inductive Obs :=
| ObsSpawn (customer_id : nat)
| ObsPath (p : nat) (pathway : list node)
| ObsVisit (p : nat) (n : node) (r : nat) (arrival : Q)
| ObsGrant (r : nat) (time : Q)
| ObsAbandon (p : nat) (n : node) (r : nat) (wait : Q)
| ObsServed (p : nat) (n : node) (r : nat) (wait service : Q).

Record State := {
  now : Q;
  eid : nat;
  queue : list Entry;
  events : nat -> Event;
  next_event : nat;
  procs : nat -> Proc;
  nodes : node -> Resource;
  node_stats : node -> NodeStats;
  gene_stats : GeneStats;
  expo : list Q;
  unif : list Q;
  trace : list Obs
}.

Definition set_now (v : Q) (s : State) : State :=
  {| now := v; eid := eid s; queue := queue s; events := events s;
     next_event := next_event s; procs := procs s; nodes := nodes s;
     node_stats := node_stats s; gene_stats := gene_stats s; expo := expo s;
     unif := unif s; trace := trace s |}.
Definition set_eid (v : nat) (s : State) : State :=
  {| now := now s; eid := v; queue := queue s; events := events s;
     next_event := next_event s; procs := procs s; nodes := nodes s;
     node_stats := node_stats s; gene_stats := gene_stats s; expo := expo s;
     unif := unif s; trace := trace s |}.
Definition set_queue (v : list Entry) (s : State) : State :=
  {| now := now s; eid := eid s; queue := v; events := events s;
     next_event := next_event s; procs := procs s; nodes := nodes s;
     node_stats := node_stats s; gene_stats := gene_stats s; expo := expo s;
     unif := unif s; trace := trace s |}.
Definition set_events (v : nat -> Event) (s : State) : State :=
  {| now := now s; eid := eid s; queue := queue s; events := v;
     next_event := next_event s; procs := procs s; nodes := nodes s;
     node_stats := node_stats s; gene_stats := gene_stats s; expo := expo s;
     unif := unif s; trace := trace s |}.
Definition set_next_event (v : nat) (s : State) : State :=
  {| now := now s; eid := eid s; queue := queue s; events := events s;
     next_event := v; procs := procs s; nodes := nodes s;
     node_stats := node_stats s; gene_stats := gene_stats s; expo := expo s;
     unif := unif s; trace := trace s |}.
Definition set_procs (v : nat -> Proc) (s : State) : State :=
  {| now := now s; eid := eid s; queue := queue s; events := events s;
     next_event := next_event s; procs := v; nodes := nodes s;
     node_stats := node_stats s; gene_stats := gene_stats s; expo := expo s;
     unif := unif s; trace := trace s |}.
Definition set_nodes (v : node -> Resource) (s : State) : State :=
  {| now := now s; eid := eid s; queue := queue s; events := events s;
     next_event := next_event s; procs := procs s; nodes := v;
     node_stats := node_stats s; gene_stats := gene_stats s; expo := expo s;
     unif := unif s; trace := trace s |}.
Definition set_node_stats (v : node -> NodeStats) (s : State) : State :=
  {| now := now s; eid := eid s; queue := queue s; events := events s;
     next_event := next_event s; procs := procs s; nodes := nodes s;
     node_stats := v; gene_stats := gene_stats s; expo := expo s;
     unif := unif s; trace := trace s |}.
Definition set_gene_stats (v : GeneStats) (s : State) : State :=
  {| now := now s; eid := eid s; queue := queue s; events := events s;
     next_event := next_event s; procs := procs s; nodes := nodes s;
     node_stats := node_stats s; gene_stats := v; expo := expo s;
     unif := unif s; trace := trace s |}.
Definition set_expo (v : list Q) (s : State) : State :=
  {| now := now s; eid := eid s; queue := queue s; events := events s;
     next_event := next_event s; procs := procs s; nodes := nodes s;
     node_stats := node_stats s; gene_stats := gene_stats s; expo := v;
     unif := unif s; trace := trace s |}.
Definition set_unif (v : list Q) (s : State) : State :=
  {| now := now s; eid := eid s; queue := queue s; events := events s;
     next_event := next_event s; procs := procs s; nodes := nodes s;
     node_stats := node_stats s; gene_stats := gene_stats s; expo := expo s;
     unif := v; trace := trace s |}.
Definition observe (o : Obs) (s : State) : State :=
  {| now := now s; eid := eid s; queue := queue s; events := events s;
     next_event := next_event s; procs := procs s; nodes := nodes s;
     node_stats := node_stats s; gene_stats := gene_stats s; expo := expo s;
     unif := unif s; trace := o :: trace s |}.

(** [list.remove(x)]: drops the first occurrence, if there is one. *)
Fixpoint remove_first {A} `{EqDecision A} (x : A) (l : list A) : list A :=
  match l with
  | [] => []
  | y :: l' => if decide (x = y) then l' else y :: remove_first x l'
  end.

(** *** Events *)

Definition upd_event (ev : nat) (f : Event -> Event) (s : State) : State :=
  set_events (alter f ev (events s)) s.

Definition with_callbacks (cbs : option (list Callback)) (e : Event) : Event :=
  {| kind := kind e; callbacks := cbs; triggered := triggered e; value := value e |}.
Definition with_triggered (b : bool) (e : Event) : Event :=
  {| kind := kind e; callbacks := callbacks e; triggered := b; value := value e |}.
Definition with_value (v : list nat) (e : Event) : Event :=
  {| kind := kind e; callbacks := callbacks e; triggered := triggered e; value := v |}.

(** [Event.__init__]: a fresh object with an empty callback list. *)
Definition new_event (k : Kind) (trig : bool) (s : State) : nat * State :=
  let ev := next_event s in
  (ev,
   set_next_event (S ev)
     (set_events (<[ev := {| kind := k; callbacks := Some []; triggered := trig;
                             value := [] |}]> (events s)) s)).

(** [event.callbacks.append(cb)] on an event that is not yet processed. *)
Definition add_callback (ev : nat) (cb : Callback) (s : State) : State :=
  upd_event ev (fun e => with_callbacks (option_map (fun l => l ++ [cb]) (callbacks e)) e) s.

(** [Environment.schedule]. *)
Definition schedule (ev : nat) (prio : nat) (delay : Q) (s : State) : State :=
  set_eid (S (eid s))
    (set_queue
       (heappush {| e_time := now s + delay; e_prio := prio; e_eid := eid s; e_ev := ev |}
          (queue s)) s).

(** [Event.succeed]. *)
Definition succeed (ev : nat) (s : State) : result State :=
  if triggered (events s ev) then Raise RuntimeError
  else Ok (schedule ev NORMAL 0 (upd_event ev (with_triggered true) s)).

(** [Timeout.__init__]: triggered from the start and scheduled after [delay]. *)
Definition timeout (delay : Q) (s : State) : result (nat * State) :=
  if Qltb delay 0 then Raise ValueError
  else
    let '(t, s1) := new_event KTimeout true s in
    Ok (t, schedule t NORMAL delay s1).

(** [Process.__init__]: the process event and its [Initialize] event, which
    is scheduled urgently and resumes the generator for the first time. *)
Definition process (g : Gen) (s : State) : nat * State :=
  let '(p, s1) := new_event KProcess false s in
  let '(i, s2) := new_event KInitialize true s1 in
  let s3 := set_procs (<[p := {| gen := g; target := Some i |}]> (procs s2)) s2 in
  (p, schedule i URGENT 0 (add_callback i (Resume p) s3)).

(** The end of a generator: the process event is triggered and scheduled. *)
Definition finish (p : nat) (s : State) : State :=
  schedule p NORMAL 0
    (upd_event p (with_triggered true)
       (set_procs (<[p := {| gen := Finished; target := None |}]> (procs s)) s)).

(** A generator yields event [ev]: the process registers itself on it.  Every
    event this program yields was created in the same transition, so it is
    never already processed. *)
Definition yield (p ev : nat) (g : Gen) (s : State) : State :=
  add_callback ev (Resume p)
    (set_procs (<[p := {| gen := g; target := Some ev |}]> (procs s)) s).

(** *** Conditions *)

(** [Condition._check] with [Condition.any_events]: the first event that
    is processed triggers the condition. *)
Definition check (c : nat) (s : State) : result State :=
  if triggered (events s c) then Ok s else succeed c s.

Definition condition_events (e : Event) : list nat :=
  match kind e with KCondition evs => evs | _ => [] end.

(** [Condition._remove_check_callbacks]. *)
Definition remove_check (c : nat) (e : Event) : Event :=
  match callbacks e with
  | Some (cb :: cbs) =>
      if decide (Check c ∈ cb :: cbs)
      then with_callbacks (Some (remove_first (Check c) (cb :: cbs))) e
      else e
  | _ => e
  end.

Definition remove_check_callbacks (c : nat) (s : State) : State :=
  foldl (fun s' ev => upd_event ev (remove_check c) s') s
    (condition_events (events s c)).

(** [Condition._build_value]: the value holds the events of the condition
    that are processed by now, in the order of the condition. *)
Definition build_value (c : nat) (s : State) : State :=
  let s1 := remove_check_callbacks c s in
  upd_event c
    (with_value (filter (fun ev => processed (events s1 ev) = true)
                   (condition_events (events s1 c)))) s1.

(** [request | timeout]: [Condition.__init__] with [any_events]. *)
Definition any_of (evs : list nat) (s : State) : result (nat * State) :=
  let '(c, s1) := new_event (KCondition evs) false s in
  let* s2 :=
    foldl (fun acc ev =>
             let* s' := acc in
             if processed (events s' ev) then check c s'
             else Ok (add_callback ev (Check c) s'))
      (Ok s1) evs in
  Ok (c, add_callback c (BuildValue c) s2).

(** *** Resources *)

Definition upd_node (n : node) (f : Resource -> Resource) (s : State) : State :=
  set_nodes (alter f n (nodes s)) s.

Definition with_users (v : list nat) (r : Resource) : Resource :=
  {| capacity := capacity r; users := v; put_queue := put_queue r; get_queue := get_queue r |}.
Definition with_put_queue (v : list nat) (r : Resource) : Resource :=
  {| capacity := capacity r; users := users r; put_queue := v; get_queue := get_queue r |}.
Definition with_get_queue (v : list nat) (r : Resource) : Resource :=
  {| capacity := capacity r; users := users r; put_queue := put_queue r; get_queue := v |}.

(** [Resource._do_put]: admit the request if a server is free. *)
Definition do_put (n : node) (r : nat) (s : State) : result State :=
  if (Z.of_nat (length (users (nodes s n))) <? capacity (nodes s n))%Z then
    succeed r
      (observe (ObsGrant r (now s))
         (upd_node n (fun res => with_users (users res ++ [r]) res) s))
  else Ok s.

(** [BaseResource._trigger_put]: [_do_put] returns nothing, so the loop
    looks at the head of the queue only. *)
Definition trigger_put (n : node) (s : State) : result State :=
  match put_queue (nodes s n) with
  | [] => Ok s
  | r :: _ =>
      let* s1 := do_put n r s in
      if triggered (events s1 r)
      then Ok (upd_node n (fun res => with_put_queue (tl (put_queue res)) res) s1)
      else Ok s1
  end.

Definition release_request (e : Event) : option nat :=
  match kind e with KRelease _ r => Some r | _ => None end.

(** [Resource._do_get]: a release of a request that holds no server is
    silently accepted. *)
Definition do_get (n : node) (g : nat) (s : State) : result State :=
  let s1 :=
    match release_request (events s g) with
    | Some r => upd_node n (fun res => with_users (remove_first r (users res)) res) s
    | None => s
    end in
  succeed g s1.

(** [BaseResource._trigger_get]. *)
Definition trigger_get (n : node) (s : State) : result State :=
  match get_queue (nodes s n) with
  | [] => Ok s
  | g :: _ =>
      let* s1 := do_get n g s in
      if triggered (events s1 g)
      then Ok (upd_node n (fun res => with_get_queue (tl (get_queue res)) res) s1)
      else Ok s1
  end.

(** [resource.request()]: [Put.__init__]. *)
Definition request (n : node) (s : State) : result (nat * State) :=
  let '(r, s1) := new_event (KRequest n) false s in
  let s2 := upd_node n (fun res => with_put_queue (put_queue res ++ [r]) res) s1 in
  let s3 := add_callback r (TriggerGet n) s2 in
  let* s4 := trigger_put n s3 in
  Ok (r, s4).

(** [resource.release(request)]: [Get.__init__]. *)
Definition release (n : node) (r : nat) (s : State) : result State :=
  let '(g, s1) := new_event (KRelease n r) false s in
  let s2 := upd_node n (fun res => with_get_queue (get_queue res ++ [g]) res) s1 in
  let s3 := add_callback g (TriggerPut n) s2 in
  trigger_get n s3.

(** [Request.__exit__]: cancel the request if it is still waiting, then
    release it. *)
Definition exit_request (n : node) (r : nat) (s : State) : result State :=
  let* s1 :=
    if triggered (events s r) then Ok s
    else if decide (r ∈ put_queue (nodes s n))
         then Ok (upd_node n (fun res => with_put_queue (remove_first r (put_queue res)) res) s)
         else Raise ValueError in
  release n r s1.

(** ** The processes of main.py *)

Section Simulation.

Variable cfg : Config.

(** [random.expovariate(lambd)]: the tape holds the standard exponential
    variates [-log(1 - random())]. *)
Definition expovariate (lambd : Q) (s : State) : result (Q * State) :=
  if Qeq_bool lambd 0 then Raise ZeroDivisionError
  else
    match expo s with
    | [] => Starved
    | e :: rest => Ok (e / lambd, set_expo rest s)
    end.

Definition lookup_params (n : node) : result Params :=
  of_option KeyError (parameters cfg !! n).

(** [node_stats[node].add_stats(wait, service, nodes[node], parameters[node]['servers'])] *)
Definition record_stats (n : node) (wait service : Q) (s : State) : result State :=
  let* prm := lookup_params n in
  let res := nodes s n in
  let* ns := add_stats wait service (length (put_queue res)) (length (users res))
               (servers prm) (node_stats s n) in
  Ok (set_node_stats (<[n := ns]> (node_stats s)) s).

(** The head of the [for node in pathway] loop of [customer]. *)
Definition customer_loop (p : nat) (pathway : list node) (s : State) : result State :=
  match pathway with
  | [] => Ok (finish p s)
  | n :: rest =>
      let arrival_time := now s in
      let* _ := lookup_params n in
      let* (r, s0) := request n s in
      let s1 := observe (ObsVisit p n r arrival_time) s0 in
      let* (t, s2) := timeout PATIENCE s1 in
      let* (c, s3) := any_of [r; t] s2 in
      Ok (yield p c (Customer_race n rest arrival_time r) s3)
  end.

(** [Process._resume]: run generator [p] up to its next [yield], having been
    woken by event [ev]. *)
Definition resume (p ev : nat) (s : State) : result State :=
  match gen (procs s p) with
  | Arrivals i =>
      if (i <? TOTAL_CUSTOMERS cfg)%nat then
        let '(_, s1) := process (Pathway_start i) (observe (ObsSpawn i) s) in
        let* (inter_arrival_time, s2) := expovariate (arrival_rate cfg) s1 in
        let* (t, s3) := timeout inter_arrival_time s2 in
        Ok (yield p t (Arrivals (S i)) s3)
      else Ok (finish p s)
  | Pathway_start customer_id =>
      let* (pathway, draws) := build_path (transition_probabilities cfg) (unif s) in
      let s1 := set_gene_stats (classify pathway (gene_stats s)) (set_unif draws s) in
      let '(pc, s2) := process (Customer_loop pathway) (observe (ObsPath p pathway) s1) in
      Ok (yield p pc Pathway_wait s2)
  | Pathway_wait => Ok (finish p s)
  | Customer_loop pathway => customer_loop p pathway s
  | Customer_race n rest arrival_time r =>
      if decide (r ∈ value (events s ev)) then
        let wait := now s - arrival_time in
        let* prm := lookup_params n in
        if Qeq_bool (mu prm) 0 then Raise ZeroDivisionError
        else
          let* (service_time, s1) := expovariate (1 / mu prm) s in
          let* (t, s2) := timeout service_time s1 in
          Ok (yield p t (Customer_service n rest wait service_time r) s2)
      else
        let* _ := lookup_params n in
        let s1 := set_node_stats
                    (<[n := customer_abandoned (node_stats s n)]> (node_stats s)) s in
        let wait := now s - arrival_time in
        let* s2 := record_stats n wait 0 s1 in
        let* s3 := exit_request n r (observe (ObsAbandon p n r wait) s2) in
        Ok (finish p s3)
  | Customer_service n rest wait service_time r =>
      let* s1 := record_stats n wait service_time s in
      let* s2 := exit_request n r (observe (ObsServed p n r wait service_time) s1) in
      customer_loop p rest s2
  | Finished => Raise RuntimeError
  end.

(** *** The event loop *)

Definition run_callback (cb : Callback) (ev : nat) (s : State) : result State :=
  match cb with
  | Resume p => resume p ev s
  | Check c => check c s
  | BuildValue c => Ok (build_value c s)
  | TriggerGet n => trigger_get n s
  | TriggerPut n => trigger_put n s
  end.

Fixpoint run_callbacks (cbs : list Callback) (ev : nat) (s : State) : result State :=
  match cbs with
  | [] => Ok s
  | cb :: cbs' => let* s' := run_callback cb ev s in run_callbacks cbs' ev s'
  end.

(** [heappop], the clock moves to the entry's time and the event gives up
    its callback list. *)
Definition pop (x : Entry) (q : list Entry) (s : State) : State :=
  upd_event (e_ev x) (with_callbacks None) (set_now (e_time x) (set_queue q s)).

(** [Environment.step]: pop the next event and run the callbacks it had. *)
Definition step (s : State) : result State :=
  match queue s with
  | [] => Ok s
  | x :: q =>
      run_callbacks (default [] (callbacks (events s (e_ev x)))) (e_ev x) (pop x q s)
  end.

(** [env.run()]: step until the heap is empty. *)
Fixpoint run (fuel : nat) (s : State) : result State :=
  match queue s with
  | [] => Ok s
  | _ :: _ =>
      match fuel with
      | O => Starved
      | S fuel' => let* s' := step s in run fuel' s'
      end
  end.

(** *** Environment setup *)

Definition blank_event : Event :=
  {| kind := KTimeout; callbacks := None; triggered := false; value := [] |}.

Definition new_resource (n : node) : Resource :=
  {| capacity := match parameters cfg !! n with Some prm => servers prm | None => 0 end;
     users := []; put_queue := []; get_queue := [] |}.

(** [simpy.Resource] refuses a capacity that is not positive. *)
Definition capacities_ok : bool :=
  forallb (fun np => (0 <? servers (snd np))%Z) (map_to_list (parameters cfg)).

Definition empty_state (exps unifs : list Q) : State :=
  {| now := 0; eid := 0; queue := []; events := fun _ => blank_event;
     next_event := 0; procs := fun _ => {| gen := Finished; target := None |};
     nodes := new_resource; node_stats := fun _ => NodeStats_init;
     gene_stats := GeneStats_init; expo := exps; unif := unifs; trace := [] |}.

(** The module-level statements up to [env.process(customer_arrivals(...))]. *)
Definition setup (exps unifs : list Q) : result State :=
  if capacities_ok then Ok (snd (process (Arrivals 0) (empty_state exps unifs)))
  else Raise ValueError.

(** The whole script up to the end of [env.run()]. *)
Definition simulate (fuel : nat) (exps unifs : list Q) : result State :=
  let* s := setup exps unifs in run fuel s.

End Simulation.

(** ** Runs and their history *)

(** The states the script passes through between two events. *)
Inductive reachable (cfg : Config) (exps unifs : list Q) : State -> Prop :=
| reachable_setup s :
    setup cfg exps unifs = Ok s -> reachable cfg exps unifs s
| reachable_step s s' :
    reachable cfg exps unifs s -> step cfg s = Ok s' -> reachable cfg exps unifs s'.

(** The state in which [env.run()] returns: the heap is empty. *)
Definition completed (s : State) : Prop := queue s = [].

Definition paths_of (tr : list Obs) : list (list node) :=
  flat_map (fun o => match o with ObsPath _ pw => [pw] | _ => [] end) tr.

Definition spawns_of (tr : list Obs) : list nat :=
  flat_map (fun o => match o with ObsSpawn i => [i] | _ => [] end) tr.

(** The outcomes recorded at station [n], newest first: the request of the
    visit, whether it was abandoned, the wait and the service time. *)
Definition outcomes_at (n : node) (tr : list Obs) : list (nat * bool * Q * Q) :=
  flat_map (fun o =>
              match o with
              | ObsAbandon _ n' r w => if decide (n' = n) then [(r, true, w, 0)] else []
              | ObsServed _ n' r w sv => if decide (n' = n) then [(r, false, w, sv)] else []
              | _ => []
              end) tr.

Definition outcome_request (o : nat * bool * Q * Q) : nat := fst (fst (fst o)).
Definition outcome_abandoned (o : nat * bool * Q * Q) : bool := snd (fst (fst o)).
Definition outcome_wait (o : nat * bool * Q * Q) : Q := snd (fst o).
Definition outcome_service (o : nat * bool * Q * Q) : Q := snd o.



Definition two_stations (pw : list node) : bool := Nat.eqb (length pw) 2.

Definition Zsum (l : list Z) : Z := foldr Z.add 0%Z l.

(** Transfers the code books for a batch of paths. *)
Definition transfers_of (pws : list (list node)) : Z :=
  Zsum (map (fun pw => (Z.of_nat (length pw) - 2)%Z)
          (List.filter (fun pw => negb (two_stations pw)) pws)).

(** *** The classification in the words of the specification *)

(** One station is a first-call resolution; any other path books
    (stations - 1) transfers. *)
Definition spec_classify (pathway : list node) (g : GeneStats) : GeneStats :=
  if Nat.eqb (length pathway) 1 then
    {| first_call_resolution_count := first_call_resolution_count g + 1;
       transfer_count := transfer_count g |}
  else
    {| first_call_resolution_count := first_call_resolution_count g;
       transfer_count := transfer_count g + (Z.of_nat (length pathway) - 1) |}.


(** ** Invariants of a run *)

Definition is_grant (o : Obs) : bool :=
  match o with ObsGrant _ _ => true | _ => false end.

(** What the kernel operations do to the books: nothing, except for noting
    the requests they grant. *)
Definition quiet (s s' : State) : Prop :=
  node_stats s' = node_stats s /\ gene_stats s' = gene_stats s /\
  unif s' = unif s /\
  exists l, trace s' = l ++ trace s /\ Forall (fun o => is_grant o = true) l.

(** The samples of a station are the recorded outcomes, oldest first. *)
Definition books_match (ns : NodeStats) (outs : list (nat * bool * Q * Q)) : Prop :=
  waiting_times ns = rev (map outcome_wait outs) /\
  service_times ns = rev (map outcome_service outs) /\
  length (queue_lengths ns) = length outs /\
  length (utilization ns) = length outs /\
  abandonment_count ns = Z.of_nat (length (List.filter outcome_abandoned outs)).

Definition books_inv (s : State) : Prop :=
  gene_stats s = foldr classify GeneStats_init (paths_of (trace s)) /\
  forall n, books_match (node_stats s n) (outcomes_at n (trace s)).

(** Observations that do not concern the books. *)
Definition bookless (o : Obs) : bool :=
  match o with
  | ObsPath _ _ | ObsAbandon _ _ _ _ | ObsServed _ _ _ _ _ => false
  | _ => true
  end.

Definition calm (s s' : State) : Prop :=
  node_stats s' = node_stats s /\ gene_stats s' = gene_stats s /\
  unif s' = unif s /\
  exists l, trace s' = l ++ trace s /\ Forall (fun o => bookless o = true) l.

(** The books of a station after one more visit is recorded. *)
Definition booked (abandoned : bool) (wait service : Q) (qlen : nat) (u : Q)
    (ns : NodeStats) : NodeStats :=
  {| waiting_times := waiting_times ns ++ [wait];
     service_times := service_times ns ++ [service];
     queue_lengths := queue_lengths ns ++ [qlen];
     utilization := utilization ns ++ [u];
     abandonment_count :=
       if abandoned then (abandonment_count ns + 1)%Z else abandonment_count ns |}.

(** What one resumption of a process does to the books. *)
Inductive booking (cfg : Config) (p : nat) (s s' : State) : Prop :=
| booking_none :
    calm s s' -> booking cfg p s s'
| booking_path pw d lq :
    build_path (transition_probabilities cfg) (unif s) = Ok (pw, d) ->
    unif s' = d ->
    node_stats s' = node_stats s ->
    gene_stats s' = classify pw (gene_stats s) ->
    trace s' = lq ++ ObsPath p pw :: trace s ->
    Forall (fun o => bookless o = true) lq ->
    booking cfg p s s'
| booking_abandon n rest a r prm u lq :
    gen (procs s p) = Customer_race n rest a r ->
    parameters cfg !! n = Some prm ->
    true_div (Z.of_nat (length (users (nodes s n)))) (servers prm) = Ok u ->
    unif s' = unif s ->
    (forall m, node_stats s' m =
       <[n := booked true (now s - a) 0 (length (put_queue (nodes s n))) u
                (node_stats s n)]> (node_stats s) m) ->
    gene_stats s' = gene_stats s ->
    trace s' = lq ++ ObsAbandon p n r (now s - a) :: trace s ->
    Forall (fun o => bookless o = true) lq ->
    booking cfg p s s'
| booking_served n rest wait service r prm u lq :
    gen (procs s p) = Customer_service n rest wait service r ->
    parameters cfg !! n = Some prm ->
    true_div (Z.of_nat (length (users (nodes s n)))) (servers prm) = Ok u ->
    unif s' = unif s ->
    (forall m, node_stats s' m =
       <[n := booked false wait service (length (put_queue (nodes s n))) u
                (node_stats s n)]> (node_stats s) m) ->
    gene_stats s' = gene_stats s ->
    trace s' = lq ++ ObsServed p n r wait service :: trace s ->
    Forall (fun o => bookless o = true) lq ->
    booking cfg p s s'.

(** Order of the heap: [key_le a b] when [b] does not come before [a]. *)
Definition key_le (a b : Entry) : Prop := key_ltb b a = false.

(** The heap is sorted and nothing in it lies in the past. *)
Definition clock_inv (s : State) : Prop :=
  StronglySorted key_le (queue s) /\
  Forall (fun x => now s <= e_time x) (queue s).

(** No station serves more customers than it has servers. *)
Definition room_inv (cfg : Config) (s : State) : Prop :=
  forall n,
    (Z.of_nat (length (users (nodes s n))) <= capacity (nodes s n))%Z /\
    capacity (nodes s n) = capacity (new_resource cfg n).

Definition kernel_inv (cfg : Config) (s : State) : Prop :=
  clock_inv s /\ room_inv cfg s.

(** Kernel operations that leave the clock and the processes alone. *)
Definition steady (cfg : Config) (s s' : State) : Prop :=
  now s' = now s /\ procs s' = procs s /\ (kernel_inv cfg s -> kernel_inv cfg s').

(** The waits and service times held by suspended customers. *)
Definition harmless (g : Gen) (t : Q) : Prop :=
  match g with
  | Customer_race _ _ a _ => a <= t
  | Customer_service _ _ w sv _ => 0 <= w /\ 0 <= sv
  | _ => True
  end.

Definition procs_inv (s : State) : Prop :=
  forall p, harmless (gen (procs s p)) (now s).

Definition samples_ok (ns : NodeStats) : Prop :=
  Forall (fun w => 0 <= w) (waiting_times ns) /\
  Forall (fun sv => 0 <= sv) (service_times ns) /\
  Forall (fun u => 0 <= u /\ u <= 1) (utilization ns).

Definition servers_ok (cfg : Config) : Prop :=
  forall n prm, parameters cfg !! n = Some prm -> (0 < servers prm)%Z.

Definition safe (cfg : Config) (s : State) : Prop :=
  kernel_inv cfg s /\ procs_inv s.

Definition bounds_inv (cfg : Config) (s : State) : Prop :=
  safe cfg s /\ forall n, samples_ok (node_stats s n).

(** ** Sample runs *)

Definition succeeded {A} (r : result A) : bool :=
  match r with Ok _ => true | _ => false end.

Definition final_state (r : result State) : State :=
  match r with Ok s => s | _ => empty_state reference_config [] [] end.

(** The reference stations and routing table with eleven customers: the
    first ten arrive 0.01 apart and each holds a CRS server for 2 minutes,
    the eleventh finds no free server and leaves after half a minute; every
    customer is routed from CRS to CSD and then resolved. *)
Definition eleven_customers : Config :=
  {| TOTAL_CUSTOMERS := 11;
     parameters := reference_parameters;
     transition_probabilities := reference_transitions;
     arrival_rate := 10 |}.

Definition eleven_expo : list Q := concat (replicate 10 [1 # 10; 4]) ++ replicate 12 1.
Definition eleven_unif : list Q := replicate 22 (95 # 100).

Definition eleven_run : result State :=
  simulate eleven_customers 1000 eleven_expo eleven_unif.

(** One server and an entry station that resolves every call at once. *)
Definition one_desk (customers : nat) : Config :=
  {| TOTAL_CUSTOMERS := customers;
     parameters := {[ CRS := {| mu := 1 # 2; servers := 1 |} ]};
     transition_probabilities := {[ CRS := [(Completed_Support, 1)] ]};
     arrival_rate := 10 |}.

(** Two customers at one desk: the first is served from 0 to 0.6, the
    second arrives at 0.1, so that its patience ends at the very instant the
    desk is released. *)
Definition tie_lost_run : result State :=
  simulate (one_desk 2) 100 [1; 12 # 10; 1] [1 # 2; 1 # 2].

(** Three customers at one desk: as before, and a third customer arrives at
    0.6 as well; its request makes the desk pass to the second customer
    before the second customer's timeout is processed. *)
Definition tie_won_run : result State :=
  simulate (one_desk 3) 100 [1; 12 # 10; 5; 1; 1] [1 # 2; 1 # 2; 1 # 2].

Definition many_stations (pw : list node) : bool := (2 <? length pw)%nat.

(** The uniform variates are drawn from the half-open unit interval. *)
Definition unit_draws (draws : list Q) : Prop :=
  Forall (fun u => 0 <= u /\ u < 1) draws.

(** The entry station routes to the terminal outcome with probability 1. *)
Definition entry_resolves (cfg : Config) : Prop :=
  exists choices p,
    transition_probabilities cfg !! CRS = Some choices /\
    (Completed_Support, p) ∈ choices /\ p == 1.

(** ** Every suspended process is woken again *)

(** The event being processed, with the callbacks it has still to run. *)
Definition Cursor := option (nat * list Callback).

(** The callbacks an event will still run: those of the event being
    processed have left the event object. *)
Definition pending_callbacks (cur : Cursor) (s : State) (e : nat)
  : option (list Callback) :=
  match cur with
  | Some (e0, l) => if decide (e = e0) then Some l else callbacks (events s e)
  | None => callbacks (events s e)
  end.

Definition queued (s : State) (e : nat) : Prop := e ∈ map e_ev (queue s).

(** In the heap, or being processed. *)
Definition due (cur : Cursor) (s : State) (e : nat) : Prop :=
  queued s e \/ exists l, cur = Some (e, l).

Definition has_callback (cur : Cursor) (s : State) (e : nat) (cb : Callback) : Prop :=
  exists l, pending_callbacks cur s e = Some l /\ cb ∈ l.

(** An event that will be processed: it is due, or it is a condition that an
    event which is due will trigger, or it is a process that is still
    running. *)
Definition live (cur : Cursor) (s : State) (e : nat) : Prop :=
  due cur s e \/
  (triggered (events s e) = false /\
   ((exists t, due cur s t /\ has_callback cur s t (Check e)) \/
    target (procs s e) <> None)).

Definition idle : Proc := {| gen := Finished; target := None |}.

(** What a registered callback stands for: a process waits for the event, a
    condition builds its own value, a condition is checked when the event
    is processed. *)
Definition callback_ok (s : State) (e : nat) (cb : Callback) : Prop :=
  match cb with
  | Resume p => target (procs s p) = Some e
  | BuildValue c => c = e
  | Check c => kind (events s c) <> KProcess /\ (c < next_event s)%nat
  | TriggerGet _ | TriggerPut _ => True
  end.

Record wake_inv (cur : Cursor) (s : State) : Prop := {
  wi_cursor : forall e l, cur = Some (e, l) ->
    callbacks (events s e) = None /\ triggered (events s e) = true;
  wi_queue : forall e, queued s e -> triggered (events s e) = true;
  wi_callbacks : forall e l, pending_callbacks cur s e = Some l ->
    NoDup l /\ forall cb, cb ∈ l -> callback_ok s e cb;
  wi_procs : forall p,
    match target (procs s p) with
    | None => gen (procs s p) = Finished
    | Some e =>
        (p < e)%nat /\ kind (events s p) = KProcess /\
        triggered (events s p) = false /\
        has_callback cur s e (Resume p) /\ live cur s e
    end;
  wi_fresh : forall e, (next_event s <= e)%nat ->
    events s e = blank_event /\ procs s e = idle;
  wi_nodes : forall n r,
    r ∈ put_queue (nodes s n) ++ get_queue (nodes s n) ->
    kind (events s r) <> KProcess /\ (r < next_event s)%nat
}.

(** ** What the generators do, seen from outside *)

(** The history without the grants noted by the kernel. *)
Definition story_of (tr : list Obs) : list Obs :=
  List.filter (fun o => negb (is_grant o)) tr.

(** The visits begun at station [n], newest first: the process of the
    customer and the request it made. *)
Definition visits_at (n : node) (tr : list Obs) : list (nat * nat) :=
  flat_map (fun o =>
              match o with
              | ObsVisit p n' r _ => if decide (n' = n) then [(p, r)] else []
              | _ => []
              end) tr.

(** The outcomes recorded at station [n] for the visit that made request [r]. *)
Definition outcomes_of_request (n : node) (r : nat) (tr : list Obs)
    : list (nat * bool * Q * Q) :=
  List.filter (fun o => Nat.eqb (outcome_request o) r) (outcomes_at n tr).

(** The station and the request of the visit a customer is in the middle of. *)
Definition visiting (g : Gen) : option (node * nat) :=
  match g with
  | Customer_race n _ _ r => Some (n, r)
  | Customer_service n _ _ _ r => Some (n, r)
  | _ => None
  end.

(** What the invariants about customers look at: the history, the point
    every generator has reached, and the next unused event number. *)
Record View := { story : list Obs; gens : nat -> Gen; fresh : nat }.

Definition view (s : State) : View :=
  {| story := story_of (trace s); gens := fun p => gen (procs s p);
     fresh := next_event s |}.

(** The kernel at work: no generator moves. *)
Definition idles (v v' : View) : Prop :=
  story v' = story v /\ (forall q, gens v' q = gens v q) /\ (fresh v <= fresh v')%nat.

(** One move of the generator of process [p]. *)
Inductive moves (cfg : Config) (p : nat) (v v' : View) : Prop :=
| moves_spawn i :
    gens v p = Arrivals i -> (i < TOTAL_CUSTOMERS cfg)%nat ->
    story v' = ObsSpawn i :: story v ->
    (forall q, gens v' q
               = <[p := Arrivals (S i)]> (<[fresh v := Pathway_start i]> (gens v)) q) ->
    (fresh v < fresh v')%nat ->
    moves cfg p v v'
| moves_arrivals_end i :
    gens v p = Arrivals i -> (TOTAL_CUSTOMERS cfg <= i)%nat ->
    story v' = story v ->
    (forall q, gens v' q = <[p := Finished]> (gens v) q) ->
    (fresh v <= fresh v')%nat ->
    moves cfg p v v'
| moves_path cid pw :
    gens v p = Pathway_start cid ->
    story v' = ObsPath p pw :: story v ->
    (forall q, gens v' q
               = <[p := Pathway_wait]> (<[fresh v := Customer_loop pw]> (gens v)) q) ->
    (fresh v < fresh v')%nat ->
    moves cfg p v v'
| moves_path_end :
    gens v p = Pathway_wait ->
    story v' = story v ->
    (forall q, gens v' q = <[p := Finished]> (gens v) q) ->
    (fresh v <= fresh v')%nat ->
    moves cfg p v v'
| moves_loop_end :
    gens v p = Customer_loop [] ->
    story v' = story v ->
    (forall q, gens v' q = <[p := Finished]> (gens v) q) ->
    (fresh v <= fresh v')%nat ->
    moves cfg p v v'
| moves_visit n rest t :
    gens v p = Customer_loop (n :: rest) ->
    story v' = ObsVisit p n (fresh v) t :: story v ->
    (forall q, gens v' q = <[p := Customer_race n rest t (fresh v)]> (gens v) q) ->
    (fresh v < fresh v')%nat ->
    moves cfg p v v'
| moves_served n rest a r w sv :
    gens v p = Customer_race n rest a r ->
    story v' = story v ->
    (forall q, gens v' q = <[p := Customer_service n rest w sv r]> (gens v) q) ->
    (fresh v <= fresh v')%nat ->
    moves cfg p v v'
| moves_abandon n rest a r w :
    gens v p = Customer_race n rest a r ->
    story v' = ObsAbandon p n r w :: story v ->
    (forall q, gens v' q = <[p := Finished]> (gens v) q) ->
    (fresh v <= fresh v')%nat ->
    moves cfg p v v'
| moves_leave n rest w sv r :
    gens v p = Customer_service n rest w sv r ->
    story v' = ObsServed p n r w sv :: story v ->
    (forall q, gens v' q = <[p := Customer_loop rest]> (gens v) q) ->
    (fresh v <= fresh v')%nat ->
    moves cfg p v v'.

(** Process 0 is the arrival generator and the only one; it has created
    the customers [0 .. i-1] when it is about to run iteration [i]. *)
Definition arrivals_inv (cfg : Config) (v : View) : Prop :=
  (0 < fresh v)%nat /\
  (forall q i, gens v q = Arrivals i -> q = 0%nat) /\
  match gens v 0%nat with
  | Arrivals i =>
      spawns_of (story v) = rev (seq 0 i) /\ (i <= TOTAL_CUSTOMERS cfg)%nat
  | Finished => spawns_of (story v) = rev (seq 0 (TOTAL_CUSTOMERS cfg))
  | _ => False
  end.

(** Every visit is either still going on, with no outcome yet, or over,
    with exactly one outcome. *)
Record visit_inv (v : View) : Prop := {
  vi_fresh : forall n p r, (p, r) ∈ visits_at n (story v) -> (r < fresh v)%nat;
  vi_unique : forall n n' p p' r,
      (p, r) ∈ visits_at n (story v) -> (p', r) ∈ visits_at n' (story v) ->
      p = p' /\ n = n';
  vi_visiting : forall p n r,
      visiting (gens v p) = Some (n, r) ->
      (p, r) ∈ visits_at n (story v) /\ outcomes_of_request n r (story v) = [];
  vi_outcome : forall n p r,
      (p, r) ∈ visits_at n (story v) ->
      visiting (gens v p) = Some (n, r)
      \/ length (outcomes_of_request n r (story v)) = 1%nat;
  vi_visited : forall n o,
      o ∈ outcomes_at n (story v) -> exists p, (p, outcome_request o) ∈ visits_at n (story v);
  vi_unborn : forall q, (fresh v <= q)%nat -> gens v q = Finished
}.

(** ** What becomes of a run later on *)

(** The states [env.run()] passes through after state [s]. *)
Inductive steps (cfg : Config) (s : State) : State -> Prop :=
| steps_refl : steps cfg s s
| steps_step s1 s2 : steps cfg s s1 -> step cfg s1 = Ok s2 -> steps cfg s s2.

Inductive evolves (cfg : Config) (v : View) : View -> Prop :=
| evolves_refl : evolves cfg v v
| evolves_idles v2 v3 : evolves cfg v v2 -> idles v2 v3 -> evolves cfg v v3
| evolves_moves p v2 v3 : evolves cfg v v2 -> moves cfg p v2 v3 -> evolves cfg v v3.

(** The process whose generator made an observation. *)
Definition actor (o : Obs) : option nat :=
  match o with
  | ObsSpawn _ | ObsGrant _ _ => None
  | ObsPath p _ | ObsVisit p _ _ _ | ObsAbandon p _ _ _ | ObsServed p _ _ _ _ => Some p
  end.

(** What process [p] has on record. *)
Definition records_of (p : nat) (tr : list Obs) : list Obs :=
  List.filter (fun o => bool_decide (actor o = Some p)) tr.

(** ** The race between a request and the patience of the customer *)

(** The events below number [k] keep their kind, and keep their callbacks
    unless a condition takes its check back. *)
Definition keeps (k : nat) (s s' : State) : Prop :=
  forall e, (e < k)%nat ->
    kind (events s' e) = kind (events s e) /\
    forall l, callbacks (events s e) = Some l -> (forall c, Check c ∉ l) ->
              callbacks (events s' e) = Some l.

(** A customer in a race waits for a condition on its request and a
    timeout; the condition builds its value, then resumes the customer. *)
Definition race_inv (cur : Cursor) (s : State) : Prop :=
  forall p n rest a r,
    gen (procs s p) = Customer_race n rest a r ->
    exists c t,
      target (procs s p) = Some c /\ kind (events s c) = KCondition [r; t] /\
      (r < c)%nat /\ (t < c)%nat /\ (c < next_event s)%nat /\
      (pending_callbacks cur s c = Some [BuildValue c; Resume p]
       \/ cur = Some (c, [Resume p])).

(** [k] turns of the loop of [env.run()]. *)
Fixpoint advance (cfg : Config) (k : nat) (s : State) : result State :=
  match k with
  | O => Ok s
  | S k' => let* s' := step cfg s in advance cfg k' s'
  end.

(** The script up to the moment [env.run()] has processed [k] events. *)
Definition simulate_events (cfg : Config) (k : nat) (exps unifs : list Q) : result State :=
  let* s := setup cfg exps unifs in advance cfg k s.

(** A customer in a race has its visit on record, with the time it arrived. *)
Definition arrival_inv (v : View) : Prop :=
  forall p n rest a r, gens v p = Customer_race n rest a r -> ObsVisit p n r a ∈ story v.

(** The run [tie_lost_run] at the moment the condition of the second
    customer is about to be processed: its request has been granted at this
    very instant, and is not processed yet. *)
Definition tie_lost_race : result State :=
  simulate_events (one_desk 2) 15 [1; 12 # 10; 1] [1 # 2; 1 # 2].

(** The run [tie_won_run] at the moment the condition of the second
    customer is about to be processed: its request has been granted and
    processed at this very instant. *)
Definition tie_won_race : result State :=
  simulate_events (one_desk 3) 17 [1; 12 # 10; 5; 1; 1] [1 # 2; 1 # 2; 1 # 2].

(** ** The reports printed after the run *)

(** Python's [sum]: a fold from the left, starting at 0. *)
Definition sum_floats (l : list Q) : Q := foldl Qplus 0 l.
Definition sum_ints (l : list nat) : nat := foldl Nat.add 0%nat l.

(** The dictionary [GeneStats.compute] returns. *)
Record Routing := {
  first_call_resoluton : Q;
  transfer_rates : Q;
  routing_efficiency : Q
}.

(** [GeneStats.compute]: both divisions are by [TOTAL_CUSTOMERS]. *)
Definition compute (total_customers : nat) (g : GeneStats) : result Routing :=
  let* tr := true_div (100 * transfer_count g) (Z.of_nat total_customers) in
  let* fcr := true_div (100 * first_call_resolution_count g) (Z.of_nat total_customers) in
  Ok {| first_call_resoluton := fcr; transfer_rates := tr; routing_efficiency := 100 - tr |}.

(** The stations of [node_stats]: one entry for every key of [parameters]. *)
Definition stations (cfg : Config) : list node := map fst (map_to_list (parameters cfg)).

(** What [evaluate_workload] prints, before formatting. *)
Record Workload := {
  total_customers_processed : nat;
  total_time_spent : Q;
  routing : Routing
}.

Definition evaluate_workload (cfg : Config) (s : State) : result Workload :=
  let values := map (node_stats s) (stations cfg) in
  let processed_total := sum_ints (map (fun st => length (waiting_times st)) values) in
  let time_total :=
    sum_floats (map (fun st => sum_floats (service_times st ++ waiting_times st)) values) in
  let* r := compute (TOTAL_CUSTOMERS cfg) (gene_stats s) in
  Ok {| total_customers_processed := processed_total;
        total_time_spent := time_total;
        routing := r |}.

(** The loop of [print_performance_metrics]: the metrics of every station. *)
Fixpoint metrics_of (s : State) (ns : list node) : result (list (node * Metrics)) :=
  match ns with
  | [] => Ok []
  | n :: ns' =>
      let* m := compute_metrics (node_stats s n) in
      let* ms := metrics_of s ns' in
      Ok ((n, m) :: ms)
  end.

Definition print_performance_metrics (cfg : Config) (s : State)
  : result (list (node * Metrics)) :=
  metrics_of s (stations cfg).

(** ** Routes through the transition table *)

(** Station [a] can route a call to [b]: [b] is listed for [a] with a
    positive probability. *)
Definition routed (tp : gmap node (list (node * Q))) (a b : node) : Prop :=
  exists choices p, tp !! a = Some choices /\ (b, p) ∈ choices /\ 0 < p.

(** The stations [l] visited after [a], each routed to from the one
    before, and the last one routing to the terminal outcome. *)
Fixpoint walk (tp : gmap node (list (node * Q))) (a : node) (l : list node) : Prop :=
  match l with
  | [] => routed tp a Completed_Support
  | b :: l' => b <> Completed_Support /\ routed tp a b /\ walk tp b l'
  end.

(** A row of the table that [customer_pathway] can use: it is not empty,
    it is a probability distribution, and every station it routes to with
    a positive probability has a row of its own. *)
Definition row_closed (tp : gmap node (list (node * Q))) (choices : list (node * Q)) : bool :=
  match choices with [] => false | _ :: _ => true end
  && valid_probabilities choices
  && forallb (fun cp => Qle_bool (snd cp) 0
                        || bool_decide (fst cp = Completed_Support)
                        || bool_decide (is_Some (tp !! fst cp))) choices.

(** The entry station has a row and every row can be used. *)
Definition table_closed (tp : gmap node (list (node * Q))) : bool :=
  bool_decide (is_Some (tp !! CRS))
  && forallb (fun nc => row_closed tp (snd nc)) (map_to_list tp).

(** ** The report on the workload *)

(** The visits on record, served or abandoned, at whatever station. *)
Definition recorded_visits (tr : list Obs) : nat :=
  length (List.filter (fun o => match o with
                                | ObsAbandon _ _ _ _ | ObsServed _ _ _ _ _ => true
                                | _ => false
                                end) tr).

(** The station of an outcome on record. *)
Definition station_of (o : Obs) : option node :=
  match o with
  | ObsAbandon _ n _ _ | ObsServed _ n _ _ _ => Some n
  | _ => None
  end.

(** Every outcome on record is at a station of [parameters]. *)
Definition stationed (cfg : Config) (s : State) : Prop :=
  forall o n, o ∈ trace s -> station_of o = Some n -> is_Some (parameters cfg !! n).

(** What [evaluate_workload] reports after the run of eleven customers. *)
Definition eleven_workload : Workload :=
  match evaluate_workload eleven_customers (final_state eleven_run) with
  | Ok w => w
  | _ => {| total_customers_processed := 0; total_time_spent := 0;
            routing := {| first_call_resoluton := 0; transfer_rates := 0;
                          routing_efficiency := 0 |} |}
  end.

(** The reference stations and routing table, with no customer at all. *)
Definition no_customers : Config :=
  {| TOTAL_CUSTOMERS := 0;
     parameters := reference_parameters;
     transition_probabilities := reference_transitions;
     arrival_rate := 10 |}.

(** ** Customers and their paths *)

(** A [customer_pathway] generator that has been created and has not run. *)
Definition is_start (g : Gen) : bool :=
  match g with Pathway_start _ => true | _ => false end.

(** How many of the numbers below [k] satisfy [f]. *)
Fixpoint count_upto (f : nat -> bool) (k : nat) : nat :=
  match k with
  | O => O
  | S k' => (count_upto f k' + if f k' then 1 else 0)%nat
  end.

(** The customers that have been created and have no path yet. *)
Definition pathless (v : View) : nat :=
  count_upto (fun q => is_start (gens v q)) (fresh v).

(** Every customer created has a path, or is about to build one. *)
Definition paths_inv (v : View) : Prop :=
  (forall q, (fresh v <= q)%nat -> gens v q = Finished) /\
  (length (paths_of (story v)) + pathless v)%nat = length (spawns_of (story v)).

(** What [evaluate_workload] reports after the run at one desk. *)
Definition one_desk_workload : Workload :=
  match evaluate_workload (one_desk 2) (final_state tie_lost_run) with
  | Ok w => w
  | _ => eleven_workload
  end.

(** ** Deadlines *)

(** What the code between two yields does to the heap and to the checks of
    conditions: the clock stands still; an entry it puts on the heap is due
    at once, or belongs to an event numbered [k] or more and is due within
    [d]; a check is registered only for a condition numbered [k] or more,
    on an event numbered [k] or more. *)
Definition tidy (k : nat) (d : Q) (s s' : State) : Prop :=
  now s' = now s /\
  (forall x, x ∈ queue s' ->
     x ∈ queue s \/ e_time x == now s \/ ((k <= e_ev x)%nat /\ e_time x <= now s + d)) /\
  (forall e l' c, callbacks (events s' e) = Some l' -> Check c ∈ l' ->
     (exists l, callbacks (events s e) = Some l /\ Check c ∈ l)
     \/ ((k <= e)%nat /\ (k <= c)%nat)).

(** While a customer waits for [request | timeout], its patience has not
    run out, and whatever can wake it up is due before it does: the entries
    of the heap for its condition, and for the events that check the
    condition. *)
Definition patience_inv (cur : Cursor) (s : State) : Prop :=
  forall p n rest a r c,
    gen (procs s p) = Customer_race n rest a r -> target (procs s p) = Some c ->
    now s <= a + PATIENCE /\
    forall x, x ∈ queue s ->
      e_ev x = c \/ has_callback cur s (e_ev x) (Check c) -> e_time x <= a + PATIENCE.

(** No wait on record, and no wait of a customer in service, exceeds the
    patience.  This is a fact of the exact arithmetic of this model only:
    the script computes the deadline [arrival_time + 0.5] and the wait
    [env.now - arrival_time] in doubles, and the rounded wait of a customer
    that gives up can come out one unit in the last place above 0.5. *)
Definition waits_inv (s : State) : Prop :=
  (forall n, Forall (fun w => w <= PATIENCE) (waiting_times (node_stats s n))) /\
  forall p n rest w sv r, gen (procs s p) = Customer_service n rest w sv r -> w <= PATIENCE.

(** ** The stations a customer visits *)

(** The stations process [p] has begun a visit at, oldest first. *)
Definition stations_visited (p : nat) (tr : list Obs) : list node :=
  rev (flat_map (fun o => match o with
                          | ObsVisit q n _ _ => if decide (q = p) then [n] else []
                          | _ => []
                          end) tr).

(** Process [p] has abandoned a visit. *)
Definition abandoned_by (p : nat) (tr : list Obs) : bool :=
  existsb (fun o => match o with ObsAbandon q _ _ _ => Nat.eqb q p | _ => false end) tr.

(** The stations a customer has still to go to after the one it is at. *)
Definition remaining (g : Gen) : option (list node) :=
  match g with
  | Customer_loop l => Some l
  | Customer_race _ rest _ _ => Some rest
  | Customer_service _ rest _ _ _ => Some rest
  | _ => None
  end.

(** Process [p], whose generator is at [g], has kept to a path: a customer
    on its way has visited the stations of a path up to those it has still
    to go to; a process that has ended has visited a whole path, or has
    abandoned a visit on it, or has visited nothing. *)
Definition on_route (st : list Obs) (p : nat) (g : Gen) : Prop :=
  match remaining g with
  | Some l => exists pw, pw ∈ paths_of st /\ stations_visited p st ++ l = pw
  | None =>
      stations_visited p st = []
      \/ exists pw, pw ∈ paths_of st /\
           (stations_visited p st = pw
            \/ (stations_visited p st `prefix_of` pw /\ abandoned_by p st = true))
  end.

Definition route_inv (v : View) : Prop :=
  (forall q, (fresh v <= q)%nat -> gens v q = Finished) /\
  (forall q, (fresh v <= q)%nat -> stations_visited q (story v) = []) /\
  forall p, on_route (story v) p (gens v p).

(** ** Servers and the customers that hold them *)

Definition is_request (k : Kind) : bool :=
  match k with KRequest _ => true | _ => false end.

(** Code that leaves the stations alone, and the requests as they are. *)
Definition aside (s s' : State) : Prop :=
  (forall n, nodes s' n = nodes s n) /\
  (next_event s <= next_event s')%nat /\
  forall e, (e < next_event s)%nat ->
    kind (events s' e) = kind (events s e) /\
    (is_request (kind (events s e)) = true ->
     triggered (events s' e) = triggered (events s e)).

(** The checks code registers: a check that is new is a check of a
    condition that satisfies [C]. *)
Definition checks (C : nat -> Prop) (s s' : State) : Prop :=
  forall e l' c, callbacks (events s' e) = Some l' -> Check c ∈ l' ->
    (exists l, callbacks (events s e) = Some l /\ Check c ∈ l) \/ C c.

(** The request [r] waits for a server of station [n], or holds one. *)
Definition held (s : State) (n : node) (r : nat) : Prop :=
  r ∈ users (nodes s n) \/ r ∈ put_queue (nodes s n).

(** The books of the stations are in order: no release is pending; no
    request is listed twice; what is listed at a station is a request for
    this station; the requests that hold a server have been granted, those
    in the queue have not. *)
Record desk_inv (s : State) : Prop := {
  di_get : forall n, get_queue (nodes s n) = [];
  di_nodup : forall n, NoDup (users (nodes s n) ++ put_queue (nodes s n));
  di_kind : forall n r, held s n r ->
    kind (events s r) = KRequest n /\ (r < next_event s)%nat;
  di_users : forall n r, r ∈ users (nodes s n) -> triggered (events s r) = true;
  di_queue : forall n r, r ∈ put_queue (nodes s n) -> triggered (events s r) = false
}.

(** Every request that waits for a server or holds one belongs to a
    customer that is visiting the station. *)
Definition owned (s : State) : Prop :=
  forall n r, held s n r -> exists p, visiting (gen (procs s p)) = Some (n, r).

(** No check is registered for a request. *)
Definition checks_inv (cur : Cursor) (s : State) : Prop :=
  forall e l c, pending_callbacks cur s e = Some l -> Check c ∈ l ->
    is_request (kind (events s c)) = false.

(** ** The lifecycles started by the arrival generator *)

(** The processes that have run the body of [customer_pathway] up to its
    [yield], newest first. *)
Definition pathway_procs (tr : list Obs) : list nat :=
  flat_map (fun o => match o with ObsPath p _ => [p] | _ => [] end) tr.

(** Process [q] is a customer lifecycle: its generator is a
    [customer_pathway] that [env.process] has been given and that has not
    run yet, or it has run the body of [customer_pathway]. *)
Definition lifecycle (s : State) (q : nat) : bool :=
  is_start (gen (procs s q)) || bool_decide (q ∈ pathway_procs (trace s)).

(** How many of the events created so far are customer lifecycles. *)
Definition lifecycles (s : State) : nat := count_upto (lifecycle s) (next_event s).

(** A process runs the body of [customer_pathway] at most once, and is no
    longer at its start afterwards. *)
Definition started_inv (v : View) : Prop :=
  NoDup (pathway_procs (story v)) /\
  forall q, q ∈ pathway_procs (story v) ->
            (q < fresh v)%nat /\ is_start (gens v q) = false.

(** * Properties *)

(** ** The error monad *)

Lemma bind_Ok {A B} (m : result A) (k : A -> result B) (b : B) :
  bind m k = Ok b -> exists a, m = Ok a /\ k a = Ok b.
Proof. destruct m; simpl; intros H; try discriminate; eauto. Qed.

Lemma Ok_inj {A} (a b : A) : Ok a = Ok b -> a = b.
Proof. now intros [=]. Qed.

Ltac inv_bind H :=
  let a := fresh "a" in
  let Ha := fresh "Ha" in
  apply bind_Ok in H; destruct H as (a & Ha & H).

(** ** Statistics collectors *)

Lemma compute_metrics_total (s : NodeStats) : exists m, compute_metrics s = Ok m.
Proof.
  unfold compute_metrics, mean_or_zero, mean, true_div.
  destruct (waiting_times s), (service_times s), (queue_lengths s), (utilization s);
    simpl; destruct (Z.eqb _ 0); simpl; eauto.
Qed.

(** C8: a station that never recorded a sample or an abandonment has
    well-defined metrics: [compute_metrics] does not raise and every
    figure is 0. *)
Theorem compute_metrics_empty :
  compute_metrics NodeStats_init =
  Ok {| average_waiting_time := 0; average_service_time := 0;
        average_queue_length := 0; average_utilization := 0;
        abandonment_rate := 0 |}.
Proof. reflexivity. Qed.

(** ** Classification of a path *)

Lemma classify_two (pw : list node) (g : GeneStats) :
  length pw = 2%nat ->
  classify pw g =
  {| first_call_resolution_count := first_call_resolution_count g + 1;
     transfer_count := transfer_count g |}.
Proof. intros H. unfold classify. now rewrite H. Qed.

Lemma classify_other (pw : list node) (g : GeneStats) :
  length pw <> 2%nat ->
  classify pw g =
  {| first_call_resolution_count := first_call_resolution_count g;
     transfer_count := transfer_count g + (Z.of_nat (length pw) - 2) |}.
Proof.
  intros H. unfold classify.
  destruct (Nat.eqb_spec (length pw) 2); [contradiction | reflexivity].
Qed.

Lemma classify_all_fcr (pws : list (list node)) :
  first_call_resolution_count (foldr classify GeneStats_init pws)
  = Z.of_nat (length (List.filter two_stations pws)).
Proof.
  induction pws as [|pw pws IH]; [reflexivity|].
  cbn [foldr List.filter]. unfold classify at 1, two_stations at 1.
  destruct (Nat.eqb (length pw) 2) eqn:E; cbn [first_call_resolution_count length].
  - rewrite IH. lia.
  - exact IH.
Qed.

Lemma classify_all_transfers (pws : list (list node)) :
  transfer_count (foldr classify GeneStats_init pws) = transfers_of pws.
Proof.
  unfold transfers_of.
  induction pws as [|pw pws IH]; [reflexivity|].
  cbn [foldr List.filter]. unfold classify at 1, two_stations at 1.
  destruct (Nat.eqb (length pw) 2) eqn:E; cbn [transfer_count negb map Zsum foldr].
  - exact IH.
  - rewrite IH. unfold Zsum. lia.
Qed.

Lemma filter_two_split (pws : list (list node)) :
  (length (List.filter two_stations pws)
   + length (List.filter (fun pw => negb (two_stations pw)) pws))%nat = length pws.
Proof.
  induction pws as [|pw pws IH]; [reflexivity|].
  cbn [List.filter]. destruct (two_stations pw); cbn [negb length]; lia.
Qed.

(** ** Induction over a run, one callback at a time *)

Section Runs.

Variable cfg : Config.
Variables exps unifs : list Q.

(** An invariant may mention the event being processed and the callbacks
    it still has to run; between two events there is none. *)
Lemma reachable_callbacks_ind (P : option (nat * list Callback) -> State -> Prop) :
  (forall s, setup cfg exps unifs = Ok s -> P None s) ->
  (forall s x q, P None s -> queue s = x :: q ->
     P (Some (e_ev x, default [] (callbacks (events s (e_ev x))))) (pop x q s)) ->
  (forall e cb l s s', P (Some (e, cb :: l)) s -> run_callback cfg cb e s = Ok s' ->
     P (Some (e, l)) s') ->
  (forall e s, P (Some (e, [])) s -> P None s) ->
  forall s, reachable cfg exps unifs s -> P None s.
Proof.
  intros Hinit Hpop Hcb Hend s Hs.
  induction Hs as [s Hs | s s' Hs IH Hstep]; [now apply Hinit|].
  unfold step in Hstep. destruct (queue s) as [|x q] eqn:Hq.
  { now inversion Hstep; subst. }
  specialize (Hpop s x q IH Hq).
  revert Hpop Hstep. generalize (pop x q s) as s1.
  generalize (default [] (callbacks (events s (e_ev x)))) as cbs.
  induction cbs as [|cb cbs IHc]; intros s1 H1 Hrun; cbn in Hrun.
  - inversion Hrun; subst. now apply Hend with (e := e_ev x).
  - inv_bind Hrun. eapply IHc; [|exact Hrun]. eapply Hcb; eauto.
Qed.

(** A plain invariant: kept by the clock tick and by every callback. *)
Lemma reachable_ind_simple (P : State -> Prop) :
  (forall s, setup cfg exps unifs = Ok s -> P s) ->
  (forall s x q, P s -> queue s = x :: q -> P (pop x q s)) ->
  (forall e cb s s', P s -> run_callback cfg cb e s = Ok s' -> P s') ->
  forall s, reachable cfg exps unifs s -> P s.
Proof.
  intros Hinit Hpop Hcb s Hs.
  apply (reachable_callbacks_ind (fun _ => P)); eauto.
Qed.

Lemma run_reachable (fuel : nat) (s s' : State) :
  reachable cfg exps unifs s -> run cfg fuel s = Ok s' ->
  reachable cfg exps unifs s' /\ completed s'.
Proof.
  revert s. induction fuel as [|fuel IH]; intros s Hs Hrun; cbn in Hrun.
  - destruct (queue s) eqn:Hq; [|discriminate].
    inversion Hrun; subst. split; [exact Hs | exact Hq].
  - destruct (queue s) eqn:Hq.
    + inversion Hrun; subst. split; [exact Hs | exact Hq].
    + inv_bind Hrun. eapply IH; [|exact Hrun]. eapply reachable_step; eauto.
Qed.

Lemma simulate_reachable (fuel : nat) (s : State) :
  simulate cfg fuel exps unifs = Ok s ->
  reachable cfg exps unifs s /\ completed s.
Proof.
  unfold simulate. intros H. inv_bind H.
  eapply run_reachable; [|exact H]. now apply reachable_setup.
Qed.

End Runs.

(** ** Kernel operations leave the books alone *)

Ltac proj :=
  cbn [now eid queue events next_event procs nodes node_stats gene_stats expo unif
       trace set_now set_eid set_queue set_events set_next_event set_procs set_nodes
       set_node_stats set_gene_stats set_expo set_unif observe upd_event upd_node
       schedule new_event add_callback pop finish yield fst snd] in *.

(** Symbolic execution of a hypothesis [f s = Ok s']. *)
Ltac exec H :=
  cbn beta iota in H;
  lazymatch type of H with
  | Ok _ = Ok _ => simplify_eq
  | Raise _ = Ok _ => discriminate H
  | Starved = Ok _ => discriminate H
  | bind _ _ = Ok _ =>
      let Ha := fresh "Ha" in
      apply bind_Ok in H; destruct H as (? & Ha & H); exec Ha; exec H
  | (let '(_, _) := ?x in _) = Ok _ => destruct x eqn:?; exec H
  | (if ?c then _ else _) = Ok _ => destruct c eqn:?; exec H
  | (match ?o with Some _ => _ | None => _ end) = Ok _ => destruct o eqn:?; exec H
  | (match ?l with [] => _ | _ :: _ => _ end) = Ok _ => destruct l eqn:?; exec H
  | of_option _ ?o = Ok _ => destruct o eqn:?; cbn [of_option] in H; exec H
  | _ => idtac
  end.

Lemma quiet_refl (s : State) : quiet s s.
Proof. repeat split; exists []; split; [reflexivity | constructor]. Qed.

Lemma quiet_trans (s1 s2 s3 : State) : quiet s1 s2 -> quiet s2 s3 -> quiet s1 s3.
Proof.
  intros (N1 & G1 & U1 & l1 & T1 & F1) (N2 & G2 & U2 & l2 & T2 & F2).
  repeat split; try congruence.
  exists (l2 ++ l1). split; [rewrite T2, T1; now rewrite app_assoc|].
  apply Forall_app; auto.
Qed.

Ltac quiet_now :=
  solve [ repeat split; proj; try reflexivity;
          first [ exists (@nil Obs); split; [reflexivity | constructor]
                | eexists (cons _ nil); split; [reflexivity | repeat constructor] ] ].

Lemma quiet_schedule ev prio d s : quiet s (schedule ev prio d s).
Proof. quiet_now. Qed.

Lemma quiet_upd_event ev f s : quiet s (upd_event ev f s).
Proof. quiet_now. Qed.

Lemma quiet_upd_node n f s : quiet s (upd_node n f s).
Proof. quiet_now. Qed.

Lemma quiet_new_event k b s : quiet s (snd (new_event k b s)).
Proof. quiet_now. Qed.

Lemma quiet_succeed ev s s' : succeed ev s = Ok s' -> quiet s s'.
Proof. unfold succeed. intros H. exec H. quiet_now. Qed.

Lemma quiet_timeout d s t s' : timeout d s = Ok (t, s') -> quiet s s'.
Proof. unfold timeout, new_event. intros H. exec H. quiet_now. Qed.

Lemma quiet_process g s : quiet s (snd (process g s)).
Proof. quiet_now. Qed.

Lemma quiet_finish p s : quiet s (finish p s).
Proof. quiet_now. Qed.

Lemma quiet_yield p ev g s : quiet s (yield p ev g s).
Proof. quiet_now. Qed.

Lemma quiet_check c s s' : check c s = Ok s' -> quiet s s'.
Proof.
  unfold check. intros H. exec H; [apply quiet_refl | eapply quiet_succeed; eauto].
Qed.

Lemma quiet_remove_check_callbacks c s : quiet s (remove_check_callbacks c s).
Proof.
  unfold remove_check_callbacks. generalize (condition_events (events s c)) as l.
  intros l. revert s. induction l as [|ev l IH]; intros s; cbn [foldl].
  - apply quiet_refl.
  - eapply quiet_trans; [apply (quiet_upd_event ev (remove_check c) s) | apply IH].
Qed.

Lemma quiet_build_value c s : quiet s (build_value c s).
Proof.
  unfold build_value.
  eapply quiet_trans; [apply quiet_remove_check_callbacks | apply quiet_upd_event].
Qed.

Lemma quiet_do_put n r s s' : do_put n r s = Ok s' -> quiet s s'.
Proof.
  unfold do_put. intros H. exec H; [|apply quiet_refl].
  eapply quiet_trans; [|eapply quiet_succeed; eauto]. quiet_now.
Qed.

Lemma quiet_trigger_put n s s' : trigger_put n s = Ok s' -> quiet s s'.
Proof.
  unfold trigger_put. intros H. exec H; try apply quiet_refl.
  - eapply quiet_trans; [eapply quiet_do_put; eauto | apply quiet_upd_node].
  - eapply quiet_do_put; eauto.
Qed.

Lemma quiet_do_get n g s s' : do_get n g s = Ok s' -> quiet s s'.
Proof.
  unfold do_get. intros H.
  destruct (release_request (events s g)).
  - eapply quiet_trans; [|eapply quiet_succeed; eauto]. apply quiet_upd_node.
  - eapply quiet_succeed; eauto.
Qed.

Lemma quiet_trigger_get n s s' : trigger_get n s = Ok s' -> quiet s s'.
Proof.
  unfold trigger_get. intros H. exec H; try apply quiet_refl.
  - eapply quiet_trans; [eapply quiet_do_get; eauto | apply quiet_upd_node].
  - eapply quiet_do_get; eauto.
Qed.

Lemma quiet_request n s r s' : request n s = Ok (r, s') -> quiet s s'.
Proof.
  unfold request, new_event. intros H. exec H.
  eapply quiet_trans; [|eapply quiet_trigger_put; eauto]. quiet_now.
Qed.

Lemma quiet_release n r s s' : release n r s = Ok s' -> quiet s s'.
Proof.
  unfold release, new_event. intros H. cbn beta iota in H.
  eapply quiet_trans; [|eapply quiet_trigger_get; eauto]. quiet_now.
Qed.

Lemma quiet_exit_request n r s s' : exit_request n r s = Ok s' -> quiet s s'.
Proof.
  unfold exit_request. intros H. exec H.
  - eapply quiet_release; eauto.
  - eapply quiet_trans; [apply quiet_upd_node | eapply quiet_release; eauto].
Qed.

Lemma quiet_any_of evs s c s' : any_of evs s = Ok (c, s') -> quiet s s'.
Proof.
  unfold any_of, new_event. intros H. exec H.
  eapply quiet_trans; [|apply quiet_upd_event].
  match goal with
  | Ha : foldl _ (Ok ?s0) evs = Ok ?s1 |- _ =>
      assert (Hq : quiet s s0) by quiet_now;
      revert Hq Ha; generalize s0 as s2
  end.
  clear. induction evs as [|ev evs IH]; intros s2 Hq Ha; cbn [foldl] in Ha.
  - now inversion Ha; subst.
  - destruct (processed (events s2 ev)) eqn:Hp; cbn in Ha; rewrite Hp in Ha.
    + destruct (check (next_event s) s2) as [s3| |] eqn:Hc.
      * eapply IH; [|exact Ha]. eapply quiet_trans; [exact Hq|]. eapply quiet_check; eauto.
      * exfalso. clear -Ha. induction evs; cbn in Ha; [discriminate | auto].
      * exfalso. clear -Ha. induction evs; cbn in Ha; [discriminate | auto].
    + eapply IH; [|exact Ha]. eapply quiet_trans; [exact Hq|]. apply quiet_upd_event.
Qed.

(** ** The books follow the history *)

Lemma calm_refl (s : State) : calm s s.
Proof. repeat split; exists []; split; [reflexivity | constructor]. Qed.

Lemma calm_trans (s1 s2 s3 : State) : calm s1 s2 -> calm s2 s3 -> calm s1 s3.
Proof.
  intros (N1 & G1 & U1 & l1 & T1 & F1) (N2 & G2 & U2 & l2 & T2 & F2).
  repeat split; try congruence.
  exists (l2 ++ l1). split; [rewrite T2, T1; now rewrite app_assoc|].
  apply Forall_app; auto.
Qed.

Lemma quiet_calm (s s' : State) : quiet s s' -> calm s s'.
Proof.
  intros (N & G & U & l & T & F). repeat split; auto.
  exists l. split; [exact T|].
  eapply List.Forall_impl; [|exact F]. intros [] Ho; cbn in *; congruence.
Qed.

Lemma calm_observe (o : Obs) (s : State) : bookless o = true -> calm s (observe o s).
Proof.
  intros Ho. repeat split. exists [o]. split; [reflexivity|]. now repeat constructor.
Qed.

Lemma paths_of_app (l tr : list Obs) : paths_of (l ++ tr) = paths_of l ++ paths_of tr.
Proof. unfold paths_of. apply flat_map_app. Qed.

Lemma outcomes_at_app n (l tr : list Obs) :
  outcomes_at n (l ++ tr) = outcomes_at n l ++ outcomes_at n tr.
Proof. unfold outcomes_at. apply flat_map_app. Qed.

Lemma bookless_paths (l : list Obs) :
  Forall (fun o => bookless o = true) l -> paths_of l = [].
Proof.
  induction 1 as [|o l Ho _ IH]; [reflexivity|].
  unfold paths_of in *. cbn [flat_map]. rewrite IH.
  destruct o; cbn in *; congruence.
Qed.

Lemma bookless_outcomes n (l : list Obs) :
  Forall (fun o => bookless o = true) l -> outcomes_at n l = [].
Proof.
  induction 1 as [|o l Ho _ IH]; [reflexivity|].
  unfold outcomes_at in *. cbn [flat_map]. rewrite IH.
  destruct o; cbn in *; congruence.
Qed.

Lemma calm_paths (s s' : State) : calm s s' -> paths_of (trace s') = paths_of (trace s).
Proof.
  intros (_ & _ & _ & l & T & F). rewrite T, paths_of_app, bookless_paths; auto.
Qed.

Lemma calm_outcomes n (s s' : State) :
  calm s s' -> outcomes_at n (trace s') = outcomes_at n (trace s).
Proof.
  intros (_ & _ & _ & l & T & F). rewrite T, outcomes_at_app, bookless_outcomes; auto.
Qed.

Lemma outcomes_at_abandon n p r w tr :
  outcomes_at n (ObsAbandon p n r w :: tr) = (r, true, w, 0) :: outcomes_at n tr.
Proof. unfold outcomes_at. cbn [flat_map]. now rewrite decide_True. Qed.

Lemma outcomes_at_served n p r w sv tr :
  outcomes_at n (ObsServed p n r w sv :: tr) = (r, false, w, sv) :: outcomes_at n tr.
Proof. unfold outcomes_at. cbn [flat_map]. now rewrite decide_True. Qed.

Lemma outcomes_at_abandon_ne n n' p r w tr :
  n' <> n -> outcomes_at n (ObsAbandon p n' r w :: tr) = outcomes_at n tr.
Proof. intros. unfold outcomes_at. cbn [flat_map]. now rewrite decide_False. Qed.

Lemma outcomes_at_served_ne n n' p r w sv tr :
  n' <> n -> outcomes_at n (ObsServed p n' r w sv :: tr) = outcomes_at n tr.
Proof. intros. unfold outcomes_at. cbn [flat_map]. now rewrite decide_False. Qed.

Section Books.

Variable cfg : Config.

Lemma lookup_params_Some n prm :
  lookup_params cfg n = Ok prm -> parameters cfg !! n = Some prm.
Proof. unfold lookup_params. now destruct (parameters cfg !! n); cbn; intros [=->]. Qed.

Lemma calm_expovariate lambd s x s' : expovariate lambd s = Ok (x, s') -> calm s s'.
Proof.
  unfold expovariate. intros H. exec H.
  repeat split. exists []. split; [reflexivity | constructor].
Qed.

Lemma calm_customer_loop p pw s s' : customer_loop cfg p pw s = Ok s' -> calm s s'.
Proof.
  unfold customer_loop. intros H. destruct pw as [|n rest].
  - exec H. apply quiet_calm, quiet_finish.
  - exec H.
    match goal with
    | H1 : request _ _ = Ok _, H2 : timeout _ _ = Ok _, H3 : any_of _ _ = Ok _ |- _ =>
        apply quiet_request, quiet_calm in H1;
        apply quiet_timeout, quiet_calm in H2;
        apply quiet_any_of, quiet_calm in H3;
        eapply calm_trans; [exact H1|];
        eapply calm_trans; [eapply (calm_observe (ObsVisit _ _ _ _)); reflexivity|];
        eapply calm_trans; [exact H2|];
        eapply calm_trans; [exact H3|]
    end.
    apply quiet_calm, quiet_yield.
Qed.

(** Every resumption of a process either leaves the books alone, or books
    one path, or books one visit. *)
Lemma resume_booking p ev s s' : resume cfg p ev s = Ok s' -> booking cfg p s s'.
Proof.
  intros H. unfold resume in H.
  destruct (gen (procs s p)) as [i|cid| |pw|n rest a r|n rest w sv r|] eqn:Hg.
  - (* customer_arrivals *)
    apply booking_none.
    destruct (i <? TOTAL_CUSTOMERS cfg)%nat.
    + destruct (process (Pathway_start i) (observe (ObsSpawn i) s)) as [p' s1] eqn:Hp.
      exec H.
      eapply calm_trans; [apply (calm_observe (ObsSpawn i)); reflexivity|].
      eapply calm_trans;
        [apply quiet_calm; apply (quiet_process (Pathway_start i) (observe (ObsSpawn i) s))|].
      rewrite Hp. cbn [snd].
      match goal with
      | H1 : expovariate _ _ = Ok _, H2 : timeout _ _ = Ok _ |- _ =>
          apply calm_expovariate in H1; apply quiet_timeout, quiet_calm in H2;
          eapply calm_trans; [exact H1|]; eapply calm_trans; [exact H2|]
      end.
      apply quiet_calm, quiet_yield.
    + exec H. apply quiet_calm, quiet_finish.
  - (* customer_pathway starts *)
    exec H.
    match goal with
    | Hp : process ?g ?s0 = (?pc, ?s1) |- _ =>
        pose proof (quiet_process g s0) as Hq; rewrite Hp in Hq; cbn [snd] in Hq;
        apply quiet_calm in Hq;
        pose proof (quiet_calm _ _ (quiet_yield p pc Pathway_wait s1)) as Hy;
        pose proof (calm_trans _ _ _ Hq Hy) as (N & G & U & lq & T & F)
    end.
    eapply booking_path; eauto.
  - (* customer_pathway ends *)
    exec H. apply booking_none, quiet_calm, quiet_finish.
  - (* customer starts *)
    apply booking_none. eapply calm_customer_loop; eauto.
  - (* the race is decided *)
    destruct (decide (r ∈ value (events s ev))).
    + exec H. apply booking_none.
      match goal with
      | H1 : expovariate _ _ = Ok _, H2 : timeout _ _ = Ok _ |- _ =>
          apply calm_expovariate in H1; apply quiet_timeout, quiet_calm in H2;
          eapply calm_trans; [exact H1|]; eapply calm_trans; [exact H2|]
      end.
      apply quiet_calm, quiet_yield.
    + exec H. unfold record_stats in *.
      match goal with Hr : bind (lookup_params _ _) _ = Ok _ |- _ => exec Hr end.
      match goal with
      | Ha : add_stats _ _ _ _ _ _ = Ok _ |- _ => unfold add_stats in Ha; exec Ha
      end.
      match goal with
      | He : exit_request _ _ ?s0 = Ok ?s1 |- _ =>
          pose proof (quiet_calm _ _ (quiet_exit_request _ _ _ _ He)) as Hq;
          pose proof (quiet_calm _ _ (quiet_finish p s1)) as Hf;
          pose proof (calm_trans _ _ _ Hq Hf) as (N & G & U & lq & T & F)
      end.
      proj. rewrite fn_lookup_insert in *.
      eapply booking_abandon; eauto using lookup_params_Some.
      intros m. proj. rewrite N. unfold booked, customer_abandoned.
      destruct (decide (n = m)) as [->|Hne].
      * now rewrite !fn_lookup_insert.
      * now rewrite !fn_lookup_insert_ne by exact Hne.
  - (* service is over *)
    exec H. unfold record_stats in *.
    match goal with Hr : bind (lookup_params _ _) _ = Ok _ |- _ => exec Hr end.
    match goal with
    | Ha : add_stats _ _ _ _ _ _ = Ok _ |- _ => unfold add_stats in Ha; exec Ha
    end.
    match goal with
    | He : exit_request _ _ ?s0 = Ok ?s1, Hl : customer_loop _ _ _ ?s1 = Ok _ |- _ =>
        pose proof (quiet_calm _ _ (quiet_exit_request _ _ _ _ He)) as Hq;
        pose proof (calm_customer_loop _ _ _ _ Hl) as Hf;
        pose proof (calm_trans _ _ _ Hq Hf) as (N & G & U & lq & T & F)
    end.
    proj.
    eapply booking_served; eauto using lookup_params_Some.
    intros m. proj. now rewrite N.
  - discriminate.
Qed.

Lemma books_match_booked ns outs (b : bool) wait service qlen u r :
  books_match ns outs ->
  books_match (booked b wait service qlen u ns) ((r, b, wait, service) :: outs).
Proof.
  intros (W & S & Q' & U & A). unfold books_match, booked.
  cbn [waiting_times service_times queue_lengths utilization abandonment_count
       map rev List.filter outcome_wait outcome_service outcome_abandoned fst snd].
  rewrite ?length_app, W, S, Q', U, A.
  destruct b; cbn [length]; repeat split; try reflexivity; try lia.
Qed.

Lemma books_inv_calm (s s' : State) : calm s s' -> books_inv s -> books_inv s'.
Proof.
  intros Hc [Hg Hn]. pose proof Hc as (N & G & _).
  split.
  - rewrite G, (calm_paths _ _ Hc). exact Hg.
  - intros n. rewrite N, (calm_outcomes n _ _ Hc). apply Hn.
Qed.

Lemma books_inv_booking p s s' : booking cfg p s s' -> books_inv s -> books_inv s'.
Proof.
  intros Hb [Hg Hn].
  destruct Hb as [Hc | pw d lq Hbp U N G T F
                 | n rest a r prm u lq Hgen Hprm Hu U N G T F
                 | n rest w sv r prm u lq Hgen Hprm Hu U N G T F].
  - now apply (books_inv_calm s).
  - split.
    + rewrite G, T, paths_of_app, bookless_paths by exact F.
      cbn [app paths_of flat_map foldr]. now rewrite Hg.
    + intros m. rewrite N, T, outcomes_at_app, bookless_outcomes by exact F.
      apply Hn.
  - split.
    + rewrite G, T, paths_of_app, bookless_paths by exact F. exact Hg.
    + intros m. rewrite N, T, outcomes_at_app, bookless_outcomes by exact F.
      cbn [app]. destruct (decide (n = m)) as [->|Hne].
      * rewrite fn_lookup_insert, outcomes_at_abandon. now apply books_match_booked.
      * rewrite fn_lookup_insert_ne, outcomes_at_abandon_ne by exact Hne. apply Hn.
  - split.
    + rewrite G, T, paths_of_app, bookless_paths by exact F. exact Hg.
    + intros m. rewrite N, T, outcomes_at_app, bookless_outcomes by exact F.
      cbn [app]. destruct (decide (n = m)) as [->|Hne].
      * rewrite fn_lookup_insert, outcomes_at_served. now apply books_match_booked.
      * rewrite fn_lookup_insert_ne, outcomes_at_served_ne by exact Hne. apply Hn.
Qed.

End Books.

Lemma quiet_run_callback cfg cb ev s s' :
  (forall p, cb <> Resume p) -> run_callback cfg cb ev s = Ok s' -> quiet s s'.
Proof.
  intros Hcb H. destruct cb as [p|c|c|n|n]; cbn [run_callback] in H.
  - now destruct (Hcb p).
  - eapply quiet_check; eauto.
  - simplify_eq. apply quiet_build_value.
  - eapply quiet_trigger_get; eauto.
  - eapply quiet_trigger_put; eauto.
Qed.

Lemma quiet_pop x q s : quiet s (pop x q s).
Proof. quiet_now. Qed.

Lemma quiet_setup cfg exps unifs s :
  setup cfg exps unifs = Ok s -> quiet (empty_state cfg exps unifs) s.
Proof.
  unfold setup. intros H. destruct (capacities_ok cfg); [|discriminate].
  apply Ok_inj in H. rewrite <- H. apply quiet_process.
Qed.

Lemma books_inv_empty cfg exps unifs : books_inv (empty_state cfg exps unifs).
Proof. split; [reflexivity|]. intros n. repeat split. Qed.

Lemma books_inv_reachable cfg exps unifs s :
  reachable cfg exps unifs s -> books_inv s.
Proof.
  apply reachable_ind_simple.
  - intros s0 H. eapply books_inv_calm; [apply quiet_calm, quiet_setup; eauto|].
    apply books_inv_empty.
  - intros s0 x q H _. eapply books_inv_calm; [apply quiet_calm, quiet_pop | exact H].
  - intros e cb s0 s1 H Hcb. destruct cb as [p|c|c|n|n].
    + eapply books_inv_booking; [eapply resume_booking; eauto | exact H].
    + eapply books_inv_calm; [apply quiet_calm|exact H].
      eapply quiet_run_callback; [|exact Hcb]. discriminate.
    + eapply books_inv_calm; [apply quiet_calm|exact H].
      eapply quiet_run_callback; [|exact Hcb]. discriminate.
    + eapply books_inv_calm; [apply quiet_calm|exact H].
      eapply quiet_run_callback; [|exact Hcb]. discriminate.
    + eapply books_inv_calm; [apply quiet_calm|exact H].
      eapply quiet_run_callback; [|exact Hcb]. discriminate.
Qed.

(** ** The heap *)

Lemma Qcompare_refl_eq (a : Q) : (a ?= a) = Eq.
Proof. apply Qeq_alt. reflexivity. Qed.

Lemma key_le_time (a b : Entry) : key_le a b -> e_time a <= e_time b.
Proof.
  unfold key_le, key_ltb. destruct (e_time b ?= e_time a) eqn:E; intros H.
  - apply Qeq_alt in E. rewrite E. apply Qle_refl.
  - discriminate.
  - apply Qgt_alt in E. now apply Qlt_le_weak.
Qed.

Lemma key_ltb_le (a b : Entry) : key_ltb a b = true -> key_le a b.
Proof.
  unfold key_le, key_ltb.
  destruct (e_time a ?= e_time b) eqn:E; intros H; try discriminate.
  - assert (E' : (e_time b ?= e_time a) = Eq).
    { apply Qeq_alt. symmetry. now apply Qeq_alt. }
    rewrite E'.
    apply orb_true_iff in H. apply orb_false_iff.
    destruct H as [H | H].
    + apply Nat.ltb_lt in H. split; [apply Nat.ltb_ge; lia|].
      apply andb_false_iff. left. apply Nat.eqb_neq. lia.
    + apply andb_true_iff in H. destruct H as [H1 H2].
      apply Nat.eqb_eq in H1. apply Nat.ltb_lt in H2.
      split; [apply Nat.ltb_ge; lia|].
      apply andb_false_iff. right. apply Nat.ltb_ge. lia.
  - assert (E' : (e_time b ?= e_time a) = Gt).
    { apply Qgt_alt. now apply Qlt_alt. }
    now rewrite E'.
Qed.

Lemma key_le_trans (a b c : Entry) : key_le a b -> key_le b c -> key_le a c.
Proof.
  unfold key_le, key_ltb. intros H1 H2.
  destruct (e_time b ?= e_time a) eqn:E1; try discriminate;
    destruct (e_time c ?= e_time b) eqn:E2; try discriminate.
  - assert (E : (e_time c ?= e_time a) = Eq).
    { apply Qeq_alt. apply Qeq_alt in E1, E2. now rewrite E2. }
    rewrite E.
    apply orb_false_iff in H1, H2. destruct H1 as [A1 B1], H2 as [A2 B2].
    apply Nat.ltb_ge in A1, A2. apply andb_false_iff in B1, B2.
    apply orb_false_iff. split; [apply Nat.ltb_ge; lia|].
    apply andb_false_iff.
    destruct B1 as [B1|B1], B2 as [B2|B2];
      try apply Nat.eqb_neq in B1; try apply Nat.eqb_neq in B2;
      try apply Nat.ltb_ge in B1; try apply Nat.ltb_ge in B2.
    + left. apply Nat.eqb_neq. lia.
    + left. apply Nat.eqb_neq. lia.
    + left. apply Nat.eqb_neq. lia.
    + destruct (Nat.eq_dec (e_prio c) (e_prio a)).
      * right. apply Nat.ltb_ge. lia.
      * left. now apply Nat.eqb_neq.
  - assert (E : (e_time c ?= e_time a) = Gt).
    { apply Qgt_alt. apply Qeq_alt in E1. apply Qgt_alt in E2. now rewrite <- E1. }
    now rewrite E.
  - assert (E : (e_time c ?= e_time a) = Gt).
    { apply Qgt_alt. apply Qgt_alt in E1. apply Qeq_alt in E2. now rewrite E2. }
    now rewrite E.
  - assert (E : (e_time c ?= e_time a) = Gt).
    { apply Qgt_alt. apply Qgt_alt in E1, E2. eapply Qlt_trans; eauto. }
    now rewrite E.
Qed.

Lemma heappush_elem (x y : Entry) (q : list Entry) :
  y ∈ heappush x q <-> y = x \/ y ∈ q.
Proof.
  induction q as [|z q IH]; cbn [heappush].
  - rewrite list_elem_of_singleton, elem_of_nil. tauto.
  - destruct (key_ltb x z).
    + rewrite !elem_of_cons. tauto.
    + rewrite !elem_of_cons, IH. tauto.
Qed.

Lemma heappush_perm (x : Entry) (q : list Entry) : heappush x q ≡ₚ x :: q.
Proof.
  induction q as [|z q IH]; cbn [heappush]; [reflexivity|].
  destruct (key_ltb x z); [reflexivity|].
  rewrite IH. apply Permutation_swap.
Qed.

Lemma heappush_sorted (x : Entry) (q : list Entry) :
  StronglySorted key_le q -> StronglySorted key_le (heappush x q).
Proof.
  induction 1 as [|z q Hq IH Hz]; cbn [heappush].
  - repeat constructor.
  - destruct (key_ltb x z) eqn:E.
    + constructor; [now constructor|].
      constructor; [now apply key_ltb_le|].
      eapply List.Forall_impl; [|exact Hz]. intros w Hw.
      eapply key_le_trans; [apply key_ltb_le; eassumption | exact Hw].
    + constructor; [exact IH|].
      apply Forall_forall. intros w Hw. apply heappush_elem in Hw.
      destruct Hw as [->|Hw]; [exact E|].
      rewrite Forall_forall in Hz. now apply Hz.
Qed.

(** ** Kernel operations keep the heap sorted and the stations within capacity *)

Lemma Qltb_false (a b : Q) : Qltb a b = false -> b <= a.
Proof.
  unfold Qltb. intros H. apply negb_false_iff in H. now apply Qle_bool_iff.
Qed.

Lemma Qltb_true (a b : Q) : Qltb a b = true -> a < b.
Proof.
  unfold Qltb. intros H. apply negb_true_iff in H.
  apply Qnot_le_lt. intros Hle. apply Qle_bool_iff in Hle. congruence.
Qed.

Lemma clock_inv_schedule ev prio d s :
  0 <= d -> clock_inv s -> clock_inv (schedule ev prio d s).
Proof.
  intros Hd [Hs Hn]. split; proj.
  - now apply heappush_sorted.
  - apply Forall_forall. intros x Hx. apply heappush_elem in Hx.
    destruct Hx as [->|Hx].
    + cbn [e_time]. rewrite <- (Qplus_0_r (now s)) at 1.
      apply Qplus_le_r. exact Hd.
    + rewrite Forall_forall in Hn. now apply Hn.
Qed.

Section Steady.

Variable cfg : Config.

Lemma steady_refl s : steady cfg s s.
Proof. split; [|split]; auto. Qed.

Lemma steady_trans s1 s2 s3 : steady cfg s1 s2 -> steady cfg s2 s3 -> steady cfg s1 s3.
Proof.
  intros (N1 & P1 & K1) (N2 & P2 & K2).
  split; [congruence|]. split; [congruence|]. auto.
Qed.

Lemma steady_inert s s' :
  now s' = now s -> procs s' = procs s -> queue s' = queue s -> nodes s' = nodes s ->
  steady cfg s s'.
Proof.
  intros N P Q' R. split; [exact N|]. split; [exact P|].
  intros [Hc Hr]. split.
  - unfold clock_inv in *. now rewrite Q', N.
  - unfold room_inv in *. now rewrite R.
Qed.

Lemma steady_schedule ev prio d s : 0 <= d -> steady cfg s (schedule ev prio d s).
Proof.
  intros Hd. split; [reflexivity|]. split; [reflexivity|].
  intros [Hc Hr]. split; [now apply clock_inv_schedule | exact Hr].
Qed.

Lemma steady_upd_event ev f s : steady cfg s (upd_event ev f s).
Proof. now apply steady_inert. Qed.

Lemma steady_new_event k b s : steady cfg s (snd (new_event k b s)).
Proof. now apply steady_inert. Qed.

Lemma steady_observe o s : steady cfg s (observe o s).
Proof. now apply steady_inert. Qed.

Lemma steady_upd_node n f s :
  (forall res, capacity (f res) = capacity res /\
               (length (users (f res)) <= length (users res))%nat) ->
  steady cfg s (upd_node n f s).
Proof.
  intros Hf. split; [reflexivity|]. split; [reflexivity|].
  intros [Hc Hr]. split; [exact Hc|].
  intros m. destruct (Hr m) as [H1 H2]. proj.
  destruct (decide (n = m)) as [->|Hne].
  - rewrite fn_lookup_alter. destruct (Hf (nodes s m)) as [-> ?]. split; [lia | exact H2].
  - now rewrite fn_lookup_alter_ne.
Qed.

Lemma steady_succeed ev s s' : succeed ev s = Ok s' -> steady cfg s s'.
Proof.
  unfold succeed. intros H. exec H.
  eapply steady_trans; [apply steady_upd_event|]. now apply steady_schedule.
Qed.

Lemma steady_timeout d s t s' : timeout d s = Ok (t, s') -> steady cfg s s'.
Proof.
  unfold timeout. intros H. destruct (Qltb d 0) eqn:Hd; [discriminate|].
  apply Qltb_false in Hd.
  destruct (new_event KTimeout true s) as [t0 s0] eqn:Hn. apply Ok_inj in H.
  injection H as <- <-.
  eapply steady_trans; [apply (steady_new_event KTimeout true s)|].
  rewrite Hn. cbn [snd]. now apply steady_schedule.
Qed.

Lemma steady_check c s s' : check c s = Ok s' -> steady cfg s s'.
Proof.
  unfold check. intros H. exec H; [apply steady_refl | eapply steady_succeed; eauto].
Qed.

Lemma steady_remove_check_callbacks c s : steady cfg s (remove_check_callbacks c s).
Proof.
  unfold remove_check_callbacks. generalize (condition_events (events s c)) as l.
  intros l. revert s. induction l as [|ev l IH]; intros s; cbn [foldl].
  - apply steady_refl.
  - eapply steady_trans; [apply (steady_upd_event ev (remove_check c) s) | apply IH].
Qed.

Lemma steady_build_value c s : steady cfg s (build_value c s).
Proof.
  unfold build_value.
  eapply steady_trans; [apply steady_remove_check_callbacks | apply steady_upd_event].
Qed.

Lemma remove_first_length {A} `{EqDecision A} (x : A) (l : list A) :
  (length (remove_first x l) <= length l)%nat.
Proof.
  induction l as [|y l IH]; cbn [remove_first length]; [lia|].
  destruct (decide (x = y)); cbn [length]; lia.
Qed.

Lemma steady_do_put n r s s' : do_put n r s = Ok s' -> steady cfg s s'.
Proof.
  unfold do_put. intros H.
  destruct (Z.of_nat (length (users (nodes s n))) <? capacity (nodes s n))%Z eqn:Hc;
    [|apply Ok_inj in H; subst; apply steady_refl].
  apply Z.ltb_lt in Hc.
  eapply steady_trans; [|eapply steady_succeed; exact H].
  eapply steady_trans; [|apply steady_observe].
  split; [reflexivity|]. split; [reflexivity|].
  intros [Hk Hr]. split; [exact Hk|].
  intros m. destruct (Hr m) as [H1 H2]. proj.
  destruct (decide (n = m)) as [->|Hne].
  - rewrite fn_lookup_alter. cbn [with_users users capacity].
    rewrite length_app. cbn [length]. split; [lia | exact H2].
  - now rewrite fn_lookup_alter_ne.
Qed.

Lemma steady_trigger_put n s s' : trigger_put n s = Ok s' -> steady cfg s s'.
Proof.
  unfold trigger_put. intros H. exec H; try apply steady_refl.
  - eapply steady_trans; [eapply steady_do_put; eauto|].
    apply steady_upd_node. intros res. split; reflexivity.
  - eapply steady_do_put; eauto.
Qed.

Lemma steady_do_get n g s s' : do_get n g s = Ok s' -> steady cfg s s'.
Proof.
  unfold do_get. intros H.
  destruct (release_request (events s g)).
  - eapply steady_trans; [|eapply steady_succeed; eauto].
    apply steady_upd_node. intros res. split; [reflexivity|].
    cbn [with_users users]. apply remove_first_length.
  - eapply steady_succeed; eauto.
Qed.

Lemma steady_trigger_get n s s' : trigger_get n s = Ok s' -> steady cfg s s'.
Proof.
  unfold trigger_get. intros H. exec H; try apply steady_refl.
  - eapply steady_trans; [eapply steady_do_get; eauto|].
    apply steady_upd_node. intros res. split; reflexivity.
  - eapply steady_do_get; eauto.
Qed.

Lemma steady_request n s r s' : request n s = Ok (r, s') -> steady cfg s s'.
Proof.
  unfold request. intros H.
  destruct (new_event (KRequest n) false s) as [r0 s0] eqn:Hn.
  exec H.
  eapply steady_trans; [apply (steady_new_event (KRequest n) false s)|].
  rewrite Hn. cbn [snd].
  eapply steady_trans; [|eapply steady_trigger_put; eauto].
  eapply steady_trans; [|apply steady_upd_event].
  apply steady_upd_node. intros res. split; reflexivity.
Qed.

Lemma steady_release n r s s' : release n r s = Ok s' -> steady cfg s s'.
Proof.
  unfold release. intros H.
  destruct (new_event (KRelease n r) false s) as [g0 s0] eqn:Hn.
  eapply steady_trans; [apply (steady_new_event (KRelease n r) false s)|].
  rewrite Hn. cbn [snd].
  eapply steady_trans; [|eapply steady_trigger_get; eauto].
  eapply steady_trans; [|apply steady_upd_event].
  apply steady_upd_node. intros res. split; reflexivity.
Qed.

Lemma steady_exit_request n r s s' : exit_request n r s = Ok s' -> steady cfg s s'.
Proof.
  unfold exit_request. intros H. exec H.
  - eapply steady_release; eauto.
  - eapply steady_trans; [|eapply steady_release; eauto].
    apply steady_upd_node. intros res. split; reflexivity.
Qed.

Lemma steady_any_of evs s c s' : any_of evs s = Ok (c, s') -> steady cfg s s'.
Proof.
  unfold any_of, new_event. intros H. exec H.
  eapply steady_trans; [|apply steady_upd_event].
  match goal with
  | Ha : foldl _ (Ok ?s0) evs = Ok ?s1 |- _ =>
      assert (Hq : steady cfg s s0) by (now apply steady_inert);
      revert Hq Ha; generalize s0 as s2
  end.
  generalize (KCondition evs) as k. intros _.
  induction evs as [|ev evs IH]; intros s2 Hq Ha; cbn [foldl] in Ha.
  - now apply Ok_inj in Ha; subst.
  - destruct (processed (events s2 ev)) eqn:Hp; cbn in Ha; rewrite Hp in Ha.
    + destruct (check (next_event s) s2) as [s3| |] eqn:Hc.
      * eapply IH; [|exact Ha]. eapply steady_trans; [exact Hq|].
        eapply steady_check; eauto.
      * exfalso. clear -Ha. induction evs; cbn in Ha; [discriminate | auto].
      * exfalso. clear -Ha. induction evs; cbn in Ha; [discriminate | auto].
    + eapply IH; [|exact Ha]. eapply steady_trans; [exact Hq|]. apply steady_upd_event.
Qed.

Lemma steady_expovariate lambd s x s' : expovariate lambd s = Ok (x, s') -> steady cfg s s'.
Proof. unfold expovariate. intros H. exec H. now apply steady_inert. Qed.

Lemma steady_record_stats n w sv s s' :
  record_stats cfg n w sv s = Ok s' -> steady cfg s s'.
Proof. unfold record_stats. intros H. exec H. now apply steady_inert. Qed.

End Steady.

(** ** Waits, service times and utilisation samples stay within bounds *)

Section Bounds.

Variable cfg : Config.
Hypothesis Hservers : servers_ok cfg.

Lemma kernel_inv_same s s' :
  now s' = now s -> queue s' = queue s -> nodes s' = nodes s ->
  kernel_inv cfg s -> kernel_inv cfg s'.
Proof.
  intros N Q' R [Hc Hr]. split.
  - unfold clock_inv in *. now rewrite Q', N.
  - unfold room_inv in *. now rewrite R.
Qed.

Lemma kernel_inv_finish p s : kernel_inv cfg s -> kernel_inv cfg (finish p s).
Proof.
  intros K. unfold finish.
  apply (steady_schedule cfg p NORMAL 0); [apply Qle_refl|].
  revert K. apply kernel_inv_same; reflexivity.
Qed.

Lemma kernel_inv_yield p ev g s : kernel_inv cfg s -> kernel_inv cfg (yield p ev g s).
Proof. apply kernel_inv_same; reflexivity. Qed.

Lemma kernel_inv_process g s : kernel_inv cfg s -> kernel_inv cfg (snd (process g s)).
Proof.
  intros K. unfold process, new_event. cbn [snd].
  apply (steady_schedule cfg); [apply Qle_refl|].
  revert K. apply kernel_inv_same; reflexivity.
Qed.

Lemma procs_inv_set s s' p g :
  now s' = now s ->
  (forall p', p' <> p -> gen (procs s' p') = gen (procs s p')) ->
  gen (procs s' p) = g ->
  harmless g (now s) ->
  procs_inv s -> procs_inv s'.
Proof.
  intros N Hother Hp Hg Hinv p'. rewrite N.
  destruct (decide (p' = p)) as [->|Hne].
  - now rewrite Hp.
  - rewrite Hother by exact Hne. apply Hinv.
Qed.

Lemma procs_inv_steady s s' : steady cfg s s' -> procs_inv s -> procs_inv s'.
Proof. intros (N & P & _) H p. rewrite N, P. apply H. Qed.

Lemma procs_inv_finish p s : procs_inv s -> procs_inv (finish p s).
Proof.
  apply (procs_inv_set s _ p Finished); proj; try reflexivity.
  - intros p' Hne. now rewrite fn_lookup_insert_ne.
  - now rewrite fn_lookup_insert.
Qed.

Lemma procs_inv_yield p ev g s :
  harmless g (now s) -> procs_inv s -> procs_inv (yield p ev g s).
Proof.
  intros Hg. apply (procs_inv_set s _ p g); proj; try reflexivity.
  - intros p' Hne. now rewrite fn_lookup_insert_ne.
  - now rewrite fn_lookup_insert.
  - exact Hg.
Qed.

Lemma procs_inv_process g s :
  harmless g (now s) -> procs_inv s -> procs_inv (snd (process g s)).
Proof.
  intros Hg. apply (procs_inv_set s _ (next_event s) g); unfold process; proj;
    try reflexivity.
  - intros p' Hne. now rewrite fn_lookup_insert_ne.
  - now rewrite fn_lookup_insert.
  - exact Hg.
Qed.

Lemma safe_steady s s' : steady cfg s s' -> safe cfg s -> safe cfg s'.
Proof.
  intros Hst [K P]. split; [now apply Hst | now apply (procs_inv_steady s)].
Qed.

Lemma safe_customer_loop p pw s s' :
  customer_loop cfg p pw s = Ok s' -> safe cfg s -> safe cfg s'.
Proof.
  unfold customer_loop. intros H [K P]. destruct pw as [|n rest].
  - apply Ok_inj in H. subst s'.
    split; [now apply kernel_inv_finish | now apply procs_inv_finish].
  - exec H.
    match goal with
    | H1 : request _ _ = Ok (?r, ?s1), H2 : timeout _ _ = Ok (_, ?s2),
      H3 : any_of _ _ = Ok (_, ?s3) |- _ =>
        pose proof (steady_request cfg _ _ _ _ H1) as S1;
        pose proof (steady_observe cfg (ObsVisit p n r (now s)) s1) as S1';
        pose proof (steady_timeout cfg _ _ _ _ H2) as S2;
        pose proof (steady_any_of cfg _ _ _ _ H3) as S3;
        pose proof (steady_trans cfg _ _ _ (steady_trans cfg _ _ _
                      (steady_trans cfg _ _ _ S1 S1') S2) S3) as St
    end.
    destruct (safe_steady _ _ St (conj K P)) as [K' P'].
    split; [now apply kernel_inv_yield|].
    apply procs_inv_yield; [|exact P'].
    cbn [harmless]. destruct St as (-> & _). apply Qle_refl.
Qed.

Lemma safe_resume p ev s s' : resume cfg p ev s = Ok s' -> safe cfg s -> safe cfg s'.
Proof.
  intros H [K P]. unfold resume in H.
  pose proof (P p) as Hp.
  destruct (gen (procs s p)) as [i|cid| |pw|n rest a r|n rest w sv r|] eqn:Hg.
  - (* customer_arrivals *)
    destruct (i <? TOTAL_CUSTOMERS cfg)%nat.
    + destruct (process (Pathway_start i) (observe (ObsSpawn i) s)) as [p' s1] eqn:Hpr.
      exec H.
      assert (S1 : safe cfg s1).
      { pose proof (kernel_inv_process (Pathway_start i) (observe (ObsSpawn i) s)) as K1.
        pose proof (procs_inv_process (Pathway_start i) (observe (ObsSpawn i) s)) as P1.
        rewrite Hpr in K1, P1. cbn [snd] in K1, P1.
        split; [apply K1 | apply P1; [exact I|]].
        - now apply (steady_observe cfg).
        - eapply procs_inv_steady; [apply steady_observe | exact P]. }
      match goal with
      | H1 : expovariate _ _ = Ok _, H2 : timeout _ _ = Ok _ |- _ =>
          apply (steady_expovariate cfg) in H1; apply (steady_timeout cfg) in H2;
          destruct (safe_steady _ _ (steady_trans cfg _ _ _ H1 H2) S1) as [K2 P2]
      end.
      split; [now apply kernel_inv_yield | now apply procs_inv_yield].
    + apply Ok_inj in H. subst s'.
      split; [now apply kernel_inv_finish | now apply procs_inv_finish].
  - (* customer_pathway starts *)
    exec H.
    match goal with
    | Hpr : process ?g ?s0 = (_, ?s1) |- _ =>
        pose proof (kernel_inv_process g s0) as K1;
        pose proof (procs_inv_process g s0) as P1;
        rewrite Hpr in K1, P1; cbn [snd] in K1, P1
    end.
    split; [apply kernel_inv_yield, K1 | apply procs_inv_yield; [exact I | apply P1]].
    + revert K. apply (steady_inert cfg); reflexivity.
    + exact I.
    + revert P. apply procs_inv_steady. apply (steady_inert cfg); reflexivity.
  - (* customer_pathway ends *)
    apply Ok_inj in H. subst s'.
    split; [now apply kernel_inv_finish | now apply procs_inv_finish].
  - (* customer starts *)
    eapply safe_customer_loop; eauto. now split.
  - (* the race is decided *)
    cbn [harmless] in Hp.
    destruct (decide (r ∈ value (events s ev))).
    + exec H.
      match goal with
      | H1 : expovariate _ _ = Ok _, H2 : timeout ?d _ = Ok _ |- _ =>
          assert (Hd : 0 <= d)
            by (unfold timeout in H2; destruct (Qltb d 0) eqn:E;
                [discriminate | now apply Qltb_false in E]);
          apply (steady_expovariate cfg) in H1; apply (steady_timeout cfg) in H2;
          destruct (safe_steady _ _ (steady_trans cfg _ _ _ H1 H2) (conj K P))
            as [K2 P2];
          pose proof (steady_trans cfg _ _ _ H1 H2) as (N2 & _)
      end.
      split; [now apply kernel_inv_yield|].
      apply procs_inv_yield; [|exact P2].
      cbn [harmless]. split; [|exact Hd].
      apply (Qplus_le_l _ _ a). ring_simplify. exact Hp.
    + exec H.
      match goal with
      | H1 : record_stats _ _ _ _ ?s0 = Ok ?s1, H2 : exit_request _ _ _ = Ok ?s2 |- _ =>
          assert (S0 : steady cfg s s0) by (now apply steady_inert);
          pose proof (steady_record_stats cfg _ _ _ _ _ H1) as S1;
          pose proof (steady_observe cfg (ObsAbandon p n r (now s - a)) s1) as S1';
          pose proof (steady_exit_request cfg _ _ _ _ H2) as S2;
          destruct (safe_steady _ _
                      (steady_trans cfg _ _ _ (steady_trans cfg _ _ _
                         (steady_trans cfg _ _ _ S0 S1) S1') S2) (conj K P))
            as [K2 P2]
      end.
      split; [now apply kernel_inv_finish | now apply procs_inv_finish].
  - (* service is over *)
    exec H.
    match goal with
    | H1 : record_stats _ _ _ _ _ = Ok ?s1, H2 : exit_request _ _ _ = Ok ?s2 |- _ =>
        pose proof (steady_record_stats cfg _ _ _ _ _ H1) as S1;
        pose proof (steady_observe cfg (ObsServed p n r w sv) s1) as S1';
        pose proof (steady_exit_request cfg _ _ _ _ H2) as S2;
        pose proof (safe_steady _ _
                      (steady_trans cfg _ _ _ (steady_trans cfg _ _ _ S1 S1') S2)
                      (conj K P)) as Sf
    end.
    eapply safe_customer_loop; eauto.
  - discriminate.
Qed.

Lemma safe_run_callback cb ev s s' :
  run_callback cfg cb ev s = Ok s' -> safe cfg s -> safe cfg s'.
Proof.
  intros H. destruct cb as [p|c|c|n|n]; cbn [run_callback] in H.
  - now apply (safe_resume p ev).
  - apply safe_steady. eapply steady_check; eauto.
  - apply Ok_inj in H. subst s'. apply safe_steady, steady_build_value.
  - apply safe_steady. eapply steady_trigger_get; eauto.
  - apply safe_steady. eapply steady_trigger_put; eauto.
Qed.

End Bounds.

Lemma utilisation_bounds (cnt srv : Z) (u : Q) :
  (0 <= cnt)%Z -> (cnt <= srv)%Z -> (0 < srv)%Z ->
  true_div cnt srv = Ok u -> 0 <= u /\ u <= 1.
Proof.
  intros H0 H1 H2 H. unfold true_div in H.
  destruct (Z.eqb_spec srv 0); [lia|]. apply Ok_inj in H. subst u.
  assert (Hs : 0 < inject_Z srv).
  { change 0 with (inject_Z 0). now rewrite <- Zlt_Qlt. }
  split.
  - apply Qle_shift_div_l; [exact Hs|]. rewrite Qmult_0_l.
    change 0 with (inject_Z 0). now rewrite <- Zle_Qle.
  - apply Qle_shift_div_r; [exact Hs|]. rewrite Qmult_1_l.
    now rewrite <- Zle_Qle.
Qed.

Lemma samples_ok_booked b w sv qlen u ns :
  0 <= w -> 0 <= sv -> 0 <= u /\ u <= 1 ->
  samples_ok ns -> samples_ok (booked b w sv qlen u ns).
Proof.
  intros Hw Hsv Hu (W & S & U). unfold samples_ok, booked.
  cbn [waiting_times service_times utilization].
  repeat split; apply Forall_app; split; auto; now repeat constructor.
Qed.

Section BoundsReachable.

Variable cfg : Config.

Lemma capacities_ok_servers : capacities_ok cfg = true -> servers_ok cfg.
Proof.
  unfold capacities_ok, servers_ok. intros H n prm Hn.
  rewrite forallb_forall in H.
  apply elem_of_map_to_list in Hn. apply list_elem_of_In in Hn.
  specialize (H _ Hn). cbn [snd] in H. now apply Z.ltb_lt in H.
Qed.

Lemma setup_servers_ok exps unifs s : setup cfg exps unifs = Ok s -> servers_ok cfg.
Proof.
  unfold setup. destruct (capacities_ok cfg) eqn:E; [|discriminate].
  intros _. now apply capacities_ok_servers.
Qed.

Lemma samples_ok_booking p s s' :
  servers_ok cfg -> booking cfg p s s' -> safe cfg s ->
  (forall n, samples_ok (node_stats s n)) -> forall n, samples_ok (node_stats s' n).
Proof.
  intros Hsrv Hb [[Hc Hr] P] Hinv m.
  destruct Hb as [Hc' | pw d lq Hbp U N G T F
                 | n rest a r prm u lq Hgen Hprm Hu U N G T F
                 | n rest w sv r prm u lq Hgen Hprm Hu U N G T F].
  - destruct Hc' as (N & _). rewrite N. apply Hinv.
  - rewrite N. apply Hinv.
  - rewrite N. destruct (decide (n = m)) as [->|Hne].
    + rewrite fn_lookup_insert.
      pose proof (P p) as Hp. rewrite Hgen in Hp. cbn [harmless] in Hp.
      destruct (Hr m) as [R1 R2].
      unfold new_resource in R2. rewrite Hprm in R2. cbn [capacity] in R2.
      apply samples_ok_booked; [| apply Qle_refl | | apply Hinv].
      * apply (Qplus_le_l _ _ a). ring_simplify. exact Hp.
      * eapply utilisation_bounds; [| | |exact Hu]; [lia | lia | eauto].
    + rewrite fn_lookup_insert_ne by exact Hne. apply Hinv.
  - rewrite N. destruct (decide (n = m)) as [->|Hne].
    + rewrite fn_lookup_insert.
      pose proof (P p) as Hp. rewrite Hgen in Hp. cbn [harmless] in Hp.
      destruct (Hr m) as [R1 R2].
      unfold new_resource in R2. rewrite Hprm in R2. cbn [capacity] in R2.
      apply samples_ok_booked; [tauto | tauto | | apply Hinv].
      eapply utilisation_bounds; [| | |exact Hu]; [lia | lia | eauto].
    + rewrite fn_lookup_insert_ne by exact Hne. apply Hinv.
Qed.

Lemma safe_pop x q s : queue s = x :: q -> safe cfg s -> safe cfg (pop x q s).
Proof.
  intros Hq [[[Hs Hn] Hr] P]. rewrite Hq in Hs, Hn.
  apply StronglySorted_inv in Hs. destruct Hs as [Hs Hx].
  apply Forall_cons in Hn. destruct Hn as [Hnx Hn].
  split; [split; [split|]|]; proj.
  - exact Hs.
  - eapply List.Forall_impl; [|exact Hx]. intros y Hy. now apply key_le_time.
  - exact Hr.
  - intros p. proj. specialize (P p).
    destruct (gen (procs s p)); cbn [harmless] in *; auto.
    eapply Qle_trans; eauto.
Qed.

Lemma safe_empty exps unifs : servers_ok cfg -> safe cfg (empty_state cfg exps unifs).
Proof.
  intros Hsrv. split; [split; [split|]|].
  - constructor.
  - constructor.
  - intros n. cbn [empty_state nodes new_resource users capacity length].
    split; [|reflexivity].
    destruct (parameters cfg !! n) eqn:E; [|reflexivity].
    specialize (Hsrv _ _ E). lia.
  - intros p. exact I.
Qed.

Lemma bounds_inv_reachable exps unifs s :
  reachable cfg exps unifs s -> servers_ok cfg /\ bounds_inv cfg s.
Proof.
  revert s.
  apply (reachable_ind_simple cfg exps unifs
           (fun s => servers_ok cfg /\ bounds_inv cfg s)).
  - intros s0 H. pose proof (setup_servers_ok _ _ _ H) as Hsrv.
    split; [exact Hsrv|]. unfold setup in H.
    destruct (capacities_ok cfg); [|discriminate]. apply Ok_inj in H. subst s0.
    pose proof (safe_empty exps unifs Hsrv) as [K P].
    split; [split|].
    + now apply kernel_inv_process.
    + now apply procs_inv_process.
    + intros n. repeat constructor.
  - intros s0 x q [Hsrv [Hsafe Hst]] Hq. split; [exact Hsrv|].
    split; [now apply safe_pop | exact Hst].
  - intros e cb s0 s1 [Hsrv [Hsafe Hst]] Hcb. split; [exact Hsrv|].
    split; [eapply safe_run_callback; eauto|].
    destruct cb as [p|c|c|n|n].
    + eapply samples_ok_booking; eauto. eapply resume_booking; eauto.
    + intros m. eapply quiet_run_callback in Hcb; [|discriminate].
      destruct Hcb as (-> & _). apply Hst.
    + intros m. eapply quiet_run_callback in Hcb; [|discriminate].
      destruct Hcb as (-> & _). apply Hst.
    + intros m. eapply quiet_run_callback in Hcb; [|discriminate].
      destruct Hcb as (-> & _). apply Hst.
    + intros m. eapply quiet_run_callback in Hcb; [|discriminate].
      destruct Hcb as (-> & _). apply Hst.
Qed.

End BoundsReachable.

(** ** Means *)

Lemma Qsum_nonneg (l : list Q) : Forall (fun x => 0 <= x) l -> 0 <= Qsum l.
Proof.
  induction 1 as [|x l Hx _ IH]; cbn [Qsum foldr]; [apply Qle_refl|].
  change (0 <= x + Qsum l). rewrite <- (Qplus_0_r 0). now apply Qplus_le_compat.
Qed.

Lemma Qsum_le_length (l : list Q) :
  Forall (fun x => x <= 1) l -> Qsum l <= inject_Z (Z.of_nat (length l)).
Proof.
  induction 1 as [|x l Hx _ IH]; cbn [Qsum foldr length]; [apply Qle_refl|].
  change (x + Qsum l <= inject_Z (Z.of_nat (S (length l)))).
  rewrite Nat2Z.inj_succ, <- Z.add_1_l, inject_Z_plus.
  now apply Qplus_le_compat.
Qed.

Lemma mean_or_zero_total (l : list Q) : exists m, mean_or_zero l = Ok m.
Proof. destruct l; cbn; eauto. Qed.

Lemma length_pos_Q {A} (x : A) (l : list A) : 0 < inject_Z (Z.of_nat (length (x :: l))).
Proof. change 0 with (inject_Z 0). rewrite <- Zlt_Qlt. cbn [length]. lia. Qed.

Lemma mean_or_zero_nonneg (l : list Q) (m : Q) :
  Forall (fun x => 0 <= x) l -> mean_or_zero l = Ok m -> 0 <= m.
Proof.
  intros Hl H. destruct l as [|x l]; unfold mean_or_zero, mean in H;
    apply Ok_inj in H; subst m.
  - apply Qle_refl.
  - apply Qle_shift_div_l; [apply length_pos_Q|]. rewrite Qmult_0_l.
    now apply Qsum_nonneg.
Qed.

Lemma mean_or_zero_le_1 (l : list Q) (m : Q) :
  Forall (fun x => x <= 1) l -> mean_or_zero l = Ok m -> m <= 1.
Proof.
  intros Hl H. destruct l as [|x l]; unfold mean_or_zero, mean in H;
    apply Ok_inj in H; subst m.
  - discriminate.
  - apply Qle_shift_div_r; [apply length_pos_Q|]. rewrite Qmult_1_l.
    now apply Qsum_le_length.
Qed.

Lemma nat_samples_nonneg (l : list nat) : Forall (fun x => 0 <= x) (nat_samples l).
Proof.
  unfold nat_samples. apply Forall_forall. intros x Hx.
  apply list_elem_of_In, in_map_iff in Hx. destruct Hx as (n & <- & _).
  change 0 with (inject_Z 0). rewrite <- Zle_Qle. lia.
Qed.

Lemma succeeded_final (r : result State) : succeeded r = true -> r = Ok (final_state r).
Proof. destruct r; cbn; congruence. Qed.

(** ** Metrics of a run *)

Lemma compute_metrics_Ok (ns : NodeStats) (m : Metrics) :
  compute_metrics ns = Ok m ->
  mean_or_zero (waiting_times ns) = Ok (average_waiting_time m) /\
  mean_or_zero (service_times ns) = Ok (average_service_time m) /\
  mean_or_zero (nat_samples (queue_lengths ns)) = Ok (average_queue_length m) /\
  mean_or_zero (utilization ns) = Ok (average_utilization m) /\
  (let total := (Z.of_nat (length (waiting_times ns)) + abandonment_count ns)%Z in
   if Z.eqb total 0 then abandonment_rate m = 0
   else true_div (abandonment_count ns) total = Ok (abandonment_rate m)).
Proof.
  unfold compute_metrics. intros H.
  destruct (mean_or_zero (waiting_times ns)) as [w| |]; try discriminate.
  destruct (mean_or_zero (service_times ns)) as [sv| |]; try discriminate.
  destruct (mean_or_zero (nat_samples (queue_lengths ns))) as [ql| |]; try discriminate.
  destruct (mean_or_zero (utilization ns)) as [ut| |]; try discriminate.
  cbn [bind] in H. cbv zeta.
  destruct (Z.eqb _ 0) eqn:E; cbn [bind] in H.
  - apply Ok_inj in H. subst m. cbn. repeat split; reflexivity.
  - destruct (true_div _ _) as [ar| |]; try discriminate. cbn [bind] in H.
    apply Ok_inj in H. subst m. cbn. repeat split; reflexivity.
Qed.

(** C7: at every point of a run the figures [compute_metrics] reports for a
    station are defined, the abandonment rate and the average utilisation
    lie between 0 and 1, and the three other averages are not negative. *)
Theorem metrics_within_bounds cfg exps unifs s n :
  reachable cfg exps unifs s ->
  exists m,
    compute_metrics (node_stats s n) = Ok m /\
    0 <= abandonment_rate m /\ abandonment_rate m <= 1 /\
    0 <= average_utilization m /\ average_utilization m <= 1 /\
    0 <= average_waiting_time m /\
    0 <= average_service_time m /\
    0 <= average_queue_length m.
Proof.
  intros Hs.
  destruct (bounds_inv_reachable _ _ _ _ Hs) as [_ [_ Hst]].
  destruct (books_inv_reachable _ _ _ _ Hs) as [_ Hb].
  destruct (Hst n) as (W & S & U). destruct (Hb n) as (_ & _ & _ & _ & A).
  destruct (compute_metrics_total (node_stats s n)) as [m Hm].
  exists m. split; [exact Hm|].
  destruct (compute_metrics_Ok _ _ Hm) as (Hw & Hsv & Hq & Hu & Hr).
  assert (Hrate : 0 <= abandonment_rate m /\ abandonment_rate m <= 1).
  { cbv zeta in Hr. destruct (Z.eqb_spec
      (Z.of_nat (length (waiting_times (node_stats s n)))
       + abandonment_count (node_stats s n)) 0) as [E|E].
    - rewrite Hr. split; [apply Qle_refl | discriminate].
    - eapply utilisation_bounds; [| | |exact Hr]; lia. }
  destruct Hrate as [R0 R1].
  repeat split; auto.
  - eapply mean_or_zero_nonneg; [|exact Hu].
    eapply List.Forall_impl; [|exact U]. intros u [? ?]; assumption.
  - eapply mean_or_zero_le_1; [|exact Hu].
    eapply List.Forall_impl; [|exact U]. intros u [? ?]; assumption.
  - exact (mean_or_zero_nonneg _ _ W Hw).
  - exact (mean_or_zero_nonneg _ _ S Hsv).
  - eapply mean_or_zero_nonneg; [|exact Hq]. apply nat_samples_nonneg.
Qed.


Lemma metrics_within_bounds_witness :
  exists m,
    compute_metrics (node_stats (final_state eleven_run) CRS) = Ok m /\
    0 <= abandonment_rate m /\ abandonment_rate m <= 1 /\
    0 <= average_utilization m /\ average_utilization m <= 1 /\
    0 <= average_waiting_time m /\
    0 <= average_service_time m /\
    0 <= average_queue_length m.
Proof.
  apply (metrics_within_bounds eleven_customers eleven_expo eleven_unif).
  apply (simulate_reachable _ _ _ 1000). apply succeeded_final.
  vm_compute. reflexivity.
Defined.

(** ** Abandoned visits in the samples *)





(** ** The abandonment rate *)



(** ** First-call resolutions and transfers *)

(** C1, as the specification words it, fails on a path the reference
    routing table produces: CRS, then CSD, then resolved.  The specification
    books one transfer for it, the code books a first-call resolution. *)
Lemma classification_counterexample :
  exists pw rest,
    build_path reference_transitions [6 # 10; 5 # 10] = Ok (pw, rest) /\
    length pw <> 1%nat /\
    transfer_count (spec_classify pw GeneStats_init) = (Z.of_nat (length pw) - 1)%Z /\
    transfer_count (classify pw GeneStats_init) = 0%Z /\
    first_call_resolution_count (classify pw GeneStats_init) = 1%Z /\
    classify pw GeneStats_init <> spec_classify pw GeneStats_init.
Proof.
  exists [CRS; "CSD"%string], []. repeat split; try (vm_compute; congruence).
Qed.

Lemma transfers_of_many (pws : list (list node)) :
  Forall (fun pw => (2 <= length pw)%nat) pws ->
  transfers_of pws
  = Zsum (map (fun pw => (Z.of_nat (length pw) - 2)%Z) (List.filter many_stations pws))
  /\ length (List.filter (fun pw => negb (two_stations pw)) pws)
     = length (List.filter many_stations pws).
Proof.
  unfold transfers_of.
  induction 1 as [|pw pws Hpw _ [IH1 IH2]]; [split; reflexivity|].
  cbn [List.filter].
  assert (Hc : (length pw = 2%nat /\ two_stations pw = true /\ many_stations pw = false)
               \/ (two_stations pw = false /\ many_stations pw = true)).
  { unfold two_stations, many_stations.
    destruct (Nat.eqb_spec (length pw) 2), (Nat.ltb_spec 2 (length pw)); auto; lia. }
  destruct Hc as [(_ & -> & ->)|(-> & ->)]; cbn [negb].
  - split; assumption.
  - cbn [map Zsum foldr length]. split; [|now rewrite IH2].
    unfold Zsum in IH1. now rewrite IH1.
Qed.

(** C1, amended: a path of exactly two stations (the entry station and one
    more) is a first-call resolution; a path of more than two stations adds
    (stations - 2) to the transfer count.  The counters are the result of
    applying this to every constructed path: the first-call resolutions are
    the two-station paths, and when no path consists of the entry station
    alone, first-call resolutions and longer paths account for all
    constructed paths and the transfer count is the sum of (stations - 2)
    over the longer paths. *)
Theorem classification_by_two_stations cfg exps unifs s :
  reachable cfg exps unifs s ->
  let pws := paths_of (trace s) in
  (forall pw g, length pw = 2%nat ->
     first_call_resolution_count (classify pw g) = (first_call_resolution_count g + 1)%Z /\
     transfer_count (classify pw g) = transfer_count g) /\
  (forall pw g, (2 < length pw)%nat ->
     first_call_resolution_count (classify pw g) = first_call_resolution_count g /\
     transfer_count (classify pw g)
     = (transfer_count g + (Z.of_nat (length pw) - 2))%Z) /\
  gene_stats s = foldr classify GeneStats_init pws /\
  first_call_resolution_count (gene_stats s)
  = Z.of_nat (length (List.filter two_stations pws)) /\
  (Forall (fun pw => (2 <= length pw)%nat) pws ->
   (first_call_resolution_count (gene_stats s)
    + Z.of_nat (length (List.filter many_stations pws)))%Z = Z.of_nat (length pws) /\
   transfer_count (gene_stats s)
   = Zsum (map (fun pw => (Z.of_nat (length pw) - 2)%Z)
             (List.filter many_stations pws))).
Proof.
  intros Hs pws.
  destruct (books_inv_reachable _ _ _ _ Hs) as [Hg _]. fold pws in Hg.
  split; [intros pw g H; now rewrite classify_two|].
  split; [intros pw g H; rewrite classify_other by lia; now split|].
  split; [exact Hg|].
  split; [rewrite Hg; apply classify_all_fcr|].
  intros Hall. destruct (transfers_of_many pws Hall) as [T L].
  split.
  - rewrite Hg, classify_all_fcr, <- L, <- Nat2Z.inj_add.
    now rewrite filter_two_split.
  - now rewrite Hg, classify_all_transfers.
Qed.

Lemma classification_by_two_stations_witness :
  let s := final_state eleven_run in
  let pws := paths_of (trace s) in
  Forall (fun pw => (2 <= length pw)%nat) pws /\
  first_call_resolution_count (gene_stats s)
  = Z.of_nat (length (List.filter two_stations pws)) /\
  (first_call_resolution_count (gene_stats s)
   + Z.of_nat (length (List.filter many_stations pws)))%Z = Z.of_nat (length pws) /\
  transfer_count (gene_stats s)
  = Zsum (map (fun pw => (Z.of_nat (length pw) - 2)%Z) (List.filter many_stations pws)).
Proof.
  assert (Hr : reachable eleven_customers eleven_expo eleven_unif (final_state eleven_run)).
  { apply (simulate_reachable _ _ _ 1000). apply succeeded_final.
    vm_compute. reflexivity. }
  assert (Hall : Forall (fun pw => (2 <= length pw)%nat)
                   (paths_of (trace (final_state eleven_run)))).
  { vm_compute. repeat constructor. }
  destruct (classification_by_two_stations _ _ _ _ Hr) as (_ & _ & _ & Hf & Hrest).
  destruct (Hrest Hall) as [Hsum Htr].
  exact (conj Hall (conj Hf (conj Hsum Htr))).
Defined.

(** ** An entry station that resolves every call *)

Lemma Qsum_zero_all (l : list Q) :
  Forall (fun x => 0 <= x) l -> Qsum l == 0 -> Forall (fun x => x == 0) l.
Proof.
  induction 1 as [|x l Hx Hl IH]; intros Hsum; [constructor|].
  cbn [Qsum foldr] in Hsum. change (x + Qsum l == 0) in Hsum.
  pose proof (Qsum_nonneg l Hl) as Hn.
  constructor; [lra | apply IH; lra].
Qed.

Lemma Qsum_app (l1 l2 : list Q) : Qsum (l1 ++ l2) == Qsum l1 + Qsum l2.
Proof.
  induction l1 as [|x l1 IH]; cbn [app Qsum foldr].
  - change (Qsum l2 == 0 + Qsum l2). lra.
  - change (x + Qsum (l1 ++ l2) == x + Qsum l1 + Qsum l2). lra.
Qed.

Lemma searchsorted_skips (l1 l2 : list (node * Q)) (c : node) (p acc u : Q) :
  Forall (fun cp => snd cp == 0) l1 -> acc == 0 -> p == 1 -> 0 <= u -> u < 1 ->
  searchsorted (l1 ++ (c, p) :: l2) acc u = Ok c.
Proof.
  intros Hl. revert acc.
  induction Hl as [|[c' q] l1 Hq _ IH]; intros acc Hacc Hp H0 H1; cbn [app searchsorted].
  - destruct (Qltb u (acc + p)) eqn:E; [reflexivity|].
    apply Qltb_false in E. lra.
  - cbn [snd] in Hq. destruct (Qltb u (acc + q)) eqn:E.
    + apply Qltb_true in E. lra.
    + apply IH; auto. lra.
Qed.

Lemma weighted_choice_certain (choices : list (node * Q)) (c tgt : node) (p u : Q)
    (draws draws' : list Q) :
  weighted_random_choice choices (u :: draws) = Ok (c, draws') ->
  (tgt, p) ∈ choices -> p == 1 -> 0 <= u -> u < 1 ->
  c = tgt /\ draws' = draws.
Proof.
  unfold weighted_random_choice. intros H Hin Hp H0 H1.
  destruct choices as [|ch chs] eqn:Ech; [discriminate|]. rewrite <- Ech in *.
  destruct (valid_probabilities choices) eqn:Hv; [|discriminate].
  apply andb_true_iff in Hv. destruct Hv as [Hnn Hsum].
  apply Qeq_bool_iff in Hsum.
  assert (Hnn' : Forall (fun x => 0 <= x) (map snd choices)).
  { apply Forall_forall. intros x Hx. apply list_elem_of_In, in_map_iff in Hx.
    destruct Hx as (cp & <- & Hcp). rewrite forallb_forall in Hnn.
    apply Qle_bool_iff. now apply Hnn. }
  apply list_elem_of_split in Hin. destruct Hin as (l1 & l2 & ->).
  rewrite map_app in Hsum, Hnn'. cbn [map snd] in Hsum, Hnn'.
  rewrite Qsum_app in Hsum. cbn [Qsum foldr] in Hsum.
  change (Qsum (map snd l1) + (p + Qsum (map snd l2)) == 1) in Hsum.
  apply Forall_app in Hnn'. destruct Hnn' as [Hn1 Hn2].
  apply Forall_cons in Hn2. destruct Hn2 as [_ Hn2].
  pose proof (Qsum_nonneg _ Hn1) as S1. pose proof (Qsum_nonneg _ Hn2) as S2.
  assert (Z1 : Forall (fun cp : node * Q => snd cp == 0) l1).
  { assert (Hz : Forall (fun x => x == 0) (map snd l1))
      by (apply Qsum_zero_all; [exact Hn1 | lra]).
    rewrite Forall_forall in Hz. apply Forall_forall. intros cp Hcp.
    apply Hz. apply list_elem_of_In, in_map, list_elem_of_In. exact Hcp. }
  rewrite (searchsorted_skips l1 l2 tgt p 0 u Z1) in H by (auto; lra).
  cbn [bind] in H. apply Ok_inj in H. now injection H as <- <-.
Qed.

Lemma build_path_entry_resolves cfg draws pw rest :
  entry_resolves cfg -> unit_draws draws ->
  build_path (transition_probabilities cfg) draws = Ok (pw, rest) ->
  pw = [CRS] /\ unit_draws rest.
Proof.
  intros (choices & p & Htp & Hin & Hp) Hd H.
  unfold build_path in H. cbn [path_loop] in H.
  destruct (decide (CRS = Completed_Support)) as [E|_]; [discriminate E|].
  rewrite Htp in H. cbn [of_option bind] in H.
  destruct (weighted_random_choice choices draws) as [[c d]| |] eqn:Hw;
    cbn [bind] in H; try discriminate.
  destruct draws as [|u draws].
  { unfold weighted_random_choice in Hw. destruct choices; [discriminate|].
    destruct (valid_probabilities _); discriminate. }
  apply Forall_cons in Hd. destruct Hd as [[H0 H1] Hd].
  destruct (weighted_choice_certain _ _ _ _ _ _ _ Hw Hin Hp H0 H1) as [-> ->].
  destruct (decide (Completed_Support = Completed_Support)); [|contradiction].
  apply Ok_inj in H. now injection H as <- <-.
Qed.

Section EntryResolves.

Variable cfg : Config.
Variables exps unifs : list Q.
Hypothesis Hentry : entry_resolves cfg.
Hypothesis Hunit : unit_draws unifs.

Lemma entry_paths_calm s s' :
  calm s s' ->
  unit_draws (unif s) /\ Forall (fun pw => pw = [CRS]) (paths_of (trace s)) ->
  unit_draws (unif s') /\ Forall (fun pw => pw = [CRS]) (paths_of (trace s')).
Proof.
  intros Hc [Hu Hp]. pose proof Hc as (_ & _ & U & _).
  now rewrite U, (calm_paths _ _ Hc).
Qed.

Lemma entry_paths_reachable s :
  reachable cfg exps unifs s ->
  unit_draws (unif s) /\ Forall (fun pw => pw = [CRS]) (paths_of (trace s)).
Proof.
  revert s.
  apply (reachable_ind_simple cfg exps unifs
           (fun s => unit_draws (unif s)
                     /\ Forall (fun pw => pw = [CRS]) (paths_of (trace s)))).
  - intros s H. apply (entry_paths_calm (empty_state cfg exps unifs)).
    + now apply quiet_calm, quiet_setup.
    + split; [exact Hunit | constructor].
  - intros s x q H _. revert H. apply entry_paths_calm, quiet_calm, quiet_pop.
  - intros e cb s s' H Hcb. destruct cb as [p|c|c|n|n];
      try (revert H; apply entry_paths_calm, quiet_calm;
           eapply quiet_run_callback; [|exact Hcb]; discriminate).
    cbn [run_callback] in Hcb. apply resume_booking in Hcb.
    destruct Hcb as [Hc | pw d lq Hbp U N G T F
                    | n rest a r prm u lq Hgen Hprm Hu U N G T F
                    | n rest w sv r prm u lq Hgen Hprm Hu U N G T F].
    + revert H. now apply entry_paths_calm.
    + destruct H as [Hu Hp].
      destruct (build_path_entry_resolves _ _ _ _ Hentry Hu Hbp) as [-> Hd].
      rewrite U, T, paths_of_app, bookless_paths by exact F.
      split; [exact Hd|]. cbn [app paths_of flat_map].
      constructor; [reflexivity | exact Hp].
    + destruct H as [Hu' Hp]. rewrite U, T, paths_of_app, bookless_paths by exact F.
      split; [exact Hu' | exact Hp].
    + destruct H as [Hu' Hp]. rewrite U, T, paths_of_app, bookless_paths by exact F.
      split; [exact Hu' | exact Hp].
Qed.

End EntryResolves.

(** When the entry station resolves every call, the transfer count goes
    down by one per path. *)
Lemma entry_resolves_transfers cfg exps unifs s :
  entry_resolves cfg -> unit_draws unifs ->
  reachable cfg exps unifs s ->
  transfer_count (gene_stats s) = (- Z.of_nat (length (paths_of (trace s))))%Z.
Proof.
  intros He Hu Hs.
  destruct (entry_paths_reachable cfg exps unifs He Hu s Hs) as [_ Hp].
  destruct (books_inv_reachable _ _ _ _ Hs) as [Hg _].
  rewrite Hg, classify_all_transfers. unfold transfers_of. clear Hg.
  induction Hp as [|pw pws -> _ IH]; [reflexivity|].
  cbn [List.filter two_stations length Nat.eqb negb map Zsum foldr] in *.
  unfold Zsum in IH. rewrite IH. cbn [CRS]. lia.
Qed.

(** ** The wake-up invariant: basic facts *)

Lemma queued_heappush x q e :
  e ∈ map e_ev (heappush x q) <-> e = e_ev x \/ e ∈ map e_ev q.
Proof.
  rewrite (heappush_perm x q). cbn [map]. rewrite elem_of_cons. tauto.
Qed.

Lemma queued_schedule x prio d s e :
  queued (schedule x prio d s) e <-> e = x \/ queued s e.
Proof. unfold queued. proj. now rewrite queued_heappush. Qed.

Lemma wake_allocated cur s e :
  wake_inv cur s -> events s e <> blank_event -> (e < next_event s)%nat.
Proof.
  intros W H. destruct (Nat.lt_ge_cases e (next_event s)) as [|Hge]; [assumption|].
  destruct (wi_fresh _ _ W e Hge) as [Hb _]. contradiction.
Qed.

Lemma triggered_allocated cur s e :
  wake_inv cur s -> triggered (events s e) = true -> (e < next_event s)%nat.
Proof.
  intros W H. apply (wake_allocated cur s e W). intros Hb. now rewrite Hb in H.
Qed.

Lemma callbacks_allocated cur s e l :
  wake_inv cur s -> callbacks (events s e) = Some l -> (e < next_event s)%nat.
Proof.
  intros W H. apply (wake_allocated cur s e W). intros Hb. now rewrite Hb in H.
Qed.

Lemma cursor_allocated e l s :
  wake_inv (Some (e, l)) s -> (e < next_event s)%nat.
Proof.
  intros W. destruct (wi_cursor _ _ W e l eq_refl) as [_ Ht].
  eapply triggered_allocated; eauto.
Qed.

Lemma pending_allocated cur s e l :
  wake_inv cur s -> pending_callbacks cur s e = Some l -> (e < next_event s)%nat.
Proof.
  intros W H. destruct cur as [[e0 l0]|]; cbn [pending_callbacks] in H.
  - destruct (decide (e = e0)) as [->|_].
    + eapply cursor_allocated; eauto.
    + eapply callbacks_allocated; eauto.
  - eapply callbacks_allocated; eauto.
Qed.

Lemma process_allocated cur s p :
  wake_inv cur s -> target (procs s p) <> None -> (p < next_event s)%nat.
Proof.
  intros W H. destruct (Nat.lt_ge_cases p (next_event s)) as [|Hge]; [assumption|].
  destruct (wi_fresh _ _ W p Hge) as [_ Hb]. now rewrite Hb in H.
Qed.

Lemma pending_callbacks_other e0 l0 s e :
  e <> e0 -> pending_callbacks (Some (e0, l0)) s e = callbacks (events s e).
Proof. intros H. cbn [pending_callbacks]. now rewrite decide_False. Qed.

Lemma pending_callbacks_cursor e0 l0 s :
  pending_callbacks (Some (e0, l0)) s e0 = Some l0.
Proof. cbn [pending_callbacks]. now rewrite decide_True. Qed.

(** Operations that change no callback list of an allocated event and
    never touch the event being processed. *)
Lemma pending_callbacks_same cur s s' e :
  callbacks (events s' e) = callbacks (events s e) ->
  pending_callbacks cur s' e = pending_callbacks cur s e.
Proof.
  intros H. destruct cur as [[e0 l0]|]; cbn [pending_callbacks]; [|exact H].
  destruct (decide (e = e0)); [reflexivity | exact H].
Qed.

Lemma live_mono2 cur cur' s s' e :
  (forall x, due cur s x -> due cur' s' x) ->
  (forall x c, has_callback cur s x (Check c) -> has_callback cur' s' x (Check c)) ->
  (triggered (events s e) = false -> triggered (events s' e) = false \/ due cur' s' e) ->
  (target (procs s e) <> None -> target (procs s' e) <> None \/ due cur' s' e) ->
  live cur s e -> live cur' s' e.
Proof.
  intros Hdue Hcb Htr Htg [Hd|[Hf Hl]]; [left; auto|].
  destruct (Htr Hf) as [Hf'|Hd]; [|left; exact Hd].
  destruct Hl as [(t & Ht & Hc)|Hp].
  - right. split; [exact Hf'|]. left. exists t. split; auto.
  - destruct (Htg Hp) as [Hp'|Hd]; [|left; exact Hd].
    right. split; [exact Hf'|]. right. exact Hp'.
Qed.

Lemma live_mono cur s s' e :
  (forall x, due cur s x -> due cur s' x) ->
  (forall x cb, has_callback cur s x cb -> has_callback cur s' x cb) ->
  (triggered (events s e) = false -> triggered (events s' e) = false \/ due cur s' e) ->
  (target (procs s e) <> None -> target (procs s' e) <> None \/ due cur s' e) ->
  live cur s e -> live cur s' e.
Proof.
  intros Hdue Hcb Htr Htg [Hd|[Hf Hl]]; [left; auto|].
  destruct (Htr Hf) as [Hf'|Hd]; [|left; exact Hd].
  destruct Hl as [(t & Ht & Hc)|Hp].
  - right. split; [exact Hf'|]. left. exists t. split; auto.
  - destruct (Htg Hp) as [Hp'|Hd]; [|left; exact Hd].
    right. split; [exact Hf'|]. right. exact Hp'.
Qed.

(** Operations that touch neither the heap, nor the events, nor the
    processes, nor the queues of the stations. *)
Lemma wake_inv_same cur s s' :
  queue s' = queue s -> events s' = events s -> procs s' = procs s ->
  next_event s' = next_event s ->
  (forall n, put_queue (nodes s' n) = put_queue (nodes s n)
             /\ get_queue (nodes s' n) = get_queue (nodes s n)) ->
  wake_inv cur s -> wake_inv cur s'.
Proof.
  intros Q' E P N R W.
  assert (Hpc : forall e, pending_callbacks cur s' e = pending_callbacks cur s e).
  { intros e. apply pending_callbacks_same. now rewrite E. }
  assert (Hdue : forall e, due cur s' e <-> due cur s e).
  { intros e. unfold due, queued. now rewrite Q'. }
  assert (Hhc : forall e cb, has_callback cur s' e cb <-> has_callback cur s e cb).
  { intros e cb. unfold has_callback. now rewrite Hpc. }
  constructor.
  - intros e l Hc. rewrite E. exact (wi_cursor _ _ W e l Hc).
  - intros e He. rewrite E. apply (wi_queue _ _ W). unfold queued in *. now rewrite <- Q'.
  - intros e l Hl. rewrite Hpc in Hl.
    destruct (wi_callbacks _ _ W e l Hl) as [H1 H2]. split; [exact H1|].
    intros cb Hcb. specialize (H2 cb Hcb).
    destruct cb; cbn [callback_ok] in *; rewrite ?E, ?P, ?N; exact H2.
  - intros p. rewrite P, E. pose proof (wi_procs _ _ W p) as Hp.
    destruct (target (procs s p)) as [e|]; [|exact Hp].
    destruct Hp as (H1 & H2 & H3 & H4 & H5).
    repeat split; auto; [now apply Hhc|].
    revert H5. apply live_mono.
    + intros x. apply Hdue.
    + intros x cb. apply Hhc.
    + rewrite E. auto.
    + rewrite P. auto.
  - intros e He. rewrite E, P. apply (wi_fresh _ _ W). now rewrite <- N.
  - intros n r Hr. destruct (R n) as [R1 R2]. rewrite R1, R2 in Hr.
    rewrite E, N. now apply (wi_nodes _ _ W n).
Qed.

(** ** The wake-up invariant under the kernel operations *)

Lemma due_schedule cur x prio d s e :
  due cur (schedule x prio d s) e <-> e = x \/ due cur s e.
Proof. unfold due. rewrite queued_schedule. tauto. Qed.

Lemma has_callback_same cur s s' e cb :
  callbacks (events s' e) = callbacks (events s e) ->
  has_callback cur s' e cb <-> has_callback cur s e cb.
Proof. intros H. unfold has_callback. now rewrite (pending_callbacks_same cur s s' e H). Qed.

(** Scheduling an event that is already triggered. *)
Lemma wake_inv_schedule cur x prio d s :
  triggered (events s x) = true ->
  wake_inv cur s -> wake_inv cur (schedule x prio d s).
Proof.
  intros Hx W. constructor.
  - intros e l Hc. exact (wi_cursor _ _ W e l Hc).
  - intros e He. apply queued_schedule in He. destruct He as [->|He]; [exact Hx|].
    now apply (wi_queue _ _ W).
  - intros e l Hl. exact (wi_callbacks _ _ W e l Hl).
  - intros p. pose proof (wi_procs _ _ W p) as Hp. proj.
    destruct (target (procs s p)) as [e|]; [|exact Hp].
    destruct Hp as (H1 & H2 & H3 & H4 & H5). repeat split; auto.
    revert H5. apply live_mono; auto.
    + intros y Hy. apply due_schedule. now right.
  - intros e He. now apply (wi_fresh _ _ W).
  - intros n r Hr. now apply (wi_nodes _ _ W n).
Qed.

(** Triggering and scheduling an event that is not a process. *)
Lemma wake_inv_trigger cur x prio d s :
  kind (events s x) <> KProcess -> (x < next_event s)%nat ->
  wake_inv cur s ->
  wake_inv cur (schedule x prio d (upd_event x (with_triggered true) s)).
Proof.
  intros Hk Hx W.
  set (s' := schedule x prio d (upd_event x (with_triggered true) s)).
  assert (Hev : forall e, events s' e
                          = if decide (x = e) then with_triggered true (events s e)
                            else events s e).
  { intros e. subst s'. proj. destruct (decide (x = e)) as [->|Hne].
    - now rewrite fn_lookup_alter.
    - now rewrite fn_lookup_alter_ne. }
  assert (Hcb : forall e, callbacks (events s' e) = callbacks (events s e)).
  { intros e. rewrite Hev. now destruct (decide (x = e)) as [->|]. }
  assert (Hkind : forall e, kind (events s' e) = kind (events s e)).
  { intros e. rewrite Hev. now destruct (decide (x = e)) as [->|]. }
  assert (Htr : forall e, triggered (events s' e)
                          = if decide (x = e) then true else triggered (events s e)).
  { intros e. rewrite Hev. now destruct (decide (x = e)) as [->|]. }
  assert (Hq : forall e, queued s' e <-> e = x \/ queued s e).
  { intros e. unfold s'. rewrite queued_schedule. reflexivity. }
  assert (Hdue : forall e, due cur s e -> due cur s' e).
  { intros e [He|He]; [left; apply Hq; now right | now right]. }
  assert (Hhc : forall e cb, has_callback cur s e cb -> has_callback cur s' e cb).
  { intros e cb. apply has_callback_same. apply Hcb. }
  constructor.
  - intros e l Hc. destruct (wi_cursor _ _ W e l Hc) as [H1 H2].
    split; [now rewrite Hcb|]. rewrite Htr. now destruct (decide (x = e)).
  - intros e He. apply Hq in He. rewrite Htr.
    destruct (decide (x = e)); [reflexivity|].
    destruct He as [->|He]; [contradiction|]. now apply (wi_queue _ _ W).
  - intros e l Hl.
    rewrite (pending_callbacks_same cur s) in Hl by apply Hcb.
    destruct (wi_callbacks _ _ W e l Hl) as [H1 H2]. split; [exact H1|].
    intros cb Hin. specialize (H2 cb Hin).
    destruct cb; cbn [callback_ok] in *; rewrite ?Hkind; exact H2.
  - intros p. pose proof (wi_procs _ _ W p) as Hp.
    change (procs s') with (procs s).
    destruct (target (procs s p)) as [e|]; [|exact Hp].
    destruct Hp as (H1 & H2 & H3 & H4 & H5).
    rewrite Hkind, Htr.
    assert (Hpx : x <> p) by (intros ->; contradiction).
    rewrite decide_False by exact Hpx.
    repeat split; auto.
    revert H5. apply live_mono; auto.
    + intros Hf. rewrite Htr. destruct (decide (x = e)) as [->|_]; [|now left].
      right. left. apply Hq. now left.
  - intros e He. destruct (wi_fresh _ _ W e He) as [H1 H2]. split; [|exact H2].
    rewrite Hev, decide_False by (change (next_event s') with (next_event s) in He; lia).
    exact H1.
  - intros n r Hr. destruct (wi_nodes _ _ W n r Hr) as [H1 H2].
    split; [|exact H2]. now rewrite Hkind.
Qed.

Lemma wake_inv_succeed cur x s s' :
  succeed x s = Ok s' ->
  kind (events s x) <> KProcess -> (x < next_event s)%nat ->
  wake_inv cur s -> wake_inv cur s'.
Proof.
  unfold succeed. intros H Hk Hx W.
  destruct (triggered (events s x)); [discriminate|].
  apply Ok_inj in H. subst s'. now apply wake_inv_trigger.
Qed.

(** A new event object. *)
Lemma wake_inv_new_event cur k b s :
  wake_inv cur s -> wake_inv cur (snd (new_event k b s)).
Proof.
  intros W. set (x := next_event s). set (s' := snd (new_event k b s)).
  assert (Hx : events s' x = {| kind := k; callbacks := Some []; triggered := b;
                                value := [] |}).
  { subst s' x. unfold new_event. proj. apply fn_lookup_insert. }
  assert (Hold : forall e, e <> x -> events s' e = events s e).
  { intros e He. subst s' x. unfold new_event. proj. now apply fn_lookup_insert_ne. }
  assert (Hnext : next_event s' = S x) by reflexivity.
  assert (Hcur : forall e l, cur = Some (e, l) -> e <> x).
  { intros e l ->. pose proof (cursor_allocated _ _ _ W). subst x. lia. }
  assert (Hpc : forall e, e <> x -> pending_callbacks cur s' e = pending_callbacks cur s e).
  { intros e He. apply pending_callbacks_same. now rewrite Hold. }
  assert (Hpx : pending_callbacks cur s' x = Some []).
  { destruct cur as [[e0 l0]|]; cbn [pending_callbacks].
    - rewrite decide_False by (intros E; eapply Hcur; eauto). now rewrite Hx.
    - now rewrite Hx. }
  assert (Hhc : forall e cb, has_callback cur s e cb -> has_callback cur s' e cb).
  { intros e cb (l & Hl & Hin). exists l. split; [|exact Hin].
    rewrite Hpc; [exact Hl|]. pose proof (pending_allocated _ _ _ _ W Hl). subst x. lia. }
  assert (Hdue : forall e, due cur s e -> due cur s' e) by (intros e H; exact H).
  constructor.
  - intros e l Hc. rewrite Hold by (eapply Hcur; eauto).
    exact (wi_cursor _ _ W e l Hc).
  - intros e He. pose proof (wi_queue _ _ W e He) as Ht.
    rewrite Hold; [exact Ht|].
    pose proof (triggered_allocated _ _ _ W Ht). subst x. lia.
  - intros e l Hl. destruct (decide (e = x)) as [->|Hne].
    + rewrite Hpx in Hl. injection Hl as <-.
      split; [constructor|]. intros ? Hin. now apply elem_of_nil in Hin.
    + rewrite Hpc in Hl by exact Hne.
      destruct (wi_callbacks _ _ W e l Hl) as [H1 H2]. split; [exact H1|].
      intros cb Hin. specialize (H2 cb Hin).
      destruct cb as [p|c|c|n|n]; cbn [callback_ok] in *; auto.
      destruct H2 as [? ?]. rewrite Hold by (subst x; lia). rewrite Hnext.
      split; [assumption | subst x; lia].
  - intros p. pose proof (wi_procs _ _ W p) as Hp.
    change (procs s') with (procs s).
    destruct (target (procs s p)) as [e|] eqn:Ht; [|exact Hp].
    destruct Hp as (H1 & H2 & H3 & H4 & H5).
    assert (Hp' : p <> x).
    { assert (p < next_event s)%nat; [|subst x; lia].
      eapply process_allocated; eauto. rewrite Ht. discriminate. }
    rewrite Hold by exact Hp'.
    repeat split; auto.
    revert H5. apply live_mono; auto.
    + intros Hf. left. rewrite Hold; [exact Hf|].
      destruct H4 as (l & Hl & _).
      pose proof (pending_allocated _ _ _ _ W Hl). subst x. lia.
  - intros e He. rewrite Hnext in He. rewrite Hold by lia.
    change (procs s') with (procs s). apply (wi_fresh _ _ W). subst x. lia.
  - intros n r Hr. change (nodes s') with (nodes s) in Hr.
    destruct (wi_nodes _ _ W n r Hr) as [H1 H2].
    rewrite Hold by (subst x; lia). split; [exact H1|]. rewrite Hnext. subst x. lia.
Qed.

Lemma events_add_callback x cb s e :
  events (add_callback x cb s) e
  = if decide (x = e)
    then with_callbacks (option_map (fun l => l ++ [cb]) (callbacks (events s e))) (events s e)
    else events s e.
Proof.
  unfold add_callback. proj. destruct (decide (x = e)) as [->|Hne].
  - now rewrite fn_lookup_alter.
  - now rewrite fn_lookup_alter_ne.
Qed.

(** Registering one more callback on an event that is not yet processed. *)
Lemma wake_inv_add_callback cur x cb l s :
  callbacks (events s x) = Some l -> cb ∉ l -> callback_ok s x cb ->
  wake_inv cur s -> wake_inv cur (add_callback x cb s).
Proof.
  intros Hx Hnew Hok W. set (s' := add_callback x cb s).
  assert (Hev : forall e, events s' e
            = if decide (x = e) then with_callbacks (Some (l ++ [cb])) (events s e)
              else events s e).
  { intros e. unfold s'. rewrite events_add_callback.
    destruct (decide (x = e)) as [<-|]; [now rewrite Hx | reflexivity]. }
  assert (Hkind : forall e, kind (events s' e) = kind (events s e)).
  { intros e. rewrite Hev. now destruct (decide (x = e)) as [->|]. }
  assert (Htr : forall e, triggered (events s' e) = triggered (events s e)).
  { intros e. rewrite Hev. now destruct (decide (x = e)) as [->|]. }
  assert (Hcbx : callbacks (events s' x) = Some (l ++ [cb])).
  { rewrite Hev. now rewrite decide_True. }
  assert (Hcbo : forall e, e <> x -> callbacks (events s' e) = callbacks (events s e)).
  { intros e He. rewrite Hev. now rewrite decide_False. }
  assert (Hcur : forall e l0, cur = Some (e, l0) -> e <> x).
  { intros e l0 -> ->. destruct (wi_cursor _ _ W x l0 eq_refl) as [Hn _]. congruence. }
  assert (Hpx : pending_callbacks cur s x = Some l /\
                pending_callbacks cur s' x = Some (l ++ [cb])).
  { destruct cur as [[e0 l0]|]; cbn [pending_callbacks]; [|now split].
    destruct (decide (x = e0)) as [E|_]; [|now split].
    exfalso. now apply (Hcur e0 l0 eq_refl). }
  assert (Hpo : forall e, e <> x -> pending_callbacks cur s' e = pending_callbacks cur s e).
  { intros e He. apply pending_callbacks_same. now apply Hcbo. }
  assert (Hhc : forall e c, has_callback cur s e c -> has_callback cur s' e c).
  { intros e c (l1 & Hl1 & Hin). destruct (decide (e = x)) as [->|Hne].
    - destruct Hpx as [P1 P2]. rewrite P1 in Hl1. injection Hl1 as <-.
      exists (l ++ [cb]). split; [exact P2|]. apply elem_of_app. now left.
    - exists l1. split; [now rewrite Hpo | exact Hin]. }
  assert (Hdue : forall e, due cur s e -> due cur s' e) by (intros e H; exact H).
  assert (Hok' : forall e c, callback_ok s e c -> callback_ok s' e c).
  { intros e c H. destruct c; cbn [callback_ok] in *; rewrite ?Hkind; exact H. }
  constructor.
  - intros e l0 Hc. rewrite Hcbo, Htr by (eapply Hcur; eauto).
    exact (wi_cursor _ _ W e l0 Hc).
  - intros e He. rewrite Htr. now apply (wi_queue _ _ W).
  - intros e l1 Hl1. destruct (decide (e = x)) as [->|Hne].
    + destruct Hpx as [P1 P2]. rewrite P2 in Hl1. injection Hl1 as <-.
      destruct (wi_callbacks _ _ W x l P1) as [N1 N2]. split.
      * apply NoDup_app. split; [exact N1|]. split; [|apply NoDup_singleton].
        intros c Hc Hc'. apply list_elem_of_singleton in Hc'. now subst c.
      * intros c Hc. apply elem_of_app in Hc. destruct Hc as [Hc|Hc].
        -- now apply Hok', N2.
        -- apply list_elem_of_singleton in Hc. subst c. now apply Hok'.
    + rewrite Hpo in Hl1 by exact Hne.
      destruct (wi_callbacks _ _ W e l1 Hl1) as [N1 N2]. split; [exact N1|].
      intros c Hc. now apply Hok', N2.
  - intros p. pose proof (wi_procs _ _ W p) as Hp. change (procs s') with (procs s).
    destruct (target (procs s p)) as [e|]; [|exact Hp].
    destruct Hp as (H1 & H2 & H3 & H4 & H5). rewrite Hkind, Htr.
    repeat split; auto.
    revert H5. apply live_mono; auto.
    intros Hf. left. now rewrite Htr.
  - intros e He. change (next_event s') with (next_event s) in He.
    change (procs s') with (procs s).
    rewrite Hev, decide_False; [now apply (wi_fresh _ _ W)|].
    pose proof (callbacks_allocated _ _ _ _ W Hx). lia.
  - intros n r Hr. change (nodes s') with (nodes s) in Hr. rewrite Hkind.
    now apply (wi_nodes _ _ W n).
Qed.

(** Changing the queues of a station. *)
Lemma wake_inv_upd_node cur n f s :
  (forall r, r ∈ put_queue (f (nodes s n)) ++ get_queue (f (nodes s n)) ->
             r ∈ put_queue (nodes s n) ++ get_queue (nodes s n)
             \/ (kind (events s r) <> KProcess /\ (r < next_event s)%nat)) ->
  wake_inv cur s -> wake_inv cur (upd_node n f s).
Proof.
  intros Hf W. constructor.
  - exact (wi_cursor _ _ W).
  - exact (wi_queue _ _ W).
  - exact (wi_callbacks _ _ W).
  - exact (wi_procs _ _ W).
  - exact (wi_fresh _ _ W).
  - intros m r Hr. proj. destruct (decide (n = m)) as [->|Hne].
    + rewrite fn_lookup_alter in Hr. destruct (Hf r Hr) as [H|H]; [|exact H].
      now apply (wi_nodes _ _ W m).
    + rewrite fn_lookup_alter_ne in Hr by exact Hne. now apply (wi_nodes _ _ W m).
Qed.

(** A process that waits for the event being processed is resumed and
    yields a new event. *)
Lemma wake_inv_yield e0 l0 s p ev lev g :
  wake_inv (Some (e0, Resume p :: l0)) s ->
  callbacks (events s ev) = Some lev -> (p < ev)%nat ->
  live (Some (e0, l0)) s ev ->
  wake_inv (Some (e0, l0)) (yield p ev g s).
Proof.
  intros W Hev Hlt Hlive.
  set (cur := Some (e0, Resume p :: l0)) in *. set (cur' := Some (e0, l0)).
  set (s' := yield p ev g s).
  destruct (wi_cursor _ _ W e0 _ eq_refl) as [Hc0 Ht0].
  destruct (wi_callbacks _ _ W e0 _ (pending_callbacks_cursor _ _ _)) as [Hnd Hok0].
  assert (Htp : target (procs s p) = Some e0) by (apply (Hok0 (Resume p)); left).
  pose proof (wi_procs _ _ W p) as Hp. rewrite Htp in Hp.
  destruct Hp as (Hp1 & Hp2 & Hp3 & _ & _).
  apply NoDup_cons in Hnd. destruct Hnd as [Hnp Hnd].
  assert (Hne : ev <> e0) by (intros ->; congruence).
  assert (Hevs : forall e, events s' e
            = if decide (ev = e) then with_callbacks (Some (lev ++ [Resume p])) (events s e)
              else events s e).
  { intros e. unfold s', yield. rewrite events_add_callback. proj.
    destruct (decide (ev = e)) as [<-|]; [now rewrite Hev | reflexivity]. }
  assert (Hkind : forall e, kind (events s' e) = kind (events s e)).
  { intros e. rewrite Hevs. now destruct (decide (ev = e)) as [->|]. }
  assert (Htr : forall e, triggered (events s' e) = triggered (events s e)).
  { intros e. rewrite Hevs. now destruct (decide (ev = e)) as [->|]. }
  assert (Hprocs : forall q, procs s' q
            = if decide (p = q) then {| gen := g; target := Some ev |} else procs s q).
  { intros q. unfold s', yield, add_callback. proj. destruct (decide (p = q)) as [->|Hq].
    - now rewrite fn_lookup_insert.
    - now rewrite fn_lookup_insert_ne. }
  assert (Hpend : forall e, pending_callbacks cur' s' e
            = if decide (e = e0) then Some l0
              else if decide (ev = e) then Some (lev ++ [Resume p])
                   else pending_callbacks cur s e).
  { intros e. unfold cur', cur. cbn [pending_callbacks].
    destruct (decide (e = e0)); [reflexivity|]. rewrite Hevs.
    destruct (decide (ev = e)); reflexivity. }
  assert (Hnores : forall e l, e <> e0 -> pending_callbacks cur s e = Some l -> Resume p ∉ l).
  { intros e l He Hl Hin. destruct (wi_callbacks _ _ W e l Hl) as [_ Hok].
    specialize (Hok _ Hin). cbn [callback_ok] in Hok. congruence. }
  assert (Hold : forall e l, pending_callbacks cur s e = Some l ->
            exists l', pending_callbacks cur' s' e = Some l' /\
                       forall cb, cb ∈ l -> cb <> Resume p -> cb ∈ l').
  { intros e l Hl. rewrite Hpend. destruct (decide (e = e0)) as [->|He].
    - unfold cur in Hl. rewrite pending_callbacks_cursor in Hl. injection Hl as <-.
      exists l0. split; [reflexivity|]. intros cb Hin Hcb.
      apply elem_of_cons in Hin. destruct Hin as [->|Hin]; [contradiction | exact Hin].
    - destruct (decide (ev = e)) as [<-|He'].
      + unfold cur in Hl. rewrite pending_callbacks_other in Hl by exact He.
        rewrite Hev in Hl. injection Hl as <-.
        exists (lev ++ [Resume p]). split; [reflexivity|].
        intros cb Hin _. apply elem_of_app. now left.
      + exists l. split; [exact Hl | auto]. }
  assert (Hhc : forall e cb, has_callback cur s e cb -> cb <> Resume p ->
                             has_callback cur' s' e cb).
  { intros e cb (l & Hl & Hin) Hcb. destruct (Hold e l Hl) as (l' & Hl' & Hsub).
    exists l'. split; [exact Hl' | now apply Hsub]. }
  assert (Hdue : forall e, due cur s e -> due cur' s' e).
  { intros e [He|(l & He)]; [now left|]. right. unfold cur in He.
    injection He as -> _. now exists l0. }
  assert (Hdue' : forall e, due cur' s e -> due cur' s' e) by (intros e H; exact H).
  assert (Hok' : forall e cb, callback_ok s e cb -> cb <> Resume p -> callback_ok s' e cb).
  { intros e cb H Hcb. destruct cb as [q|c|c|n|n]; cbn [callback_ok] in *;
      rewrite ?Hkind; auto.
    rewrite Hprocs, decide_False; [exact H | congruence]. }
  constructor.
  - intros e l [= <- <-]. rewrite Hevs, decide_False by exact Hne. now split.
  - intros e He. rewrite Htr. now apply (wi_queue _ _ W).
  - intros e l Hl. rewrite Hpend in Hl. destruct (decide (e = e0)) as [->|He].
    + injection Hl as <-. split; [exact Hnd|]. intros cb Hin.
      apply Hok'; [apply Hok0; now right|]. intros ->. contradiction.
    + destruct (decide (ev = e)) as [<-|He'].
      * injection Hl as <-.
        assert (Hpe : pending_callbacks cur s ev = Some lev).
        { unfold cur. now rewrite pending_callbacks_other. }
        destruct (wi_callbacks _ _ W ev lev Hpe) as [N1 N2]. split.
        -- apply NoDup_app. split; [exact N1|]. split; [|apply NoDup_singleton].
           intros c Hc Hc'. apply list_elem_of_singleton in Hc'. subst c.
           now apply (Hnores ev lev).
        -- intros cb Hin. apply elem_of_app in Hin. destruct Hin as [Hin|Hin].
           ++ apply Hok'; [now apply N2|]. intros ->. now apply (Hnores ev lev).
           ++ apply list_elem_of_singleton in Hin. subst cb. cbn [callback_ok].
              rewrite Hprocs, decide_True by reflexivity. reflexivity.
      * destruct (wi_callbacks _ _ W e l Hl) as [N1 N2]. split; [exact N1|].
        intros cb Hin. apply Hok'; [now apply N2|]. intros ->. now apply (Hnores e l).
  - intros q. rewrite Hprocs. destruct (decide (p = q)) as [<-|Hq].
    + cbn [target]. rewrite Hkind, Htr. repeat split; auto.
      * exists (lev ++ [Resume p]). split.
        -- rewrite Hpend, decide_False, decide_True by auto. reflexivity.
        -- apply elem_of_app. right. now apply list_elem_of_singleton.
      * revert Hlive. apply live_mono2; auto.
        -- intros x c (l & Hl & Hin). unfold cur' in Hl.
           destruct (decide (x = e0)) as [->|Hx].
           ++ rewrite pending_callbacks_cursor in Hl. injection Hl as <-.
              exists l0. split; [|exact Hin]. now rewrite Hpend, decide_True.
           ++ rewrite pending_callbacks_other in Hl by exact Hx.
              apply (Hhc x (Check c)); [|discriminate].
              exists l. split; [|exact Hin]. unfold cur.
              now rewrite pending_callbacks_other.
        -- intros Hf. left. now rewrite Htr.
        -- intros Ht. left. rewrite Hprocs. destruct (decide (p = ev)); [discriminate|exact Ht].
    + pose proof (wi_procs _ _ W q) as Hq'.
      destruct (target (procs s q)) as [e|]; [|exact Hq'].
      destruct Hq' as (H1 & H2 & H3 & H4 & H5). rewrite Hkind, Htr.
      repeat split; auto.
      * apply Hhc; [exact H4|]. congruence.
      * revert H5. apply live_mono2; [exact Hdue| | |].
        -- intros x c Hx. apply Hhc; [exact Hx | discriminate].
        -- intros Hf. left. now rewrite Htr.
        -- intros Ht. left. rewrite Hprocs. destruct (decide (p = e)); [discriminate|exact Ht].
  - intros e He. change (next_event s') with (next_event s) in He.
    pose proof (callbacks_allocated _ _ _ _ W Hev) as Ha.
    assert (Hpa : (p < next_event s)%nat).
    { eapply process_allocated; eauto. rewrite Htp. discriminate. }
    rewrite Hevs, Hprocs, !decide_False by lia. now apply (wi_fresh _ _ W).
  - intros n r Hr. change (nodes s') with (nodes s) in Hr. rewrite Hkind.
    now apply (wi_nodes _ _ W n).
Qed.

(** A process that waits for the event being processed is resumed and
    comes to its end. *)
Lemma wake_inv_finish e0 l0 s p :
  wake_inv (Some (e0, Resume p :: l0)) s ->
  wake_inv (Some (e0, l0)) (finish p s).
Proof.
  intros W.
  set (cur := Some (e0, Resume p :: l0)) in *. set (cur' := Some (e0, l0)).
  set (s' := finish p s).
  destruct (wi_cursor _ _ W e0 _ eq_refl) as [Hc0 Ht0].
  destruct (wi_callbacks _ _ W e0 _ (pending_callbacks_cursor _ _ _)) as [Hnd Hok0].
  assert (Htp : target (procs s p) = Some e0) by (apply (Hok0 (Resume p)); left).
  pose proof (wi_procs _ _ W p) as Hp. rewrite Htp in Hp.
  destruct Hp as (Hp1 & Hp2 & Hp3 & _ & _).
  apply NoDup_cons in Hnd. destruct Hnd as [Hnp Hnd].
  assert (Hevs : forall e, events s' e
            = if decide (p = e) then with_triggered true (events s e) else events s e).
  { intros e. unfold s'. proj. destruct (decide (p = e)) as [->|Hne].
    - now rewrite fn_lookup_alter.
    - now rewrite fn_lookup_alter_ne. }
  assert (Hcb : forall e, callbacks (events s' e) = callbacks (events s e)).
  { intros e. rewrite Hevs. now destruct (decide (p = e)) as [->|]. }
  assert (Hkind : forall e, kind (events s' e) = kind (events s e)).
  { intros e. rewrite Hevs. now destruct (decide (p = e)) as [->|]. }
  assert (Htr : forall e, triggered (events s' e)
                          = if decide (p = e) then true else triggered (events s e)).
  { intros e. rewrite Hevs. now destruct (decide (p = e)) as [->|]. }
  assert (Hq : forall e, queued s' e <-> e = p \/ queued s e).
  { intros e. unfold s', finish. rewrite queued_schedule. reflexivity. }
  assert (Hprocs : forall q, procs s' q = if decide (p = q) then idle else procs s q).
  { intros q. unfold s'. proj. destruct (decide (p = q)) as [->|Hq'].
    - now rewrite fn_lookup_insert.
    - now rewrite fn_lookup_insert_ne. }
  assert (Hpend : forall e, pending_callbacks cur' s' e
            = if decide (e = e0) then Some l0 else pending_callbacks cur s e).
  { intros e. unfold cur', cur. cbn [pending_callbacks].
    destruct (decide (e = e0)); [reflexivity|]. now rewrite Hcb. }
  assert (Hnores : forall e l, e <> e0 -> pending_callbacks cur s e = Some l -> Resume p ∉ l).
  { intros e l He Hl Hin. destruct (wi_callbacks _ _ W e l Hl) as [_ Hok].
    specialize (Hok _ Hin). cbn [callback_ok] in Hok. congruence. }
  assert (Hhc : forall e cb, has_callback cur s e cb -> cb <> Resume p ->
                             has_callback cur' s' e cb).
  { intros e cb (l & Hl & Hin) Hne. unfold has_callback. rewrite Hpend.
    destruct (decide (e = e0)) as [->|He].
    - unfold cur in Hl. rewrite pending_callbacks_cursor in Hl. injection Hl as <-.
      exists l0. split; [reflexivity|].
      apply elem_of_cons in Hin. destruct Hin as [->|Hin]; [contradiction | exact Hin].
    - exists l. now split. }
  assert (Hdue : forall e, due cur s e -> due cur' s' e).
  { intros e [He|(l & He)].
    - left. apply Hq. now right.
    - right. unfold cur in He. injection He as -> _. now exists l0. }
  assert (Hduep : due cur' s' p) by (left; apply Hq; now left).
  assert (Hok' : forall e cb, callback_ok s e cb -> cb <> Resume p -> callback_ok s' e cb).
  { intros e cb H Hne. destruct cb as [q|c|c|n|n]; cbn [callback_ok] in *;
      rewrite ?Hkind; auto.
    rewrite Hprocs, decide_False; [exact H | congruence]. }
  constructor.
  - intros e l [= <- <-]. rewrite Hcb, Htr. split; [exact Hc0|].
    now destruct (decide (p = e0)).
  - intros e He. rewrite Htr. destruct (decide (p = e)); [reflexivity|].
    apply Hq in He. destruct He as [->|He]; [contradiction|]. now apply (wi_queue _ _ W).
  - intros e l Hl. rewrite Hpend in Hl. destruct (decide (e = e0)) as [->|He].
    + injection Hl as <-. split; [exact Hnd|]. intros cb Hin.
      apply Hok'; [apply Hok0; now right|]. intros ->. contradiction.
    + destruct (wi_callbacks _ _ W e l Hl) as [N1 N2]. split; [exact N1|].
      intros cb Hin. apply Hok'; [now apply N2|]. intros ->. now apply (Hnores e l).
  - intros q. rewrite Hprocs. destruct (decide (p = q)) as [<-|Hpq]; [reflexivity|].
    pose proof (wi_procs _ _ W q) as Hq'.
    destruct (target (procs s q)) as [e|]; [|exact Hq'].
    destruct Hq' as (H1 & H2 & H3 & H4 & H5). rewrite Hkind, Htr, decide_False by exact Hpq.
    split; [exact H1|]. split; [exact H2|]. split; [exact H3|]. split.
    + apply Hhc; [exact H4|]. congruence.
    + revert H5. apply live_mono2; [exact Hdue| | |].
      * intros x c Hx. apply Hhc; [exact Hx | discriminate].
      * intros Hf. rewrite Htr. destruct (decide (p = e)) as [<-|]; [now right | now left].
      * intros Ht. rewrite Hprocs. destruct (decide (p = e)) as [<-|]; [now right | now left].
  - intros e He. change (next_event s') with (next_event s) in He.
    assert (Hpa : (p < next_event s)%nat).
    { eapply process_allocated; eauto. rewrite Htp. discriminate. }
    rewrite Hevs, Hprocs, !decide_False by lia. now apply (wi_fresh _ _ W).
  - intros n r Hr. change (nodes s') with (nodes s) in Hr. rewrite Hkind.
    now apply (wi_nodes _ _ W n).
Qed.

(** A process that waits for nothing yet starts to wait for event [ev]. *)
Lemma wake_inv_spawn cur s p ev lev g :
  wake_inv cur s ->
  target (procs s p) = None -> kind (events s p) = KProcess ->
  triggered (events s p) = false ->
  callbacks (events s ev) = Some lev -> (p < ev)%nat -> live cur s ev ->
  wake_inv cur (yield p ev g s).
Proof.
  intros W Htp Hkp Hfp Hev Hlt Hlive.
  set (s' := yield p ev g s).
  assert (Hevs : forall e, events s' e
            = if decide (ev = e) then with_callbacks (Some (lev ++ [Resume p])) (events s e)
              else events s e).
  { intros e. unfold s', yield. rewrite events_add_callback. proj.
    destruct (decide (ev = e)) as [<-|]; [now rewrite Hev | reflexivity]. }
  assert (Hkind : forall e, kind (events s' e) = kind (events s e)).
  { intros e. rewrite Hevs. now destruct (decide (ev = e)) as [->|]. }
  assert (Htr : forall e, triggered (events s' e) = triggered (events s e)).
  { intros e. rewrite Hevs. now destruct (decide (ev = e)) as [->|]. }
  assert (Hprocs : forall q, procs s' q
            = if decide (p = q) then {| gen := g; target := Some ev |} else procs s q).
  { intros q. unfold s', yield, add_callback. proj. destruct (decide (p = q)) as [->|Hq].
    - now rewrite fn_lookup_insert.
    - now rewrite fn_lookup_insert_ne. }
  assert (Hpe : pending_callbacks cur s ev = Some lev).
  { destruct cur as [[e0 l0]|]; [|exact Hev]. rewrite pending_callbacks_other; [exact Hev|].
    intros ->. destruct (wi_cursor _ _ W e0 l0 eq_refl). congruence. }
  assert (Hpend : forall e, pending_callbacks cur s' e
            = if decide (ev = e) then Some (lev ++ [Resume p]) else pending_callbacks cur s e).
  { intros e. destruct (decide (ev = e)) as [<-|He].
    - destruct cur as [[e0 l0]|]; cbn [pending_callbacks].
      + destruct (decide (ev = e0)) as [->|].
        * destruct (wi_cursor _ _ W e0 l0 eq_refl). congruence.
        * now rewrite Hevs, decide_True.
      + now rewrite Hevs, decide_True.
    - apply pending_callbacks_same. now rewrite Hevs, decide_False. }
  assert (Hnores : forall e l, pending_callbacks cur s e = Some l -> Resume p ∉ l).
  { intros e l Hl Hin. destruct (wi_callbacks _ _ W e l Hl) as [_ Hok].
    specialize (Hok _ Hin). cbn [callback_ok] in Hok. congruence. }
  assert (Hhc : forall e cb, has_callback cur s e cb -> has_callback cur s' e cb).
  { intros e cb (l & Hl & Hin). unfold has_callback. rewrite Hpend.
    destruct (decide (ev = e)) as [<-|He].
    - rewrite Hpe in Hl. injection Hl as <-. exists (lev ++ [Resume p]).
      split; [reflexivity|]. apply elem_of_app. now left.
    - exists l. now split. }
  assert (Hok' : forall e cb, callback_ok s e cb -> cb <> Resume p -> callback_ok s' e cb).
  { intros e cb H Hne. destruct cb as [q|c|c|n|n]; cbn [callback_ok] in *;
      rewrite ?Hkind; auto.
    rewrite Hprocs, decide_False; [exact H | congruence]. }
  assert (Hlv : forall e, live cur s e -> live cur s' e).
  { intros e. apply live_mono; auto.
    - intros Hf. left. now rewrite Htr.
    - intros Ht. left. rewrite Hprocs. destruct (decide (p = e)); [discriminate|exact Ht]. }
  constructor.
  - intros e l ->. destruct (wi_cursor _ _ W e l eq_refl) as [H1 H2].
    rewrite Hevs, decide_False; [now split|]. intros ->. congruence.
  - intros e He. rewrite Htr. now apply (wi_queue _ _ W).
  - intros e l Hl. rewrite Hpend in Hl. destruct (decide (ev = e)) as [<-|He].
    + injection Hl as <-. destruct (wi_callbacks _ _ W ev lev Hpe) as [N1 N2]. split.
      * apply NoDup_app. split; [exact N1|]. split; [|apply NoDup_singleton].
        intros c Hc Hc'. apply list_elem_of_singleton in Hc'. subst c.
        now apply (Hnores ev lev).
      * intros cb Hin. apply elem_of_app in Hin. destruct Hin as [Hin|Hin].
        -- apply Hok'; [now apply N2|]. intros ->. now apply (Hnores ev lev).
        -- apply list_elem_of_singleton in Hin. subst cb. cbn [callback_ok].
           rewrite Hprocs, decide_True by reflexivity. reflexivity.
    + destruct (wi_callbacks _ _ W e l Hl) as [N1 N2]. split; [exact N1|].
      intros cb Hin. apply Hok'; [now apply N2|]. intros ->. now apply (Hnores e l).
  - intros q. rewrite Hprocs. destruct (decide (p = q)) as [<-|Hq].
    + cbn [target]. rewrite Hkind, Htr.
      split; [exact Hlt|]. split; [exact Hkp|]. split; [exact Hfp|]. split.
      * exists (lev ++ [Resume p]). split.
        -- now rewrite Hpend, decide_True.
        -- apply elem_of_app. right. now apply list_elem_of_singleton.
      * now apply Hlv.
    + pose proof (wi_procs _ _ W q) as Hq'.
      destruct (target (procs s q)) as [e|]; [|exact Hq'].
      destruct Hq' as (H1 & H2 & H3 & H4 & H5). rewrite Hkind, Htr.
      split; [exact H1|]. split; [exact H2|]. split; [exact H3|]. split.
      * now apply Hhc.
      * now apply Hlv.
  - intros e He. change (next_event s') with (next_event s) in He.
    pose proof (callbacks_allocated _ _ _ _ W Hev) as Ha.
    assert (Hpa : (p < next_event s)%nat).
    { apply (wake_allocated cur); [exact W|]. intros E. rewrite E in Hkp. discriminate. }
    rewrite Hevs, Hprocs, !decide_False by lia. now apply (wi_fresh _ _ W).
  - intros n r Hr. change (nodes s') with (nodes s) in Hr. rewrite Hkind.
    now apply (wi_nodes _ _ W n).
Qed.

Lemma process_eq g s :
  process g s
  = (next_event s,
     yield (next_event s) (S (next_event s)) g
       (schedule (S (next_event s)) URGENT 0
          (snd (new_event KInitialize true (snd (new_event KProcess false s)))))).
Proof. reflexivity. Qed.

(** [env.process(...)] *)
Lemma wake_inv_process cur g s :
  wake_inv cur s -> wake_inv cur (snd (process g s)).
Proof.
  intros W. rewrite process_eq. cbn [snd].
  set (p := next_event s).
  set (s1 := snd (new_event KProcess false s)).
  set (s2 := snd (new_event KInitialize true s1)).
  assert (W1 : wake_inv cur s1) by now apply wake_inv_new_event.
  assert (W2 : wake_inv cur s2) by now apply wake_inv_new_event.
  assert (Hp : events s2 p
               = {| kind := KProcess; callbacks := Some []; triggered := false; value := [] |}).
  { unfold s2, s1, p. proj. rewrite fn_lookup_insert_ne by lia.
    now rewrite fn_lookup_insert. }
  assert (Hi : events s2 (S p)
               = {| kind := KInitialize; callbacks := Some []; triggered := true;
                    value := [] |}).
  { unfold s2, s1, p. proj. now rewrite fn_lookup_insert. }
  assert (Hpr : procs s2 p = idle).
  { change (procs s2) with (procs s). apply (wi_fresh _ _ W). unfold p. lia. }
  assert (W3 : wake_inv cur (schedule (S p) URGENT 0 s2)).
  { apply wake_inv_schedule; [|exact W2]. now rewrite Hi. }
  apply (wake_inv_spawn _ _ _ _ []); try exact W3.
  - change (procs (schedule (S p) URGENT 0 s2)) with (procs s2). now rewrite Hpr.
  - change (events (schedule (S p) URGENT 0 s2)) with (events s2). now rewrite Hp.
  - change (events (schedule (S p) URGENT 0 s2)) with (events s2). now rewrite Hp.
  - change (events (schedule (S p) URGENT 0 s2)) with (events s2). now rewrite Hi.
  - lia.
  - left. left. apply queued_schedule. now left.
Qed.

Lemma remove_first_sublist {A} `{EqDecision A} (x : A) (l : list A) :
  sublist (remove_first x l) l.
Proof.
  induction l as [|y l IH]; cbn [remove_first]; [constructor|].
  destruct (decide (x = y)).
  - now apply sublist_cons.
  - now apply sublist_skip.
Qed.

Lemma remove_first_other {A} `{EqDecision A} (x y : A) (l : list A) :
  y <> x -> y ∈ l -> y ∈ remove_first x l.
Proof.
  intros Hne. induction l as [|z l IH]; cbn [remove_first]; [easy|].
  intros Hin. apply elem_of_cons in Hin. destruct (decide (x = z)) as [<-|Hz].
  - destruct Hin as [->|Hin]; [contradiction | exact Hin].
  - apply elem_of_cons. destruct Hin as [->|Hin]; [now left | right; auto].
Qed.

Lemma live_transfer cur cur' s s' e :
  live cur s e ->
  (due cur s e -> due cur' s' e) ->
  (triggered (events s e) = false -> triggered (events s' e) = false \/ due cur' s' e) ->
  (forall t, due cur s t -> has_callback cur s t (Check e) ->
             triggered (events s e) = false ->
             exists t', due cur' s' t' /\ has_callback cur' s' t' (Check e)) ->
  (target (procs s e) <> None -> target (procs s' e) <> None) ->
  live cur' s' e.
Proof.
  intros [Hd|[Hf Hl]] Hdue Htr Hck Htg; [left; auto|].
  destruct (Htr Hf) as [Hf'|Hd]; [|now left].
  right. split; [exact Hf'|]. destruct Hl as [(t & Ht & Hc)|Hp].
  - left. now apply (Hck t).
  - right. auto.
Qed.

(** Changes that only take away: events leave the heap, callbacks leave
    their lists, and whatever a waiting process relies on stays. *)
Lemma wake_inv_weaken cur cur' s s' :
  wake_inv cur s ->
  next_event s' = next_event s ->
  (forall p, procs s' p = procs s p) ->
  (forall e, kind (events s' e) = kind (events s e)) ->
  (forall e, triggered (events s' e) = triggered (events s e)) ->
  (forall e, (next_event s <= e)%nat -> events s' e = events s e) ->
  (forall n, put_queue (nodes s' n) = put_queue (nodes s n)
             /\ get_queue (nodes s' n) = get_queue (nodes s n)) ->
  (forall e l, cur' = Some (e, l) ->
               callbacks (events s' e) = None /\ triggered (events s e) = true) ->
  (forall e, queued s' e -> queued s e) ->
  (forall e l', pending_callbacks cur' s' e = Some l' ->
                l' = [] \/ exists l, pending_callbacks cur s e = Some l /\ sublist l' l) ->
  (forall p e, target (procs s p) = Some e -> has_callback cur s e (Resume p) ->
               live cur s e ->
               has_callback cur' s' e (Resume p) /\ live cur' s' e) ->
  wake_inv cur' s'.
Proof.
  intros W N P K T F R C Q L H. constructor.
  - intros e l Hc. destruct (C e l Hc) as [C1 C2]. now rewrite T.
  - intros e He. rewrite T. apply (wi_queue _ _ W). now apply Q.
  - intros e l' Hl'. destruct (L e l' Hl') as [->|(l & Hl & Hsub)].
    { split; [constructor|]. intros cb Hcb. now apply elem_of_nil in Hcb. }
    destruct (wi_callbacks _ _ W e l Hl) as [N1 N2]. split.
    + eapply sublist_NoDup; eauto.
    + intros cb Hcb. pose proof (N2 cb (elem_of_sublist _ _ _ Hcb Hsub)) as Hok.
      destruct cb; cbn [callback_ok] in *; rewrite ?P, ?K, ?N; exact Hok.
  - intros p. rewrite P, K, T. pose proof (wi_procs _ _ W p) as Hp.
    destruct (target (procs s p)) as [e|] eqn:Ht; [|exact Hp].
    destruct Hp as (H1 & H2 & H3 & H4 & H5).
    destruct (H p e Ht H4 H5) as [H6 H7]. now repeat split.
  - intros e He. rewrite N in He. rewrite F, P by exact He. now apply (wi_fresh _ _ W).
  - intros n r Hr. destruct (R n) as [R1 R2]. rewrite R1, R2 in Hr.
    rewrite K, N. now apply (wi_nodes _ _ W n).
Qed.

(** [heappop]: the event at the head of the heap becomes the one being
    processed. *)
Lemma wake_inv_pop s x q :
  wake_inv None s -> queue s = x :: q ->
  wake_inv (Some (e_ev x, default [] (callbacks (events s (e_ev x))))) (pop x q s).
Proof.
  intros W Hq.
  set (e0 := e_ev x). set (l0 := default [] (callbacks (events s e0))).
  set (s' := pop x q s).
  assert (Hevs : forall e, events s' e
            = if decide (e0 = e) then with_callbacks None (events s e) else events s e).
  { intros e. unfold s', e0. proj. destruct (decide (e_ev x = e)) as [->|Hne].
    - now rewrite fn_lookup_alter.
    - now rewrite fn_lookup_alter_ne. }
  assert (Hx : queued s e0).
  { unfold queued. rewrite Hq. cbn [map]. apply elem_of_cons. now left. }
  assert (Hpend : forall e l, pending_callbacks None s e = Some l ->
                              pending_callbacks (Some (e0, l0)) s' e = Some l).
  { intros e l Hl. cbn [pending_callbacks] in *. destruct (decide (e = e0)) as [->|He].
    - unfold l0. now rewrite Hl.
    - rewrite Hevs, decide_False by congruence. exact Hl. }
  assert (Hhc : forall e cb, has_callback None s e cb -> has_callback (Some (e0, l0)) s' e cb).
  { intros e cb (l & Hl & Hin). exists l. split; [now apply Hpend | exact Hin]. }
  assert (Hdue : forall e, due None s e -> due (Some (e0, l0)) s' e).
  { intros e [He|(l & He)]; [|discriminate]. unfold queued in He. rewrite Hq in He.
    cbn [map] in He. apply elem_of_cons in He. destruct He as [->|He].
    - right. now exists l0.
    - left. exact He. }
  apply (wake_inv_weaken None _ s); try easy.
  - intros e. rewrite Hevs. now destruct (decide (e0 = e)) as [->|].
  - intros e. rewrite Hevs. now destruct (decide (e0 = e)) as [->|].
  - intros e He. rewrite Hevs, decide_False; [reflexivity|].
    pose proof (triggered_allocated _ _ _ W (wi_queue _ _ W _ Hx)). lia.
  - intros e l [= <- <-]. rewrite Hevs, decide_True by reflexivity. split; [reflexivity|].
    now apply (wi_queue _ _ W).
  - intros e He. unfold queued, s' in *. proj. rewrite Hq. cbn [map].
    apply elem_of_cons. now right.
  - intros e l' Hl'. cbn [pending_callbacks] in *. destruct (decide (e = e0)) as [->|He].
    + injection Hl' as <-. unfold l0. destruct (callbacks (events s e0)) as [l|]; [|now left].
      right. now exists l.
    + rewrite Hevs, decide_False in Hl' by congruence. right. now exists l'.
  - intros p e Ht Hc Hl. split; [now apply Hhc|]. apply (live_transfer None _ s); auto.
    + intros Hf. left. rewrite Hevs. now destruct (decide (e0 = e)) as [<-|].
    + intros t Hd Hct _. exists t. split; auto.
Qed.

(** A callback that resumes nothing has run and leaves the list. *)
Lemma wake_inv_drop e0 cb l0 s :
  wake_inv (Some (e0, cb :: l0)) s ->
  (forall p, cb <> Resume p) ->
  (forall c, cb = Check c -> triggered (events s c) = true) ->
  wake_inv (Some (e0, l0)) s.
Proof.
  intros W Hnr Hck.
  destruct (wi_cursor _ _ W e0 _ eq_refl) as [Hc0 Ht0].
  assert (Hhc : forall e c, has_callback (Some (e0, cb :: l0)) s e c -> c <> cb ->
                            has_callback (Some (e0, l0)) s e c).
  { intros e c (l & Hl & Hin) Hne. unfold has_callback. cbn [pending_callbacks] in *.
    destruct (decide (e = e0)) as [->|He].
    - injection Hl as <-. exists l0. split; [reflexivity|].
      apply elem_of_cons in Hin. destruct Hin as [->|Hin]; [contradiction | exact Hin].
    - exists l. now split. }
  assert (Hdue : forall e, due (Some (e0, cb :: l0)) s e -> due (Some (e0, l0)) s e).
  { intros e [He|(l & He)]; [now left|]. right. injection He as -> _. now exists l0. }
  apply (wake_inv_weaken (Some (e0, cb :: l0)) _ s); try easy.
  - intros e l [= <- <-]. now split.
  - intros e l' Hl'. right. cbn [pending_callbacks] in *.
    destruct (decide (e = e0)) as [->|He].
    + injection Hl' as <-. exists (cb :: l0). split; [reflexivity|]. now apply sublist_cons.
    + now exists l'.
  - intros p e Ht Hc Hl. split; [apply Hhc; [exact Hc|]; intros <-; now apply (Hnr p)|].
    apply (live_transfer (Some (e0, cb :: l0)) _ s); auto.
    intros t Hd Hct Hf. exists t. split; [now apply Hdue|]. apply Hhc; [exact Hct|].
    intros <-. rewrite (Hck e eq_refl) in Hf. discriminate.
Qed.

(** The last callback has run: the event is processed. *)
Lemma wake_inv_end e0 s :
  wake_inv (Some (e0, [])) s -> wake_inv None s.
Proof.
  intros W.
  destruct (wi_cursor _ _ W e0 _ eq_refl) as [Hc0 Ht0].
  assert (Hno : forall cb, ~ has_callback (Some (e0, [])) s e0 cb).
  { intros cb (l & Hl & Hin). rewrite pending_callbacks_cursor in Hl. injection Hl as <-.
    now apply elem_of_nil in Hin. }
  assert (Hhc : forall e cb, has_callback (Some (e0, [])) s e cb -> has_callback None s e cb).
  { intros e cb Hh. destruct (decide (e = e0)) as [->|He]; [now apply Hno in Hh|].
    destruct Hh as (l & Hl & Hin). rewrite pending_callbacks_other in Hl by exact He.
    now exists l. }
  assert (Hdue : forall e, e <> e0 -> due (Some (e0, [])) s e -> due None s e).
  { intros e Hne [He|(l & He)]; [now left|]. injection He as -> _. contradiction. }
  apply (wake_inv_weaken (Some (e0, [])) _ s); try easy.
  - intros e l' Hl'. cbn [pending_callbacks] in *. right.
    exists l'. split; [|reflexivity]. destruct (decide (e = e0)) as [->|]; [congruence|exact Hl'].
  - intros p e Ht Hc Hl. split; [now apply Hhc|].
    assert (He : e <> e0) by (intros ->; now apply Hno in Hc).
    apply (live_transfer (Some (e0, [])) _ s); auto.
    intros t Hd Hct _. exists t. split; [|now apply Hhc].
    apply Hdue; [|exact Hd]. intros ->. now apply Hno in Hct.
Qed.

Lemma remove_check_spec c ev :
  kind (remove_check c ev) = kind ev /\ triggered (remove_check c ev) = triggered ev /\
  (remove_check c ev = ev \/
   exists l, callbacks ev = Some l /\
             callbacks (remove_check c ev) = Some (remove_first (Check c) l)).
Proof.
  unfold remove_check. destruct (callbacks ev) as [[|cb cbs]|] eqn:E; auto.
  destruct (decide (Check c ∈ cb :: cbs)); auto.
  repeat split; try reflexivity. right. now exists (cb :: cbs).
Qed.

(** [Condition._remove_check_callbacks] on one event of a condition that is
    triggered already. *)
Lemma wake_inv_remove_check cur c x s :
  wake_inv cur s -> triggered (events s c) = true ->
  wake_inv cur (upd_event x (remove_check c) s).
Proof.
  intros W Hc. set (s' := upd_event x (remove_check c) s).
  assert (Hevs : forall e, events s' e
            = if decide (x = e) then remove_check c (events s e) else events s e).
  { intros e. unfold s'. proj. destruct (decide (x = e)) as [->|Hne].
    - now rewrite fn_lookup_alter.
    - now rewrite fn_lookup_alter_ne. }
  assert (Hcbs : forall e, callbacks (events s' e) = callbacks (events s e) \/
            exists l, callbacks (events s e) = Some l /\
                      callbacks (events s' e) = Some (remove_first (Check c) l)).
  { intros e. rewrite Hevs. destruct (decide (x = e)) as [->|]; [|now left].
    destruct (remove_check_spec c (events s e)) as (_ & _ & [->|H]); auto. }
  assert (Hpend : forall e, pending_callbacks cur s' e = pending_callbacks cur s e \/
            exists l, pending_callbacks cur s e = Some l /\
                      pending_callbacks cur s' e = Some (remove_first (Check c) l)).
  { intros e. destruct cur as [[e0 l0]|]; cbn [pending_callbacks]; [|apply Hcbs].
    destruct (decide (e = e0)); [now left | apply Hcbs]. }
  assert (Hhc : forall e cb, has_callback cur s e cb -> cb <> Check c ->
                             has_callback cur s' e cb).
  { intros e cb (l & Hl & Hin) Hne. unfold has_callback.
    destruct (Hpend e) as [->|(l1 & E1 & ->)]; [now exists l|].
    rewrite Hl in E1. injection E1 as <-. eexists. split; [reflexivity|].
    now apply remove_first_other. }
  apply (wake_inv_weaken cur _ s); try easy.
  - intros e. rewrite Hevs. destruct (decide (x = e)) as [->|]; [|reflexivity].
    apply remove_check_spec.
  - intros e. rewrite Hevs. destruct (decide (x = e)) as [->|]; [|reflexivity].
    apply remove_check_spec.
  - intros e He. rewrite Hevs. destruct (decide (x = e)) as [->|]; [|reflexivity].
    destruct (wi_fresh _ _ W e He) as [-> _]. reflexivity.
  - intros e l ->. destruct (wi_cursor _ _ W e l eq_refl) as [H1 H2]. split; [|exact H2].
    destruct (Hcbs e) as [->|(l1 & E1 & _)]; [exact H1 | congruence].
  - intros e l' Hl'. right. destruct (Hpend e) as [E|(l1 & E1 & E2)].
    + exists l'. split; [congruence | reflexivity].
    + exists l1. split; [exact E1|]. rewrite E2 in Hl'. injection Hl' as <-.
      apply remove_first_sublist.
  - intros p e Ht Hr Hl. split; [apply Hhc; [exact Hr | discriminate]|].
    apply (live_transfer cur _ s); auto.
    + intros Hf. left. rewrite Hevs. destruct (decide (x = e)) as [->|]; [|exact Hf].
      destruct (remove_check_spec c (events s e)) as (_ & -> & _). exact Hf.
    + intros t Hd Hct Hf. exists t. split; [exact Hd|]. apply Hhc; [exact Hct|].
      intros [= ->]. congruence.
Qed.

Lemma wake_inv_remove_checks cur c evs s :
  wake_inv cur s -> triggered (events s c) = true ->
  wake_inv cur (foldl (fun s' ev => upd_event ev (remove_check c) s') s evs)
  /\ triggered (events (foldl (fun s' ev => upd_event ev (remove_check c) s') s evs) c) = true.
Proof.
  revert s. induction evs as [|x evs IH]; intros s W Hc; cbn [foldl]; [now split|].
  apply IH; [now apply wake_inv_remove_check|].
  proj. destruct (decide (x = c)) as [->|Hne].
  - rewrite fn_lookup_alter. destruct (remove_check_spec c (events s c)) as (_ & -> & _).
    exact Hc.
  - now rewrite fn_lookup_alter_ne.
Qed.

(** [Condition._build_value] runs as a callback of the condition itself. *)
Lemma wake_inv_build_value cur c s :
  wake_inv cur s -> triggered (events s c) = true -> wake_inv cur (build_value c s).
Proof.
  intros W Hc. unfold build_value, remove_check_callbacks.
  destruct (wake_inv_remove_checks cur c (condition_events (events s c)) s W Hc) as [W1 _].
  set (s1 := foldl _ s _) in *. set (v := filter _ _). clearbody v.
  assert (Hevs : forall e, events (upd_event c (with_value v) s1) e
            = if decide (c = e) then with_value v (events s1 e) else events s1 e).
  { intros e. proj. destruct (decide (c = e)) as [->|Hne].
    - now rewrite fn_lookup_alter.
    - now rewrite fn_lookup_alter_ne. }
  assert (Hcbs : forall e, callbacks (events (upd_event c (with_value v) s1) e)
                           = callbacks (events s1 e)).
  { intros e. rewrite Hevs. now destruct (decide (c = e)) as [->|]. }
  assert (Hpend : forall e, pending_callbacks cur (upd_event c (with_value v) s1) e
                            = pending_callbacks cur s1 e).
  { intros e. now apply pending_callbacks_same. }
  assert (Hhc : forall e cb, has_callback cur s1 e cb ->
                             has_callback cur (upd_event c (with_value v) s1) e cb).
  { intros e cb H. unfold has_callback. now rewrite Hpend. }
  apply (wake_inv_weaken cur _ s1); try easy.
  - intros e. rewrite Hevs. now destruct (decide (c = e)) as [->|].
  - intros e. rewrite Hevs. now destruct (decide (c = e)) as [->|].
  - intros e He. rewrite Hevs. destruct (decide (c = e)) as [<-|]; [|reflexivity].
    pose proof (triggered_allocated _ _ c W Hc).
    assert (next_event s1 = next_event s); [|lia].
    unfold s1. clear. generalize (condition_events (events s c)) as l. revert s.
    intros s l. revert s. induction l as [|x l IH]; intros s; cbn [foldl]; [reflexivity|].
    now rewrite IH.
  - intros e l ->. rewrite Hcbs. apply (wi_cursor _ _ W1 e l eq_refl).
  - intros e l' Hl'. right. exists l'. split; [now rewrite <- Hpend | reflexivity].
  - intros p e Ht Hr Hl. split; [now apply Hhc|].
    apply (live_transfer cur _ s1); auto.
    + intros Hf. left. rewrite Hevs. now destruct (decide (c = e)) as [->|].
    + intros t Hd Hct _. exists t. split; auto.
Qed.

(** [Condition._check] *)
Lemma wake_inv_check cur c s s' :
  check c s = Ok s' ->
  kind (events s c) <> KProcess -> (c < next_event s)%nat ->
  wake_inv cur s -> wake_inv cur s' /\ triggered (events s' c) = true.
Proof.
  unfold check. intros H Hk Hc W. destruct (triggered (events s c)) eqn:Ht.
  - apply Ok_inj in H. subst s'. now split.
  - split; [now apply (wake_inv_succeed cur c s)|].
    unfold succeed in H. rewrite Ht in H. apply Ok_inj in H. subst s'. proj.
    now rewrite fn_lookup_alter.
Qed.

Lemma succeed_frame x s s' :
  succeed x s = Ok s' ->
  next_event s' = next_event s /\
  (forall e, callbacks (events s' e) = callbacks (events s e)).
Proof.
  unfold succeed. destruct (triggered (events s x)); [discriminate|].
  intros H. apply Ok_inj in H. subst s'. split; [reflexivity|].
  intros e. proj. destruct (decide (x = e)) as [->|Hne].
  - now rewrite fn_lookup_alter.
  - now rewrite fn_lookup_alter_ne.
Qed.

Lemma nodes_upd_node n f s m :
  nodes (upd_node n f s) m = if decide (n = m) then f (nodes s n) else nodes s m.
Proof.
  proj. destruct (decide (n = m)) as [->|Hne].
  - now rewrite fn_lookup_alter.
  - now rewrite fn_lookup_alter_ne.
Qed.

Lemma wake_inv_observe cur o s : wake_inv cur s -> wake_inv cur (observe o s).
Proof. apply wake_inv_same; try reflexivity. now intros n. Qed.

(** [Resource._do_put] on a request that waits in the queue. *)
Lemma wake_inv_do_put cur n r s s' :
  do_put n r s = Ok s' -> r ∈ put_queue (nodes s n) -> wake_inv cur s ->
  wake_inv cur s' /\ next_event s' = next_event s /\
  (forall e, callbacks (events s' e) = callbacks (events s e)).
Proof.
  unfold do_put. intros H Hr W.
  destruct (Z.of_nat (length (users (nodes s n))) <? capacity (nodes s n))%Z.
  2:{ apply Ok_inj in H. now subst s'. }
  destruct (wi_nodes _ _ W n r) as [Hk Hlt]; [apply elem_of_app; now left|].
  set (s1 := upd_node n (fun res => with_users (users res ++ [r]) res) s) in *.
  assert (W1 : wake_inv cur s1).
  { apply wake_inv_upd_node; [|exact W]. intros x Hx. now left. }
  destruct (succeed_frame _ _ _ H) as [F1 F2]. split; [|now split].
  apply (wake_inv_succeed cur r _ _ H); [exact Hk | exact Hlt|].
  now apply wake_inv_observe.
Qed.

(** [BaseResource._trigger_put] *)
Lemma wake_inv_trigger_put cur n s s' :
  trigger_put n s = Ok s' -> wake_inv cur s ->
  wake_inv cur s' /\ next_event s' = next_event s /\
  (forall e, callbacks (events s' e) = callbacks (events s e)).
Proof.
  unfold trigger_put. intros H W. destruct (put_queue (nodes s n)) as [|r q] eqn:Hq.
  { apply Ok_inj in H. now subst s'. }
  apply bind_Ok in H. destruct H as (s1 & E & H).
  destruct (wake_inv_do_put cur _ _ _ _ E) as (W1 & N1 & C1); [rewrite Hq; now left|exact W|].
  destruct (triggered (events s1 r)); apply Ok_inj in H; subst s'; [|now split].
  split; [|now split]. apply wake_inv_upd_node; [|exact W1].
  intros x Hx. left. cbn [with_put_queue put_queue get_queue] in Hx.
  apply elem_of_app in Hx. apply elem_of_app. destruct Hx as [Hx|Hx]; [left|now right].
  destruct (put_queue (nodes s1 n)); [exact Hx|]. cbn [tl] in Hx. now right.
Qed.

(** [Resource._do_get] on a release that waits in the queue. *)
Lemma wake_inv_do_get cur n g s s' :
  do_get n g s = Ok s' -> g ∈ get_queue (nodes s n) -> wake_inv cur s ->
  wake_inv cur s' /\ next_event s' = next_event s /\
  (forall e, callbacks (events s' e) = callbacks (events s e)).
Proof.
  unfold do_get. intros H Hg W.
  destruct (wi_nodes _ _ W n g) as [Hk Hlt]; [apply elem_of_app; now right|].
  destruct (succeed_frame _ _ _ H) as [F1 F2].
  destruct (release_request (events s g)) as [r|].
  - split; [|now split]. apply (wake_inv_succeed cur g _ _ H); [exact Hk | exact Hlt|].
    apply wake_inv_upd_node; [|exact W]. intros x Hx. now left.
  - split; [|now split]. now apply (wake_inv_succeed cur g _ _ H).
Qed.

(** [BaseResource._trigger_get] *)
Lemma wake_inv_trigger_get cur n s s' :
  trigger_get n s = Ok s' -> wake_inv cur s ->
  wake_inv cur s' /\ next_event s' = next_event s /\
  (forall e, callbacks (events s' e) = callbacks (events s e)).
Proof.
  unfold trigger_get. intros H W. destruct (get_queue (nodes s n)) as [|g q] eqn:Hq.
  { apply Ok_inj in H. now subst s'. }
  apply bind_Ok in H. destruct H as (s1 & E & H).
  destruct (wake_inv_do_get cur _ _ _ _ E) as (W1 & N1 & C1); [rewrite Hq; now left|exact W|].
  destruct (triggered (events s1 g)); apply Ok_inj in H; subst s'; [|now split].
  split; [|now split]. apply wake_inv_upd_node; [|exact W1].
  intros x Hx. left. cbn [with_get_queue put_queue get_queue] in Hx.
  apply elem_of_app in Hx. apply elem_of_app. destruct Hx as [Hx|Hx]; [now left|right].
  destruct (get_queue (nodes s1 n)); [exact Hx|]. cbn [tl] in Hx. now right.
Qed.

Lemma pending_of_callbacks cur s e l :
  wake_inv cur s -> callbacks (events s e) = Some l -> pending_callbacks cur s e = Some l.
Proof.
  intros W H. destruct cur as [[e0 l0]|]; [|exact H].
  rewrite pending_callbacks_other; [exact H|].
  intros ->. destruct (wi_cursor _ _ W e0 l0 eq_refl). congruence.
Qed.

Lemma request_eq n s :
  request n s
  = let* s4 := trigger_put n
                 (add_callback (next_event s) (TriggerGet n)
                    (upd_node n (fun res => with_put_queue (put_queue res ++ [next_event s]) res)
                       (snd (new_event (KRequest n) false s)))) in
    Ok (next_event s, s4).
Proof. reflexivity. Qed.

(** [resource.request()] *)
Lemma wake_inv_request cur n s r s' :
  request n s = Ok (r, s') -> wake_inv cur s ->
  r = next_event s /\ wake_inv cur s' /\ next_event s' = S r /\
  callbacks (events s' r) = Some [TriggerGet n].
Proof.
  rewrite request_eq. cbn zeta. intros H W.
  apply bind_Ok in H. destruct H as (s4 & E & H). injection H as <- <-.
  set (r := next_event s) in *.
  set (s1 := snd (new_event (KRequest n) false s)) in *.
  set (s2 := upd_node n (fun res => with_put_queue (put_queue res ++ [r]) res) s1) in *.
  assert (Hr : events s1 r = {| kind := KRequest n; callbacks := Some []; triggered := false;
                                value := [] |}).
  { unfold s1, r. proj. now rewrite fn_lookup_insert. }
  assert (W1 : wake_inv cur s1) by now apply wake_inv_new_event.
  assert (W2 : wake_inv cur s2).
  { apply wake_inv_upd_node; [|exact W1]. intros x Hx.
    cbn [with_put_queue put_queue get_queue] in Hx.
    rewrite !elem_of_app in Hx. rewrite elem_of_app.
    destruct Hx as [[Hx|Hx]|Hx]; [now left; left| |now left; right].
    apply list_elem_of_singleton in Hx. subst x. right. rewrite Hr. split; [discriminate|].
    unfold s1, r. proj. lia. }
  assert (W3 : wake_inv cur (add_callback r (TriggerGet n) s2)).
  { apply (wake_inv_add_callback cur r _ []); [|apply not_elem_of_nil|exact I|exact W2].
    change (events s2) with (events s1). now rewrite Hr. }
  destruct (wake_inv_trigger_put cur _ _ _ E W3) as (W4 & N4 & C4).
  split; [reflexivity|]. split; [exact W4|]. split; [rewrite N4; reflexivity|].
  rewrite C4, events_add_callback, decide_True by reflexivity.
  change (events s2) with (events s1). now rewrite Hr.
Qed.

Lemma release_eq n r s :
  release n r s
  = trigger_get n
      (add_callback (next_event s) (TriggerPut n)
         (upd_node n (fun res => with_get_queue (get_queue res ++ [next_event s]) res)
            (snd (new_event (KRelease n r) false s)))).
Proof. reflexivity. Qed.

(** [resource.release(request)] *)
Lemma wake_inv_release cur n r s s' :
  release n r s = Ok s' -> wake_inv cur s -> wake_inv cur s'.
Proof.
  rewrite release_eq. intros E W.
  set (g := next_event s) in *.
  set (s1 := snd (new_event (KRelease n r) false s)) in *.
  set (s2 := upd_node n (fun res => with_get_queue (get_queue res ++ [g]) res) s1) in *.
  assert (Hg : events s1 g = {| kind := KRelease n r; callbacks := Some [];
                                triggered := false; value := [] |}).
  { unfold s1, g. proj. now rewrite fn_lookup_insert. }
  assert (W1 : wake_inv cur s1) by now apply wake_inv_new_event.
  assert (W2 : wake_inv cur s2).
  { apply wake_inv_upd_node; [|exact W1]. intros x Hx.
    cbn [with_get_queue put_queue get_queue] in Hx.
    rewrite !elem_of_app in Hx. rewrite elem_of_app.
    destruct Hx as [Hx|[Hx|Hx]]; [now left; left|now left; right|].
    apply list_elem_of_singleton in Hx. subst x. right. rewrite Hg. split; [discriminate|].
    unfold s1, g. proj. lia. }
  assert (W3 : wake_inv cur (add_callback g (TriggerPut n) s2)).
  { apply (wake_inv_add_callback cur g _ []); [|apply not_elem_of_nil|exact I|exact W2].
    change (events s2) with (events s1). now rewrite Hg. }
  now destruct (wake_inv_trigger_get cur _ _ _ E W3).
Qed.

(** [Request.__exit__] *)
Lemma wake_inv_exit_request cur n r s s' :
  exit_request n r s = Ok s' -> wake_inv cur s -> wake_inv cur s'.
Proof.
  unfold exit_request. intros H W. apply bind_Ok in H. destruct H as (s1 & E & H).
  apply (wake_inv_release cur _ _ _ _ H).
  destruct (triggered (events s r)).
  { apply Ok_inj in E. now subst s1. }
  destruct (decide (r ∈ put_queue (nodes s n))); [|discriminate].
  apply Ok_inj in E. subst s1. apply wake_inv_upd_node; [|exact W].
  intros x Hx. left. cbn [with_put_queue put_queue get_queue] in Hx.
  rewrite elem_of_app in Hx. rewrite elem_of_app. destruct Hx as [Hx|Hx]; [left|now right].
  eapply elem_of_sublist; [exact Hx | apply remove_first_sublist].
Qed.

(** [env.timeout(delay)] *)
Lemma wake_inv_timeout cur d s t s' :
  timeout d s = Ok (t, s') -> wake_inv cur s ->
  t = next_event s /\ wake_inv cur s' /\ next_event s' = S t /\
  callbacks (events s' t) = Some [] /\ queued s' t /\
  (forall e, e <> t -> events s' e = events s e) /\ procs s' = procs s.
Proof.
  unfold timeout. destruct (Qltb d 0); [discriminate|].
  intros H W. cbn in H. injection H as <- <-. split; [reflexivity|].
  set (t := next_event s). set (s1 := snd (new_event KTimeout true s)).
  assert (Ht : events s1 t = {| kind := KTimeout; callbacks := Some []; triggered := true;
                                value := [] |}).
  { unfold s1, t. proj. now rewrite fn_lookup_insert. }
  split.
  { apply (wake_inv_schedule cur t NORMAL d s1); [now rewrite Ht|].
    now apply wake_inv_new_event. }
  split; [reflexivity|]. split; [exact (f_equal callbacks Ht)|]. split.
  { apply queued_schedule. now left. }
  split; [|reflexivity]. intros e He. proj. now rewrite fn_lookup_insert_ne.
Qed.

Lemma wake_inv_expovariate cur lambd s x s' :
  expovariate lambd s = Ok (x, s') -> wake_inv cur s -> wake_inv cur s'.
Proof.
  unfold expovariate. destruct (Qeq_bool lambd 0); [discriminate|].
  destruct (expo s) as [|v rest]; [discriminate|]. intros [= <- <-].
  apply wake_inv_same; try reflexivity. now intros n.
Qed.

Lemma wake_inv_record_stats cfg cur n wait service s s' :
  record_stats cfg n wait service s = Ok s' -> wake_inv cur s -> wake_inv cur s'.
Proof.
  unfold record_stats. intros H. apply bind_Ok in H. destruct H as (prm & _ & H).
  apply bind_Ok in H. destruct H as (ns & _ & H). apply Ok_inj in H. subst s'.
  apply wake_inv_same; try reflexivity. now intros m.
Qed.

(** [request | env.timeout(...)] on two events that are not yet processed. *)
Lemma any_of_pair r t s lr lt :
  callbacks (events s r) = Some lr -> callbacks (events s t) = Some lt ->
  (r < next_event s)%nat -> (t < next_event s)%nat ->
  any_of [r; t] s
  = Ok (next_event s,
        add_callback (next_event s) (BuildValue (next_event s))
          (add_callback t (Check (next_event s))
             (add_callback r (Check (next_event s))
                (snd (new_event (KCondition [r; t]) false s))))).
Proof.
  intros Hr Ht Lr Lt. unfold any_of.
  set (c := next_event s).
  change (new_event (KCondition [r; t]) false s)
    with (c, snd (new_event (KCondition [r; t]) false s)).
  set (s1 := snd (new_event (KCondition [r; t]) false s)).
  assert (E1 : forall e, e <> c -> events s1 e = events s e).
  { intros e He. unfold s1, c in *. proj. now rewrite fn_lookup_insert_ne. }
  cbn [foldl bind]. unfold processed at 1.
  rewrite E1, Hr by (unfold c; lia).
  cbn [bind snd]. unfold processed. rewrite events_add_callback.
  destruct (decide (r = t)) as [->|Hne].
  - cbn [callbacks with_callbacks]. rewrite E1, Ht by (unfold c; lia). reflexivity.
  - rewrite E1, Ht by (unfold c; lia). reflexivity.
Qed.

Lemma wake_inv_any_of_pair cur r t s lr lt c s' :
  any_of [r; t] s = Ok (c, s') -> wake_inv cur s ->
  callbacks (events s r) = Some lr -> callbacks (events s t) = Some lt -> r <> t ->
  c = next_event s /\ wake_inv cur s' /\
  callbacks (events s' c) = Some [BuildValue c] /\ triggered (events s' c) = false /\
  callbacks (events s' t) = Some (lt ++ [Check c]) /\ queue s' = queue s.
Proof.
  intros H W Hr Ht Hne.
  pose proof (callbacks_allocated _ _ _ _ W Hr) as Lr.
  pose proof (callbacks_allocated _ _ _ _ W Ht) as Lt.
  rewrite (any_of_pair r t s lr lt Hr Ht Lr Lt) in H. injection H as <- <-.
  set (c := next_event s) in *.
  set (s1 := snd (new_event (KCondition [r; t]) false s)).
  assert (Hc : events s1 c = {| kind := KCondition [r; t]; callbacks := Some [];
                                triggered := false; value := [] |}).
  { unfold s1, c. proj. now rewrite fn_lookup_insert. }
  assert (E1 : forall e, e <> c -> events s1 e = events s e).
  { intros e He. unfold s1, c in *. proj. now rewrite fn_lookup_insert_ne. }
  assert (Hfresh : forall e l, callbacks (events s e) = Some l -> Check c ∉ l).
  { intros e l Hl Hin. destruct (wi_callbacks _ _ W e l (pending_of_callbacks _ _ _ _ W Hl))
      as [_ Hok]. specialize (Hok _ Hin). cbn [callback_ok] in Hok. unfold c in Hok. lia. }
  assert (W1 : wake_inv cur s1) by now apply wake_inv_new_event.
  set (sa := add_callback r (Check c) s1).
  assert (Ea : forall e, e <> r -> events sa e = events s1 e).
  { intros e He. unfold sa. now rewrite events_add_callback, decide_False. }
  assert (Wa : wake_inv cur sa).
  { apply (wake_inv_add_callback cur r _ lr); [| |split|exact W1].
    - rewrite E1; [exact Hr | unfold c; lia].
    - now apply (Hfresh r).
    - rewrite Hc. discriminate.
    - unfold s1, c. proj. lia. }
  set (sb := add_callback t (Check c) sa).
  assert (Eb : forall e, e <> t -> events sb e = events sa e).
  { intros e He. unfold sb. now rewrite events_add_callback, decide_False. }
  assert (Hta : callbacks (events sa t) = Some lt).
  { rewrite Ea, E1; [exact Ht | unfold c; lia | congruence]. }
  assert (Wb : wake_inv cur sb).
  { apply (wake_inv_add_callback cur t _ lt); [exact Hta| |split|exact Wa].
    - now apply (Hfresh t).
    - rewrite Ea, Hc; [discriminate | unfold c; lia].
    - unfold sa, s1, c. proj. lia. }
  assert (Hcb : events sb c = events s1 c).
  { rewrite Eb, Ea; [reflexivity | unfold c; lia | unfold c; lia]. }
  assert (Wc : wake_inv cur (add_callback c (BuildValue c) sb)).
  { apply (wake_inv_add_callback cur c _ []); [|apply not_elem_of_nil|reflexivity|exact Wb].
    now rewrite Hcb, Hc. }
  set (sc := add_callback c (BuildValue c) sb) in *.
  assert (Hcc : events sc c = with_callbacks (Some [BuildValue c]) (events s1 c)).
  { unfold sc. rewrite events_add_callback, decide_True by reflexivity.
    now rewrite Hcb, Hc. }
  assert (Htc : callbacks (events sc t) = Some (lt ++ [Check c])).
  { unfold sc. rewrite events_add_callback, decide_False by (unfold c; lia).
    unfold sb. rewrite events_add_callback, decide_True by reflexivity.
    cbn [callbacks with_callbacks]. now rewrite Hta. }
  assert (P1 : callbacks (events sc c) = Some [BuildValue c]) by now rewrite Hcc.
  assert (P2 : triggered (events sc c) = false) by now rewrite Hcc, Hc.
  split; [reflexivity|]. split; [exact Wc|]. split; [exact P1|]. split; [exact P2|].
  split; [exact Htc | reflexivity].
Qed.

Lemma process_fresh g s :
  callbacks (events (snd (process g s)) (next_event s)) = Some [] /\
  triggered (events (snd (process g s)) (next_event s)) = false /\
  target (procs (snd (process g s)) (next_event s)) = Some (S (next_event s)).
Proof.
  rewrite process_eq. cbn [snd]. unfold yield. rewrite events_add_callback.
  rewrite decide_False by lia. proj.
  rewrite fn_lookup_insert_ne by lia. rewrite !fn_lookup_insert. now repeat split.
Qed.

Section Wake.

Variable cfg : Config.

(** The head of the loop of [customer], run by process [p] while event
    [e0] is being processed. *)
Lemma wake_inv_customer_loop e0 l0 p pathway s s' :
  customer_loop cfg p pathway s = Ok s' ->
  wake_inv (Some (e0, Resume p :: l0)) s -> wake_inv (Some (e0, l0)) s'.
Proof.
  intros H W. destruct pathway as [|n rest]; cbn [customer_loop] in H.
  { apply Ok_inj in H. subst s'. now apply wake_inv_finish. }
  apply bind_Ok in H. destruct H as (prm & _ & H).
  apply bind_Ok in H. destruct H as ([r s0] & Hreq & H).
  apply bind_Ok in H. destruct H as ([t s2] & Htmo & H).
  apply bind_Ok in H. destruct H as ([c s3] & Hany & H).
  apply Ok_inj in H. subst s'.
  set (cur := Some (e0, Resume p :: l0)) in *.
  destruct (wake_inv_request cur _ _ _ _ Hreq W) as (Er & W0 & N0 & C0).
  destruct (wake_inv_timeout cur _ _ _ _ Htmo (wake_inv_observe cur _ _ W0))
    as (Et & W2 & N2 & C2 & Q2 & F2 & _).
  change (next_event (observe _ s0)) with (next_event s0) in Et.
  assert (Hrt : r <> t) by lia.
  assert (Cr : callbacks (events s2 r) = Some [TriggerGet n]).
  { rewrite F2 by exact Hrt. exact C0. }
  destruct (wake_inv_any_of_pair cur _ _ _ _ _ _ _ Hany W2 Cr C2 Hrt)
    as (Ec & W3 & C3 & T3 & Ct3 & Q3).
  assert (Hp : (p < next_event s)%nat).
  { apply (process_allocated cur); [exact W|].
    destruct (wi_callbacks _ _ W e0 _ (pending_callbacks_cursor _ _ _)) as [_ Hok].
    specialize (Hok (Resume p)). cbn [callback_ok] in Hok. rewrite Hok; [discriminate|].
    now left. }
  apply (wake_inv_yield e0 l0 s3 p c [BuildValue c]); [exact W3 | exact C3 | lia |].
  right. split; [exact T3|]. left. exists t. split.
  - left. unfold queued in *. now rewrite Q3.
  - exists ([] ++ [Check c]). split; [|now left].
    rewrite pending_callbacks_other; [exact Ct3|].
    intros ->. destruct (wi_cursor _ _ W3 e0 _ eq_refl). congruence.
Qed.

End Wake.

Lemma cursor_process_allocated e0 p l0 s :
  wake_inv (Some (e0, Resume p :: l0)) s -> (p < next_event s)%nat.
Proof.
  intros W. apply (process_allocated (Some (e0, Resume p :: l0))); [exact W|].
  destruct (wi_callbacks _ _ W e0 _ (pending_callbacks_cursor _ _ _)) as [_ Hok].
  specialize (Hok (Resume p)). cbn [callback_ok] in Hok. rewrite Hok; [discriminate|].
  now left.
Qed.

(** [yield env.timeout(delay)] *)
Lemma wake_inv_sleep e0 l0 p d g s t s' :
  wake_inv (Some (e0, Resume p :: l0)) s -> timeout d s = Ok (t, s') ->
  wake_inv (Some (e0, l0)) (yield p t g s').
Proof.
  intros W H. pose proof (cursor_process_allocated _ _ _ _ W) as Hp.
  destruct (wake_inv_timeout _ _ _ _ _ H W) as (Et & W1 & N1 & C1 & Q1 & _).
  apply (wake_inv_yield e0 l0 s' p t []); [exact W1 | exact C1 | lia |].
  left. now left.
Qed.

Section WakeReachable.

Variable cfg : Config.

(** [Process._resume] *)
Lemma wake_inv_resume e0 l0 p s s' :
  resume cfg p e0 s = Ok s' ->
  wake_inv (Some (e0, Resume p :: l0)) s -> wake_inv (Some (e0, l0)) s'.
Proof.
  intros H W. set (cur := Some (e0, Resume p :: l0)) in *.
  pose proof (cursor_process_allocated _ _ _ _ W) as Hp.
  unfold resume in H. destruct (gen (procs s p)) as [i|cid| |pathway|n rest arr r|n rest w sv r|].
  - destruct (i <? TOTAL_CUSTOMERS cfg)%nat.
    2:{ apply Ok_inj in H. subst s'. now apply wake_inv_finish. }
    destruct (process (Pathway_start i) (observe (ObsSpawn i) s)) as [pc s1] eqn:Hpr.
    assert (Hs1 : s1 = snd (process (Pathway_start i) (observe (ObsSpawn i) s)))
      by now rewrite Hpr.
    assert (W1 : wake_inv cur s1).
    { rewrite Hs1. apply wake_inv_process. now apply wake_inv_observe. }
    clear Hpr Hs1.
    apply bind_Ok in H. destruct H as ([x s2] & Hex & H).
    apply bind_Ok in H. destruct H as ([t s3] & Htmo & H).
    apply Ok_inj in H. subst s'.
    refine (wake_inv_sleep e0 l0 p _ _ s2 t s3 _ Htmo).
    now apply (wake_inv_expovariate cur _ _ _ _ Hex).
  - apply bind_Ok in H. destruct H as ([pathway draws] & _ & H).
    set (s1 := observe (ObsPath p pathway)
                 (set_gene_stats (classify pathway (gene_stats s)) (set_unif draws s))) in *.
    assert (W1 : wake_inv cur s1).
    { revert W. apply wake_inv_same; try reflexivity. now intros n. }
    destruct (process (Customer_loop pathway) s1) as [pc s2] eqn:Hpr.
    assert (Hs2 : s2 = snd (process (Customer_loop pathway) s1)) by now rewrite Hpr.
    assert (Hpc : pc = next_event s1).
    { pose proof (f_equal fst Hpr) as E. rewrite process_eq in E. now cbn [fst] in E. }
    clear Hpr. apply Ok_inj in H. subst s'.
    destruct (process_fresh (Customer_loop pathway) s1) as (F1 & F2 & F3).
    rewrite <- Hs2, <- Hpc in F1, F2, F3.
    assert (W2 : wake_inv cur s2).
    { rewrite Hs2. now apply wake_inv_process. }
    apply (wake_inv_yield e0 l0 s2 p pc []); [exact W2 | exact F1 | |].
    + rewrite Hpc. exact Hp.
    + right. split; [exact F2|]. right. rewrite F3. discriminate.
  - apply Ok_inj in H. subst s'. now apply wake_inv_finish.
  - now apply (wake_inv_customer_loop cfg e0 l0 p pathway s).
  - destruct (decide (r ∈ value (events s e0))).
    + apply bind_Ok in H. destruct H as (prm & _ & H).
      destruct (Qeq_bool (mu prm) 0); [discriminate|].
      apply bind_Ok in H. destruct H as ([x s1] & Hex & H).
      apply bind_Ok in H. destruct H as ([t s2] & Htmo & H).
      apply Ok_inj in H. subst s'.
      refine (wake_inv_sleep e0 l0 p _ _ s1 t s2 _ Htmo).
      now apply (wake_inv_expovariate cur _ _ _ _ Hex).
    + apply bind_Ok in H. destruct H as (prm & _ & H).
      apply bind_Ok in H. destruct H as (s2 & Hrec & H).
      apply bind_Ok in H. destruct H as (s3 & Hex & H).
      apply Ok_inj in H. subst s'. apply wake_inv_finish.
      apply (wake_inv_exit_request cur _ _ _ _ Hex). apply wake_inv_observe.
      apply (wake_inv_record_stats cfg cur _ _ _ _ _ Hrec).
      revert W. apply wake_inv_same; try reflexivity. now intros m.
  - apply bind_Ok in H. destruct H as (s1 & Hrec & H).
    apply bind_Ok in H. destruct H as (s2 & Hex & H).
    apply (wake_inv_customer_loop cfg e0 l0 p rest s2 s' H).
    apply (wake_inv_exit_request cur _ _ _ _ Hex). apply wake_inv_observe.
    now apply (wake_inv_record_stats cfg cur _ _ _ _ _ Hrec).
  - discriminate.
Qed.

Lemma wake_inv_run_callback e cb l s s' :
  wake_inv (Some (e, cb :: l)) s -> run_callback cfg cb e s = Ok s' ->
  wake_inv (Some (e, l)) s'.
Proof.
  intros W H.
  destruct (wi_callbacks _ _ W e _ (pending_callbacks_cursor _ _ _)) as [_ Hok].
  specialize (Hok cb (list_elem_of_here _ _)).
  destruct cb as [p|c|c|n|n]; cbn [run_callback callback_ok] in *.
  - now apply (wake_inv_resume e l p s).
  - destruct Hok as [Hk Hc].
    destruct (wake_inv_check _ _ _ _ H Hk Hc W) as [W1 T1].
    apply (wake_inv_drop e (Check c)); [exact W1 | discriminate|].
    intros c' [= <-]. exact T1.
  - apply Ok_inj in H. subst s' c.
    destruct (wi_cursor _ _ W e _ eq_refl) as [_ Ht].
    apply (wake_inv_drop e (BuildValue e)); [|discriminate|discriminate].
    now apply wake_inv_build_value.
  - destruct (wake_inv_trigger_get _ _ _ _ H W) as [W1 _].
    now apply (wake_inv_drop e (TriggerGet n)).
  - destruct (wake_inv_trigger_put _ _ _ _ H W) as [W1 _].
    now apply (wake_inv_drop e (TriggerPut n)).
Qed.

Lemma wake_inv_empty exps unifs : wake_inv None (empty_state cfg exps unifs).
Proof.
  constructor; cbn.
  - discriminate.
  - intros e He. now apply elem_of_nil in He.
  - discriminate.
  - reflexivity.
  - now split.
  - intros n r Hr. now apply elem_of_nil in Hr.
Qed.

(** Between two events every suspended process has something to wake it. *)
Lemma wake_inv_reachable exps unifs s :
  reachable cfg exps unifs s -> wake_inv None s.
Proof.
  revert s. apply (reachable_callbacks_ind cfg exps unifs wake_inv).
  - intros s H. unfold setup in H. destruct (capacities_ok cfg); [|discriminate].
    apply Ok_inj in H. subst s. apply wake_inv_process. apply wake_inv_empty.
  - intros s x q W Hq. now apply wake_inv_pop.
  - intros e cb l s s'. apply wake_inv_run_callback.
  - intros e s. apply wake_inv_end.
Qed.

(** When the heap is empty, no process is left suspended. *)
Lemma completed_all_finished exps unifs s :
  reachable cfg exps unifs s -> completed s ->
  forall p, procs s p = idle.
Proof.
  intros Hs Hq. pose proof (wake_inv_reachable _ _ _ Hs) as W.
  assert (Hnone : forall p, target (procs s p) = None).
  { assert (Hind : forall k p, (next_event s - p <= k)%nat -> target (procs s p) = None).
    { induction k as [|k IH]; intros p Hk.
      - destruct (wi_fresh _ _ W p) as [_ ->]; [lia | reflexivity].
      - pose proof (wi_procs _ _ W p) as Hp.
        destruct (target (procs s p)) as [e|] eqn:Ht; [|reflexivity].
        destruct Hp as (Hlt & _ & _ & _ & [Hd|[_ [(t & Hd & _)|Hl]]]).
        + destruct Hd as [Hd|(l & Hd)]; [|discriminate].
          unfold queued in Hd. rewrite Hq in Hd. now apply elem_of_nil in Hd.
        + destruct Hd as [Hd|(l & Hd)]; [|discriminate].
          unfold queued in Hd. rewrite Hq in Hd. now apply elem_of_nil in Hd.
        + exfalso. apply Hl. apply IH. lia. }
    intros p. now apply (Hind (next_event s - p)%nat). }
  intros p. pose proof (wi_procs _ _ W p) as Hp. pose proof (Hnone p) as Ht.
  rewrite Ht in Hp. destruct (procs s p) as [g tg]. cbn in *. now subst.
Qed.

End WakeReachable.

(** ** The generators seen from outside *)

Lemma story_of_app l1 l2 : story_of (l1 ++ l2) = story_of l1 ++ story_of l2.
Proof. unfold story_of. apply List.filter_app. Qed.

Lemma story_of_grants l : Forall (fun o => is_grant o = true) l -> story_of l = [].
Proof.
  induction 1 as [|o l Ho _ IH]; [reflexivity|].
  unfold story_of in *. cbn [List.filter]. now rewrite Ho.
Qed.

Lemma quiet_story s s' : quiet s s' -> story_of (trace s') = story_of (trace s).
Proof.
  intros (_ & _ & _ & l & -> & Hl). now rewrite story_of_app, story_of_grants.
Qed.

Lemma story_observe o s :
  is_grant o = false -> story_of (trace (observe o s)) = o :: story_of (trace s).
Proof. intros H. unfold story_of. proj. cbn [List.filter]. now rewrite H. Qed.

Lemma spawns_of_story tr : spawns_of (story_of tr) = spawns_of tr.
Proof.
  induction tr as [|o tr IH]; [reflexivity|]. unfold story_of in *.
  destruct o; cbn [List.filter is_grant negb spawns_of flat_map] in *;
    fold (spawns_of tr) in *; fold (spawns_of (List.filter (fun o => negb (is_grant o)) tr)) in *;
    now rewrite ?IH.
Qed.

Lemma outcomes_at_story n tr : outcomes_at n (story_of tr) = outcomes_at n tr.
Proof.
  induction tr as [|o tr IH]; [reflexivity|]. unfold story_of in *.
  destruct o; cbn [List.filter is_grant negb outcomes_at flat_map] in *;
    fold (outcomes_at n tr) in *;
    fold (outcomes_at n (List.filter (fun o => negb (is_grant o)) tr)) in *;
    now rewrite ?IH.
Qed.

Lemma visits_at_story n tr : visits_at n (story_of tr) = visits_at n tr.
Proof.
  induction tr as [|o tr IH]; [reflexivity|]. unfold story_of in *.
  destruct o; cbn [List.filter is_grant negb visits_at flat_map] in *;
    fold (visits_at n tr) in *;
    fold (visits_at n (List.filter (fun o => negb (is_grant o)) tr)) in *;
    now rewrite ?IH.
Qed.

(** *** Event numbers are handed out in order *)

Lemma next_succeed x s s' : succeed x s = Ok s' -> next_event s' = next_event s.
Proof. intros H. now destruct (succeed_frame _ _ _ H). Qed.

Lemma next_check c s s' : check c s = Ok s' -> next_event s' = next_event s.
Proof.
  unfold check. destruct (triggered (events s c)).
  - intros H. apply Ok_inj in H. now subst.
  - apply next_succeed.
Qed.

Lemma next_build_value c s : next_event (build_value c s) = next_event s.
Proof.
  unfold build_value, remove_check_callbacks. proj.
  generalize (condition_events (events s c)) as l. intros l. revert s.
  induction l as [|x l IH]; intros s; cbn [foldl]; [reflexivity|]. now rewrite IH.
Qed.

Lemma next_do_put n r s s' : do_put n r s = Ok s' -> next_event s' = next_event s.
Proof.
  unfold do_put. destruct (_ <? _)%Z.
  - intros H. now rewrite (next_succeed _ _ _ H).
  - intros H. apply Ok_inj in H. now subst.
Qed.

Lemma next_trigger_put n s s' : trigger_put n s = Ok s' -> next_event s' = next_event s.
Proof.
  unfold trigger_put. destruct (put_queue (nodes s n)) as [|r q].
  { intros H. apply Ok_inj in H. now subst. }
  intros H. apply bind_Ok in H. destruct H as (s1 & E & H).
  apply next_do_put in E. destruct (triggered (events s1 r)); apply Ok_inj in H; now subst.
Qed.

Lemma next_do_get n g s s' : do_get n g s = Ok s' -> next_event s' = next_event s.
Proof.
  unfold do_get. intros H. rewrite (next_succeed _ _ _ H).
  now destruct (release_request (events s g)).
Qed.

Lemma next_trigger_get n s s' : trigger_get n s = Ok s' -> next_event s' = next_event s.
Proof.
  unfold trigger_get. destruct (get_queue (nodes s n)) as [|g q].
  { intros H. apply Ok_inj in H. now subst. }
  intros H. apply bind_Ok in H. destruct H as (s1 & E & H).
  apply next_do_get in E. destruct (triggered (events s1 g)); apply Ok_inj in H; now subst.
Qed.

Lemma next_request n s r s' :
  request n s = Ok (r, s') -> r = next_event s /\ next_event s' = S r.
Proof.
  rewrite request_eq. cbn zeta. intros H.
  apply bind_Ok in H. destruct H as (s4 & E & H). injection H as <- <-.
  split; [reflexivity|]. now rewrite (next_trigger_put _ _ _ E).
Qed.

Lemma next_exit_request n r s s' :
  exit_request n r s = Ok s' -> next_event s' = S (next_event s).
Proof.
  unfold exit_request. intros H. apply bind_Ok in H. destruct H as (s1 & E & H).
  rewrite release_eq in H. rewrite (next_trigger_get _ _ _ H). proj.
  destruct (triggered (events s r)).
  { apply Ok_inj in E. now subst. }
  destruct (decide (r ∈ put_queue (nodes s n))); [|discriminate].
  apply Ok_inj in E. now subst.
Qed.

Lemma next_timeout d s t s' :
  timeout d s = Ok (t, s') -> t = next_event s /\ next_event s' = S t.
Proof.
  unfold timeout. destruct (Qltb d 0); [discriminate|].
  intros H. cbn in H. injection H as <- <-. now split.
Qed.

Lemma next_any_of evs s c s' :
  any_of evs s = Ok (c, s') -> c = next_event s /\ next_event s' = S c.
Proof.
  unfold any_of.
  change (new_event (KCondition evs) false s)
    with (next_event s, snd (new_event (KCondition evs) false s)).
  cbn iota beta.
  set (s1 := snd (new_event (KCondition evs) false s)).
  assert (Hn : next_event s1 = S (next_event s)) by reflexivity.
  clearbody s1. revert Hn. generalize (next_event s) as c0. intros c0 Hn H.
  apply bind_Ok in H. destruct H as (s2 & E & H).
  injection H as <- <-. split; [reflexivity|].
  change (next_event (add_callback c0 (BuildValue c0) s2)) with (next_event s2).
  revert s1 Hn E. induction evs as [|ev evs IH]; intros s1 Hn E; cbn [foldl] in E.
  - apply Ok_inj in E. now subst.
  - cbn [bind] in E. destruct (processed (events s1 ev)).
    + destruct (check c0 s1) as [s3| |] eqn:Hc.
      * apply (IH s3); [|exact E]. now rewrite (next_check _ _ _ Hc).
      * exfalso. clear -E. induction evs; cbn in E; [discriminate | auto].
      * exfalso. clear -E. induction evs; cbn in E; [discriminate | auto].
    + apply (IH (add_callback ev (Check c0) s1)); [exact Hn | exact E].
Qed.

Lemma next_expovariate lambd s x s' :
  expovariate lambd s = Ok (x, s') -> next_event s' = next_event s.
Proof.
  unfold expovariate. destruct (Qeq_bool lambd 0); [discriminate|].
  destruct (expo s); [discriminate|]. now intros [= <- <-].
Qed.

Lemma next_record_stats cfg n w sv s s' :
  record_stats cfg n w sv s = Ok s' -> next_event s' = next_event s.
Proof.
  unfold record_stats. intros H. apply bind_Ok in H. destruct H as (prm & _ & H).
  apply bind_Ok in H. destruct H as (ns & _ & H). apply Ok_inj in H. now subst.
Qed.

(** *** The generators of the processes *)

Lemma gens_yield p ev g s q :
  gen (procs (yield p ev g s) q) = <[p := g]> (fun q => gen (procs s q)) q.
Proof.
  unfold yield, add_callback. proj. destruct (decide (p = q)) as [->|Hne].
  - now rewrite !fn_lookup_insert.
  - now rewrite !fn_lookup_insert_ne.
Qed.

Lemma gens_finish p s q :
  gen (procs (finish p s) q) = <[p := Finished]> (fun q => gen (procs s q)) q.
Proof.
  unfold finish. proj. destruct (decide (p = q)) as [->|Hne].
  - now rewrite !fn_lookup_insert.
  - now rewrite !fn_lookup_insert_ne.
Qed.

Lemma gens_process g s q :
  gen (procs (snd (process g s)) q) = <[next_event s := g]> (fun q => gen (procs s q)) q.
Proof.
  rewrite process_eq. cbn [snd]. rewrite gens_yield. proj.
  destruct (decide (next_event s = q)) as [->|Hne].
  - now rewrite !fn_lookup_insert.
  - now rewrite !fn_lookup_insert_ne.
Qed.

Lemma next_process g s : next_event (snd (process g s)) = S (S (next_event s)).
Proof. reflexivity. Qed.

Lemma trace_expovariate lambd s x s' :
  expovariate lambd s = Ok (x, s') -> trace s' = trace s.
Proof.
  unfold expovariate. destruct (Qeq_bool lambd 0); [discriminate|].
  destruct (expo s); [discriminate|]. now intros [= <- <-].
Qed.

Lemma trace_record_stats cfg n w sv s s' :
  record_stats cfg n w sv s = Ok s' -> trace s' = trace s.
Proof.
  unfold record_stats. intros H. apply bind_Ok in H. destruct H as (prm & _ & H).
  apply bind_Ok in H. destruct H as (ns & _ & H). apply Ok_inj in H. now subst.
Qed.

Section Moves.

Variable cfg : Config.

Lemma customer_loop_effect p pw s s' :
  customer_loop cfg p pw s = Ok s' ->
  match pw with
  | [] =>
      story_of (trace s') = story_of (trace s) /\
      (forall q, gen (procs s' q) = <[p := Finished]> (fun q => gen (procs s q)) q) /\
      next_event s' = next_event s
  | n :: rest =>
      story_of (trace s') = ObsVisit p n (next_event s) (now s) :: story_of (trace s) /\
      (forall q, gen (procs s' q)
                 = <[p := Customer_race n rest (now s) (next_event s)]>
                     (fun q => gen (procs s q)) q) /\
      (next_event s < next_event s')%nat
  end.
Proof.
  intros H. destruct pw as [|n rest]; cbn [customer_loop] in H.
  { apply Ok_inj in H. subst s'. split; [apply quiet_story, quiet_finish|].
    split; [apply gens_finish | reflexivity]. }
  apply bind_Ok in H. destruct H as (prm & _ & H).
  apply bind_Ok in H. destruct H as ([r s0] & Hreq & H).
  apply bind_Ok in H. destruct H as ([t s2] & Htmo & H).
  apply bind_Ok in H. destruct H as ([c s3] & Hany & H).
  apply Ok_inj in H. subst s'.
  destruct (next_request _ _ _ _ Hreq) as [-> N0].
  destruct (next_timeout _ _ _ _ Htmo) as [Et N2]. cbn [observe next_event] in Et.
  destruct (next_any_of _ _ _ _ Hany) as [Ec N3].
  destruct (steady_request cfg _ _ _ _ Hreq) as (T0 & P0 & _).
  destruct (steady_timeout cfg _ _ _ _ Htmo) as (_ & P2 & _). cbn [observe procs] in P2.
  destruct (steady_any_of cfg _ _ _ _ Hany) as (_ & P3 & _).
  split; [|split].
  - rewrite ?(quiet_story _ _ (quiet_yield p c _ s3)).
    rewrite (quiet_story _ _ (quiet_any_of _ _ _ _ Hany)).
    rewrite (quiet_story _ _ (quiet_timeout _ _ _ _ Htmo)).
    rewrite story_observe by reflexivity.
    now rewrite (quiet_story _ _ (quiet_request _ _ _ _ Hreq)).
  - intros q. rewrite gens_yield, P3, P2, P0. reflexivity.
  - change (next_event (yield p c (Customer_race n rest (now s) (next_event s)) s3))
      with (next_event s3). lia.
Qed.

(** Every resumption of a process is one move of its generator, or two:
    the end of a service followed by the next turn of the loop. *)
Lemma resume_moves p ev s s' :
  resume cfg p ev s = Ok s' ->
  moves cfg p (view s) (view s')
  \/ exists vm, moves cfg p (view s) vm /\ moves cfg p vm (view s').
Proof.
  intros H. unfold resume in H.
  destruct (gen (procs s p)) as [i|cid| |pw|n rest a r|n rest w sv r|] eqn:Hg.
  - left. destruct (i <? TOTAL_CUSTOMERS cfg)%nat eqn:Hi.
    + apply Nat.ltb_lt in Hi.
      destruct (process (Pathway_start i) (observe (ObsSpawn i) s)) as [pc s1] eqn:Hpr.
      assert (Hs1 : s1 = snd (process (Pathway_start i) (observe (ObsSpawn i) s)))
        by now rewrite Hpr.
      clear Hpr.
      apply bind_Ok in H. destruct H as ([x s2] & Hex & H).
      apply bind_Ok in H. destruct H as ([t s3] & Htmo & H).
      apply Ok_inj in H. subst s'.
      destruct (steady_expovariate cfg _ _ _ _ Hex) as (_ & P2 & _).
      destruct (steady_timeout cfg _ _ _ _ Htmo) as (_ & P3 & _).
      apply (moves_spawn cfg p _ _ i); cbn [view story gens fresh];
        [exact Hg | exact Hi | | |].
      * rewrite (quiet_story _ _ (quiet_yield p t _ s3)).
        rewrite (quiet_story _ _ (quiet_timeout _ _ _ _ Htmo)).
        rewrite (trace_expovariate _ _ _ _ Hex), Hs1.
        rewrite (quiet_story _ _ (quiet_process _ _)).
        now rewrite story_observe.
      * intros q. rewrite gens_yield, P3, P2, Hs1.
        destruct (decide (p = q)) as [->|Hne].
        -- now rewrite !fn_lookup_insert.
        -- rewrite !(fn_lookup_insert_ne _ p q) by exact Hne.
           exact (gens_process _ (observe (ObsSpawn i) s) q).
      * change (next_event (yield p t (Arrivals (S i)) s3)) with (next_event s3).
        destruct (next_timeout _ _ _ _ Htmo) as [Et N3].
        rewrite N3, Et, (next_expovariate _ _ _ _ Hex), Hs1, next_process.
        cbn [observe next_event]. lia.
    + apply Nat.ltb_ge in Hi. apply Ok_inj in H. subst s'.
      apply (moves_arrivals_end cfg p _ _ i); cbn [view story gens fresh];
        [exact Hg | exact Hi | | |].
      * apply quiet_story, quiet_finish.
      * apply gens_finish.
      * reflexivity.
  - left. apply bind_Ok in H. destruct H as ([pw draws] & _ & H).
    set (s1 := observe (ObsPath p pw)
                 (set_gene_stats (classify pw (gene_stats s)) (set_unif draws s))) in *.
    destruct (process (Customer_loop pw) s1) as [pc s2] eqn:Hpr.
    assert (Hs2 : s2 = snd (process (Customer_loop pw) s1)) by now rewrite Hpr.
    clear Hpr. apply Ok_inj in H. subst s'.
    apply (moves_path cfg p _ _ cid pw); cbn [view story gens fresh]; [exact Hg | | |].
    + rewrite (quiet_story _ _ (quiet_yield p pc _ s2)), Hs2.
      rewrite (quiet_story _ _ (quiet_process _ _)). reflexivity.
    + intros q. rewrite gens_yield, Hs2.
      destruct (decide (p = q)) as [->|Hne].
      * now rewrite !fn_lookup_insert.
      * rewrite !(fn_lookup_insert_ne _ p q) by exact Hne. exact (gens_process _ s1 q).
    + change (next_event (yield p pc Pathway_wait s2)) with (next_event s2).
      rewrite Hs2, next_process. unfold s1. cbn [observe next_event set_gene_stats set_unif].
      lia.
  - left. apply Ok_inj in H. subst s'.
    apply (moves_path_end cfg p); cbn [view story gens fresh]; [exact Hg | | |].
    + apply quiet_story, quiet_finish.
    + apply gens_finish.
    + reflexivity.
  - left. pose proof (customer_loop_effect _ _ _ _ H) as E.
    destruct pw as [|n rest]; destruct E as (E1 & E2 & E3).
    + apply (moves_loop_end cfg p); cbn [view story gens fresh];
        [exact Hg | exact E1 | exact E2 | lia].
    + apply (moves_visit cfg p _ _ n rest (now s)); cbn [view story gens fresh];
        [exact Hg | exact E1 | exact E2 | exact E3].
  - left. destruct (decide (r ∈ value (events s ev))).
    + apply bind_Ok in H. destruct H as (prm & _ & H).
      destruct (Qeq_bool (mu prm) 0); [discriminate|].
      apply bind_Ok in H. destruct H as ([x s1] & Hex & H).
      apply bind_Ok in H. destruct H as ([t s2] & Htmo & H).
      apply Ok_inj in H. subst s'.
      destruct (steady_expovariate cfg _ _ _ _ Hex) as (_ & P1 & _).
      destruct (steady_timeout cfg _ _ _ _ Htmo) as (_ & P2 & _).
      apply (moves_served cfg p _ _ n rest a r (now s - a) x);
        cbn [view story gens fresh]; [exact Hg | | |].
      * rewrite (quiet_story _ _ (quiet_yield p t _ s2)).
        rewrite (quiet_story _ _ (quiet_timeout _ _ _ _ Htmo)).
        now rewrite (trace_expovariate _ _ _ _ Hex).
      * intros q. now rewrite gens_yield, P2, P1.
      * change (next_event (yield p t (Customer_service n rest (now s - a) x r) s2))
          with (next_event s2).
        destruct (next_timeout _ _ _ _ Htmo) as [Et N3].
        rewrite N3, Et, (next_expovariate _ _ _ _ Hex). lia.
    + apply bind_Ok in H. destruct H as (prm & _ & H).
      apply bind_Ok in H. destruct H as (s2 & Hrec & H).
      apply bind_Ok in H. destruct H as (s3 & Hex & H).
      apply Ok_inj in H. subst s'.
      destruct (steady_record_stats cfg _ _ _ _ _ Hrec) as (_ & P2 & _).
      destruct (steady_exit_request cfg _ _ _ _ Hex) as (_ & P3 & _).
      apply (moves_abandon cfg p _ _ n rest a r (now s - a));
        cbn [view story gens fresh]; [exact Hg | | |].
      * rewrite (quiet_story _ _ (quiet_finish p s3)).
        rewrite (quiet_story _ _ (quiet_exit_request _ _ _ _ Hex)).
        rewrite story_observe by reflexivity. f_equal.
        now rewrite (trace_record_stats _ _ _ _ _ _ Hrec).
      * intros q. rewrite gens_finish, P3. cbn [observe procs]. now rewrite P2.
      * change (next_event (finish p s3)) with (next_event s3).
        rewrite (next_exit_request _ _ _ _ Hex). cbn [observe next_event].
        rewrite (next_record_stats _ _ _ _ _ _ Hrec). cbn [set_node_stats next_event]. lia.
  - right. apply bind_Ok in H. destruct H as (s1 & Hrec & H).
    apply bind_Ok in H. destruct H as (s2 & Hex & H).
    destruct (steady_record_stats cfg _ _ _ _ _ Hrec) as (T1 & P1 & _).
    destruct (steady_exit_request cfg _ _ _ _ Hex) as (T2 & P2 & _).
    cbn [observe procs now] in T2, P2.
    assert (S2 : story_of (trace s2) = ObsServed p n r w sv :: story_of (trace s)).
    { rewrite (quiet_story _ _ (quiet_exit_request _ _ _ _ Hex)).
      rewrite story_observe by reflexivity. f_equal.
      now rewrite (trace_record_stats _ _ _ _ _ _ Hrec). }
    assert (N2 : next_event s2 = S (next_event s)).
    { rewrite (next_exit_request _ _ _ _ Hex). cbn [observe next_event].
      now rewrite (next_record_stats _ _ _ _ _ _ Hrec). }
    assert (G2 : forall q, gen (procs s2 q) = gen (procs s q)).
    { intros q. now rewrite P2, P1. }
    exists {| story := story_of (trace s2);
              gens := <[p := Customer_loop rest]> (fun q => gen (procs s q));
              fresh := next_event s2 |}.
    split.
    + apply (moves_leave cfg p _ _ n rest w sv r); cbn [view story gens fresh];
        [exact Hg | exact S2 | reflexivity | lia].
    + pose proof (customer_loop_effect _ _ _ _ H) as E.
      destruct rest as [|n' rest']; destruct E as (E1 & E2 & E3).
      * apply (moves_loop_end cfg p); cbn [view story gens fresh];
          [now rewrite fn_lookup_insert | exact E1 | | lia].
        intros q. rewrite E2. destruct (decide (p = q)) as [->|Hne].
        -- now rewrite !fn_lookup_insert.
        -- rewrite !fn_lookup_insert_ne by exact Hne. apply G2.
      * apply (moves_visit cfg p _ _ n' rest' (now s2)); cbn [view story gens fresh];
          [now rewrite fn_lookup_insert | exact E1 | | exact E3].
        intros q. rewrite E2. destruct (decide (p = q)) as [->|Hne].
        -- now rewrite !fn_lookup_insert.
        -- rewrite !fn_lookup_insert_ne by exact Hne. apply G2.
  - discriminate.
Qed.

(** The callbacks of the kernel move no generator. *)
Lemma run_callback_idles cb ev s s' :
  (forall p, cb <> Resume p) -> run_callback cfg cb ev s = Ok s' ->
  idles (view s) (view s').
Proof.
  intros Hcb H. pose proof (quiet_run_callback cfg cb ev s s' Hcb H) as Hq.
  split; [now apply quiet_story|]. cbn [view gens fresh].
  destruct cb as [p|c|c|n|n]; cbn [run_callback] in H.
  - now destruct (Hcb p).
  - destruct (steady_check cfg _ _ _ H) as (_ & -> & _).
    now rewrite (next_check _ _ _ H).
  - apply Ok_inj in H. subst s'. destruct (steady_build_value cfg c s) as (_ & -> & _).
    now rewrite next_build_value.
  - destruct (steady_trigger_get cfg _ _ _ H) as (_ & -> & _).
    now rewrite (next_trigger_get _ _ _ H).
  - destruct (steady_trigger_put cfg _ _ _ H) as (_ & -> & _).
    now rewrite (next_trigger_put _ _ _ H).
Qed.

Lemma pop_idles x q s : idles (view s) (view (pop x q s)).
Proof. split; [apply quiet_story, quiet_pop|]. now split. Qed.

End Moves.

(** *** The arrival generator *)

Lemma arrivals_inv_other cfg v v' :
  arrivals_inv cfg v ->
  spawns_of (story v') = spawns_of (story v) ->
  (fresh v <= fresh v')%nat ->
  gens v' 0%nat = gens v 0%nat ->
  (forall q i, gens v' q = Arrivals i -> gens v q = Arrivals i) ->
  arrivals_inv cfg v'.
Proof.
  intros (F & O & A) Hs Hf H0 Hg. split; [lia|]. split.
  - intros q i Hq. apply (O q i). now apply Hg.
  - now rewrite H0, Hs.
Qed.

Lemma arrivals_inv_idles cfg v v' : idles v v' -> arrivals_inv cfg v -> arrivals_inv cfg v'.
Proof.
  intros (Hs & Hg & Hf) A. apply (arrivals_inv_other cfg v); auto.
  - now rewrite Hs.
  - intros q i. now rewrite Hg.
Qed.

Lemma arrivals_inv_moves cfg p v v' :
  moves cfg p v v' -> arrivals_inv cfg v -> arrivals_inv cfg v'.
Proof.
  intros M A. pose proof A as (F & O & A0).
  assert (Hp0 : forall g, gens v p = g -> (forall i, g <> Arrivals i) -> g <> Finished ->
                          p <> 0%nat).
  { intros g Hg Hna Hnf ->. rewrite Hg in A0. destruct g; try contradiction.
    now apply (Hna i). }
  assert (Hset : forall g g0 x,
             (forall q, gens v' q = <[p := g]> (<[x := g0]> (gens v)) q) ->
             p <> 0%nat -> x <> 0%nat ->
             (forall i, g <> Arrivals i) -> (forall i, g0 <> Arrivals i) ->
             gens v' 0%nat = gens v 0%nat /\
             forall q i, gens v' q = Arrivals i -> gens v q = Arrivals i).
  { intros g g0 x Hg Hp Hx Hna Hna0. split.
    - now rewrite Hg, !fn_lookup_insert_ne.
    - intros q i. rewrite Hg. destruct (decide (p = q)) as [->|Hq].
      + rewrite fn_lookup_insert. intros E. now apply Hna in E.
      + rewrite fn_lookup_insert_ne by exact Hq. destruct (decide (x = q)) as [->|Hq'].
        * rewrite fn_lookup_insert. intros E. now apply Hna0 in E.
        * now rewrite fn_lookup_insert_ne. }
  assert (Hset1 : forall g,
             (forall q, gens v' q = <[p := g]> (gens v) q) ->
             p <> 0%nat -> (forall i, g <> Arrivals i) ->
             gens v' 0%nat = gens v 0%nat /\
             forall q i, gens v' q = Arrivals i -> gens v q = Arrivals i).
  { intros g Hg Hp Hna. split.
    - now rewrite Hg, !fn_lookup_insert_ne.
    - intros q i. rewrite Hg. destruct (decide (p = q)) as [->|Hq].
      + rewrite fn_lookup_insert. intros E. now apply Hna in E.
      + now rewrite fn_lookup_insert_ne. }
  destruct M as [i Hg Hi Hs Hgs Hf|i Hg Hi Hs Hgs Hf|cid pw Hg Hs Hgs Hf|Hg Hs Hgs Hf
                |Hg Hs Hgs Hf|n rest t Hg Hs Hgs Hf|n rest a r w sv Hg Hs Hgs Hf
                |n rest a r w Hg Hs Hgs Hf|n rest w sv r Hg Hs Hgs Hf].
  - pose proof (O p i Hg) as ->. rewrite Hg in A0. destruct A0 as [A1 A2].
    split; [lia|]. split.
    + intros q j. rewrite Hgs. destruct (decide (0%nat = q)) as [<-|Hq]; [reflexivity|].
      rewrite fn_lookup_insert_ne by exact Hq. destruct (decide (fresh v = q)) as [<-|Hq'].
      * now rewrite fn_lookup_insert.
      * rewrite fn_lookup_insert_ne by exact Hq'. apply O.
    + rewrite Hgs, fn_lookup_insert, Hs. cbn [spawns_of flat_map app].
      fold (spawns_of (story v)). rewrite A1. split; [|lia].
      now rewrite seq_S, rev_app_distr.
  - pose proof (O p i Hg) as ->. rewrite Hg in A0. destruct A0 as [A1 A2].
    split; [lia|]. split.
    + intros q j. rewrite Hgs. destruct (decide (0%nat = q)) as [<-|Hq]; [reflexivity|].
      rewrite fn_lookup_insert_ne by exact Hq. apply O.
    + rewrite Hgs, fn_lookup_insert, Hs. now replace (TOTAL_CUSTOMERS cfg) with i by lia.
  - destruct (Hset Pathway_wait (Customer_loop pw) (fresh v) Hgs); try discriminate.
    + now apply (Hp0 _ Hg).
    + lia.
    + apply (arrivals_inv_other cfg v); auto; [now rewrite Hs | lia].
  - destruct (Hset1 Finished Hgs); try discriminate.
    + now apply (Hp0 _ Hg).
    + apply (arrivals_inv_other cfg v); auto. now rewrite Hs.
  - destruct (Hset1 Finished Hgs); try discriminate.
    + now apply (Hp0 _ Hg).
    + apply (arrivals_inv_other cfg v); auto. now rewrite Hs.
  - destruct (Hset1 _ Hgs); try discriminate.
    + now apply (Hp0 _ Hg).
    + apply (arrivals_inv_other cfg v); auto; [now rewrite Hs | lia].
  - destruct (Hset1 _ Hgs); try discriminate.
    + now apply (Hp0 _ Hg).
    + apply (arrivals_inv_other cfg v); auto. now rewrite Hs.
  - destruct (Hset1 _ Hgs); try discriminate.
    + now apply (Hp0 _ Hg).
    + apply (arrivals_inv_other cfg v); auto. now rewrite Hs.
  - destruct (Hset1 _ Hgs); try discriminate.
    + now apply (Hp0 _ Hg).
    + apply (arrivals_inv_other cfg v); auto. now rewrite Hs.
Qed.

(** *** Visits and their outcomes *)

Lemma filter_none {A} (f : A -> bool) (l : list A) :
  (forall x, x ∈ l -> f x = false) -> List.filter f l = [].
Proof.
  induction l as [|x l IH]; intros H; [reflexivity|]. cbn [List.filter].
  rewrite (H x) by (now left). apply IH. intros y Hy. apply H. now right.
Qed.

Lemma visit_inv_quiet v v' :
  visit_inv v ->
  (forall m, visits_at m (story v') = visits_at m (story v)) ->
  (forall m, outcomes_at m (story v') = outcomes_at m (story v)) ->
  (forall q, visiting (gens v' q) = visiting (gens v q)) ->
  (forall q, (fresh v' <= q)%nat -> gens v' q = Finished) ->
  (fresh v <= fresh v')%nat ->
  visit_inv v'.
Proof.
  intros V Hv Ho Hg Hu Hf.
  assert (Hor : forall m r, outcomes_of_request m r (story v')
                            = outcomes_of_request m r (story v)).
  { intros m r. unfold outcomes_of_request. now rewrite Ho. }
  constructor.
  - intros n p r. rewrite Hv. intros H. pose proof (vi_fresh _ V n p r H). lia.
  - intros n n' p p' r. rewrite !Hv. apply (vi_unique _ V).
  - intros p n r. rewrite Hg, Hv, Hor. apply (vi_visiting _ V).
  - intros n p r. rewrite Hg, Hv, Hor. apply (vi_outcome _ V).
  - intros n o. rewrite Ho. intros H. destruct (vi_visited _ V n o H) as [p Hp].
    exists p. now rewrite Hv.
  - exact Hu.
Qed.

Lemma visit_inv_idles v v' : idles v v' -> visit_inv v -> visit_inv v'.
Proof.
  intros (Hs & Hg & Hf) V. apply (visit_inv_quiet v); auto.
  - intros m. now rewrite Hs.
  - intros m. now rewrite Hs.
  - intros q. now rewrite Hg.
  - intros q Hq. rewrite Hg. apply (vi_unborn _ V). lia.
Qed.

(** A customer at the head of its loop begins a visit. *)
Lemma visit_inv_visit v v' p n :
  visit_inv v ->
  visiting (gens v p) = None ->
  (forall m, visits_at m (story v')
             = (if decide (n = m) then [(p, fresh v)] else []) ++ visits_at m (story v)) ->
  (forall m, outcomes_at m (story v') = outcomes_at m (story v)) ->
  (forall q, visiting (gens v' q)
             = if decide (q = p) then Some (n, fresh v) else visiting (gens v q)) ->
  (forall q, (fresh v' <= q)%nat -> gens v' q = Finished) ->
  (fresh v < fresh v')%nat ->
  visit_inv v'.
Proof.
  intros V Hp Hv Ho Hg Hu Hf.
  assert (Hor : forall m r, outcomes_of_request m r (story v')
                            = outcomes_of_request m r (story v)).
  { intros m r. unfold outcomes_of_request. now rewrite Ho. }
  assert (Hin : forall m q r, (q, r) ∈ visits_at m (story v') <->
                  (n = m /\ q = p /\ r = fresh v) \/ (q, r) ∈ visits_at m (story v)).
  { intros m q r. rewrite Hv, elem_of_app. destruct (decide (n = m)) as [->|Hne].
    - rewrite list_elem_of_singleton. split; intros [H|H]; auto.
      + injection H as -> ->. now left.
      + destruct H as (_ & -> & ->). now left.
    - rewrite elem_of_nil. split; intros [H|H]; auto; [contradiction|].
      now destruct H. }
  constructor.
  - intros m q r Hq. apply Hin in Hq. destruct Hq as [(_ & _ & ->)|Hq]; [exact Hf|].
    pose proof (vi_fresh _ V m q r Hq). lia.
  - intros m m' q q' r H1 H2. apply Hin in H1. apply Hin in H2.
    destruct H1 as [(<- & -> & ->)|H1], H2 as [(<- & -> & E)|H2].
    + now split.
    + pose proof (vi_fresh _ V _ _ _ H2). lia.
    + pose proof (vi_fresh _ V _ _ _ H1). lia.
    + now apply (vi_unique _ V m m' q q' r).
  - intros q m r. rewrite Hg, Hor. destruct (decide (q = p)) as [->|Hq].
    + intros [= <- <-]. split; [apply Hin; now left|].
      unfold outcomes_of_request. apply filter_none. intros o Hoo.
      destruct (vi_visited _ V n o Hoo) as [p' Hp'].
      pose proof (vi_fresh _ V _ _ _ Hp'). apply Nat.eqb_neq. lia.
    + intros H. destruct (vi_visiting _ V q m r H) as [H1 H2]. split; [|exact H2].
      apply Hin. now right.
  - intros m q r Hq. rewrite Hg, Hor. apply Hin in Hq.
    destruct Hq as [(<- & -> & ->)|Hq].
    + left. now rewrite decide_True.
    + destruct (vi_outcome _ V m q r Hq) as [H|H]; [|now right].
      left. rewrite decide_False; [exact H|]. intros ->. congruence.
  - intros m o. rewrite Ho. intros H. destruct (vi_visited _ V m o H) as [q Hq].
    exists q. apply Hin. now right.
  - exact Hu.
Qed.

(** A customer in the middle of a visit records its outcome. *)
Lemma visit_inv_outcome v v' p n r b w sv :
  visit_inv v ->
  visiting (gens v p) = Some (n, r) ->
  (forall m, visits_at m (story v') = visits_at m (story v)) ->
  (forall m, outcomes_at m (story v')
             = (if decide (n = m) then [(r, b, w, sv)] else []) ++ outcomes_at m (story v)) ->
  (forall q, visiting (gens v' q) = if decide (q = p) then None else visiting (gens v q)) ->
  (forall q, (fresh v' <= q)%nat -> gens v' q = Finished) ->
  (fresh v <= fresh v')%nat ->
  visit_inv v'.
Proof.
  intros V Hp Hv Ho Hg Hu Hf.
  destruct (vi_visiting _ V p n r Hp) as [Hpv Hpo].
  assert (Hor : forall m r', outcomes_of_request m r' (story v')
                 = (if decide (n = m /\ r = r') then [(r, b, w, sv)] else [])
                   ++ outcomes_of_request m r' (story v)).
  { intros m r'. unfold outcomes_of_request. rewrite Ho, List.filter_app. f_equal.
    destruct (decide (n = m)) as [->|Hne].
    - cbn [List.filter outcome_request fst]. destruct (Nat.eqb_spec r r') as [->|Hr].
      + now rewrite decide_True.
      + rewrite decide_False; [reflexivity|]. now intros [_ ?].
    - rewrite decide_False; [reflexivity|]. now intros [? _]. }
  constructor.
  - intros m q r'. rewrite Hv. intros H. pose proof (vi_fresh _ V m q r' H). lia.
  - intros m m' q q' r'. rewrite !Hv. apply (vi_unique _ V).
  - intros q m r'. rewrite Hg, Hv, Hor. destruct (decide (q = p)) as [->|Hq]; [discriminate|].
    intros H. destruct (vi_visiting _ V q m r' H) as [H1 H2]. split; [exact H1|].
    rewrite H2. destruct (decide (n = m /\ r = r')) as [[<- <-]|]; [|reflexivity].
    destruct (vi_unique _ V n n q p r H1 Hpv) as [-> _]. contradiction.
  - intros m q r'. rewrite Hg, Hv, Hor. intros Hq.
    destruct (vi_outcome _ V m q r' Hq) as [H|H].
    + destruct (decide (q = p)) as [->|Hne]; [|now left].
      right. rewrite Hp in H. injection H as <- <-.
      rewrite decide_True by now split. now rewrite Hpo.
    + right. destruct (decide (n = m /\ r = r')) as [[<- <-]|]; [|exact H].
      destruct (vi_unique _ V n n q p r Hq Hpv) as [-> _].
      rewrite Hpo in H. discriminate.
  - intros m o. rewrite Ho, Hv, elem_of_app. intros [H|H].
    + destruct (decide (n = m)) as [<-|]; [|now apply elem_of_nil in H].
      apply list_elem_of_singleton in H. subst o. now exists p.
    + apply (vi_visited _ V m o H).
  - exact Hu.
Qed.

Lemma visit_inv_moves cfg p v v' : moves cfg p v v' -> visit_inv v -> visit_inv v'.
Proof.
  intros M V.
  assert (Hpf : gens v p <> Finished -> (p < fresh v)%nat).
  { intros Hne. destruct (le_lt_dec (fresh v) p) as [Hle|]; [|assumption].
    now rewrite (vi_unborn _ V p Hle) in Hne. }
  assert (Hu1 : forall g, (forall q, gens v' q = <[p := g]> (gens v) q) ->
                  gens v p <> Finished -> (fresh v <= fresh v')%nat ->
                  forall q, (fresh v' <= q)%nat -> gens v' q = Finished).
  { intros g Hgs Hne Hf q Hq. specialize (Hpf Hne).
    rewrite Hgs, fn_lookup_insert_ne by lia. apply (vi_unborn _ V). lia. }
  assert (Hu2 : forall g g0, (forall q, gens v' q = <[p := g]> (<[fresh v := g0]> (gens v)) q) ->
                  gens v p <> Finished -> (fresh v < fresh v')%nat ->
                  forall q, (fresh v' <= q)%nat -> gens v' q = Finished).
  { intros g g0 Hgs Hne Hf q Hq. specialize (Hpf Hne).
    rewrite Hgs, !fn_lookup_insert_ne by lia. apply (vi_unborn _ V). lia. }
  assert (Hv1 : forall g, (forall q, gens v' q = <[p := g]> (gens v) q) ->
                  forall q, visiting (gens v' q)
                            = if decide (q = p) then visiting g else visiting (gens v q)).
  { intros g Hgs q. rewrite Hgs. destruct (decide (q = p)) as [->|Hq].
    - now rewrite fn_lookup_insert.
    - now rewrite fn_lookup_insert_ne. }
  assert (Hv2 : forall g g0, (forall q, gens v' q = <[p := g]> (<[fresh v := g0]> (gens v)) q) ->
                  visiting g = None -> visiting g0 = None -> visiting (gens v p) = None ->
                  forall q, visiting (gens v' q) = visiting (gens v q)).
  { intros g g0 Hgs Hg1 Hg0 Hgp q. rewrite Hgs. destruct (decide (p = q)) as [<-|Hq].
    - now rewrite fn_lookup_insert, Hg1, Hgp.
    - rewrite fn_lookup_insert_ne by exact Hq. destruct (decide (fresh v = q)) as [<-|Hq'].
      + now rewrite fn_lookup_insert, Hg0, (vi_unborn _ V (fresh v)).
      + now rewrite fn_lookup_insert_ne. }
  destruct M as [i Hg Hi Hs Hgs Hf|i Hg Hi Hs Hgs Hf|cid pw Hg Hs Hgs Hf|Hg Hs Hgs Hf
                |Hg Hs Hgs Hf|n rest t Hg Hs Hgs Hf|n rest a r w sv Hg Hs Hgs Hf
                |n rest a r w Hg Hs Hgs Hf|n rest w sv r Hg Hs Hgs Hf].
  - apply (visit_inv_quiet v); try (intros m; now rewrite Hs); [exact V| | |lia].
    + apply (Hv2 _ _ Hgs); try reflexivity. now rewrite Hg.
    + apply (Hu2 _ _ Hgs); [|exact Hf]. now rewrite Hg.
  - apply (visit_inv_quiet v); try (intros m; now rewrite Hs); [exact V| | |lia].
    + intros q. rewrite (Hv1 _ Hgs). destruct (decide (q = p)) as [->|]; [|reflexivity].
      now rewrite Hg.
    + apply (Hu1 _ Hgs); [|exact Hf]. now rewrite Hg.
  - apply (visit_inv_quiet v); try (intros m; now rewrite Hs); [exact V| | |lia].
    + apply (Hv2 _ _ Hgs); try reflexivity. now rewrite Hg.
    + apply (Hu2 _ _ Hgs); [|exact Hf]. now rewrite Hg.
  - apply (visit_inv_quiet v); try (intros m; now rewrite Hs); [exact V| | |lia].
    + intros q. rewrite (Hv1 _ Hgs). destruct (decide (q = p)) as [->|]; [|reflexivity].
      now rewrite Hg.
    + apply (Hu1 _ Hgs); [|exact Hf]. now rewrite Hg.
  - apply (visit_inv_quiet v); try (intros m; now rewrite Hs); [exact V| | |lia].
    + intros q. rewrite (Hv1 _ Hgs). destruct (decide (q = p)) as [->|]; [|reflexivity].
      now rewrite Hg.
    + apply (Hu1 _ Hgs); [|exact Hf]. now rewrite Hg.
  - apply (visit_inv_visit v v' p n); try (intros m; now rewrite Hs); [exact V| | | |exact Hf].
    + now rewrite Hg.
    + intros q. now rewrite (Hv1 _ Hgs).
    + apply (Hu1 _ Hgs); [|lia]. now rewrite Hg.
  - apply (visit_inv_quiet v); try (intros m; now rewrite Hs); [exact V| | |lia].
    + intros q. rewrite (Hv1 _ Hgs). destruct (decide (q = p)) as [->|]; [|reflexivity].
      now rewrite Hg.
    + apply (Hu1 _ Hgs); [|exact Hf]. now rewrite Hg.
  - apply (visit_inv_outcome v v' p n r true w 0); try (intros m; now rewrite Hs);
      [exact V| | | |exact Hf].
    + now rewrite Hg.
    + intros q. now rewrite (Hv1 _ Hgs).
    + apply (Hu1 _ Hgs); [|exact Hf]. now rewrite Hg.
  - apply (visit_inv_outcome v v' p n r false w sv); try (intros m; now rewrite Hs);
      [exact V| | | |exact Hf].
    + now rewrite Hg.
    + intros q. now rewrite (Hv1 _ Hgs).
    + apply (Hu1 _ Hgs); [|exact Hf]. now rewrite Hg.
Qed.

Section Customers.

Variable cfg : Config.
Variables exps unifs : list Q.

Lemma view_setup s :
  setup cfg exps unifs = Ok s ->
  story (view s) = [] /\ fresh (view s) = 2%nat /\
  forall q, gens (view s) q = <[0%nat := Arrivals 0]> (fun _ => Finished) q.
Proof.
  unfold setup. destruct (capacities_ok cfg); [|discriminate].
  intros H. apply Ok_inj in H. subst s. cbn [view story gens fresh]. split; [|split].
  - now rewrite (quiet_story _ _ (quiet_process _ _)).
  - reflexivity.
  - intros q. exact (gens_process _ (empty_state cfg exps unifs) q).
Qed.

(** In every state between two events: the arrival generator has created
    the customers it has looped over, and every visit is going on or has
    exactly one outcome. *)
Lemma customers_reachable s :
  reachable cfg exps unifs s -> arrivals_inv cfg (view s) /\ visit_inv (view s).
Proof.
  revert s. apply (reachable_ind_simple cfg exps unifs
                     (fun s => arrivals_inv cfg (view s) /\ visit_inv (view s))).
  - intros s H. destruct (view_setup s H) as (Hs & Hf & Hg). split.
    + split; [lia|]. split.
      * intros q i. rewrite Hg. destruct (decide (0%nat = q)) as [<-|Hq]; [reflexivity|].
        now rewrite fn_lookup_insert_ne.
      * rewrite Hg, fn_lookup_insert, Hs. split; [reflexivity | lia].
    + constructor; rewrite ?Hs.
      * intros n p r Hin. now apply elem_of_nil in Hin.
      * intros n n' p p' r Hin. now apply elem_of_nil in Hin.
      * intros p n r. rewrite Hg. destruct (decide (0%nat = p)) as [<-|Hq].
        -- now rewrite fn_lookup_insert.
        -- now rewrite fn_lookup_insert_ne.
      * intros n p r Hin. now apply elem_of_nil in Hin.
      * intros n o Hin. now apply elem_of_nil in Hin.
      * intros q Hq. rewrite Hg, fn_lookup_insert_ne by lia. reflexivity.
  - intros s x q [A V] _. split.
    + apply (arrivals_inv_idles cfg (view s)); [apply pop_idles | exact A].
    + apply (visit_inv_idles (view s)); [apply pop_idles | exact V].
  - intros e cb s s' [A V] H.
    assert (Hk : (forall p, cb <> Resume p) ->
                 arrivals_inv cfg (view s') /\ visit_inv (view s')).
    { intros Hcb. pose proof (run_callback_idles cfg cb e s s' Hcb H) as Hi.
      split; [exact (arrivals_inv_idles cfg _ _ Hi A) | exact (visit_inv_idles _ _ Hi V)]. }
    destruct cb as [p|c|c|n|n]; try (apply Hk; intros; discriminate). clear Hk.
    cbn [run_callback] in H. destruct (resume_moves cfg p e s s' H) as [M|(vm & M1 & M2)].
    + split; [exact (arrivals_inv_moves cfg p _ _ M A) | exact (visit_inv_moves cfg p _ _ M V)].
    + split.
      * exact (arrivals_inv_moves cfg p _ _ M2 (arrivals_inv_moves cfg p _ _ M1 A)).
      * exact (visit_inv_moves cfg p _ _ M2 (visit_inv_moves cfg p _ _ M1 V)).
Qed.

End Customers.

(** ** The customers created by the arrival generator *)

(** At no moment of a run has the arrival generator started more than
    [TOTAL_CUSTOMERS] customers. *)
Lemma arrivals_never_exceed cfg exps unifs s :
  reachable cfg exps unifs s ->
  (length (spawns_of (trace s)) <= TOTAL_CUSTOMERS cfg)%nat.
Proof.
  intros Hs. destruct (customers_reachable cfg exps unifs s Hs) as [(_ & _ & A) _].
  cbn [view story gens] in A. rewrite spawns_of_story in A.
  destruct (gen (procs s 0%nat)); try contradiction.
  - destruct A as [-> Hi]. rewrite length_rev, length_seq. exact Hi.
  - rewrite A, length_rev, length_seq. lia.
Qed.

(** ** One outcome for every visit *)

Lemma outcomes_of_request_story n r tr :
  outcomes_of_request n r (story_of tr) = outcomes_of_request n r tr.
Proof. unfold outcomes_of_request. now rewrite outcomes_at_story. Qed.

(** While a run goes on, no visit has more than one outcome. *)
Lemma visit_outcome_at_most_once cfg exps unifs s n r :
  reachable cfg exps unifs s ->
  (length (outcomes_of_request n r (trace s)) <= 1)%nat.
Proof.
  intros Hs. destruct (customers_reachable cfg exps unifs s Hs) as [_ V].
  rewrite <- outcomes_of_request_story.
  destruct (outcomes_of_request n r (story_of (trace s))) as [|o l] eqn:E; [cbn; lia|].
  assert (Ho : o ∈ outcomes_at n (story (view s))).
  { assert (Hin : o ∈ outcomes_of_request n r (story_of (trace s))) by (rewrite E; now left).
    unfold outcomes_of_request in Hin. apply list_elem_of_In, List.filter_In in Hin.
    apply list_elem_of_In. exact (proj1 Hin). }
  assert (Hr : outcome_request o = r).
  { assert (Hin : o ∈ outcomes_of_request n r (story_of (trace s))) by (rewrite E; now left).
    unfold outcomes_of_request in Hin. apply list_elem_of_In, List.filter_In in Hin.
    now apply Nat.eqb_eq. }
  destruct (vi_visited _ V n o Ho) as [p Hp]. rewrite Hr in Hp.
  destruct (vi_outcome _ V n p r Hp) as [Hv|Hl].
  - destruct (vi_visiting _ V p n r Hv) as [_ Hnone].
    cbn [view story] in Hnone. rewrite E in Hnone. discriminate.
  - cbn [view story] in Hl. rewrite E in Hl. lia.
Qed.

(** C4: when [env.run()] returns, every visit a customer began at station
    [n] (identified by its request [r]) has exactly one outcome on record,
    an abandonment or a completed service; the books of the station hold
    one sample for each recorded outcome and the abandonment counter counts
    the abandoned ones. *)
Theorem visit_has_one_outcome cfg exps unifs s n p r :
  reachable cfg exps unifs s -> completed s ->
  (p, r) ∈ visits_at n (trace s) ->
  let outs := outcomes_at n (trace s) in
  (exists o, outcomes_of_request n r (trace s) = [o] /\ o ∈ outs) /\
  waiting_times (node_stats s n) = rev (map outcome_wait outs) /\
  service_times (node_stats s n) = rev (map outcome_service outs) /\
  abandonment_count (node_stats s n)
  = Z.of_nat (length (List.filter outcome_abandoned outs)).
Proof.
  intros Hs Hc Hv outs.
  pose proof (completed_all_finished cfg exps unifs s Hs Hc) as Hidle.
  destruct (customers_reachable cfg exps unifs s Hs) as [_ V].
  destruct (books_inv_reachable _ _ _ _ Hs) as [_ Hb].
  destruct (Hb n) as (W & S & _ & _ & A). fold outs in W, S, A.
  split; [|now repeat split].
  assert (Hv' : (p, r) ∈ visits_at n (story (view s))).
  { cbn [view story]. now rewrite visits_at_story. }
  destruct (vi_outcome _ V n p r Hv') as [Hg|Hl].
  { cbn [view gens] in Hg. rewrite Hidle in Hg. discriminate. }
  cbn [view story] in Hl. rewrite outcomes_of_request_story in Hl.
  destruct (outcomes_of_request n r (trace s)) as [|o [|o' l]] eqn:E; try discriminate.
  exists o. split; [reflexivity|].
  assert (Hin : o ∈ outcomes_of_request n r (trace s)) by (rewrite E; now left).
  unfold outcomes_of_request in Hin. apply list_elem_of_In, List.filter_In in Hin.
  apply list_elem_of_In. exact (proj1 Hin).
Qed.

Lemma visit_has_one_outcome_witness :
  let s := final_state eleven_run in
  let outs := outcomes_at CRS (trace s) in
  (exists o, outcomes_of_request CRS 97 (trace s) = [o] /\ o ∈ outs) /\
  waiting_times (node_stats s CRS) = rev (map outcome_wait outs) /\
  service_times (node_stats s CRS) = rev (map outcome_service outs) /\
  abandonment_count (node_stats s CRS)
  = Z.of_nat (length (List.filter outcome_abandoned outs)).
Proof.
  apply (visit_has_one_outcome eleven_customers eleven_expo eleven_unif _ CRS 95 97).
  - apply (simulate_reachable eleven_customers eleven_expo eleven_unif 1000). apply succeeded_final. vm_compute. reflexivity.
  - apply (simulate_reachable eleven_customers eleven_expo eleven_unif 1000). apply succeeded_final. vm_compute. reflexivity.
  - apply list_elem_of_In. vm_compute. left. reflexivity.
Defined.

(** ** A generator that has ended stays so *)

Lemma evolves_trans cfg v1 v2 v3 : evolves cfg v1 v2 -> evolves cfg v2 v3 -> evolves cfg v1 v3.
Proof.
  intros H12 H23. induction H23 as [|v3 v4 _ IH Hi|p v3 v4 _ IH Hm]; [exact H12| |].
  - eapply evolves_idles; eauto.
  - eapply evolves_moves; eauto.
Qed.

Section Later.

Variable cfg : Config.

Lemma run_callbacks_evolves cbs ev s s' :
  run_callbacks cfg cbs ev s = Ok s' -> evolves cfg (view s) (view s').
Proof.
  revert s. induction cbs as [|cb cbs IH]; intros s H; cbn [run_callbacks] in H.
  - apply Ok_inj in H. subst. constructor.
  - apply bind_Ok in H. destruct H as (s1 & H1 & H).
    apply (evolves_trans cfg _ (view s1)); [|now apply IH].
    assert (Hk : (forall p, cb <> Resume p) -> evolves cfg (view s) (view s1)).
    { intros Hcb. eapply evolves_idles; [constructor|].
      exact (run_callback_idles cfg cb ev s s1 Hcb H1). }
    destruct cb as [p|c|c|n|n]; try (apply Hk; intros; discriminate). clear Hk.
    cbn [run_callback] in H1.
    destruct (resume_moves cfg p ev s s1 H1) as [M|(vm & M1 & M2)].
    + eapply evolves_moves; [constructor | exact M].
    + eapply evolves_moves; [|exact M2]. eapply evolves_moves; [constructor | exact M1].
Qed.

Lemma step_evolves s s' : step cfg s = Ok s' -> evolves cfg (view s) (view s').
Proof.
  unfold step. destruct (queue s) as [|x q].
  - intros H. apply Ok_inj in H. subst. constructor.
  - intros H. apply (evolves_trans cfg _ (view (pop x q s))).
    + eapply evolves_idles; [constructor | apply pop_idles].
    + eapply run_callbacks_evolves; eauto.
Qed.

Lemma steps_evolves s s' : steps cfg s s' -> evolves cfg (view s) (view s').
Proof.
  induction 1 as [|s1 s2 _ IH Hstep]; [constructor|].
  apply (evolves_trans cfg _ (view s1)); [exact IH | now apply step_evolves].
Qed.

Lemma steps_reachable exps unifs s s' :
  reachable cfg exps unifs s -> steps cfg s s' -> reachable cfg exps unifs s'.
Proof.
  intros Hs. induction 1 as [|s1 s2 _ IH Hstep]; [exact Hs|].
  eapply reachable_step; eauto.
Qed.

(** Once the generator of process [p] has ended, nothing is put on record
    in its name any more. *)
Lemma evolves_retired p v v' :
  evolves cfg v v' ->
  gens v p = Finished -> (p < fresh v)%nat ->
  gens v' p = Finished /\ (p < fresh v')%nat /\
  records_of p (story v') = records_of p (story v).
Proof.
  intros E Hp Hlt. induction E as [|v2 v3 _ IH (Hs & Hg & Hf)|q v2 v3 _ IH M].
  - now repeat split.
  - destruct IH as (G & F & R). rewrite Hg, Hs. repeat split; auto. lia.
  - destruct IH as (G & F & R).
    assert (Hq : gens v2 q <> Finished -> q <> p) by (intros Hne ->; contradiction).
    assert (H1 : forall g, (forall x, gens v3 x = <[q := g]> (gens v2) x) ->
                           gens v2 q <> Finished -> gens v3 p = Finished).
    { intros g Hgs Hne. rewrite Hgs, fn_lookup_insert_ne; [exact G|]. now apply Hq. }
    assert (H2 : forall g g0,
               (forall x, gens v3 x = <[q := g]> (<[fresh v2 := g0]> (gens v2)) x) ->
               gens v2 q <> Finished -> gens v3 p = Finished).
    { intros g g0 Hgs Hne. rewrite Hgs, !fn_lookup_insert_ne; [exact G|lia|]. now apply Hq. }
    assert (Hrec : forall o, story v3 = o :: story v2 -> actor o <> Some p ->
                             records_of p (story v3) = records_of p (story v)).
    { intros o -> Ho. unfold records_of in *. cbn [List.filter].
      rewrite bool_decide_eq_false_2 by exact Ho. exact R. }
    assert (Hrec0 : story v3 = story v2 ->
                    records_of p (story v3) = records_of p (story v)).
    { intros ->. exact R. }
    destruct M as [i Hg Hi Hs Hgs Hf|i Hg Hi Hs Hgs Hf|cid pw Hg Hs Hgs Hf|Hg Hs Hgs Hf
                  |Hg Hs Hgs Hf|n rest t Hg Hs Hgs Hf|n rest a r w sv Hg Hs Hgs Hf
                  |n rest a r w Hg Hs Hgs Hf|n rest w sv r Hg Hs Hgs Hf];
      (assert (Hne : gens v2 q <> Finished) by (rewrite Hg; discriminate));
      pose proof (Hq Hne) as Hqp;
      (split; [first [now apply (H1 _ Hgs) | now apply (H2 _ _ Hgs)]|]);
      (split; [lia|]);
      first [ now apply Hrec0
            | apply (Hrec _ Hs); cbn [actor]; congruence ].
Qed.

End Later.

(** ** The race between a request and the patience of the customer *)

Lemma keeps_refl k s : keeps k s s.
Proof. intros e _. now split. Qed.

Lemma keeps_trans k s1 s2 s3 : keeps k s1 s2 -> keeps k s2 s3 -> keeps k s1 s3.
Proof.
  intros H12 H23 e He. destruct (H12 e He) as [K1 C1], (H23 e He) as [K2 C2]. split.
  - now rewrite K2.
  - intros l Hl Hc. apply C2; [|exact Hc]. now apply C1.
Qed.

Lemma keeps_weaken k k' s s' : (k' <= k)%nat -> keeps k s s' -> keeps k' s s'.
Proof. intros Hk H e He. apply H. lia. Qed.

Lemma keeps_events k s s' :
  (forall e, (e < k)%nat ->
             kind (events s' e) = kind (events s e)
             /\ callbacks (events s' e) = callbacks (events s e)) ->
  keeps k s s'.
Proof.
  intros H e He. destruct (H e He) as [K C]. split; [exact K|].
  intros l Hl _. now rewrite C.
Qed.

Ltac keeps_same := apply keeps_events; intros ? _; split; reflexivity.

Lemma keeps_schedule k ev prio d s : keeps k s (schedule ev prio d s).
Proof. keeps_same. Qed.

Lemma keeps_observe k o s : keeps k s (observe o s).
Proof. keeps_same. Qed.

Lemma keeps_upd_node k n f s : keeps k s (upd_node n f s).
Proof. keeps_same. Qed.

Lemma keeps_upd_event k x f s :
  (forall ev, kind (f ev) = kind ev /\ callbacks (f ev) = callbacks ev) ->
  keeps k s (upd_event x f s).
Proof.
  intros Hf. apply keeps_events. intros e _. proj.
  destruct (decide (x = e)) as [->|Hne].
  - rewrite fn_lookup_alter. apply Hf.
  - now rewrite fn_lookup_alter_ne.
Qed.

Lemma keeps_new_event k kd b s :
  (k <= next_event s)%nat -> keeps k s (snd (new_event kd b s)).
Proof.
  intros Hk. apply keeps_events. intros e He. proj.
  now rewrite fn_lookup_insert_ne by lia.
Qed.

Lemma keeps_add_callback k x cb s : (k <= x)%nat -> keeps k s (add_callback x cb s).
Proof.
  intros Hk. apply keeps_events. intros e He.
  now rewrite events_add_callback, decide_False by lia.
Qed.

Lemma keeps_succeed k x s s' : succeed x s = Ok s' -> keeps k s s'.
Proof.
  unfold succeed. destruct (triggered (events s x)); [discriminate|].
  intros H. apply Ok_inj in H. subst s'.
  apply (keeps_trans _ _ (upd_event x (with_triggered true) s)); [|apply keeps_schedule].
  now apply keeps_upd_event.
Qed.

Lemma keeps_check k c s s' : check c s = Ok s' -> keeps k s s'.
Proof.
  unfold check. destruct (triggered (events s c)).
  - intros H. apply Ok_inj in H. subst. apply keeps_refl.
  - apply keeps_succeed.
Qed.

Lemma keeps_remove_check k c x s : keeps k s (upd_event x (remove_check c) s).
Proof.
  intros e _. proj. destruct (decide (x = e)) as [->|Hne].
  2:{ rewrite fn_lookup_alter_ne by exact Hne. now split. }
  rewrite fn_lookup_alter.
  destruct (remove_check_spec c (events s e)) as (K & _ & [->|(l0 & E0 & E1)]).
  { now split. }
  split; [exact K|]. intros l Hl Hc. rewrite E0 in Hl. injection Hl as ->.
  rewrite E1. f_equal. clear -Hc. induction l as [|cb l IH]; [reflexivity|].
  cbn [remove_first]. destruct (decide (Check c = cb)) as [<-|Hne].
  - exfalso. apply (Hc c). now left.
  - f_equal. apply IH. intros c' Hin. apply (Hc c'). now right.
Qed.

Lemma keeps_build_value k c s : keeps k s (build_value c s).
Proof.
  assert (Hfold : forall l s0,
             keeps k s0 (foldl (fun s' ev => upd_event ev (remove_check c) s') s0 l)).
  { induction l as [|x l IH]; intros s0; cbn [foldl]; [apply keeps_refl|].
    eapply keeps_trans; [apply keeps_remove_check | apply IH]. }
  unfold build_value, remove_check_callbacks.
  eapply keeps_trans; [apply Hfold|]. now apply keeps_upd_event.
Qed.

Lemma keeps_do_put k n r s s' : do_put n r s = Ok s' -> keeps k s s'.
Proof.
  unfold do_put. destruct (_ <? _)%Z.
  - intros H. apply (keeps_succeed k) in H. exact H.
  - intros H. apply Ok_inj in H. subst. apply keeps_refl.
Qed.

Lemma keeps_trigger_put k n s s' : trigger_put n s = Ok s' -> keeps k s s'.
Proof.
  unfold trigger_put. destruct (put_queue (nodes s n)) as [|r q].
  { intros H. apply Ok_inj in H. subst. apply keeps_refl. }
  intros H. apply bind_Ok in H. destruct H as (s1 & E & H).
  apply (keeps_do_put k) in E.
  destruct (triggered (events s1 r)); apply Ok_inj in H; subst s'; exact E.
Qed.

Lemma keeps_do_get k n g s s' : do_get n g s = Ok s' -> keeps k s s'.
Proof.
  unfold do_get. intros H. apply (keeps_succeed k) in H.
  now destruct (release_request (events s g)).
Qed.

Lemma keeps_trigger_get k n s s' : trigger_get n s = Ok s' -> keeps k s s'.
Proof.
  unfold trigger_get. destruct (get_queue (nodes s n)) as [|g q].
  { intros H. apply Ok_inj in H. subst. apply keeps_refl. }
  intros H. apply bind_Ok in H. destruct H as (s1 & E & H).
  apply (keeps_do_get k) in E.
  destruct (triggered (events s1 g)); apply Ok_inj in H; subst s'; exact E.
Qed.

Lemma keeps_request k n s r s' :
  (k <= next_event s)%nat -> request n s = Ok (r, s') -> keeps k s s'.
Proof.
  intros Hk. rewrite request_eq. cbn zeta. intros H.
  apply bind_Ok in H. destruct H as (s4 & E & H). injection H as <- <-.
  apply (keeps_trigger_put k) in E.
  eapply keeps_trans; [|exact E].
  eapply keeps_trans; [apply (keeps_new_event k (KRequest n) false s Hk)|].
  eapply keeps_trans; [apply keeps_upd_node|].
  now apply keeps_add_callback.
Qed.

Lemma keeps_exit_request k n r s s' :
  (k <= next_event s)%nat -> exit_request n r s = Ok s' -> keeps k s s'.
Proof.
  intros Hk. unfold exit_request. intros H. apply bind_Ok in H. destruct H as (s1 & E & H).
  assert (E1 : keeps k s s1 /\ next_event s1 = next_event s).
  { destruct (triggered (events s r)).
    - apply Ok_inj in E. subst. split; [apply keeps_refl | reflexivity].
    - destruct (decide (r ∈ put_queue (nodes s n))); [|discriminate].
      apply Ok_inj in E. subst. split; [keeps_same | reflexivity]. }
  destruct E1 as [E1 N1]. eapply keeps_trans; [exact E1|].
  rewrite release_eq in H. apply (keeps_trigger_get k) in H.
  eapply keeps_trans; [|exact H].
  eapply keeps_trans; [apply (keeps_new_event k (KRelease n r) false s1); lia|].
  eapply keeps_trans; [apply keeps_upd_node|].
  apply keeps_add_callback. lia.
Qed.

Lemma keeps_timeout k d s t s' :
  (k <= next_event s)%nat -> timeout d s = Ok (t, s') -> keeps k s s'.
Proof.
  intros Hk. unfold timeout. destruct (Qltb d 0); [discriminate|].
  intros H. cbn in H. injection H as <- <-.
  exact (keeps_new_event k KTimeout true s Hk).
Qed.

Lemma keeps_process k g s : (k <= next_event s)%nat -> keeps k s (snd (process g s)).
Proof.
  intros Hk. rewrite process_eq. cbn [snd]. unfold yield.
  eapply keeps_trans; [apply (keeps_new_event k KProcess false s Hk)|].
  eapply keeps_trans; [apply (keeps_new_event k KInitialize true); cbn; lia|].
  eapply keeps_trans; [|apply keeps_add_callback; lia]. keeps_same.
Qed.

Lemma keeps_finish k p s : keeps k s (finish p s).
Proof.
  unfold finish. eapply keeps_trans; [|apply keeps_schedule].
  eapply keeps_trans; [|now apply keeps_upd_event]. keeps_same.
Qed.

Lemma keeps_yield k p ev g s : (k <= ev)%nat -> keeps k s (yield p ev g s).
Proof.
  intros Hk. unfold yield. eapply keeps_trans; [|apply keeps_add_callback; lia]. keeps_same.
Qed.

Lemma keeps_expovariate k lambd s x s' : expovariate lambd s = Ok (x, s') -> keeps k s s'.
Proof.
  unfold expovariate. destruct (Qeq_bool lambd 0); [discriminate|].
  destruct (expo s); [discriminate|]. intros [= <- <-]. keeps_same.
Qed.

Lemma keeps_record_stats cfg k n w sv s s' :
  record_stats cfg n w sv s = Ok s' -> keeps k s s'.
Proof.
  unfold record_stats. intros H. apply bind_Ok in H. destruct H as (prm & _ & H).
  apply bind_Ok in H. destruct H as (ns & _ & H). apply Ok_inj in H. subst.
  keeps_same.
Qed.

Lemma procs_yield p ev g s q :
  procs (yield p ev g s) q
  = if decide (p = q) then {| gen := g; target := Some ev |} else procs s q.
Proof.
  unfold yield, add_callback. proj. destruct (decide (p = q)) as [->|Hne].
  - now rewrite fn_lookup_insert.
  - now rewrite fn_lookup_insert_ne.
Qed.

Lemma procs_finish p s q :
  procs (finish p s) q = if decide (p = q) then idle else procs s q.
Proof.
  unfold finish. proj. destruct (decide (p = q)) as [->|Hne].
  - now rewrite fn_lookup_insert.
  - now rewrite fn_lookup_insert_ne.
Qed.

Lemma procs_process g s q :
  procs (snd (process g s)) q
  = if decide (next_event s = q)
    then {| gen := g; target := Some (S (next_event s)) |} else procs s q.
Proof. rewrite process_eq. cbn [snd]. now rewrite procs_yield. Qed.

Section Race.

Variable cfg : Config.

(** A customer that begins a visit waits for the condition it has just
    made of its request and a timeout. *)
Lemma customer_loop_race p n rest s s' :
  customer_loop cfg p (n :: rest) s = Ok s' ->
  let r := next_event s in
  let c := S (S r) in
  procs s' p = {| gen := Customer_race n rest (now s) r; target := Some c |} /\
  kind (events s' c) = KCondition [r; S r] /\
  callbacks (events s' c) = Some [BuildValue c; Resume p] /\
  next_event s' = S c /\
  keeps (next_event s) s s' /\
  (forall q, q <> p -> procs s' q = procs s q).
Proof.
  intros H r c. cbn [customer_loop] in H.
  apply bind_Ok in H. destruct H as (prm & _ & H).
  apply bind_Ok in H. destruct H as ([r0 s0] & Hreq & H).
  apply bind_Ok in H. destruct H as ([t s2] & Htmo & H).
  apply bind_Ok in H. destruct H as ([c0 s3] & Hany & H).
  apply Ok_inj in H. subst s'.
  destruct (next_request _ _ _ _ Hreq) as [-> N0]. fold r in N0, Hreq, Htmo, Hany |- *.
  destruct (next_timeout _ _ _ _ Htmo) as [Et N2]. cbn [observe next_event] in Et.
  rewrite N0 in Et. subst t.
  destruct (steady_request cfg _ _ _ _ Hreq) as (_ & P0 & _).
  destruct (steady_timeout cfg _ _ _ _ Htmo) as (_ & P2 & _). cbn [observe procs] in P2.
  assert (K0 : keeps (next_event s) s s0) by (apply (keeps_request _ _ _ _ _ (le_n _) Hreq)).
  assert (K2 : keeps (next_event s) s0 s2).
  { apply (keeps_trans _ _ (observe (ObsVisit p n r (now s)) s0)); [apply keeps_observe|].
    apply (keeps_timeout _ _ _ _ _) with (2 := Htmo). cbn [observe next_event]. lia. }
  assert (Cr0 : callbacks (events s0 r) = Some [TriggerGet n]).
  { pose proof Hreq as Hreq'. rewrite request_eq in Hreq'. cbn zeta in Hreq'.
    apply bind_Ok in Hreq'. destruct Hreq' as (s4 & E & Hreq').
    injection Hreq' as <-. fold r in E.
    destruct (keeps_trigger_put (S r) _ _ _ E r (le_n _)) as [_ Hc]. apply Hc.
    - rewrite events_add_callback, decide_True by reflexivity. proj.
      now rewrite fn_lookup_insert.
    - intros c' Hin. apply list_elem_of_singleton in Hin. discriminate. }
  assert (Cr : callbacks (events s2 r) = Some [TriggerGet n]).
  { assert (Kt : keeps (S r) (observe (ObsVisit p n r (now s)) s0) s2).
    { apply (keeps_timeout _ _ _ _ _) with (2 := Htmo). cbn [observe next_event]. lia. }
    destruct (Kt r (le_n _)) as [_ Hc]. apply Hc; [exact Cr0|].
    intros c' Hin. apply list_elem_of_singleton in Hin. discriminate. }
  assert (Ct : callbacks (events s2 (S r)) = Some []).
  { pose proof Htmo as Htmo'. unfold timeout in Htmo'. destruct (Qltb PATIENCE 0); [discriminate|].
    cbn in Htmo'. injection Htmo' as _ <-. proj. rewrite N0. now rewrite fn_lookup_insert. }
  rewrite (any_of_pair r (S r) s2 _ _ Cr Ct) in Hany by lia.
  injection Hany as <- <-. rewrite N2.
  set (s1 := set_next_event (S c)
               (set_events (<[c := {| kind := KCondition [r; S r]; callbacks := Some [];
                                      triggered := false; value := [] |}]> (events s2)) s2)).
  assert (Es1 : snd (new_event (KCondition [r; S r]) false s2) = s1).
  { unfold s1, c. cbn [new_event snd]. now rewrite N2. }
  assert (Ec : events s1 c = {| kind := KCondition [r; S r]; callbacks := Some [];
                                triggered := false; value := [] |}).
  { unfold s1. proj. now rewrite fn_lookup_insert. }
  set (s3 := add_callback c (BuildValue c)
               (add_callback (S r) (Check c) (add_callback r (Check c) s1))).
  assert (E3 : events s3 c = with_callbacks (Some [BuildValue c]) (events s1 c)).
  { unfold s3. rewrite events_add_callback, decide_True by reflexivity.
    rewrite !events_add_callback, !decide_False by (unfold c; lia). now rewrite Ec. }
  assert (K3 : keeps (next_event s) s2 s3).
  { unfold s3. eapply keeps_trans; [apply (keeps_new_event _ (KCondition [r; S r]) false); lia|].
    rewrite Es1.
    eapply keeps_trans; [apply (keeps_add_callback _ r); unfold r; lia|].
    eapply keeps_trans; [apply (keeps_add_callback _ (S r)); unfold r; lia|].
    apply keeps_add_callback. unfold c, r. lia. }
  set (s4 := yield p c (Customer_race n rest (now s) r) s3).
  assert (F1 : procs s4 p = {| gen := Customer_race n rest (now s) r; target := Some c |}).
  { unfold s4. now rewrite procs_yield, decide_True. }
  assert (E4 : events s4 c = with_callbacks (Some [BuildValue c; Resume p]) (events s1 c)).
  { unfold s4, yield. rewrite events_add_callback, decide_True by reflexivity.
    cbn [set_procs events]. now rewrite E3, Ec. }
  assert (F2 : kind (events s4 c) = KCondition [r; S r]) by now rewrite E4, Ec.
  assert (F3 : callbacks (events s4 c) = Some [BuildValue c; Resume p]) by now rewrite E4.
  assert (F4 : next_event s4 = S c) by reflexivity.
  assert (F5 : keeps (next_event s) s s4).
  { eapply keeps_trans; [exact K0|]. eapply keeps_trans; [exact K2|].
    eapply keeps_trans; [exact K3|]. apply keeps_yield. unfold c, r. lia. }
  assert (F6 : forall q, q <> p -> procs s4 q = procs s q).
  { intros q Hq. unfold s4. rewrite procs_yield, decide_False by congruence.
    change (procs s3) with (procs s2). now rewrite P2, P0. }
  exact (conj F1 (conj F2 (conj F3 (conj F4 (conj F5 F6))))).
Qed.

End Race.

Section RaceFrame.

Variable cfg : Config.

(** What a resumption of process [p] leaves alone, and the race [p] may
    be in afterwards. *)
Lemma resume_frame p ev s s' :
  resume cfg p ev s = Ok s' ->
  keeps (next_event s) s s' /\
  (forall q, q <> p ->
     procs s' q = procs s q
     \/ (q = next_event s /\ visiting (gen (procs s' q)) = None)) /\
  (forall n rest a r,
     gen (procs s' p) = Customer_race n rest a r ->
     exists c,
       target (procs s' p) = Some c /\ kind (events s' c) = KCondition [r; S r] /\
       (r < c)%nat /\ (S r < c)%nat /\ (next_event s <= c)%nat /\ (c < next_event s')%nat /\
       callbacks (events s' c) = Some [BuildValue c; Resume p]).
Proof.
  intros H.
  assert (Hfin : forall s0, keeps (next_event s) s s0 -> procs s0 = procs s ->
            keeps (next_event s) s (finish p s0) /\
            (forall q, q <> p ->
               procs (finish p s0) q = procs s q
               \/ (q = next_event s /\ visiting (gen (procs (finish p s0) q)) = None)) /\
            (forall n rest a r,
               gen (procs (finish p s0) p) = Customer_race n rest a r ->
               exists c,
                 target (procs (finish p s0) p) = Some c /\
                 kind (events (finish p s0) c) = KCondition [r; S r] /\
                 (r < c)%nat /\ (S r < c)%nat /\ (next_event s <= c)%nat /\
                 (c < next_event (finish p s0))%nat /\
                 callbacks (events (finish p s0) c) = Some [BuildValue c; Resume p])).
  { intros s0 K P. split; [eapply keeps_trans; [exact K | apply keeps_finish]|]. split.
    - intros q Hq. left. rewrite procs_finish, decide_False by congruence. now rewrite P.
    - intros n rest a r. rewrite procs_finish, decide_True by reflexivity. discriminate. }
  assert (Hloop : forall pw s0, keeps (next_event s) s s0 -> procs s0 = procs s ->
            (next_event s <= next_event s0)%nat ->
            customer_loop cfg p pw s0 = Ok s' ->
            keeps (next_event s) s s' /\
            (forall q, q <> p ->
               procs s' q = procs s q
               \/ (q = next_event s /\ visiting (gen (procs s' q)) = None)) /\
            (forall n rest a r,
               gen (procs s' p) = Customer_race n rest a r ->
               exists c,
                 target (procs s' p) = Some c /\ kind (events s' c) = KCondition [r; S r] /\
                 (r < c)%nat /\ (S r < c)%nat /\ (next_event s <= c)%nat /\
                 (c < next_event s')%nat /\
                 callbacks (events s' c) = Some [BuildValue c; Resume p])).
  { intros pw s0 K P N Hl. destruct pw as [|n rest].
    { cbn [customer_loop] in Hl. apply Ok_inj in Hl. subst s'. now apply Hfin. }
    destruct (customer_loop_race cfg _ _ _ _ _ Hl) as (F1 & F2 & F3 & F4 & F5 & F6).
    split; [eapply keeps_trans; [exact K | eapply keeps_weaken; [exact N | exact F5]]|].
    split.
    - intros q Hq. left. rewrite F6 by exact Hq. now rewrite P.
    - intros n' rest' a r. rewrite F1. cbn [gen target]. intros [= <- <- <- <-].
      exists (S (S (next_event s0))). rewrite F4. repeat split; auto; lia. }
  unfold resume in H.
  destruct (gen (procs s p)) as [i|cid| |pw|n rest a r|n rest w sv r|] eqn:Hg.
  - destruct (i <? TOTAL_CUSTOMERS cfg)%nat.
    2:{ apply Ok_inj in H. subst s'. apply Hfin; [apply keeps_refl | reflexivity]. }
    destruct (process (Pathway_start i) (observe (ObsSpawn i) s)) as [pc s1] eqn:Hpr.
    assert (Hs1 : s1 = snd (process (Pathway_start i) (observe (ObsSpawn i) s)))
      by now rewrite Hpr.
    clear Hpr.
    apply bind_Ok in H. destruct H as ([x s2] & Hex & H).
    apply bind_Ok in H. destruct H as ([t s3] & Htmo & H).
    apply Ok_inj in H. subst s'.
    destruct (steady_expovariate cfg _ _ _ _ Hex) as (_ & P2 & _).
    destruct (steady_timeout cfg _ _ _ _ Htmo) as (_ & P3 & _).
    destruct (next_timeout _ _ _ _ Htmo) as [Et N3].
    pose proof (next_expovariate _ _ _ _ Hex) as N2.
    assert (N1 : next_event s1 = S (S (next_event s))) by (rewrite Hs1; reflexivity).
    split; [|split].
    + apply (keeps_trans _ _ s1).
      { rewrite Hs1. apply (keeps_process _ _ (observe (ObsSpawn i) s)). apply le_n. }
      apply (keeps_trans _ _ s2); [exact (keeps_expovariate _ _ _ _ _ Hex)|].
      apply (keeps_trans _ _ s3); [apply (keeps_timeout _ _ _ _ _) with (2 := Htmo); lia|].
      apply keeps_yield. lia.
    + intros q Hq. rewrite procs_yield, decide_False by congruence.
      rewrite P3, P2, Hs1, procs_process. cbn [observe next_event procs].
      destruct (decide (next_event s = q)) as [<-|]; [right|left]; [|reflexivity].
      split; [reflexivity|]. first [reflexivity | now rewrite decide_True].
    + intros n rest a r. rewrite procs_yield, decide_True by reflexivity. discriminate.
  - apply bind_Ok in H. destruct H as ([pw draws] & _ & H).
    set (s1 := observe (ObsPath p pw)
                 (set_gene_stats (classify pw (gene_stats s)) (set_unif draws s))) in *.
    destruct (process (Customer_loop pw) s1) as [pc s2] eqn:Hpr.
    assert (Hs2 : s2 = snd (process (Customer_loop pw) s1)) by now rewrite Hpr.
    assert (Hpc : pc = next_event s).
    { pose proof (f_equal fst Hpr) as E. rewrite process_eq in E. now cbn [fst] in E. }
    clear Hpr. apply Ok_inj in H. subst s'. split; [|split].
    + apply (keeps_trans _ _ s1); [unfold s1; keeps_same|].
      apply (keeps_trans _ _ s2); [rewrite Hs2; apply (keeps_process _ _ s1); apply le_n|].
      apply keeps_yield. lia.
    + intros q Hq. rewrite procs_yield, decide_False by congruence.
      rewrite Hs2, procs_process.
      change (next_event s1) with (next_event s). change (procs s1) with (procs s).
      destruct (decide (next_event s = q)) as [<-|]; [right|left]; [|reflexivity].
      split; [reflexivity|]. first [reflexivity | now rewrite decide_True].
    + intros n rest a r. rewrite procs_yield, decide_True by reflexivity. discriminate.
  - apply Ok_inj in H. subst s'. apply Hfin; [apply keeps_refl | reflexivity].
  - apply (Hloop pw s); [apply keeps_refl | reflexivity | lia | exact H].
  - destruct (decide (r ∈ value (events s ev))).
    + apply bind_Ok in H. destruct H as (prm & _ & H).
      destruct (Qeq_bool (mu prm) 0); [discriminate|].
      apply bind_Ok in H. destruct H as ([x s1] & Hex & H).
      apply bind_Ok in H. destruct H as ([t s2] & Htmo & H).
      apply Ok_inj in H. subst s'.
      destruct (steady_expovariate cfg _ _ _ _ Hex) as (_ & P1 & _).
      destruct (steady_timeout cfg _ _ _ _ Htmo) as (_ & P2 & _).
      destruct (next_timeout _ _ _ _ Htmo) as [Et N3].
      pose proof (next_expovariate _ _ _ _ Hex) as N1.
      split; [|split].
      * apply (keeps_trans _ _ s1); [exact (keeps_expovariate _ _ _ _ _ Hex)|].
        apply (keeps_trans _ _ s2); [apply (keeps_timeout _ _ _ _ _) with (2 := Htmo); lia|].
        apply keeps_yield. lia.
      * intros q Hq. left. rewrite procs_yield, decide_False by congruence.
        now rewrite P2, P1.
      * intros n' rest' a' r'. rewrite procs_yield, decide_True by reflexivity. discriminate.
    + apply bind_Ok in H. destruct H as (prm & _ & H).
      apply bind_Ok in H. destruct H as (s2 & Hrec & H).
      apply bind_Ok in H. destruct H as (s3 & Hex & H).
      apply Ok_inj in H. subst s'.
      destruct (steady_record_stats cfg _ _ _ _ _ Hrec) as (_ & P2 & _).
      destruct (steady_exit_request cfg _ _ _ _ Hex) as (_ & P3 & _).
      cbn [observe set_node_stats procs] in P2, P3.
      pose proof (next_record_stats _ _ _ _ _ _ Hrec) as N2.
      cbn [set_node_stats next_event] in N2.
      apply Hfin; [|now rewrite P3, P2].
      apply (keeps_trans _ _ s2).
      { eapply keeps_trans; [|exact (keeps_record_stats cfg _ _ _ _ _ _ Hrec)]. keeps_same. }
      apply (keeps_trans _ _ (observe (ObsAbandon p n r (now s - a)) s2));
        [apply keeps_observe|].
      apply (keeps_exit_request _ _ _ _ _) with (2 := Hex). cbn [observe next_event]. lia.
  - apply bind_Ok in H. destruct H as (s1 & Hrec & H).
    apply bind_Ok in H. destruct H as (s2 & Hex & H).
    destruct (steady_record_stats cfg _ _ _ _ _ Hrec) as (_ & P1 & _).
    destruct (steady_exit_request cfg _ _ _ _ Hex) as (_ & P2 & _).
    cbn [observe procs] in P2.
    pose proof (next_record_stats _ _ _ _ _ _ Hrec) as N1.
    pose proof (next_exit_request _ _ _ _ Hex) as N2. cbn [observe next_event] in N2.
    apply (Hloop rest s2); [|now rewrite P2, P1|lia|exact H].
    apply (keeps_trans _ _ s1); [exact (keeps_record_stats cfg _ _ _ _ _ _ Hrec)|].
    apply (keeps_trans _ _ (observe (ObsServed p n r w sv) s1)); [apply keeps_observe|].
    apply (keeps_exit_request _ _ _ _ _) with (2 := Hex). cbn [observe next_event]. lia.
  - discriminate.
Qed.

End RaceFrame.

Lemma classic_callback cb : (exists p, cb = Resume p) \/ (forall p, cb <> Resume p).
Proof. destruct cb; [left; eauto | right; discriminate..]. Qed.

Section RaceReachable.

Variable cfg : Config.
Variables exps unifs : list Q.

Lemma run_callback_keeps k cb ev s s' :
  (forall p, cb <> Resume p) -> run_callback cfg cb ev s = Ok s' ->
  keeps k s s' /\ procs s' = procs s /\ (next_event s <= next_event s')%nat.
Proof.
  intros Hcb H. destruct cb as [p|c|c|n|n]; cbn [run_callback] in H.
  - now destruct (Hcb p).
  - destruct (steady_check cfg _ _ _ H) as (_ & P & _).
    rewrite (next_check _ _ _ H). split; [exact (keeps_check k _ _ _ H)|]. now split.
  - apply Ok_inj in H. subst s'. destruct (steady_build_value cfg c s) as (_ & P & _).
    rewrite next_build_value. split; [apply keeps_build_value|]. now split.
  - destruct (steady_trigger_get cfg _ _ _ H) as (_ & P & _).
    rewrite (next_trigger_get _ _ _ H). split; [exact (keeps_trigger_get k _ _ _ H)|].
    now split.
  - destruct (steady_trigger_put cfg _ _ _ H) as (_ & P & _).
    rewrite (next_trigger_put _ _ _ H). split; [exact (keeps_trigger_put k _ _ _ H)|].
    now split.
Qed.

Lemma no_check_in_race_callbacks c p c' : Check c' ∉ [BuildValue c; Resume p].
Proof.
  intros Hin. apply elem_of_cons in Hin. destruct Hin as [Hin|Hin]; [discriminate|].
  apply list_elem_of_singleton in Hin. discriminate.
Qed.

Lemma race_inv_run_callback e cb l s s' :
  wake_inv (Some (e, cb :: l)) s -> race_inv (Some (e, cb :: l)) s ->
  run_callback cfg cb e s = Ok s' -> race_inv (Some (e, l)) s'.
Proof.
  intros W R H. pose proof (cursor_allocated _ _ _ W) as He.
  assert (Hold : forall p n rest a r,
             gen (procs s p) = Customer_race n rest a r -> cb <> Resume p ->
             keeps (next_event s) s s' -> (next_event s <= next_event s')%nat ->
             procs s' p = procs s p ->
             exists c t,
               target (procs s' p) = Some c /\ kind (events s' c) = KCondition [r; t] /\
               (r < c)%nat /\ (t < c)%nat /\ (c < next_event s')%nat /\
               (pending_callbacks (Some (e, l)) s' c = Some [BuildValue c; Resume p]
                \/ Some (e, l) = Some (c, [Resume p]))).
  { intros p n rest a r Hg Hcb K N P.
    destruct (R p n rest a r Hg) as (c & t & T & Kd & Hr & Ht & Hc & D).
    exists c, t. destruct (K c Hc) as [K1 K2].
    rewrite P, K1. repeat split; auto; [lia|].
    destruct D as [D|D].
    - destruct (decide (c = e)) as [->|Hne].
      + rewrite pending_callbacks_cursor in D. injection D as -> ->. now right.
      + left. rewrite pending_callbacks_other in * by exact Hne.
        apply K2; [exact D|]. intros c'. apply no_check_in_race_callbacks.
    - injection D as -> -> _. now destruct Hcb. }
  destruct (classic_callback cb) as [[p0 ->]|Hcb].
  - cbn [run_callback] in H. destruct (resume_frame cfg _ _ _ _ H) as (K & F & Nw).
    assert (N : (next_event s <= next_event s')%nat).
    { destruct (resume_moves cfg _ _ _ _ H) as [M|(vm & M1 & M2)].
      - destruct M; cbn [view fresh] in *; lia.
      - destruct M1, M2; cbn [view fresh] in *; lia. }
    intros p n rest a r Hg. destruct (decide (p = p0)) as [->|Hp].
    + destruct (Nw n rest a r Hg) as (c & T & Kd & Hr & Ht & Hn & Hc & Cb).
      exists c, (S r). repeat split; auto. left.
      rewrite pending_callbacks_other by lia. exact Cb.
    + destruct (F p Hp) as [P|[_ Hv]]; [|rewrite Hg in Hv; discriminate].
      apply (Hold p n rest a r); auto; [now rewrite <- P | congruence].
  - destruct (run_callback_keeps (next_event s) cb e s s' Hcb H) as (K & P & N).
    intros p n rest a r Hg. apply (Hold p n rest a r); auto; [now rewrite <- P | now rewrite P].
Qed.

End RaceReachable.

Section RaceDecided.

Variable cfg : Config.
Variables exps unifs : list Q.

Lemma race_inv_reachable s :
  reachable cfg exps unifs s -> wake_inv None s /\ race_inv None s.
Proof.
  revert s. apply (reachable_callbacks_ind cfg exps unifs
                     (fun cur s => wake_inv cur s /\ race_inv cur s)).
  - intros s H. split; [apply (wake_inv_reachable cfg exps unifs); now apply reachable_setup|].
    unfold setup in H. destruct (capacities_ok cfg); [|discriminate].
    apply Ok_inj in H. subst s. intros p n rest a r.
    rewrite procs_process. cbn [empty_state next_event procs].
    destruct (decide (0%nat = p)); discriminate.
  - intros s x q [W R] Hq. split; [now apply wake_inv_pop|].
    intros p n rest a r Hg. change (procs (pop x q s)) with (procs s) in *.
    destruct (R p n rest a r Hg) as (c & t & T & Kd & Hr & Ht & Hc & [D|D]); [|discriminate].
    cbn [pending_callbacks] in D.
    assert (Hev : forall e, events (pop x q s) e
              = if decide (e_ev x = e) then with_callbacks None (events s e) else events s e).
    { intros e. proj. destruct (decide (e_ev x = e)) as [->|Hne].
      - now rewrite fn_lookup_alter.
      - now rewrite fn_lookup_alter_ne. }
    exists c, t. split; [exact T|]. split.
    { rewrite Hev. destruct (decide (e_ev x = c)); exact Kd. }
    split; [exact Hr|]. split; [exact Ht|]. split; [exact Hc|]. left.
    cbn [pending_callbacks]. destruct (decide (c = e_ev x)) as [->|Hne].
    + now rewrite D.
    + rewrite Hev, decide_False by congruence. exact D.
  - intros e cb l s s' [W R] H. split.
    + exact (wake_inv_run_callback cfg e cb l s s' W H).
    + exact (race_inv_run_callback cfg e cb l s s' W R H).
  - intros e s [W R]. split; [now apply (wake_inv_end e)|].
    intros p n rest a r Hg.
    destruct (R p n rest a r Hg) as (c & t & T & Kd & Hr & Ht & Hc & [D|D]); [|discriminate].
    exists c, t. repeat split; auto. left. cbn [pending_callbacks] in *.
    destruct (decide (c = e)); [discriminate | exact D].
Qed.

Lemma processed_remove_check c x s e :
  processed (events (upd_event x (remove_check c) s) e) = processed (events s e).
Proof.
  proj. destruct (decide (x = e)) as [->|Hne].
  - rewrite fn_lookup_alter. unfold processed.
    destruct (remove_check_spec c (events s e)) as (_ & _ & [->|(l & -> & ->)]); reflexivity.
  - now rewrite fn_lookup_alter_ne.
Qed.

Lemma processed_remove_checks c l s e :
  processed (events (foldl (fun s' ev => upd_event ev (remove_check c) s') s l) e)
  = processed (events s e).
Proof.
  revert s. induction l as [|x l IH]; intros s; cbn [foldl]; [reflexivity|].
  now rewrite IH, processed_remove_check.
Qed.

Lemma kind_remove_checks c l s e :
  kind (events (foldl (fun s' ev => upd_event ev (remove_check c) s') s l) e)
  = kind (events s e).
Proof.
  revert s. induction l as [|x l IH]; intros s; cbn [foldl]; [reflexivity|].
  rewrite IH. proj. destruct (decide (x = e)) as [->|Hne].
  - rewrite fn_lookup_alter. apply remove_check_spec.
  - now rewrite fn_lookup_alter_ne.
Qed.

(** The value a condition is given when it is processed: its events that
    are processed by then. *)
Lemma value_build_value c s evs :
  kind (events s c) = KCondition evs ->
  value (events (build_value c s) c)
  = filter (fun ev => processed (events s ev) = true) evs.
Proof.
  intros Hk. unfold build_value, remove_check_callbacks.
  set (s1 := foldl _ s _).
  assert (K1 : kind (events s1 c) = KCondition evs).
  { unfold s1. now rewrite kind_remove_checks. }
  proj. rewrite fn_lookup_alter. cbn [value with_value].
  unfold condition_events. fold s1. rewrite K1.
  apply list_filter_iff. intros ev. unfold s1. now rewrite processed_remove_checks.
Qed.

(** When the condition of a racing customer is the next event, processing
    it means: build the value of the condition, then resume the customer;
    the request is in that value exactly when it was processed before. *)
Lemma race_step s x q p n rest a r s' :
  reachable cfg exps unifs s -> queue s = x :: q ->
  gen (procs s p) = Customer_race n rest a r ->
  target (procs s p) = Some (e_ev x) ->
  step cfg s = Ok s' ->
  let s2 := build_value (e_ev x) (pop x q s) in
  resume cfg p (e_ev x) s2 = Ok s' /\
  (r ∈ value (events s2 (e_ev x)) <-> processed (events s r) = true).
Proof.
  intros Hs Hq Hg Ht Hstep s2. destruct (race_inv_reachable s Hs) as [W R].
  destruct (R p n rest a r Hg) as (c & t & T & Kd & Hr & Htc & Hc & [D|D]); [|discriminate].
  rewrite Ht in T. injection T as <-. cbn [pending_callbacks] in D.
  unfold step in Hstep. rewrite Hq, D in Hstep.
  change (default [] (Some [BuildValue (e_ev x); Resume p]))
    with [BuildValue (e_ev x); Resume p] in Hstep.
  cbn [run_callbacks run_callback bind] in Hstep. fold s2 in Hstep.
  split.
  { destruct (resume cfg p (e_ev x) s2) as [s3| |] eqn:E; cbn [bind] in Hstep;
      try discriminate. exact Hstep. }
  assert (Hev : forall e, e <> e_ev x -> events (pop x q s) e = events s e).
  { intros e He. proj. now rewrite fn_lookup_alter_ne by congruence. }
  assert (Kp : kind (events (pop x q s) (e_ev x)) = KCondition [r; t]).
  { proj. now rewrite fn_lookup_alter. }
  unfold s2. rewrite (value_build_value _ _ _ Kp), list_elem_of_filter.
  rewrite Hev by lia. split; [now intros [? _]|]. intros Hp. split; [exact Hp | now left].
Qed.

End RaceDecided.

(** ** The outcome of a race *)

Lemma advance_steps cfg k s s' : advance cfg k s = Ok s' -> steps cfg s s'.
Proof.
  revert s. induction k as [|k IH]; intros s H; cbn [advance] in H.
  - apply Ok_inj in H. subst. constructor.
  - apply bind_Ok in H. destruct H as (s1 & H1 & H). specialize (IH s1 H).
    clear H. induction IH as [|s2 s3 _ IH2 Hstep].
    + eapply steps_step; [constructor | exact H1].
    + eapply steps_step; [exact IH2 | exact Hstep].
Qed.

Lemma simulate_events_reachable cfg k exps unifs s :
  simulate_events cfg k exps unifs = Ok s -> reachable cfg exps unifs s.
Proof.
  unfold simulate_events. intros H. apply bind_Ok in H. destruct H as (s0 & H0 & H).
  apply (steps_reachable cfg exps unifs s0); [now apply reachable_setup|].
  now apply (advance_steps cfg k).
Qed.

Section Outcome.

Variable cfg : Config.

(** The branch [if request not in result] of [customer]. *)
Lemma resume_abandon p ev s s' n rest a r :
  gen (procs s p) = Customer_race n rest a r ->
  r ∉ value (events s ev) ->
  resume cfg p ev s = Ok s' ->
  procs s' p = idle /\
  story_of (trace s') = ObsAbandon p n r (now s - a) :: story_of (trace s) /\
  exists prm u,
    parameters cfg !! n = Some prm /\
    true_div (Z.of_nat (length (users (nodes s n)))) (servers prm) = Ok u /\
    forall m, node_stats s' m
              = <[n := booked true (now s - a) 0 (length (put_queue (nodes s n))) u
                         (node_stats s n)]> (node_stats s) m.
Proof.
  intros Hg Hr H. unfold resume in H. rewrite Hg in H.
  destruct (decide (r ∈ value (events s ev))); [contradiction|].
  apply bind_Ok in H. destruct H as (prm & Hprm & H).
  apply bind_Ok in H. destruct H as (s2 & Hrec & H).
  apply bind_Ok in H. destruct H as (s3 & Hex & H).
  apply Ok_inj in H. subst s'.
  split; [now rewrite procs_finish, decide_True|]. split.
  { rewrite ?(quiet_story _ _ (quiet_finish p s3)).
    rewrite (quiet_story _ _ (quiet_exit_request _ _ _ _ Hex)).
    rewrite story_observe by reflexivity. f_equal.
    now rewrite (trace_record_stats _ _ _ _ _ _ Hrec). }
  destruct (quiet_exit_request _ _ _ _ Hex) as (N3 & _).
  unfold record_stats in Hrec.
  apply bind_Ok in Hrec. destruct Hrec as (prm' & Hprm' & Hrec).
  rewrite Hprm in Hprm'. apply Ok_inj in Hprm'. subst prm'.
  apply bind_Ok in Hrec. destruct Hrec as (ns & Hadd & Hrec).
  apply Ok_inj in Hrec. subst s2.
  unfold add_stats in Hadd. apply bind_Ok in Hadd. destruct Hadd as (u & Hu & Hadd).
  apply Ok_inj in Hadd. subst ns.
  exists prm, u. split; [now apply lookup_params_Some|]. split; [exact Hu|].
  intros m. change (node_stats (finish p s3)) with (node_stats s3). rewrite N3.
  proj. destruct (decide (n = m)) as [->|Hne].
  - rewrite !fn_lookup_insert. unfold booked, customer_abandoned. reflexivity.
  - now rewrite !fn_lookup_insert_ne by exact Hne.
Qed.

(** The branch in which the request is in the result of the race. *)
Lemma resume_served p ev s s' n rest a r :
  gen (procs s p) = Customer_race n rest a r ->
  r ∈ value (events s ev) ->
  resume cfg p ev s = Ok s' ->
  (exists sv, gen (procs s' p) = Customer_service n rest (now s - a) sv r) /\
  story_of (trace s') = story_of (trace s) /\
  node_stats s' = node_stats s.
Proof.
  intros Hg Hr H. unfold resume in H. rewrite Hg in H.
  destruct (decide (r ∈ value (events s ev))); [|contradiction].
  apply bind_Ok in H. destruct H as (prm & _ & H).
  destruct (Qeq_bool (mu prm) 0); [discriminate|].
  apply bind_Ok in H. destruct H as ([x s1] & Hex & H).
  apply bind_Ok in H. destruct H as ([t s2] & Htmo & H).
  apply Ok_inj in H. subst s'. split; [|split].
  - exists x. now rewrite procs_yield, decide_True.
  - rewrite (quiet_story _ _ (quiet_yield p t _ s2)).
    rewrite (quiet_story _ _ (quiet_timeout _ _ _ _ Htmo)).
    now rewrite (trace_expovariate _ _ _ _ Hex).
  - destruct (quiet_yield p t (Customer_service n rest (now s - a) x r) s2) as (-> & _).
    destruct (quiet_timeout _ _ _ _ Htmo) as (-> & _).
    now destruct (calm_expovariate _ _ _ _ Hex) as (-> & _).
Qed.

End Outcome.

Lemma arrival_inv_moves cfg p v v' : moves cfg p v v' -> arrival_inv v -> arrival_inv v'.
Proof.
  intros M A q n0 rest0 a0 r0.
  assert (Hold : forall o, gens v q = Customer_race n0 rest0 a0 r0 ->
                   (story v' = o :: story v \/ story v' = story v) ->
                   ObsVisit q n0 r0 a0 ∈ story v').
  { intros o Hr [->| ->]; [right|]; now apply (A q n0 rest0 a0 r0). }
  destruct M as [i Hg Hi Hs Hgs Hf|i Hg Hi Hs Hgs Hf|cid pw Hg Hs Hgs Hf|Hg Hs Hgs Hf
                |Hg Hs Hgs Hf|n rest t Hg Hs Hgs Hf|n rest a r w sv Hg Hs Hgs Hf
                |n rest a r w Hg Hs Hgs Hf|n rest w sv r Hg Hs Hgs Hf];
    rewrite Hgs; (destruct (decide (p = q)) as [<-|Hq];
      [rewrite fn_lookup_insert; intros E;
       first [discriminate E | injection E as <- <- <- <-; rewrite Hs; now left]
      |rewrite fn_lookup_insert_ne by exact Hq]);
    try (destruct (decide (fresh v = q)) as [<-|Hq'];
         [rewrite fn_lookup_insert; discriminate
         |rewrite fn_lookup_insert_ne by exact Hq']);
    intros E; eapply Hold; eauto.
  Unshelve. all: exact (ObsSpawn 0).
Qed.

Lemma arrival_inv_idles v v' : idles v v' -> arrival_inv v -> arrival_inv v'.
Proof.
  intros (Hs & Hg & _) A p n rest a r. rewrite Hg, Hs. apply A.
Qed.

Lemma arrival_inv_evolves cfg v v' : evolves cfg v v' -> arrival_inv v -> arrival_inv v'.
Proof.
  intros E A. induction E as [|v2 v3 _ IH Hi|p v2 v3 _ IH M]; [exact A| |].
  - exact (arrival_inv_idles _ _ Hi IH).
  - exact (arrival_inv_moves cfg p _ _ M IH).
Qed.

Lemma arrival_inv_reachable cfg exps unifs s :
  reachable cfg exps unifs s -> arrival_inv (view s).
Proof.
  induction 1 as [s H|s s' _ IH Hstep].
  - destruct (view_setup cfg exps unifs s H) as (_ & _ & Hg).
    intros p n rest a r. rewrite Hg. destruct (decide (0%nat = p)) as [<-|Hp].
    + rewrite fn_lookup_insert. discriminate.
    + rewrite fn_lookup_insert_ne by exact Hp. discriminate.
  - exact (arrival_inv_evolves cfg _ _ (step_evolves cfg _ _ Hstep) IH).
Qed.

Lemma records_of_story p tr : records_of p (story_of tr) = records_of p tr.
Proof.
  unfold records_of, story_of. induction tr as [|o tr IH]; [reflexivity|].
  destruct o; cbn [List.filter is_grant negb actor]; rewrite ?IH; try reflexivity.
Qed.

Lemma evolves_fresh cfg v v' : evolves cfg v v' -> (fresh v <= fresh v')%nat.
Proof.
  induction 1 as [|v2 v3 _ IH (_ & _ & Hf)|p v2 v3 _ IH M]; [lia|lia|].
  destruct M; lia.
Qed.

Lemma story_elem_of o tr : o ∈ story_of tr -> o ∈ tr.
Proof.
  unfold story_of. intros H. apply list_elem_of_In, List.filter_In in H.
  apply list_elem_of_In. exact (proj1 H).
Qed.

Section RaceOutcome.

Variable cfg : Config.
Variables exps unifs : list Q.

(** The state in which the customer is resumed when its condition is
    processed. *)
Lemma race_step_state s x q p n rest a r s' :
  reachable cfg exps unifs s -> queue s = x :: q ->
  gen (procs s p) = Customer_race n rest a r ->
  target (procs s p) = Some (e_ev x) ->
  step cfg s = Ok s' ->
  exists s2,
    resume cfg p (e_ev x) s2 = Ok s' /\
    (r ∈ value (events s2 (e_ev x)) <-> processed (events s r) = true) /\
    gen (procs s2 p) = Customer_race n rest a r /\
    now s2 = e_time x /\ node_stats s2 = node_stats s /\
    story_of (trace s2) = story_of (trace s).
Proof.
  intros Hs Hq Hg Ht Hstep.
  destruct (race_step cfg exps unifs s x q p n rest a r s' Hs Hq Hg Ht Hstep) as [H1 H2].
  exists (build_value (e_ev x) (pop x q s)). split; [exact H1|]. split; [exact H2|].
  destruct (steady_build_value cfg (e_ev x) (pop x q s)) as (T & P & _).
  destruct (quiet_build_value (e_ev x) (pop x q s)) as (N & _).
  split; [now rewrite P|]. split; [now rewrite T|]. split; [now rewrite N|].
  rewrite (quiet_story _ _ (quiet_build_value _ _)).
  apply (quiet_story _ _ (quiet_pop x q s)).
Qed.

(** C5: when the condition a customer waits for at station [n] is
    processed and the request of the customer has not come through (the
    patience timer has fired before the request was processed), the
    abandonment counter of the station goes up by one, the station gets
    one more sample, with the time elapsed since the arrival at the
    station as wait and with service time 0, and the generator of the
    customer ends: in whatever state the run is later on, it is at its end
    and has nothing more on record, no further visit and no further
    outcome. *)
Theorem abandonment_ends_the_lifecycle s x q p n rest a r s' :
  reachable cfg exps unifs s -> queue s = x :: q ->
  gen (procs s p) = Customer_race n rest a r ->
  target (procs s p) = Some (e_ev x) ->
  processed (events s r) = false ->
  step cfg s = Ok s' ->
  ObsVisit p n r a ∈ trace s /\
  abandonment_count (node_stats s' n) = (abandonment_count (node_stats s n) + 1)%Z /\
  waiting_times (node_stats s' n) = waiting_times (node_stats s n) ++ [e_time x - a] /\
  service_times (node_stats s' n) = service_times (node_stats s n) ++ [0] /\
  (forall m, m <> n -> node_stats s' m = node_stats s m) /\
  story_of (trace s') = ObsAbandon p n r (e_time x - a) :: story_of (trace s) /\
  forall s'', steps cfg s' s'' ->
    gen (procs s'' p) = Finished /\ records_of p (trace s'') = records_of p (trace s').
Proof.
  intros Hs Hq Hg Ht Hp Hstep.
  destruct (race_step_state s x q p n rest a r s' Hs Hq Hg Ht Hstep)
    as (s2 & Hres & Hval & Hg2 & T2 & N2 & S2).
  assert (Hnot : r ∉ value (events s2 (e_ev x))).
  { intros Hin. apply Hval in Hin. congruence. }
  destruct (resume_abandon cfg p (e_ev x) s2 s' n rest a r Hg2 Hnot Hres)
    as (Pi & St & prm & u & _ & _ & Hns).
  rewrite T2, N2 in Hns. rewrite T2, S2 in St.
  split; [apply story_elem_of; exact (arrival_inv_reachable cfg exps unifs s Hs p n rest a r Hg)|].
  pose proof (Hns n) as Hn. rewrite fn_lookup_insert in Hn.
  split; [now rewrite Hn|]. split; [now rewrite Hn|]. split; [now rewrite Hn|].
  split; [intros m Hm; now rewrite Hns, fn_lookup_insert_ne by congruence|].
  split; [exact St|].
  intros s'' Hlater.
  assert (Hlt : (p < next_event s')%nat).
  { pose proof (wake_inv_reachable cfg exps unifs s Hs) as W.
    assert (Hp' : (p < next_event s)%nat).
    { apply (process_allocated None s p W). rewrite Ht. discriminate. }
    pose proof (evolves_fresh cfg _ _ (step_evolves cfg s s' Hstep)) as Hf.
    cbn [view fresh] in Hf. lia. }
  destruct (evolves_retired cfg p (view s') (view s'') (steps_evolves cfg s' s'' Hlater))
    as (G & _ & R).
  - cbn [view gens]. now rewrite Pi.
  - exact Hlt.
  - cbn [view gens story] in G, R. rewrite !records_of_story in R. now split.
Qed.

(** C6, as the code has it: the race is decided when the condition
    [request | timeout] of the visit is processed.  The customer is served
    if the request event has been processed by then, and is recorded as
    abandoned if it has not, whether or not the request was granted in the
    meantime. *)
Theorem race_decided_by_processing_order s x q p n rest a r s' :
  reachable cfg exps unifs s -> queue s = x :: q ->
  gen (procs s p) = Customer_race n rest a r ->
  target (procs s p) = Some (e_ev x) ->
  step cfg s = Ok s' ->
  (processed (events s r) = true /\
   (exists sv, gen (procs s' p) = Customer_service n rest (e_time x - a) sv r) /\
   story_of (trace s') = story_of (trace s) /\ node_stats s' = node_stats s)
  \/ (processed (events s r) = false /\
      gen (procs s' p) = Finished /\
      story_of (trace s') = ObsAbandon p n r (e_time x - a) :: story_of (trace s)).
Proof.
  intros Hs Hq Hg Ht Hstep.
  destruct (race_step_state s x q p n rest a r s' Hs Hq Hg Ht Hstep)
    as (s2 & Hres & Hval & Hg2 & T2 & N2 & S2).
  destruct (processed (events s r)) eqn:Hp.
  - left. split; [reflexivity|].
    assert (Hin : r ∈ value (events s2 (e_ev x))) by now apply Hval.
    destruct (resume_served cfg p (e_ev x) s2 s' n rest a r Hg2 Hin Hres) as (G & St & Ns).
    rewrite T2 in G. rewrite S2 in St. rewrite N2 in Ns. now repeat split.
  - right. split; [reflexivity|].
    assert (Hnot : r ∉ value (events s2 (e_ev x))).
    { intros Hin. apply Hval in Hin. discriminate. }
    destruct (resume_abandon cfg p (e_ev x) s2 s' n rest a r Hg2 Hnot Hres) as (Pi & St & _).
    rewrite T2, S2 in St. split; [now rewrite Pi | exact St].
Qed.

End RaceOutcome.

Lemma abandonment_ends_the_lifecycle_witness :
  let s := final_state tie_lost_race in
  let x := {| e_time := 12 # 20; e_prio := 1; e_eid := 15; e_ev := 18 |} in
  let s' := final_state (step (one_desk 2) s) in
  ObsVisit 14 CRS 16 (1 # 10) ∈ trace s /\
  abandonment_count (node_stats s' CRS) = (abandonment_count (node_stats s CRS) + 1)%Z /\
  waiting_times (node_stats s' CRS)
  = waiting_times (node_stats s CRS) ++ [e_time x - (1 # 10)] /\
  service_times (node_stats s' CRS) = service_times (node_stats s CRS) ++ [0] /\
  (forall m, m <> CRS -> node_stats s' m = node_stats s m) /\
  story_of (trace s')
  = ObsAbandon 14 CRS 16 (e_time x - (1 # 10)) :: story_of (trace s) /\
  forall s'', steps (one_desk 2) s' s'' ->
    gen (procs s'' 14%nat) = Finished /\ records_of 14 (trace s'') = records_of 14 (trace s').
Proof.
  intros s x s'.
  apply (abandonment_ends_the_lifecycle (one_desk 2) [1; 12 # 10; 1] [1 # 2; 1 # 2]
           s x (tl (queue s)) 14%nat CRS [] (1 # 10) 16%nat s').
  - apply (simulate_events_reachable _ 15). apply succeeded_final. vm_compute. reflexivity.
  - vm_compute. reflexivity.
  - vm_compute. reflexivity.
  - vm_compute. reflexivity.
  - vm_compute. reflexivity.
  - apply succeeded_final. vm_compute. reflexivity.
Defined.

(** C6 fails on the code.  A customer arrives at 0.1 at a desk that is
    busy until 0.6; its patience ends at 0.6 as well.  The timeout is
    processed before the release of the desk, so the customer is granted
    the desk at 0.6, the instant of its timeout, and is recorded as
    abandoned all the same, with a wait of 0.5. *)
Lemma grant_at_the_deadline_loses :
  let s := final_state tie_lost_run in
  reachable (one_desk 2) [1; 12 # 10; 1] [1 # 2; 1 # 2] s /\ completed s /\
  ObsVisit 14 CRS 16 (1 # 10) ∈ trace s /\
  ObsGrant 16 (12 # 20) ∈ trace s /\
  12 # 20 == (1 # 10) + PATIENCE /\
  ObsAbandon 14 CRS 16 (100 # 200) ∈ trace s /\
  outcomes_of_request CRS 16 (trace s) = [(16%nat, true, 100 # 200, 0)] /\
  abandonment_count (node_stats s CRS) = 1%Z.
Proof.
  intros s.
  assert (H : reachable (one_desk 2) [1; 12 # 10; 1] [1 # 2; 1 # 2] s /\ completed s).
  { apply (simulate_reachable _ _ _ 100). apply succeeded_final. vm_compute. reflexivity. }
  destruct H as [Hr Hc]. split; [exact Hr|]. split; [exact Hc|].
  repeat split; try (vm_compute; reflexivity);
    apply list_elem_of_In; vm_compute; repeat first [left; reflexivity | right].
Qed.

Lemma race_decided_by_processing_order_witness :
  let s := final_state tie_won_race in
  let x := {| e_time := 12 # 20; e_prio := 1; e_eid := 19; e_ev := 18 |} in
  let s' := final_state (step (one_desk 3) s) in
  (processed (events s 16%nat) = true /\
   (exists sv, gen (procs s' 14%nat)
               = Customer_service CRS [] (e_time x - (1 # 10)) sv 16) /\
   story_of (trace s') = story_of (trace s) /\ node_stats s' = node_stats s)
  \/ (processed (events s 16%nat) = false /\
      gen (procs s' 14%nat) = Finished /\
      story_of (trace s')
      = ObsAbandon 14 CRS 16 (e_time x - (1 # 10)) :: story_of (trace s)).
Proof.
  intros s x s'.
  apply (race_decided_by_processing_order (one_desk 3)
           [1; 12 # 10; 5; 1; 1] [1 # 2; 1 # 2; 1 # 2]
           s x (tl (queue s)) 14%nat CRS [] (1 # 10) 16%nat s').
  - apply (simulate_events_reachable _ 17). apply succeeded_final. vm_compute. reflexivity.
  - vm_compute. reflexivity.
  - vm_compute. reflexivity.
  - vm_compute. reflexivity.
  - apply succeeded_final. vm_compute. reflexivity.
Defined.

(** In the run of the witness the request was granted and processed at
    0.6, the instant of the timeout, before the condition: the customer is
    served. *)
Lemma grant_at_the_deadline_wins :
  let s := final_state tie_won_race in
  let s' := final_state (step (one_desk 3) s) in
  processed (events s 16%nat) = true /\
  ObsGrant 16 (60 # 100) ∈ trace s /\
  gen (procs s' 14%nat) = Customer_service CRS [] (100 # 200) (1 # 2) 16.
Proof.
  repeat split; try (vm_compute; reflexivity).
  apply list_elem_of_In. vm_compute. repeat first [left; reflexivity | right].
Qed.

(** * Further properties of the program *)

(** ** The per-station report *)

(** X1: [print_performance_metrics] never raises, whatever the stations
    have collected: the guards of [compute_metrics] cover the empty sample
    lists and the zero denominator.  It reports one set of metrics for
    every station of [parameters]. *)
Theorem print_performance_metrics_never_raises (cfg : Config) (s : State) :
  exists ms,
    print_performance_metrics cfg s = Ok ms /\
    map fst ms = stations cfg /\
    Forall (fun nm => compute_metrics (node_stats s (fst nm)) = Ok (snd nm)) ms.
Proof.
  unfold print_performance_metrics. induction (stations cfg) as [|n ns IH].
  - exists []. repeat split. constructor.
  - destruct IH as (ms & H & Hf & Hall).
    destruct (compute_metrics_total (node_stats s n)) as [m Hm].
    exists ((n, m) :: ms). cbn [metrics_of]. rewrite Hm, H. cbn [bind].
    split; [reflexivity|]. split; [cbn [map fst]; now rewrite Hf|].
    constructor; [exact Hm | exact Hall].
Qed.

(** X2: at every moment of a run the four sample lists of a station have
    the same length: [add_stats] is the only writer and appends to all of
    them. *)
Theorem sample_lists_same_length cfg exps unifs s n :
  reachable cfg exps unifs s ->
  length (service_times (node_stats s n)) = length (waiting_times (node_stats s n)) /\
  length (queue_lengths (node_stats s n)) = length (waiting_times (node_stats s n)) /\
  length (utilization (node_stats s n)) = length (waiting_times (node_stats s n)).
Proof.
  intros Hs. destruct (books_inv_reachable _ _ _ _ Hs) as [_ Hb].
  destruct (Hb n) as (W & S & Lq & Lu & _).
  rewrite W, S, Lq, Lu, !length_rev, !length_map. now repeat split.
Qed.

Lemma sample_lists_same_length_witness :
  let ns := node_stats (final_state eleven_run) CRS in
  length (service_times ns) = length (waiting_times ns) /\
  length (queue_lengths ns) = length (waiting_times ns) /\
  length (utilization ns) = length (waiting_times ns).
Proof.
  apply (sample_lists_same_length eleven_customers eleven_expo eleven_unif).
  apply (simulate_reachable eleven_customers eleven_expo eleven_unif 1000).
  apply succeeded_final. vm_compute. reflexivity.
Defined.




(** ** The stations *)

(** X4: at every moment of a run a station serves at most as many
    customers as it has servers: the users of its resource never outnumber
    [parameters[node]['servers']]. *)
Theorem servers_never_overbooked cfg exps unifs s n prm :
  reachable cfg exps unifs s ->
  parameters cfg !! n = Some prm ->
  (Z.of_nat (length (users (nodes s n))) <= servers prm)%Z.
Proof.
  intros Hs Hn. destruct (bounds_inv_reachable cfg exps unifs s Hs) as (_ & ((_ & R) & _) & _).
  destruct (R n) as [H1 H2]. rewrite H2 in H1. cbn [new_resource capacity] in H1.
  now rewrite Hn in H1.
Qed.

Lemma servers_never_overbooked_witness :
  (Z.of_nat (length (users (nodes (final_state tie_lost_race) CRS))) <= 1)%Z.
Proof.
  apply (servers_never_overbooked (one_desk 2) [1; 12 # 10; 1] [1 # 2; 1 # 2]
           (final_state tie_lost_race) CRS {| mu := 1 # 2; servers := 1 |}).
  - apply (simulate_events_reachable _ 15). apply succeeded_final. vm_compute. reflexivity.
  - vm_compute. reflexivity.
Defined.

(** ** The weighted choice *)

Lemma searchsorted_member (choices : list (node * Q)) (acc u : Q) (c : node) :
  searchsorted choices acc u = Ok c -> acc <= u ->
  exists p, (c, p) ∈ choices /\ 0 < p.
Proof.
  revert acc. induction choices as [|[c0 p0] rest IH]; intros acc H Hacc;
    cbn [searchsorted] in H; [discriminate|].
  destruct (Qltb u (acc + p0)) eqn:E.
  - apply Ok_inj in H. subst c0. exists p0. split; [now left|].
    apply Qltb_true in E. lra.
  - apply Qltb_false in E. destruct (IH _ H E) as (p & Hin & Hp).
    exists p. split; [now right | exact Hp].
Qed.

Lemma searchsorted_total (choices : list (node * Q)) (acc u : Q) :
  acc <= u -> u < acc + Qsum (map snd choices) ->
  exists c, searchsorted choices acc u = Ok c.
Proof.
  revert acc. induction choices as [|[c0 p0] rest IH]; intros acc Hacc H;
    cbn [searchsorted map snd Qsum foldr] in *.
  - exfalso. lra.
  - destruct (Qltb u (acc + p0)) eqn:E; [now exists c0|].
    apply Qltb_false in E. apply IH; [exact E|].
    fold (Qsum (map snd rest)) in H. lra.
Qed.

Lemma weighted_choice_listed_aux (choices : list (node * Q)) (u : Q)
    (draws : list Q) (c : node) :
  weighted_random_choice choices (u :: draws) = Ok (c, draws) -> 0 <= u ->
  exists p, (c, p) ∈ choices /\ 0 < p.
Proof.
  unfold weighted_random_choice. intros H Hu. destruct choices as [|cp choices]; [discriminate|].
  destruct (valid_probabilities (cp :: choices)); [|discriminate].
  apply bind_Ok in H. destruct H as (c' & Hs & H). injection H as ->.
  now apply (searchsorted_member _ 0 u).
Qed.

(** X6: [weighted_random_choice] returns one of the options it is given,
    never one whose probability is zero, and draws exactly one variate. *)
Theorem weighted_choice_is_listed (choices : list (node * Q)) (u : Q)
    (draws draws' : list Q) (c : node) :
  weighted_random_choice choices (u :: draws) = Ok (c, draws') -> 0 <= u ->
  draws' = draws /\ exists p, (c, p) ∈ choices /\ 0 < p.
Proof.
  unfold weighted_random_choice. intros H Hu. destruct choices as [|cp choices]; [discriminate|].
  destruct (valid_probabilities (cp :: choices)); [|discriminate].
  apply bind_Ok in H. destruct H as (c' & Hs & H). injection H as -> ->.
  split; [reflexivity|]. now apply (searchsorted_member _ 0 u).
Qed.

Lemma weighted_choice_is_listed_witness :
  [4 # 10; 9 # 10] = [4 # 10; 9 # 10] /\
  exists p, ("CSD"%string, p) ∈ [("PGT"%string, 1 # 10); ("TSD"%string, 1 # 10);
                                 ("CSD"%string, 0); ("CSD"%string, 8 # 10)]
            /\ 0 < p.
Proof.
  apply (weighted_choice_is_listed
           [("PGT"%string, 1 # 10); ("TSD"%string, 1 # 10);
            ("CSD"%string, 0); ("CSD"%string, 8 # 10)]
           (2 # 10) [4 # 10; 9 # 10] [4 # 10; 9 # 10] "CSD"%string).
  - vm_compute. reflexivity.
  - vm_compute. discriminate.
Defined.

(** X7: given at least one option, probabilities that are not negative
    and add up to one, and a variate of the unit interval,
    [weighted_random_choice] returns an option: the search through the
    running sums cannot fall off the end. *)
Theorem weighted_choice_succeeds (choices : list (node * Q)) (u : Q) (draws : list Q) :
  choices <> [] -> valid_probabilities choices = true -> 0 <= u -> u < 1 ->
  exists c, weighted_random_choice choices (u :: draws) = Ok (c, draws).
Proof.
  intros Hne Hv H0 H1. unfold weighted_random_choice.
  destruct choices as [|cp choices]; [contradiction|]. rewrite Hv.
  unfold valid_probabilities in Hv. apply andb_true_iff in Hv. destruct Hv as [_ Hsum].
  apply Qeq_bool_iff in Hsum.
  destruct (searchsorted_total (cp :: choices) 0 u) as [c Hc]; [exact H0|lra|].
  exists c. now rewrite Hc.
Qed.

Lemma weighted_choice_succeeds_witness :
  exists c,
    weighted_random_choice [("CSD"%string, 2 # 10); (Completed_Support, 8 # 10)]
      ((5 # 10) :: [1 # 3])
    = Ok (c, [1 # 3]).
Proof.
  apply weighted_choice_succeeds.
  - discriminate.
  - vm_compute. reflexivity.
  - vm_compute. discriminate.
  - vm_compute. reflexivity.
Defined.

(** ** The path of a customer *)

Lemma path_loop_walk tp cur pathway draws fuel pw rest :
  path_loop tp cur pathway draws fuel = Ok (pw, rest) ->
  cur <> Completed_Support ->
  exists tail,
    pw = pathway ++ tail /\
    length draws = (length rest + S (length tail))%nat /\
    (Forall (fun u => 0 <= u) draws -> walk tp cur tail).
Proof.
  revert cur pathway draws. induction fuel as [|fuel IH]; intros cur pathway draws H Hcur;
    cbn [path_loop] in H; destruct (decide (cur = Completed_Support)); try contradiction;
    [discriminate|].
  apply bind_Ok in H. destruct H as (choices & Hch & H).
  apply bind_Ok in H. destruct H as ([next draws'] & Hw & H).
  assert (Hlook : tp !! cur = Some choices).
  { destruct (tp !! cur); [now apply Ok_inj in Hch; subst | discriminate]. }
  destruct draws as [|u draws].
  { unfold weighted_random_choice in Hw. destruct choices; [discriminate|].
    destruct (valid_probabilities _); discriminate. }
  assert (Hd : draws' = draws).
  { unfold weighted_random_choice in Hw. destruct choices; [discriminate|].
    destruct (valid_probabilities _); [|discriminate].
    apply bind_Ok in Hw. destruct Hw as (? & _ & Hw). now injection Hw. }
  subst draws'.
  assert (Hr : 0 <= u -> routed tp cur next).
  { intros Hu. destruct (weighted_choice_listed_aux choices u draws next Hw Hu) as (p & Hin & Hp).
    now exists choices, p. }
  destruct (decide (next = Completed_Support)) as [->|Hnext].
  - apply Ok_inj in H. injection H as <- <-. exists []. split; [now rewrite app_nil_r|].
    split; [cbn; lia|]. intros Hall. cbn [walk]. apply Hr. now inversion Hall.
  - destruct (IH _ _ _ H Hnext) as (tail & -> & Hlen & Hwalk).
    exists (next :: tail). split; [now rewrite <- app_assoc|].
    split; [cbn [length]; lia|]. intros Hall. inversion Hall; subst.
    cbn [walk]. split; [exact Hnext|]. split; [now apply Hr | now apply Hwalk].
Qed.

(** X8: the path [customer_pathway] builds begins at the entry station,
    never holds the terminal outcome, follows the transition table from
    station to station along entries of positive probability, and ends at
    a station the table routes to the terminal outcome. *)
Theorem pathway_follows_the_table tp draws pw rest :
  build_path tp draws = Ok (pw, rest) -> Forall (fun u => 0 <= u) draws ->
  exists tail,
    pw = CRS :: tail /\ (Completed_Support ∉ pw) /\ walk tp CRS tail.
Proof.
  unfold build_path. intros H Hall.
  destruct (path_loop_walk _ _ _ _ _ _ _ H) as (tail & -> & _ & Hw); [discriminate|].
  exists tail. split; [reflexivity|]. specialize (Hw Hall). split; [|exact Hw].
  intros Hin. apply elem_of_cons in Hin. destruct Hin as [Hin|Hin]; [discriminate|].
  clear H. revert Hw Hin. generalize CRS as a. induction tail as [|b tail IH]; intros a Hw Hin.
  - now apply elem_of_nil in Hin.
  - cbn [walk] in Hw. destruct Hw as (Hb & _ & Hw). apply elem_of_cons in Hin.
    destruct Hin as [Hin|Hin]; [congruence|]. exact (IH b Hw Hin).
Qed.

Lemma pathway_follows_the_table_witness :
  exists tail,
    [CRS; "AI/Robotics"%string; "CSD"%string] = CRS :: tail /\
    (Completed_Support ∉ [CRS; "AI/Robotics"%string; "CSD"%string]) /\
    walk reference_transitions CRS tail.
Proof.
  apply (pathway_follows_the_table reference_transitions
           [2 # 10; 1 # 10; 5 # 10; 7 # 10] _ [7 # 10]).
  - vm_compute. reflexivity.
  - repeat constructor; vm_compute; discriminate.
Defined.

(** X9: [customer_pathway] draws one variate for every station of the path
    it returns: one for each station appended and one for the draw that
    ends the loop. *)
Theorem pathway_draws_one_per_station tp draws pw rest :
  build_path tp draws = Ok (pw, rest) ->
  length draws = (length pw + length rest)%nat.
Proof.
  unfold build_path. intros H.
  destruct (path_loop_walk _ _ _ _ _ _ _ H) as (tail & -> & Hlen & _); [discriminate|].
  cbn [app length]. lia.
Qed.

Lemma pathway_draws_one_per_station_witness :
  length [2 # 10; 1 # 10; 5 # 10; 7 # 10]
  = (length [CRS; "AI/Robotics"%string; "CSD"%string] + length [7 # 10])%nat.
Proof.
  apply (pathway_draws_one_per_station reference_transitions).
  vm_compute. reflexivity.
Defined.

Lemma weighted_choice_total_aux (choices : list (node * Q)) (u : Q) (draws : list Q) :
  choices <> [] -> valid_probabilities choices = true -> 0 <= u -> u < 1 ->
  exists c, weighted_random_choice choices (u :: draws) = Ok (c, draws).
Proof.
  intros Hne Hv H0 H1. unfold weighted_random_choice.
  destruct choices as [|cp choices]; [contradiction|]. rewrite Hv.
  unfold valid_probabilities in Hv. apply andb_true_iff in Hv. destruct Hv as [_ Hsum].
  apply Qeq_bool_iff in Hsum.
  destruct (searchsorted_total (cp :: choices) 0 u) as [c Hc]; [exact H0|lra|].
  exists c. now rewrite Hc.
Qed.

Lemma table_closed_row tp n choices :
  table_closed tp = true -> tp !! n = Some choices -> row_closed tp choices = true.
Proof.
  unfold table_closed. intros H Hn. apply andb_true_iff in H. destruct H as [_ H].
  rewrite forallb_forall in H. apply elem_of_map_to_list, list_elem_of_In in Hn.
  exact (H _ Hn).
Qed.

Lemma path_loop_closed tp cur pathway draws fuel e :
  table_closed tp = true -> cur = Completed_Support \/ is_Some (tp !! cur) ->
  Forall (fun u => 0 <= u /\ u < 1) draws ->
  path_loop tp cur pathway draws fuel <> Raise e.
Proof.
  intros Hc. revert cur pathway draws.
  induction fuel as [|fuel IH]; intros cur pathway draws Hcur Hd;
    cbn [path_loop]; destruct (decide (cur = Completed_Support)) as [|Hne];
    try discriminate.
  destruct Hcur as [|[choices Hrow]]; [contradiction|]. rewrite Hrow. cbn [of_option bind].
  pose proof (table_closed_row _ _ _ Hc Hrow) as Hr. unfold row_closed in Hr.
  apply andb_true_iff in Hr. destruct Hr as [Hr Hall].
  apply andb_true_iff in Hr. destruct Hr as [Hne' Hv].
  destruct draws as [|u draws].
  - unfold weighted_random_choice. destruct choices; [discriminate|]. rewrite Hv.
    discriminate.
  - apply Forall_cons in Hd. destruct Hd as [[Hu0 Hu1] Hd].
    destruct (weighted_choice_total_aux choices u draws) as [c Hw];
      [now destruct choices | exact Hv | exact Hu0 | exact Hu1 |].
    rewrite Hw. cbn [bind]. destruct (decide (c = Completed_Support)); [discriminate|].
    apply IH; [|exact Hd].
    destruct (weighted_choice_listed_aux choices u draws c Hw Hu0) as (p & Hin & Hp).
    rewrite forallb_forall in Hall. apply list_elem_of_In in Hin. specialize (Hall _ Hin).
    cbn [fst snd] in Hall. apply orb_true_iff in Hall. destruct Hall as [Hall|Hall].
    + apply orb_true_iff in Hall. destruct Hall as [Hall|Hall].
      * apply Qle_bool_iff in Hall. lra.
      * left. now apply bool_decide_eq_true in Hall.
    + right. now apply bool_decide_eq_true in Hall.
Qed.

(** X10: with a table in which the entry station has a row, every row is
    a non-empty probability distribution and every station that can be
    drawn has a row of its own, [customer_pathway] raises no exception:
    no [KeyError] for a missing row, no [ValueError] from the choice. *)
Theorem closed_table_never_raises tp draws e :
  table_closed tp = true -> Forall (fun u => 0 <= u /\ u < 1) draws ->
  build_path tp draws <> Raise e.
Proof.
  intros Hc Hd. unfold build_path. apply path_loop_closed; [exact Hc | | exact Hd].
  right. unfold table_closed in Hc. apply andb_true_iff in Hc. destruct Hc as [Hc _].
  now apply bool_decide_eq_true in Hc.
Qed.

Lemma closed_table_never_raises_witness :
  build_path reference_transitions [2 # 10; 1 # 10; 5 # 10; 7 # 10] <> Raise KeyError.
Proof.
  apply closed_table_never_raises.
  - vm_compute. reflexivity.
  - repeat constructor; vm_compute; first [reflexivity | discriminate].
Defined.

(** ** The clock *)

Section Clock.

Variable cfg : Config.

Lemma now_process g s : now (snd (process g s)) = now s.
Proof. reflexivity. Qed.

Lemma now_customer_loop p pw s s' : customer_loop cfg p pw s = Ok s' -> now s' = now s.
Proof.
  unfold customer_loop. intros H. destruct pw as [|n rest].
  - apply Ok_inj in H. now subst.
  - exec H.
    match goal with
    | H1 : request _ _ = Ok _, H2 : timeout _ _ = Ok _, H3 : any_of _ _ = Ok _ |- _ =>
        destruct (steady_request cfg _ _ _ _ H1) as [N1 _];
        destruct (steady_timeout cfg _ _ _ _ H2) as [N2 _];
        destruct (steady_any_of cfg _ _ _ _ H3) as [N3 _]
    end.
    proj. congruence.
Qed.

Lemma now_resume p ev s s' : resume cfg p ev s = Ok s' -> now s' = now s.
Proof.
  unfold resume. intros H.
  destruct (gen (procs s p)) as [i|cid| |pw|n rest a r|n rest w sv r|].
  - destruct (i <? TOTAL_CUSTOMERS cfg)%nat.
    + pose proof (now_process (Pathway_start i) (observe (ObsSpawn i) s)) as N0.
      destruct (process (Pathway_start i) (observe (ObsSpawn i) s)) as [p' s1].
      exec H.
      match goal with
      | H1 : expovariate _ _ = Ok _, H2 : timeout _ _ = Ok _ |- _ =>
          destruct (steady_expovariate cfg _ _ _ _ H1) as [N1 _];
          destruct (steady_timeout cfg _ _ _ _ H2) as [N2 _]
      end.
      proj. congruence.
    + apply Ok_inj in H. now subst.
  - exec H.
    match goal with
    | Hpr : process ?g ?s0 = _ |- _ =>
        pose proof (now_process g s0) as N0; rewrite Hpr in N0
    end.
    proj. exact N0.
  - apply Ok_inj in H. now subst.
  - now apply (now_customer_loop p pw).
  - destruct (decide (r ∈ value (events s ev))).
    + exec H.
      match goal with
      | H1 : expovariate _ _ = Ok _, H2 : timeout _ _ = Ok _ |- _ =>
          destruct (steady_expovariate cfg _ _ _ _ H1) as [N1 _];
          destruct (steady_timeout cfg _ _ _ _ H2) as [N2 _]
      end.
      proj. congruence.
    + exec H.
      match goal with
      | H1 : record_stats _ _ _ _ _ = Ok _, H2 : exit_request _ _ _ = Ok _ |- _ =>
          destruct (steady_record_stats cfg _ _ _ _ _ H1) as [N1 _];
          destruct (steady_exit_request cfg _ _ _ _ H2) as [N2 _]
      end.
      proj. congruence.
  - apply bind_Ok in H. destruct H as (s1 & H1 & H).
    apply bind_Ok in H. destruct H as (s2 & H2 & H).
    destruct (steady_record_stats cfg _ _ _ _ _ H1) as [N1 _].
    destruct (steady_exit_request cfg _ _ _ _ H2) as [N2 _].
    apply now_customer_loop in H. proj. congruence.
  - discriminate.
Qed.

Lemma now_run_callback cb ev s s' : run_callback cfg cb ev s = Ok s' -> now s' = now s.
Proof.
  destruct cb as [p|c|c|n|n]; cbn [run_callback]; intros H.
  - now apply (now_resume p ev).
  - now destruct (steady_check cfg _ _ _ H).
  - apply Ok_inj in H. subst s'. now destruct (steady_build_value cfg c s).
  - now destruct (steady_trigger_get cfg _ _ _ H).
  - now destruct (steady_trigger_put cfg _ _ _ H).
Qed.

Lemma now_run_callbacks cbs ev s s' : run_callbacks cfg cbs ev s = Ok s' -> now s' = now s.
Proof.
  revert s. induction cbs as [|cb cbs IH]; intros s H; cbn [run_callbacks] in H.
  - apply Ok_inj in H. now subst.
  - apply bind_Ok in H. destruct H as (s1 & H1 & H).
    rewrite (IH _ H). now apply (now_run_callback cb ev).
Qed.

Lemma step_clock exps unifs s s' :
  reachable cfg exps unifs s -> step cfg s = Ok s' -> now s <= now s'.
Proof.
  intros Hs H. destruct (bounds_inv_reachable cfg exps unifs s Hs) as (_ & ((C & _) & _) & _).
  unfold step in H. destruct (queue s) as [|x q] eqn:Hq.
  - apply Ok_inj in H. subst. apply Qle_refl.
  - apply now_run_callbacks in H. rewrite H. proj.
    destruct C as [_ C]. rewrite Hq in C. apply Forall_cons in C. now destruct C.
Qed.

End Clock.

(** X11: the clock of the simulation never runs backwards: whatever state
    [env.run()] passes through later, [env.now] is not smaller there. *)
Theorem clock_never_runs_backwards cfg exps unifs s s' :
  reachable cfg exps unifs s -> steps cfg s s' -> now s <= now s'.
Proof.
  intros Hs Hst. induction Hst as [|s1 s2 Hst IH Hstep]; [apply Qle_refl|].
  eapply Qle_trans; [exact IH|].
  eapply step_clock; [|exact Hstep]. eapply steps_reachable; eauto.
Qed.

Lemma clock_never_runs_backwards_witness :
  let s := final_state (simulate_events (one_desk 2) 3 [1; 12 # 10; 1] [1 # 2; 1 # 2]) in
  now s <= now (final_state (advance (one_desk 2) 12 s)).
Proof.
  apply (clock_never_runs_backwards (one_desk 2) [1; 12 # 10; 1] [1 # 2; 1 # 2]).
  - apply (simulate_events_reachable _ 3). apply succeeded_final. vm_compute. reflexivity.
  - apply (advance_steps _ 12). apply succeeded_final. vm_compute. reflexivity.
Defined.

(** ** The report on the workload *)

Lemma foldl_add_shift (l : list nat) (a : nat) :
  foldl Nat.add a l = (a + foldl Nat.add 0 l)%nat.
Proof.
  revert a. induction l as [|x l IH]; intros a; cbn [foldl]; [lia|].
  rewrite (IH (a + x)%nat), (IH (0 + x)%nat). lia.
Qed.

Lemma sum_ints_cons (x : nat) (l : list nat) : sum_ints (x :: l) = (x + sum_ints l)%nat.
Proof. unfold sum_ints. cbn [foldl]. now rewrite foldl_add_shift. Qed.

Lemma sum_ints_plus {A} (f g : A -> nat) (l : list A) :
  sum_ints (map (fun a => (f a + g a)%nat) l)
  = (sum_ints (map f l) + sum_ints (map g l))%nat.
Proof.
  induction l as [|a l IH]; [reflexivity|].
  cbn [map]. rewrite !sum_ints_cons, IH. lia.
Qed.

(** How many outcomes observation [o] adds to the record of station [n]. *)
Lemma outcomes_at_cons n o tr :
  length (outcomes_at n (o :: tr))
  = ((if decide (station_of o = Some n) then 1 else 0) + length (outcomes_at n tr))%nat.
Proof.
  unfold outcomes_at. cbn [flat_map]. rewrite length_app.
  destruct o as [i|p pw|p n0 r a|r t|p n' r w|p n' r w sv]; cbn [station_of];
    try (rewrite decide_False by discriminate; reflexivity).
  - destruct (decide (n' = n)) as [->|Hne].
    + now rewrite decide_True.
    + rewrite decide_False; [reflexivity|]. intros [= ?]. contradiction.
  - destruct (decide (n' = n)) as [->|Hne].
    + now rewrite decide_True.
    + rewrite decide_False; [reflexivity|]. intros [= ?]. contradiction.
Qed.

Lemma sum_ints_one_hit (o : Obs) (l : list node) :
  NoDup l ->
  sum_ints (map (fun n => if decide (station_of o = Some n) then 1 else 0)%nat l)
  = match station_of o with
    | Some n => if decide (n ∈ l) then 1 else 0
    | None => 0
    end%nat.
Proof.
  induction 1 as [|m l Hm Hl IH]; cbn [map].
  - destruct (station_of o) as [n|]; [|reflexivity].
    rewrite decide_False; [reflexivity | apply not_elem_of_nil].
  - rewrite sum_ints_cons, IH. destruct (station_of o) as [n|]; [|now rewrite decide_False].
    destruct (decide (Some n = Some m)) as [E|E].
    + injection E as ->. rewrite (decide_False (P := m ∈ l)) by exact Hm.
      rewrite decide_True; [reflexivity | now left].
    + destruct (decide (n ∈ l)) as [Hin|Hin].
      * rewrite decide_True; [reflexivity | now right].
      * rewrite decide_False; [reflexivity|]. intros Hc. apply elem_of_cons in Hc.
        destruct Hc as [->|Hc]; [now apply E | now apply Hin].
Qed.

Lemma outcomes_at_count (l : list node) (tr : list Obs) :
  NoDup l -> (forall o n, o ∈ tr -> station_of o = Some n -> n ∈ l) ->
  sum_ints (map (fun n => length (outcomes_at n tr)) l) = recorded_visits tr.
Proof.
  intros Hl. induction tr as [|o tr IH]; intros Hin.
  - unfold recorded_visits. cbn [List.filter length]. clear Hl Hin.
    induction l as [|n l IHl]; [reflexivity|]. cbn [map]. rewrite sum_ints_cons.
    exact IHl.
  - rewrite (map_ext _ _ (fun n => outcomes_at_cons n o tr)), sum_ints_plus.
    rewrite IH by (intros o' n Ho'; apply Hin; now right).
    rewrite (sum_ints_one_hit o l Hl). unfold recorded_visits. cbn [List.filter].
    specialize (Hin o). 
    destruct o as [i|p pw|p n0 r a|r t|p n' r w|p n' r w sv]; cbn [station_of] in *;
      try reflexivity.
    + rewrite decide_True; [reflexivity|]. apply Hin; [now left | reflexivity].
    + rewrite decide_True; [reflexivity|]. apply Hin; [now left | reflexivity].
Qed.

Lemma stationed_calm cfg s s' : calm s s' -> stationed cfg s -> stationed cfg s'.
Proof.
  intros (_ & _ & _ & l & T & F) H o n Ho Hn. rewrite T in Ho.
  apply elem_of_app in Ho. destruct Ho as [Ho|Ho]; [|now apply (H o)].
  rewrite Forall_forall in F. specialize (F _ Ho).
  destruct o; cbn in *; congruence.
Qed.

Lemma stationed_booking cfg p s s' : booking cfg p s s' -> stationed cfg s -> stationed cfg s'.
Proof.
  intros Hb H.
  assert (Hk : forall lq o0, trace s' = lq ++ o0 :: trace s ->
                 Forall (fun o => bookless o = true) lq ->
                 (forall n, station_of o0 = Some n -> is_Some (parameters cfg !! n)) ->
                 stationed cfg s').
  { intros lq o0 T F H0 o n Ho Hn. rewrite T in Ho.
    apply elem_of_app in Ho. destruct Ho as [Ho|Ho].
    - rewrite Forall_forall in F. specialize (F _ Ho).
      destruct o; cbn in *; congruence.
    - apply elem_of_cons in Ho. destruct Ho as [->|Ho]; [now apply H0 | now apply (H o)]. }
  destruct Hb as [Hc | pw d lq Hbp U N G T F
                 | n rest a r prm u lq Hgen Hprm Hu U N G T F
                 | n rest w sv r prm u lq Hgen Hprm Hu U N G T F].
  - now apply (stationed_calm cfg s).
  - apply (Hk _ _ T F). discriminate.
  - apply (Hk _ _ T F). intros m [= <-]. now exists prm.
  - apply (Hk _ _ T F). intros m [= <-]. now exists prm.
Qed.

Lemma stationed_reachable cfg exps unifs s :
  reachable cfg exps unifs s -> stationed cfg s.
Proof.
  apply reachable_ind_simple.
  - intros s0 H. eapply stationed_calm; [apply quiet_calm, quiet_setup; eauto|].
    intros o n Ho. now apply elem_of_nil in Ho.
  - intros s0 x q H _. eapply stationed_calm; [apply quiet_calm, quiet_pop | exact H].
  - intros e cb s0 s1 H Hcb.
    assert (Hk : (forall p, cb <> Resume p) -> stationed cfg s1).
    { intros Hne. eapply stationed_calm; [apply quiet_calm|exact H].
      eapply quiet_run_callback; eauto. }
    destruct cb as [p|c|c|n|n]; try (apply Hk; intros; discriminate).
    eapply stationed_booking; [eapply resume_booking; eauto | exact H].
Qed.

(** X12: the figure [evaluate_workload] prints as the total of customers
    processed is the number of visits on record, abandoned visits
    included: a customer is counted once for every station it visited. *)
Theorem processed_total_counts_visits cfg exps unifs s w :
  reachable cfg exps unifs s -> evaluate_workload cfg s = Ok w ->
  total_customers_processed w = recorded_visits (trace s).
Proof.
  intros Hs H. unfold evaluate_workload in H.
  apply bind_Ok in H. destruct H as (r & _ & H). apply Ok_inj in H. subst w.
  cbn [total_customers_processed]. rewrite map_map.
  destruct (books_inv_reachable _ _ _ _ Hs) as [_ Hb].
  rewrite (map_ext _ (fun n => length (outcomes_at n (trace s)))).
  - apply outcomes_at_count.
    + unfold stations. apply NoDup_fst_map_to_list.
    + intros o n Ho Hn. destruct (stationed_reachable _ _ _ _ Hs o n) as [prm Hprm];
        [exact Ho | exact Hn |].
      unfold stations. apply list_elem_of_fmap.
      exists (n, prm). split; [reflexivity | now apply elem_of_map_to_list].
  - intros n. destruct (Hb n) as (W & _). now rewrite W, length_rev, length_map.
Qed.

Lemma processed_total_counts_visits_witness :
  total_customers_processed eleven_workload
  = recorded_visits (trace (final_state eleven_run)).
Proof.
  apply (processed_total_counts_visits eleven_customers eleven_expo eleven_unif).
  - apply (simulate_reachable eleven_customers eleven_expo eleven_unif 1000).
    apply succeeded_final. vm_compute. reflexivity.
  - vm_compute. reflexivity.
Defined.

(** ** A run without customers *)

Lemma run_more cfg fuel fuel' s s' :
  run cfg fuel s = Ok s' -> (fuel <= fuel')%nat -> run cfg fuel' s = Ok s'.
Proof.
  revert fuel' s. induction fuel as [|fuel IH]; intros fuel' s H Hle.
  - cbn [run] in H. destruct (queue s) eqn:Hq; [|discriminate].
    destruct fuel'; cbn [run]; now rewrite Hq.
  - destruct fuel' as [|fuel']; [lia|]. cbn [run] in *.
    destruct (queue s); [exact H|].
    apply bind_Ok in H. destruct H as (s1 & H1 & H). rewrite H1. cbn [bind].
    apply (IH fuel' s1 H). lia.
Qed.

(** X13: with [TOTAL_CUSTOMERS = 0] the loop of [customer_arrivals] has
    nothing to do: [env.run()] returns after two events at time 0 with
    nothing on record, and [evaluate_workload] then fails with
    [ZeroDivisionError], because [GeneStats.compute] divides by
    [TOTAL_CUSTOMERS]. *)
Theorem no_customers_no_workload cfg exps unifs fuel :
  TOTAL_CUSTOMERS cfg = 0%nat -> capacities_ok cfg = true -> (2 <= fuel)%nat ->
  exists s,
    simulate cfg fuel exps unifs = Ok s /\ trace s = [] /\ now s == 0 /\
    (forall n, node_stats s n = NodeStats_init) /\
    evaluate_workload cfg s = Raise ZeroDivisionError.
Proof.
  intros H0 Hc Hf. destruct cfg as [tc prm tp ar]. cbn [TOTAL_CUSTOMERS] in H0. subst tc.
  unfold simulate, setup. rewrite Hc. cbn [bind].
  match goal with
  | |- exists s, run ?c _ ?s0 = _ /\ _ =>
      destruct (run c 2 s0) as [s| |] eqn:E; pose proof E as E2; vm_compute in E2;
        try discriminate
  end.
  injection E2 as <-. eexists. split; [apply (run_more _ 2); [exact E | exact Hf]|].
  split; [reflexivity|]. split; [reflexivity|]. split; [intros n; reflexivity|].
  reflexivity.
Qed.

Lemma no_customers_no_workload_witness :
  exists s,
    simulate no_customers 2 [] [] = Ok s /\ trace s = [] /\ now s == 0 /\
    (forall n, node_stats s n = NodeStats_init) /\
    evaluate_workload no_customers s = Raise ZeroDivisionError.
Proof.
  apply no_customers_no_workload.
  - reflexivity.
  - vm_compute. reflexivity.
  - lia.
Defined.

(** ** Every customer is given a path *)

Lemma count_upto_ext f f' k :
  (forall q, (q < k)%nat -> f q = f' q) -> count_upto f k = count_upto f' k.
Proof.
  induction k as [|k IH]; intros H; [reflexivity|].
  cbn [count_upto]. rewrite IH by (intros q Hq; apply H; lia).
  now rewrite (H k) by lia.
Qed.

Lemma count_upto_grow f k k' :
  (k <= k')%nat -> (forall q, (k <= q)%nat -> f q = false) ->
  count_upto f k' = count_upto f k.
Proof.
  intros Hle Hf. induction Hle as [|k' Hle IH]; [reflexivity|].
  cbn [count_upto]. rewrite IH, (Hf k') by lia. lia.
Qed.

Lemma count_upto_set f f' p k :
  (p < k)%nat -> (forall q, q <> p -> f' q = f q) ->
  (count_upto f' k + if f p then 1 else 0)%nat
  = (count_upto f k + if f' p then 1 else 0)%nat.
Proof.
  intros Hp Hf. induction k as [|k IH]; [lia|]. cbn [count_upto].
  destruct (decide (p = k)) as [->|Hne].
  - rewrite (count_upto_ext f' f k) by (intros q Hq; apply Hf; lia). lia.
  - rewrite (Hf k) by congruence. specialize (IH ltac:(lia)). lia.
Qed.

Lemma paths_of_story tr : paths_of (story_of tr) = paths_of tr.
Proof.
  induction tr as [|o tr IH]; [reflexivity|]. unfold story_of in *.
  destruct o; cbn [List.filter is_grant negb paths_of flat_map] in *;
    fold (paths_of tr) in *;
    fold (paths_of (List.filter (fun o => negb (is_grant o)) tr)) in *;
    now rewrite ?IH.
Qed.

Lemma pathless_single v v' p g :
  (forall q, (fresh v <= q)%nat -> gens v q = Finished) ->
  gens v p <> Finished ->
  (forall q, gens v' q = <[p := g]> (gens v) q) -> (fresh v <= fresh v')%nat ->
  (forall q, (fresh v' <= q)%nat -> gens v' q = Finished) /\
  (pathless v' + if is_start (gens v p) then 1 else 0)%nat
  = (pathless v + if is_start g then 1 else 0)%nat.
Proof.
  intros Hu Hp Hg Hf.
  assert (Hlt : (p < fresh v)%nat).
  { destruct (Nat.lt_ge_cases p (fresh v)) as [|Hge]; [assumption|].
    now apply Hu in Hge. }
  split.
  - intros q Hq. rewrite Hg, fn_lookup_insert_ne by lia. apply Hu. lia.
  - unfold pathless.
    rewrite (count_upto_grow (fun q => is_start (gens v' q)) (fresh v) (fresh v') Hf).
    + rewrite (count_upto_set (fun q => is_start (gens v q))
                 (fun q => is_start (gens v' q)) p (fresh v) Hlt).
      * now rewrite Hg, fn_lookup_insert.
      * intros q Hq. now rewrite Hg, fn_lookup_insert_ne.
    + intros q Hq. rewrite Hg, fn_lookup_insert_ne by lia. now rewrite Hu.
Qed.

Lemma pathless_double v v' p g g0 :
  (forall q, (fresh v <= q)%nat -> gens v q = Finished) ->
  gens v p <> Finished ->
  (forall q, gens v' q = <[p := g]> (<[fresh v := g0]> (gens v)) q) ->
  (fresh v < fresh v')%nat ->
  (forall q, (fresh v' <= q)%nat -> gens v' q = Finished) /\
  (pathless v' + if is_start (gens v p) then 1 else 0)%nat
  = (pathless v + (if is_start g then 1 else 0) + if is_start g0 then 1 else 0)%nat.
Proof.
  intros Hu Hp Hg Hf.
  assert (Hlt : (p < fresh v)%nat).
  { destruct (Nat.lt_ge_cases p (fresh v)) as [|Hge]; [assumption|].
    now apply Hu in Hge. }
  set (vm := {| story := story v; gens := <[fresh v := g0]> (gens v);
                fresh := S (fresh v) |}).
  assert (Hm : pathless vm = (pathless v + if is_start g0 then 1 else 0)%nat).
  { unfold pathless, vm. cbn [gens fresh count_upto]. rewrite fn_lookup_insert.
    rewrite (count_upto_ext _ (fun q => is_start (gens v q))); [reflexivity|].
    intros q Hq. now rewrite fn_lookup_insert_ne by lia. }
  destruct (pathless_single vm v' p g) as [Hu' Hc].
  - intros q Hq. cbn [vm gens fresh] in *. rewrite fn_lookup_insert_ne by lia.
    apply Hu. lia.
  - cbn [vm gens]. now rewrite fn_lookup_insert_ne by lia.
  - exact Hg.
  - cbn [vm fresh]. lia.
  - split; [exact Hu'|]. cbn [vm gens] in Hc. rewrite fn_lookup_insert_ne in Hc by lia.
    rewrite Hm in Hc. lia.
Qed.

Lemma paths_inv_idles v v' : idles v v' -> paths_inv v -> paths_inv v'.
Proof.
  intros (Hs & Hg & Hf) [Hu Hc]. split.
  - intros q Hq. rewrite Hg. apply Hu. lia.
  - rewrite Hs, <- Hc. f_equal. unfold pathless.
    rewrite (count_upto_grow _ (fresh v) (fresh v') Hf).
    + apply count_upto_ext. intros q _. now rewrite Hg.
    + intros q Hq. now rewrite Hg, Hu.
Qed.

Lemma paths_inv_moves cfg p v v' : moves cfg p v v' -> paths_inv v -> paths_inv v'.
Proof.
  intros M [Hu Hc].
  destruct M as [i Hg Hi Hs Hgs Hf|i Hg Hi Hs Hgs Hf|cid pw Hg Hs Hgs Hf|Hg Hs Hgs Hf
                |Hg Hs Hgs Hf|n rest t Hg Hs Hgs Hf|n rest a r w sv Hg Hs Hgs Hf
                |n rest a r w Hg Hs Hgs Hf|n rest w sv r Hg Hs Hgs Hf].
  1, 3: destruct (pathless_double v v' p _ _ Hu ltac:(rewrite Hg; discriminate) Hgs Hf)
          as [Hu' Hc'].
  3-9: destruct (pathless_single v v' p _ Hu ltac:(rewrite Hg; discriminate) Hgs
                   ltac:(lia)) as [Hu' Hc'].
  all: split; [exact Hu'|]; rewrite Hg in Hc'; cbn [is_start] in Hc'; rewrite Hs;
    cbn [paths_of spawns_of flat_map app length];
    fold (paths_of (story v)); fold (spawns_of (story v)); lia.
Qed.

Section Paths.

Variable cfg : Config.
Variables exps unifs : list Q.

Lemma paths_reachable s : reachable cfg exps unifs s -> paths_inv (view s).
Proof.
  revert s. apply (reachable_ind_simple cfg exps unifs (fun s => paths_inv (view s))).
  - intros s H. destruct (view_setup cfg exps unifs s H) as (Hs & Hf & Hg). split.
    + intros q Hq. rewrite Hg, fn_lookup_insert_ne by lia. reflexivity.
    + rewrite Hs. unfold pathless. rewrite Hf.
      rewrite (count_upto_ext _ (fun _ => false)); [reflexivity|].
      intros q _. rewrite Hg. destruct (decide (0%nat = q)) as [<-|Hq].
      * now rewrite fn_lookup_insert.
      * now rewrite fn_lookup_insert_ne.
  - intros s x q P _. apply (paths_inv_idles (view s)); [apply pop_idles | exact P].
  - intros e cb s s' P H.
    assert (Hk : (forall p, cb <> Resume p) -> paths_inv (view s')).
    { intros Hcb. exact (paths_inv_idles _ _ (run_callback_idles cfg cb e s s' Hcb H) P). }
    destruct cb as [p|c|c|n|n]; try (apply Hk; intros; discriminate). clear Hk.
    cbn [run_callback] in H. destruct (resume_moves cfg p e s s' H) as [M|(vm & M1 & M2)].
    + exact (paths_inv_moves cfg p _ _ M P).
    + exact (paths_inv_moves cfg p _ _ M2 (paths_inv_moves cfg p _ _ M1 P)).
Qed.

(** What is known about the numbers of paths and of customers. *)
Lemma paths_and_spawns s :
  reachable cfg exps unifs s ->
  (length (paths_of (trace s)) <= length (spawns_of (trace s)))%nat /\
  (length (spawns_of (trace s)) <= TOTAL_CUSTOMERS cfg)%nat /\
  (completed s -> length (paths_of (trace s)) = TOTAL_CUSTOMERS cfg).
Proof.
  intros Hs. destruct (paths_reachable s Hs) as [_ Hc].
  cbn [view story] in Hc. rewrite paths_of_story, spawns_of_story in Hc.
  split; [lia|]. split; [exact (arrivals_never_exceed cfg exps unifs s Hs)|].
  intros Hdone.
  pose proof (completed_all_finished cfg exps unifs s Hs Hdone) as Hidle.
  destruct (customers_reachable cfg exps unifs s Hs) as [(_ & _ & A) _].
  cbn [view story gens] in A. rewrite spawns_of_story, Hidle in A. cbn [idle gen] in A.
  assert (H0 : pathless (view s) = 0%nat).
  { unfold pathless.
    rewrite (count_upto_grow _ 0 (fresh (view s))); [reflexivity | lia |].
    intros q _. cbn [view gens]. now rewrite Hidle. }
  rewrite H0, A, length_rev, length_seq in Hc. lia.
Qed.

End Paths.

(** X14: when [env.run()] returns, [customer_pathway] has built exactly
    one path for every customer: the number of paths constructed is
    [TOTAL_CUSTOMERS]. *)
Theorem every_customer_gets_a_path cfg exps unifs s :
  reachable cfg exps unifs s -> completed s ->
  length (paths_of (trace s)) = TOTAL_CUSTOMERS cfg.
Proof.
  intros Hs Hdone. now apply (paths_and_spawns cfg exps unifs s Hs).
Qed.

Lemma every_customer_gets_a_path_witness :
  length (paths_of (trace (final_state eleven_run))) = 11%nat.
Proof.
  apply (every_customer_gets_a_path eleven_customers eleven_expo eleven_unif);
    apply (simulate_reachable eleven_customers eleven_expo eleven_unif 1000);
    apply succeeded_final; vm_compute; reflexivity.
Defined.

Lemma percentage_bounds (k n : Z) :
  (0 <= k <= n)%Z -> (n <> 0)%Z ->
  0 <= inject_Z (100 * k) / inject_Z n /\ inject_Z (100 * k) / inject_Z n <= 100.
Proof.
  intros Hk Hn. assert (Hpos : 0 < inject_Z n).
  { change 0 with (inject_Z 0). rewrite <- Zlt_Qlt. lia. }
  split.
  - apply Qle_shift_div_l; [exact Hpos|]. rewrite Qmult_0_l.
    change 0 with (inject_Z 0). rewrite <- Zle_Qle. lia.
  - apply Qle_shift_div_r; [exact Hpos|].
    change 100 with (inject_Z 100). rewrite <- inject_Z_mult, <- Zle_Qle. lia.
Qed.

(** X15: whenever [evaluate_workload] is run, during or after the
    simulation, the first-call resolution figure it reports is a
    percentage: it lies between 0 and 100. *)
Theorem first_call_resolution_is_a_percentage cfg exps unifs s w :
  reachable cfg exps unifs s -> evaluate_workload cfg s = Ok w ->
  0 <= first_call_resoluton (routing w) /\ first_call_resoluton (routing w) <= 100.
Proof.
  intros Hs H. unfold evaluate_workload in H.
  apply bind_Ok in H. destruct H as (r & Hr & H). apply Ok_inj in H. subst w.
  cbn [routing]. unfold compute, true_div in Hr.
  destruct (Z.eqb_spec (Z.of_nat (TOTAL_CUSTOMERS cfg)) 0) as [|Hn]; [discriminate|].
  cbn [bind] in Hr. apply Ok_inj in Hr. subst r. cbn [first_call_resoluton].
  destruct (books_inv_reachable _ _ _ _ Hs) as [Hg _].
  destruct (paths_and_spawns cfg exps unifs s Hs) as (H1 & H2 & _).
  apply percentage_bounds; [|exact Hn].
  rewrite Hg, classify_all_fcr.
  pose proof (filter_length two_stations (paths_of (trace s))) as Hfl. lia.
Qed.

Lemma first_call_resolution_is_a_percentage_witness :
  0 <= first_call_resoluton (routing eleven_workload) /\
  first_call_resoluton (routing eleven_workload) <= 100.
Proof.
  apply (first_call_resolution_is_a_percentage eleven_customers eleven_expo eleven_unif
           (final_state eleven_run)).
  - apply (simulate_reachable eleven_customers eleven_expo eleven_unif 1000).
    apply succeeded_final. vm_compute. reflexivity.
  - vm_compute. reflexivity.
Defined.

(** X16: when the entry station resolves every call at once, the code
    books minus one transfer for every customer, so that after the run
    [evaluate_workload] reports no first-call resolution, a transfer rate
    of minus 100 per cent and a routing efficiency of 200 per cent. *)
Theorem entry_resolves_efficiency cfg exps unifs s w :
  entry_resolves cfg -> unit_draws unifs ->
  reachable cfg exps unifs s -> completed s -> evaluate_workload cfg s = Ok w ->
  first_call_resoluton (routing w) == 0 /\
  transfer_rates (routing w) == - (100) /\
  routing_efficiency (routing w) == 200.
Proof.
  intros He Hu Hs Hdone H. unfold evaluate_workload in H.
  apply bind_Ok in H. destruct H as (r & Hr & H). apply Ok_inj in H. subst w.
  cbn [routing]. unfold compute, true_div in Hr.
  destruct (Z.eqb_spec (Z.of_nat (TOTAL_CUSTOMERS cfg)) 0) as [|Hn]; [discriminate|].
  cbn [bind] in Hr. apply Ok_inj in Hr. subst r.
  cbn [first_call_resoluton transfer_rates routing_efficiency].
  rewrite (entry_resolves_transfers cfg exps unifs s He Hu Hs).
  destruct (paths_and_spawns cfg exps unifs s Hs) as (_ & _ & Hp). rewrite (Hp Hdone).
  destruct (entry_paths_reachable cfg exps unifs He Hu s Hs) as [_ Hone].
  destruct (books_inv_reachable _ _ _ _ Hs) as [Hg _].
  assert (Hf : first_call_resolution_count (gene_stats s) = 0%Z).
  { rewrite Hg, classify_all_fcr. clear -Hone.
    induction Hone as [|pw pws -> _ IH]; [reflexivity | exact IH]. }
  rewrite Hf.
  assert (Hpos : ~ inject_Z (Z.of_nat (TOTAL_CUSTOMERS cfg)) == 0).
  { change 0 with (inject_Z 0). rewrite inject_Z_injective. exact Hn. }
  assert (Ht : inject_Z (100 * - Z.of_nat (TOTAL_CUSTOMERS cfg))
               / inject_Z (Z.of_nat (TOTAL_CUSTOMERS cfg)) == - (100)).
  { rewrite Z.mul_opp_r, inject_Z_opp, inject_Z_mult. change (inject_Z 100) with 100.
    field. exact Hpos. }
  split; [|split].
  - change (inject_Z (100 * 0)) with 0. field. exact Hpos.
  - exact Ht.
  - rewrite Ht. reflexivity.
Qed.

Lemma entry_resolves_efficiency_witness :
  first_call_resoluton (routing one_desk_workload) == 0 /\
  transfer_rates (routing one_desk_workload) == - (100) /\
  routing_efficiency (routing one_desk_workload) == 200.
Proof.
  apply (entry_resolves_efficiency (one_desk 2) [1; 12 # 10; 1] [1 # 2; 1 # 2]
           (final_state tie_lost_run)).
  - exists [(Completed_Support, 1)], 1. split; [reflexivity|].
    split; [apply list_elem_of_singleton; reflexivity | reflexivity].
  - repeat constructor; vm_compute; congruence.
  - apply (simulate_reachable (one_desk 2) [1; 12 # 10; 1] [1 # 2; 1 # 2] 100).
    apply succeeded_final. vm_compute. reflexivity.
  - apply (simulate_reachable (one_desk 2) [1; 12 # 10; 1] [1 # 2; 1 # 2] 100).
    apply succeeded_final. vm_compute. reflexivity.
  - vm_compute. reflexivity.
Defined.

(** ** Nobody waits longer than the patience *)

Lemma tidy_refl k d s : tidy k d s s.
Proof.
  split; [reflexivity|]. split; [intros x Hx; now left|].
  intros e l' c H Hc. left. now exists l'.
Qed.

Lemma tidy_trans k d s1 s2 s3 : tidy k d s1 s2 -> tidy k d s2 s3 -> tidy k d s1 s3.
Proof.
  intros (N1 & Q1 & C1) (N2 & Q2 & C2). split; [congruence|]. split.
  - intros x Hx. destruct (Q2 x Hx) as [H|[H|H]].
    + now apply Q1.
    + right; left. now rewrite <- N1.
    + right; right. now rewrite <- N1.
  - intros e l' c Hl Hc. destruct (C2 e l' c Hl Hc) as [(l & Hl2 & Hc2)|H]; [|now right].
    exact (C1 e l c Hl2 Hc2).
Qed.

Lemma tidy_same k d s s' :
  now s' = now s -> queue s' = queue s ->
  (forall e, callbacks (events s' e) = callbacks (events s e)) -> tidy k d s s'.
Proof.
  intros N Q' C. split; [exact N|]. split.
  - intros x Hx. left. now rewrite <- Q'.
  - intros e l' c Hl Hc. left. exists l'. now rewrite <- C.
Qed.

Ltac tidy_now := apply tidy_same; [reflexivity | reflexivity | intros; reflexivity].

Lemma tidy_schedule k d ev prio delay s :
  delay == 0 \/ ((k <= ev)%nat /\ delay <= d) -> tidy k d s (schedule ev prio delay s).
Proof.
  intros Hd. split; [reflexivity|]. split.
  - intros x Hx. cbn [schedule queue set_eid set_queue] in Hx.
    apply heappush_elem in Hx. destruct Hx as [->|Hx]; [|now left].
    right. cbn [e_time e_ev]. destruct Hd as [Hd|[Hk Hd]].
    + left. rewrite Hd. ring.
    + right. split; [exact Hk|]. lra.
  - intros e l' c Hl Hc. left. now exists l'.
Qed.

Lemma tidy_upd_event k d x f s :
  (forall ev, callbacks (f ev) = callbacks ev) -> tidy k d s (upd_event x f s).
Proof.
  intros Hf. apply tidy_same; [reflexivity | reflexivity|]. intros e.
  cbn [upd_event events set_events]. destruct (decide (x = e)) as [->|Hne].
  - now rewrite fn_lookup_alter.
  - now rewrite fn_lookup_alter_ne.
Qed.

Lemma tidy_new_event k d kd b s : tidy k d s (snd (new_event kd b s)).
Proof.
  split; [reflexivity|]. split; [intros x Hx; now left|].
  intros e l' c Hl Hc. cbn [new_event snd events set_events set_next_event] in Hl.
  destruct (decide (next_event s = e)) as [<-|Hne].
  - rewrite fn_lookup_insert in Hl. cbn [callbacks] in Hl. injection Hl as <-.
    now apply elem_of_nil in Hc.
  - rewrite fn_lookup_insert_ne in Hl by exact Hne. left. now exists l'.
Qed.

Lemma tidy_add_callback k d x cb s :
  (forall c, cb = Check c -> (k <= x)%nat /\ (k <= c)%nat) ->
  tidy k d s (add_callback x cb s).
Proof.
  intros Hcb. split; [reflexivity|]. split; [intros y Hy; now left|].
  intros e l' c Hl Hc. rewrite events_add_callback in Hl.
  destruct (decide (x = e)) as [->|Hne]; [|left; now exists l'].
  cbn [with_callbacks callbacks] in Hl.
  destruct (callbacks (events s e)) as [l|] eqn:E; [|discriminate].
  cbn [option_map] in Hl. injection Hl as <-. apply elem_of_app in Hc.
  destruct Hc as [Hc|Hc].
  - left. now exists l.
  - apply list_elem_of_singleton in Hc. right. now apply Hcb.
Qed.

Lemma tidy_remove_check k d c x s : tidy k d s (upd_event x (remove_check c) s).
Proof.
  split; [reflexivity|]. split; [intros y Hy; now left|].
  intros e l' c' Hl Hc. left. cbn [upd_event events set_events] in Hl.
  destruct (decide (x = e)) as [->|Hne].
  2:{ rewrite fn_lookup_alter_ne in Hl by exact Hne. now exists l'. }
  rewrite fn_lookup_alter in Hl.
  destruct (remove_check_spec c (events s e)) as (_ & _ & [E|(l0 & E0 & E1)]).
  - rewrite E in Hl. now exists l'.
  - rewrite E1 in Hl. injection Hl as <-. exists l0. split; [exact E0|].
    eapply elem_of_sublist; [exact Hc | apply remove_first_sublist].
Qed.

Lemma tidy_succeed k d x s s' : succeed x s = Ok s' -> tidy k d s s'.
Proof.
  unfold succeed. destruct (triggered (events s x)); [discriminate|].
  intros H. apply Ok_inj in H. subst s'.
  eapply tidy_trans; [apply (tidy_upd_event k d x (with_triggered true)); reflexivity|].
  apply tidy_schedule. left. reflexivity.
Qed.

Lemma tidy_check k d c s s' : check c s = Ok s' -> tidy k d s s'.
Proof.
  unfold check. destruct (triggered (events s c)).
  - intros H. apply Ok_inj in H. subst. apply tidy_refl.
  - apply tidy_succeed.
Qed.

Lemma tidy_build_value k d c s : tidy k d s (build_value c s).
Proof.
  assert (Hfold : forall l s0,
             tidy k d s0 (foldl (fun s' ev => upd_event ev (remove_check c) s') s0 l)).
  { induction l as [|x l IH]; intros s0; cbn [foldl]; [apply tidy_refl|].
    eapply tidy_trans; [apply tidy_remove_check | apply IH]. }
  unfold build_value, remove_check_callbacks.
  eapply tidy_trans; [apply Hfold|]. now apply tidy_upd_event.
Qed.

Lemma tidy_do_put k d n r s s' : do_put n r s = Ok s' -> tidy k d s s'.
Proof.
  unfold do_put. destruct (_ <? _)%Z.
  - intros H. apply (tidy_succeed k d) in H. exact H.
  - intros H. apply Ok_inj in H. subst. apply tidy_refl.
Qed.

Lemma tidy_trigger_put k d n s s' : trigger_put n s = Ok s' -> tidy k d s s'.
Proof.
  unfold trigger_put. destruct (put_queue (nodes s n)) as [|r q].
  { intros H. apply Ok_inj in H. subst. apply tidy_refl. }
  intros H. apply bind_Ok in H. destruct H as (s1 & E & H).
  apply (tidy_do_put k d) in E.
  destruct (triggered (events s1 r)); apply Ok_inj in H; subst s'; exact E.
Qed.

Lemma tidy_do_get k d n g s s' : do_get n g s = Ok s' -> tidy k d s s'.
Proof.
  unfold do_get. intros H. apply (tidy_succeed k d) in H.
  now destruct (release_request (events s g)).
Qed.

Lemma tidy_trigger_get k d n s s' : trigger_get n s = Ok s' -> tidy k d s s'.
Proof.
  unfold trigger_get. destruct (get_queue (nodes s n)) as [|g q].
  { intros H. apply Ok_inj in H. subst. apply tidy_refl. }
  intros H. apply bind_Ok in H. destruct H as (s1 & E & H).
  apply (tidy_do_get k d) in E.
  destruct (triggered (events s1 g)); apply Ok_inj in H; subst s'; exact E.
Qed.

Lemma tidy_request k d n s r s' : request n s = Ok (r, s') -> tidy k d s s'.
Proof.
  rewrite request_eq. cbn zeta. intros H.
  apply bind_Ok in H. destruct H as (s4 & E & H). injection H as <- <-.
  apply (tidy_trigger_put k d) in E.
  eapply tidy_trans; [|exact E].
  eapply tidy_trans; [apply (tidy_new_event k d (KRequest n) false s)|].
  eapply tidy_trans; [|apply tidy_add_callback; intros; discriminate].
  tidy_now.
Qed.

Lemma tidy_exit_request k d n r s s' : exit_request n r s = Ok s' -> tidy k d s s'.
Proof.
  unfold exit_request. intros H. apply bind_Ok in H. destruct H as (s1 & E & H).
  assert (E1 : tidy k d s s1).
  { destruct (triggered (events s r)).
    - apply Ok_inj in E. subst. apply tidy_refl.
    - destruct (decide (r ∈ put_queue (nodes s n))); [|discriminate].
      apply Ok_inj in E. subst. tidy_now. }
  eapply tidy_trans; [exact E1|].
  rewrite release_eq in H. apply (tidy_trigger_get k d) in H.
  eapply tidy_trans; [|exact H].
  eapply tidy_trans; [apply (tidy_new_event k d (KRelease n r) false s1)|].
  eapply tidy_trans; [|apply tidy_add_callback; intros; discriminate].
  tidy_now.
Qed.

Lemma tidy_timeout k d delay s t s' :
  (k <= next_event s)%nat -> delay <= d -> timeout delay s = Ok (t, s') -> tidy k d s s'.
Proof.
  intros Hk Hd. unfold timeout. destruct (Qltb delay 0); [discriminate|].
  intros H. cbn in H. injection H as <- <-.
  eapply tidy_trans; [apply (tidy_new_event k d KTimeout true s)|].
  apply (tidy_schedule k d (next_event s) NORMAL delay (snd (new_event KTimeout true s))).
  right. now split.
Qed.

Lemma tidy_yield k d p ev g s : tidy k d s (yield p ev g s).
Proof.
  unfold yield. eapply tidy_trans; [|apply tidy_add_callback; intros; discriminate].
  tidy_now.
Qed.

Lemma tidy_process k d g s : tidy k d s (snd (process g s)).
Proof.
  rewrite process_eq. cbn [snd].
  eapply tidy_trans; [apply (tidy_new_event k d KProcess false s)|].
  eapply tidy_trans; [apply (tidy_new_event k d KInitialize true)|].
  eapply tidy_trans; [apply (tidy_schedule k d (S (next_event s)) URGENT 0); left; reflexivity|].
  apply tidy_yield.
Qed.

Lemma tidy_finish k d p s : tidy k d s (finish p s).
Proof.
  unfold finish. eapply tidy_trans; [|apply tidy_schedule; left; reflexivity].
  eapply tidy_trans; [|now apply tidy_upd_event]. tidy_now.
Qed.

Lemma tidy_expovariate k d lambd s x s' : expovariate lambd s = Ok (x, s') -> tidy k d s s'.
Proof.
  unfold expovariate. destruct (Qeq_bool lambd 0); [discriminate|].
  destruct (expo s); [discriminate|]. intros [= <- <-]. tidy_now.
Qed.

Lemma tidy_record_stats cfg k d n w sv s s' :
  record_stats cfg n w sv s = Ok s' -> tidy k d s s'.
Proof.
  unfold record_stats. intros H. apply bind_Ok in H. destruct H as (prm & _ & H).
  apply bind_Ok in H. destruct H as (ns & _ & H). apply Ok_inj in H. subst.
  tidy_now.
Qed.

Lemma tidy_any_of k d evs s c s' :
  any_of evs s = Ok (c, s') -> (k <= next_event s)%nat ->
  Forall (fun ev => (k <= ev)%nat) evs -> tidy k d s s'.
Proof.
  unfold any_of.
  change (new_event (KCondition evs) false s)
    with (next_event s, snd (new_event (KCondition evs) false s)).
  cbn iota beta. intros H Hk Hevs.
  pose proof (tidy_new_event k d (KCondition evs) false s) as T1.
  revert T1 H. generalize (snd (new_event (KCondition evs) false s)) as s1.
  intros s1 T1 H.
  apply bind_Ok in H. destruct H as (s2 & E & H). injection H as <- <-.
  eapply tidy_trans; [|apply tidy_add_callback; intros; discriminate].
  revert s1 T1 E. induction Hevs as [|ev evs Hev _ IH]; intros s1 T1 E; cbn [foldl] in E.
  - apply Ok_inj in E. now subst.
  - cbn [bind] in E. destruct (processed (events s1 ev)).
    + destruct (check (next_event s) s1) as [s3| |] eqn:Hc.
      * apply (IH s3); [|exact E]. eapply tidy_trans; [exact T1|].
        eapply tidy_check; eauto.
      * exfalso. clear -E. induction evs; cbn in E; [discriminate | auto].
      * exfalso. clear -E. induction evs; cbn in E; [discriminate | auto].
    + apply (IH (add_callback ev (Check (next_event s)) s1)); [|exact E].
      eapply tidy_trans; [exact T1|]. apply tidy_add_callback.
      intros c1 [= <-]. split; [exact Hev | exact Hk].
Qed.

Section Patience.

Variable cfg : Config.

Lemma tidy_customer_loop k p pw s s' :
  customer_loop cfg p pw s = Ok s' -> (k <= next_event s)%nat -> tidy k PATIENCE s s'.
Proof.
  intros H Hk. destruct pw as [|n rest]; cbn [customer_loop] in H.
  - apply Ok_inj in H. subst. apply tidy_finish.
  - apply bind_Ok in H. destruct H as (prm & _ & H).
    apply bind_Ok in H. destruct H as ([r0 s0] & Hreq & H).
    apply bind_Ok in H. destruct H as ([t s2] & Htmo & H).
    apply bind_Ok in H. destruct H as ([c0 s3] & Hany & H).
    apply Ok_inj in H. subst s'.
    destruct (next_request _ _ _ _ Hreq) as [-> N0].
    destruct (next_timeout _ _ _ _ Htmo) as [Et N2]. cbn [observe next_event] in Et.
    rewrite N0 in Et. subst t.
    eapply tidy_trans; [exact (tidy_request k PATIENCE _ _ _ _ Hreq)|].
    eapply tidy_trans;
      [apply (tidy_same k PATIENCE s0 (observe (ObsVisit p n (next_event s) (now s)) s0));
       [reflexivity | reflexivity | intros; reflexivity]|].
    eapply tidy_trans;
      [apply (tidy_timeout k PATIENCE PATIENCE _ _ _) with (3 := Htmo);
       [cbn [observe next_event]; lia | apply Qle_refl]|].
    eapply tidy_trans; [|apply tidy_yield].
    apply (tidy_any_of k PATIENCE _ _ _ _ Hany); [lia|].
    repeat constructor; lia.
Qed.

Lemma gen_customer_loop p pw s s' :
  customer_loop cfg p pw s = Ok s' ->
  gen (procs s' p) = Finished
  \/ exists n rest r, gen (procs s' p) = Customer_race n rest (now s) r.
Proof.
  destruct pw as [|n rest]; intros H.
  - cbn [customer_loop] in H. apply Ok_inj in H. subst. left.
    now rewrite procs_finish, decide_True.
  - right. destruct (customer_loop_race cfg p n rest s s' H) as (P & _).
    exists n, rest, (next_event s). now rewrite P.
Qed.

(** What a resumption of process [p] does to the heap, and the waits it
    starts or ends. *)
Lemma resume_tidy p ev s s' :
  resume cfg p ev s = Ok s' ->
  exists d,
    tidy (next_event s) d s s' /\
    (forall n rest a r,
       gen (procs s' p) = Customer_race n rest a r -> a = now s /\ d <= PATIENCE) /\
    (forall n rest w sv r,
       gen (procs s' p) = Customer_service n rest w sv r ->
       exists a, gen (procs s p) = Customer_race n rest a r /\ w = now s - a).
Proof.
  unfold resume. intros H.
  assert (Hfin : forall s0 d, tidy (next_event s) d s s0 ->
            tidy (next_event s) d s (finish p s0) /\
            (forall n rest a r,
               gen (procs (finish p s0) p) = Customer_race n rest a r ->
               a = now s /\ d <= PATIENCE) /\
            (forall n rest w sv r,
               gen (procs (finish p s0) p) = Customer_service n rest w sv r ->
               exists a, gen (procs s p) = Customer_race n rest a r /\ w = now s - a)).
  { intros s0 d T. split; [eapply tidy_trans; [exact T | apply tidy_finish]|].
    split; intros *; rewrite procs_finish, decide_True by reflexivity; discriminate. }
  assert (Hloop : forall s0 pw, tidy (next_event s) PATIENCE s s0 ->
            (next_event s <= next_event s0)%nat ->
            customer_loop cfg p pw s0 = Ok s' ->
            tidy (next_event s) PATIENCE s s' /\
            (forall n rest a r,
               gen (procs s' p) = Customer_race n rest a r ->
               a = now s /\ PATIENCE <= PATIENCE) /\
            (forall n rest w sv r,
               gen (procs s' p) = Customer_service n rest w sv r ->
               exists a, gen (procs s p) = Customer_race n rest a r /\ w = now s - a)).
  { intros s0 pw T Hn Hl. pose proof T as (N0 & _).
    split; [eapply tidy_trans; [exact T | eapply tidy_customer_loop; eauto]|].
    destruct (gen_customer_loop p pw s0 s' Hl) as [E|(n0 & rest0 & r0 & E)];
      (split; intros *; rewrite E; try discriminate).
    intros [= _ _ <- _]. split; [exact N0 | apply Qle_refl]. }
  destruct (gen (procs s p)) as [i|cid| |pw|n rest a r|n rest w sv r|] eqn:Hg.
  - (* customer_arrivals *)
    destruct (i <? TOTAL_CUSTOMERS cfg)%nat.
    + destruct (process (Pathway_start i) (observe (ObsSpawn i) s)) as [p' s1] eqn:Hpr.
      apply bind_Ok in H. destruct H as ([ia s2] & Hex & H).
      apply bind_Ok in H. destruct H as ([t s3] & Htmo & H). apply Ok_inj in H. subst s'.
      pose proof (tidy_process (next_event s) ia (Pathway_start i) (observe (ObsSpawn i) s))
        as T1.
      pose proof (next_process (Pathway_start i) (observe (ObsSpawn i) s)) as N1.
      rewrite Hpr in T1, N1. cbn [snd observe next_event] in T1, N1.
      exists ia. split; [|split].
      * eapply tidy_trans;
          [apply (tidy_same _ _ s (observe (ObsSpawn i) s));
           [reflexivity | reflexivity | intros; reflexivity]|].
        eapply tidy_trans; [exact T1|].
        eapply tidy_trans; [exact (tidy_expovariate _ _ _ _ _ _ Hex)|].
        eapply tidy_trans; [|apply tidy_yield].
        apply (tidy_timeout _ _ ia _ _ _) with (3 := Htmo); [|apply Qle_refl].
        rewrite (next_expovariate _ _ _ _ Hex), N1. lia.
      * intros *. rewrite procs_yield, decide_True by reflexivity. discriminate.
      * intros *. rewrite procs_yield, decide_True by reflexivity. discriminate.
    + apply Ok_inj in H. subst s'. exists 0. apply Hfin, tidy_refl.
  - (* customer_pathway starts *)
    apply bind_Ok in H. destruct H as ([pathway draws] & Hbp & H).
    destruct (process _ _) as [pc s2] eqn:Hpr in H. apply Ok_inj in H. subst s'.
    match type of Hpr with
    | process ?g ?s0 = _ =>
        pose proof (tidy_process (next_event s) 0 g s0) as T1;
        rewrite Hpr in T1; cbn [snd] in T1
    end.
    exists 0. split; [|split].
    + eapply tidy_trans; [|apply tidy_yield]. eapply tidy_trans; [|exact T1].
      apply tidy_same; [reflexivity | reflexivity | intros; reflexivity].
    + intros *. rewrite procs_yield, decide_True by reflexivity. discriminate.
    + intros *. rewrite procs_yield, decide_True by reflexivity. discriminate.
  - (* customer_pathway ends *)
    apply Ok_inj in H. subst s'. exists 0. apply Hfin, tidy_refl.
  - (* customer starts *)
    exists PATIENCE. apply (Hloop s pw); [apply tidy_refl | lia | exact H].
  - (* the race is decided *)
    destruct (decide (r ∈ value (events s ev))).
    + apply bind_Ok in H. destruct H as (prm & _ & H).
      destruct (Qeq_bool (mu prm) 0); [discriminate|].
      apply bind_Ok in H. destruct H as ([x s1] & Hex & H).
      apply bind_Ok in H. destruct H as ([t s2] & Htmo & H).
      apply Ok_inj in H. subst s'. exists x. split; [|split].
      * eapply tidy_trans; [exact (tidy_expovariate _ _ _ _ _ _ Hex)|].
        eapply tidy_trans; [|apply tidy_yield].
        apply (tidy_timeout _ _ x _ _ _) with (3 := Htmo); [|apply Qle_refl].
        rewrite (next_expovariate _ _ _ _ Hex). lia.
      * intros *. rewrite procs_yield, decide_True by reflexivity. discriminate.
      * intros n0 rest0 w sv r0. rewrite procs_yield, decide_True by reflexivity.
        cbn [gen]. intros [= <- <- <- _ <-]. now exists a.
    + apply bind_Ok in H. destruct H as (prm & _ & H).
      apply bind_Ok in H. destruct H as (s2 & Hrec & H).
      apply bind_Ok in H. destruct H as (s3 & Hex & H).
      apply Ok_inj in H. subst s'. exists 0. apply Hfin.
      eapply tidy_trans; [|exact (tidy_exit_request _ _ _ _ _ _ Hex)].
      eapply tidy_trans; [|apply (tidy_same _ _ s2 (observe _ s2));
                            [reflexivity | reflexivity | intros; reflexivity]].
      eapply tidy_trans; [|exact (tidy_record_stats _ _ _ _ _ _ _ _ Hrec)].
      apply tidy_same; [reflexivity | reflexivity | intros; reflexivity].
  - (* service is over *)
    apply bind_Ok in H. destruct H as (s1 & Hrec & H).
    apply bind_Ok in H. destruct H as (s2 & Hex & H).
    exists PATIENCE.
    destruct (Hloop s2 rest) as (T & Hr & Hs); [| |exact H|].
    + eapply tidy_trans; [exact (tidy_record_stats _ _ _ _ _ _ _ _ Hrec)|].
      eapply tidy_trans; [|exact (tidy_exit_request _ _ _ _ _ _ Hex)].
      apply tidy_same; [reflexivity | reflexivity | intros; reflexivity].
    + rewrite (next_exit_request _ _ _ _ Hex). cbn [observe next_event].
      rewrite (next_record_stats _ _ _ _ _ _ Hrec). lia.
    + split; [exact T|]. split; [exact Hr|]. intros n0 rest0 w0 sv0 r0 E.
      destruct (Hs n0 rest0 w0 sv0 r0 E) as (a & Ha & _). discriminate.
  - discriminate.
Qed.

Lemma patience_inv_pop s x q :
  safe cfg s -> wake_inv None s -> race_inv None s -> patience_inv None s ->
  queue s = x :: q ->
  patience_inv (Some (e_ev x, default [] (callbacks (events s (e_ev x))))) (pop x q s).
Proof.
  intros [[[Hsorted _] _] _] W R P Hq p n rest a r c Hg Ht.
  change (procs (pop x q s)) with (procs s) in Hg, Ht.
  destruct (P p n rest a r c Hg Ht) as [Hnow Hdue].
  assert (Hhead : forall y, y ∈ queue s -> e_time x <= e_time y).
  { rewrite Hq in Hsorted |- *. apply StronglySorted_inv in Hsorted.
    destruct Hsorted as [_ Hx]. intros y Hy. apply elem_of_cons in Hy.
    destruct Hy as [->|Hy]; [apply Qle_refl|].
    rewrite List.Forall_forall in Hx. apply key_le_time, Hx. now apply list_elem_of_In. }
  assert (Hcb : forall e cb,
             has_callback (Some (e_ev x, default [] (callbacks (events s (e_ev x)))))
               (pop x q s) e cb ->
             has_callback None s e cb).
  { intros e cb (l & Hl & Hin). exists l. split; [|exact Hin].
    cbn [pending_callbacks] in *. destruct (decide (e = e_ev x)) as [->|Hne].
    - injection Hl as <-. destruct (callbacks (events s (e_ev x))); [reflexivity|].
      cbn [default] in Hin. now apply elem_of_nil in Hin.
    - cbn [pop upd_event events set_events set_now set_queue] in Hl.
      now rewrite fn_lookup_alter_ne in Hl by congruence. }
  split.
  - change (now (pop x q s)) with (e_time x).
    pose proof (wi_procs _ _ W p) as Hp. rewrite Ht in Hp.
    destruct Hp as (_ & _ & _ & _ & Hlive).
    destruct Hlive as [[Hqd|(l & Hl)]|(Htr & [(t' & [Hqd|(l & Hl)] & Hcheck)|Htar])];
      try discriminate.
    + apply list_elem_of_fmap in Hqd. destruct Hqd as (y & -> & Hy).
      eapply Qle_trans; [apply Hhead, Hy|]. apply (Hdue y Hy). now left.
    + apply list_elem_of_fmap in Hqd. destruct Hqd as (y & -> & Hy).
      eapply Qle_trans; [apply Hhead, Hy|]. apply (Hdue y Hy). now right.
    + exfalso. pose proof (wi_procs _ _ W c) as Hpc.
      destruct (target (procs s c)); [|contradiction]. destruct Hpc as (_ & Hk & _).
      destruct (R p n rest a r Hg) as (c' & t & T & Kd & _).
      rewrite Ht in T. injection T as <-. congruence.
  - intros y Hy Hc. change (queue (pop x q s)) with q in Hy. apply (Hdue y).
    + rewrite Hq. now right.
    + destruct Hc as [Hc|Hc]; [now left | right; now apply Hcb].
Qed.

Lemma patience_inv_end e s :
  wake_inv (Some (e, [])) s -> patience_inv (Some (e, [])) s -> patience_inv None s.
Proof.
  intros W P p n rest a r c Hg Ht. destruct (P p n rest a r c Hg Ht) as [Hnow Hdue].
  split; [exact Hnow|]. intros y Hy Hc. apply (Hdue y Hy).
  destruct Hc as [Hc|(l & Hl & Hin)]; [now left | right].
  exists l. split; [|exact Hin]. cbn [pending_callbacks] in *.
  destruct (decide (e_ev y = e)) as [E|E]; [|exact Hl].
  rewrite E in Hl. destruct (wi_cursor _ _ W e [] eq_refl) as [Hnone _]. congruence.
Qed.

(** A customer that goes on waiting is still woken up in time. *)
Lemma patience_kept d e cb l s s' p n rest a r c :
  wake_inv (Some (e, cb :: l)) s -> patience_inv (Some (e, cb :: l)) s ->
  tidy (next_event s) d s s' ->
  gen (procs s p) = Customer_race n rest a r -> target (procs s p) = Some c ->
  now s' <= a + PATIENCE /\
  forall x, x ∈ queue s' ->
    e_ev x = c \/ has_callback (Some (e, l)) s' (e_ev x) (Check c) ->
    e_time x <= a + PATIENCE.
Proof.
  intros W P (N & Q' & C) Hg Ht.
  destruct (P p n rest a r c Hg Ht) as [Hnow Hdue].
  assert (Hc : (c < next_event s)%nat).
  { pose proof (wi_procs _ _ W p) as Hp. rewrite Ht in Hp.
    destruct Hp as (_ & _ & _ & (l0 & Hl0 & _) & _). eapply pending_allocated; eauto. }
  assert (Hback : forall e', has_callback (Some (e, l)) s' e' (Check c) ->
                             has_callback (Some (e, cb :: l)) s e' (Check c)).
  { intros e' (l' & Hl' & Hin). cbn [pending_callbacks] in Hl'.
    destruct (decide (e' = e)) as [->|Hne].
    - injection Hl' as <-. exists (cb :: l).
      split; [apply pending_callbacks_cursor | now right].
    - destruct (C e' l' c Hl' Hin) as [(l0 & Hl0 & Hin0)|[_ Hk]]; [|lia].
      exists l0. split; [|exact Hin0]. now rewrite pending_callbacks_other. }
  split; [now rewrite N|].
  intros x Hx Hcx. destruct (Q' x Hx) as [Hold|[Hnw|[Hk Hd]]].
  - apply (Hdue x Hold). destruct Hcx as [Hcx|Hcx]; [now left | right; now apply Hback].
  - rewrite Hnw. exact Hnow.
  - exfalso. destruct Hcx as [Hcx|Hcx]; [lia|]. apply Hback in Hcx.
    destruct Hcx as (l0 & Hl0 & _). apply (pending_allocated _ _ _ _ W) in Hl0. lia.
Qed.

Lemma run_callback_tidy cb ev s s' :
  (forall p, cb <> Resume p) -> run_callback cfg cb ev s = Ok s' ->
  tidy (next_event s) 0 s s'.
Proof.
  intros Hcb H. destruct cb as [p|c|c|n|n]; cbn [run_callback] in H.
  - now destruct (Hcb p).
  - eapply tidy_check; eauto.
  - apply Ok_inj in H. subst. apply tidy_build_value.
  - eapply tidy_trigger_get; eauto.
  - eapply tidy_trigger_put; eauto.
Qed.

Lemma patience_inv_run_callback e cb l s s' :
  wake_inv (Some (e, cb :: l)) s -> patience_inv (Some (e, cb :: l)) s ->
  run_callback cfg cb e s = Ok s' -> patience_inv (Some (e, l)) s'.
Proof.
  intros W P H. destruct (classic_callback cb) as [[p0 ->]|Hcb].
  - cbn [run_callback] in H. destruct (resume_frame cfg _ _ _ _ H) as (K & F & Nw).
    destruct (resume_tidy _ _ _ _ H) as (d & T & Hrace & _).
    intros p n rest a r c Hg Ht. destruct (decide (p = p0)) as [->|Hp].
    + destruct (Hrace n rest a r Hg) as [-> Hd].
      destruct (Nw n rest (now s) r Hg) as (c' & T' & _ & _ & _ & Hn & _ & _).
      rewrite Ht in T'. injection T' as <-.
      destruct T as (N & Q' & C). split; [rewrite N; unfold PATIENCE; lra|].
      intros x Hx Hcx. destruct (Q' x Hx) as [Hold|[Hnw|[Hk Hdl]]].
      * exfalso.
        assert (Hxa : (e_ev x < next_event s)%nat).
        { apply (triggered_allocated _ _ _ W), (wi_queue _ _ W).
          apply list_elem_of_fmap. now exists x. }
        destruct Hcx as [Hcx|(l' & Hl' & Hin)]; [lia|].
        cbn [pending_callbacks] in Hl'. destruct (decide (e_ev x = e)) as [E|E].
        -- injection Hl' as <-.
           destruct (wi_callbacks _ _ W e _ (pending_callbacks_cursor _ _ _)) as [_ Hok].
           specialize (Hok (Check c) ltac:(now right)). cbn [callback_ok] in Hok. lia.
        -- destruct (C _ _ _ Hl' Hin) as [(l0 & Hl0 & Hin0)|[Hk _]]; [|lia].
           destruct (wi_callbacks _ _ W (e_ev x) l0) as [_ Hok].
           { now rewrite pending_callbacks_other. }
           specialize (Hok _ Hin0). cbn [callback_ok] in Hok. lia.
      * rewrite Hnw. unfold PATIENCE. lra.
      * unfold PATIENCE in *. lra.
    + destruct (F p Hp) as [Pq|[_ Hv]]; [|rewrite Hg in Hv; discriminate].
      rewrite Pq in Hg, Ht.
      exact (patience_kept d e (Resume p0) l s s' p n rest a r c W P T Hg Ht).
  - destruct (run_callback_keeps cfg (next_event s) cb e s s' Hcb H) as (_ & Pq & _).
    pose proof (run_callback_tidy cb e s s' Hcb H) as T.
    intros p n rest a r c Hg Ht. rewrite Pq in Hg, Ht.
    exact (patience_kept 0 e cb l s s' p n rest a r c W P T Hg Ht).
Qed.

Lemma waits_inv_run_callback e cb l s s' :
  race_inv (Some (e, cb :: l)) s -> patience_inv (Some (e, cb :: l)) s -> waits_inv s ->
  run_callback cfg cb e s = Ok s' -> waits_inv s'.
Proof.
  intros R P [Wn Wp] H. destruct (classic_callback cb) as [[p0 ->]|Hcb].
  - cbn [run_callback] in H.
    destruct (resume_frame cfg _ _ _ _ H) as (_ & F & _).
    destruct (resume_tidy _ _ _ _ H) as (d & _ & _ & Hsv).
    assert (Hwait : forall n rest a r,
               gen (procs s p0) = Customer_race n rest a r -> now s - a <= PATIENCE).
    { intros n rest a r Hg. destruct (R p0 n rest a r Hg) as (c & t & T & _).
      destruct (P p0 n rest a r c Hg T) as [Hnow _]. lra. }
    split.
    + intros m. pose proof (resume_booking cfg p0 e s s' H) as B.
      destruct B as [Hc | pw d' lq Hbp U N G T F0
                    | n rest a r prm u lq Hgen Hprm Hu U N G T F0
                    | n rest w sv r prm u lq Hgen Hprm Hu U N G T F0].
      * destruct Hc as (-> & _). apply Wn.
      * rewrite N. apply Wn.
      * rewrite N. destruct (decide (n = m)) as [->|Hne].
        -- rewrite fn_lookup_insert. cbn [booked waiting_times].
           apply Forall_app. split; [apply Wn|]. repeat constructor.
           now apply (Hwait m rest a r).
        -- rewrite fn_lookup_insert_ne by exact Hne. apply Wn.
      * rewrite N. destruct (decide (n = m)) as [->|Hne].
        -- rewrite fn_lookup_insert. cbn [booked waiting_times].
           apply Forall_app. split; [apply Wn|]. repeat constructor.
           exact (Wp p0 m rest w sv r Hgen).
        -- rewrite fn_lookup_insert_ne by exact Hne. apply Wn.
    + intros p n rest w sv r Hg. destruct (decide (p = p0)) as [->|Hp].
      * destruct (Hsv n rest w sv r Hg) as (a & Hga & ->). now apply (Hwait n rest a r).
      * destruct (F p Hp) as [Pq|[_ Hv]]; [|rewrite Hg in Hv; discriminate].
        rewrite Pq in Hg. exact (Wp p n rest w sv r Hg).
  - destruct (run_callback_keeps cfg (next_event s) cb e s s' Hcb H) as (_ & Pq & _).
    destruct (quiet_run_callback cfg cb e s s' Hcb H) as (N & _).
    split.
    + intros m. rewrite N. apply Wn.
    + intros p n rest w sv r. rewrite Pq. apply Wp.
Qed.

End Patience.

Lemma race_inv_pop s x q :
  race_inv None s ->
  race_inv (Some (e_ev x, default [] (callbacks (events s (e_ev x))))) (pop x q s).
Proof.
  intros R p n rest a r Hg. change (procs (pop x q s)) with (procs s) in *.
  destruct (R p n rest a r Hg) as (c & t & T & Kd & Hr & Ht & Hc & [D|D]); [|discriminate].
  cbn [pending_callbacks] in D.
  assert (Hev : forall e, events (pop x q s) e
            = if decide (e_ev x = e) then with_callbacks None (events s e) else events s e).
  { intros e. cbn [pop upd_event events set_events set_now set_queue].
    destruct (decide (e_ev x = e)) as [->|Hne].
    - now rewrite fn_lookup_alter.
    - now rewrite fn_lookup_alter_ne. }
  exists c, t. split; [exact T|]. split.
  { rewrite Hev. destruct (decide (e_ev x = c)); exact Kd. }
  split; [exact Hr|]. split; [exact Ht|]. split; [exact Hc|]. left.
  cbn [pending_callbacks]. destruct (decide (c = e_ev x)) as [->|Hne].
  - now rewrite D.
  - rewrite Hev, decide_False by congruence. exact D.
Qed.

Lemma race_inv_end e s : race_inv (Some (e, [])) s -> race_inv None s.
Proof.
  intros R p n rest a r Hg.
  destruct (R p n rest a r Hg) as (c & t & T & Kd & Hr & Ht & Hc & [D|D]); [|discriminate].
  exists c, t. repeat split; auto. left. cbn [pending_callbacks] in *.
  destruct (decide (c = e)); [discriminate | exact D].
Qed.

(** In every state between two events: the customers that wait have
    patience left, and no wait on record exceeds the patience. *)
Lemma patience_reachable cfg exps unifs s :
  reachable cfg exps unifs s -> patience_inv None s /\ waits_inv s.
Proof.
  intros Hs.
  enough (H : servers_ok cfg /\ safe cfg s /\ wake_inv None s /\ race_inv None s /\
              patience_inv None s /\ waits_inv s) by (now destruct H as (_ & _ & _ & _ & H)).
  revert s Hs.
  apply (reachable_callbacks_ind cfg exps unifs
           (fun cur s => servers_ok cfg /\ safe cfg s /\ wake_inv cur s /\ race_inv cur s /\
                         patience_inv cur s /\ waits_inv s)).
  - intros s H. pose proof (reachable_setup cfg exps unifs s H) as Hs.
    destruct (bounds_inv_reachable cfg exps unifs s Hs) as (Hsrv & Hsafe & _).
    destruct (race_inv_reachable cfg exps unifs s Hs) as [W R].
    split; [exact Hsrv|]. split; [exact Hsafe|]. split; [exact W|]. split; [exact R|].
    unfold setup in H. destruct (capacities_ok cfg); [|discriminate].
    apply Ok_inj in H. subst s.
    assert (Hg : forall p, gen (procs (snd (process (Arrivals 0) (empty_state cfg exps unifs))) p)
                           = Arrivals 0
                           \/ gen (procs (snd (process (Arrivals 0)
                                                 (empty_state cfg exps unifs))) p) = Finished).
    { intros p. rewrite procs_process. cbn [empty_state next_event procs].
      destruct (decide (0%nat = p)); [now left | now right]. }
    split.
    + intros p n rest a r c E. destruct (Hg p) as [E'|E']; rewrite E' in E; discriminate.
    + split.
      * intros n. destruct (quiet_process (Arrivals 0) (empty_state cfg exps unifs)) as (-> & _).
        constructor.
      * intros p n rest w sv r E. destruct (Hg p) as [E'|E']; rewrite E' in E; discriminate.
  - intros s x q (Hsrv & Hsafe & W & R & P & Wt) Hq.
    split; [exact Hsrv|]. split; [now apply safe_pop|]. split; [now apply wake_inv_pop|].
    split; [now apply race_inv_pop|]. split; [now apply (patience_inv_pop cfg)|].
    exact Wt.
  - intros e cb l s s' (Hsrv & Hsafe & W & R & P & Wt) H.
    split; [exact Hsrv|]. split; [exact (safe_run_callback cfg cb e s s' H Hsafe)|].
    split; [exact (wake_inv_run_callback cfg e cb l s s' W H)|].
    split; [exact (race_inv_run_callback cfg e cb l s s' W R H)|].
    split; [exact (patience_inv_run_callback cfg e cb l s s' W P H)|].
    exact (waits_inv_run_callback cfg e cb l s s' R P Wt H).
  - intros e s (Hsrv & Hsafe & W & R & P & Wt).
    split; [exact Hsrv|]. split; [exact Hsafe|]. split; [now apply (wake_inv_end e)|].
    split; [now apply (race_inv_end e)|]. split; [now apply (patience_inv_end e)|].
    exact Wt.
Qed.

(** ** Customers keep to their path *)

Lemma stations_visited_story p tr :
  stations_visited p (story_of tr) = stations_visited p tr.
Proof.
  unfold stations_visited. f_equal.
  induction tr as [|o tr IH]; [reflexivity|]. unfold story_of in *.
  destruct o; cbn [List.filter is_grant negb flat_map] in *; now rewrite ?IH.
Qed.

Lemma abandoned_by_story p tr : abandoned_by p (story_of tr) = abandoned_by p tr.
Proof.
  unfold abandoned_by.
  induction tr as [|o tr IH]; [reflexivity|]. unfold story_of in *.
  destruct o; cbn [List.filter is_grant negb existsb] in *; now rewrite ?IH.
Qed.

Lemma stations_visited_visit p q n r t st :
  stations_visited p (ObsVisit q n r t :: st)
  = stations_visited p st ++ (if decide (q = p) then [n] else []).
Proof.
  unfold stations_visited. cbn [flat_map]. rewrite rev_app_distr. f_equal.
  now destruct (decide (q = p)).
Qed.

Lemma stations_visited_other p o st :
  (forall q n r t, o = ObsVisit q n r t -> q <> p) ->
  stations_visited p (o :: st) = stations_visited p st.
Proof.
  intros Ho. unfold stations_visited. cbn [flat_map].
  destruct o as [i|q pw|q n r t|r t|q n r w|q n r w sv]; try reflexivity.
  rewrite decide_False; [reflexivity|]. now apply (Ho q n r t).
Qed.

Lemma on_route_more p g o st :
  (forall q n r t, o = ObsVisit q n r t -> q <> p) ->
  on_route st p g -> on_route (o :: st) p g.
Proof.
  intros Ho. unfold on_route. rewrite (stations_visited_other p o st Ho).
  assert (Hp : forall pw, pw ∈ paths_of st -> pw ∈ paths_of (o :: st)).
  { intros pw Hin. unfold paths_of in *. cbn [flat_map]. apply elem_of_app. now right. }
  assert (Ha : abandoned_by p st = true -> abandoned_by p (o :: st) = true).
  { intros H. unfold abandoned_by in *. cbn [existsb]. rewrite H. apply orb_true_r. }
  destruct (remaining g) as [l|].
  - intros (pw & Hin & E). exists pw. auto.
  - intros [E|(pw & Hin & [E|[E A]])]; [now left|right..]; exists pw; auto.
Qed.

Lemma route_inv_idles v v' : idles v v' -> route_inv v -> route_inv v'.
Proof.
  intros (Hs & Hg & Hf) (Hu & Hn & Hr). split; [|split].
  - intros q Hq. rewrite Hg. apply Hu. lia.
  - intros q Hq. rewrite Hs. apply Hn. lia.
  - intros p. rewrite Hs, Hg. apply Hr.
Qed.

Lemma route_inv_moves cfg p v v' : moves cfg p v v' -> route_inv v -> route_inv v'.
Proof.
  intros M (Hu & Hn & Hr).
  assert (Hlt : gens v p <> Finished -> (p < fresh v)%nat).
  { intros Hp. destruct (Nat.lt_ge_cases p (fresh v)) as [|Hge]; [assumption|].
    now apply Hu in Hge. }
  (* a step that records [o], an observation that is not a visit, or nothing *)
  assert (Hstep : forall (os : list Obs) g,
            story v' = os ++ story v ->
            (forall o, o ∈ os -> forall q n r t, o <> ObsVisit q n r t) ->
            (forall q, gens v' q = <[p := g]> (gens v) q) ->
            (fresh v <= fresh v')%nat -> gens v p <> Finished ->
            on_route (os ++ story v) p g ->
            route_inv v').
  { intros os g Hs Hos Hg Hf Hp Hnew.
    assert (Hmore : forall q g0, on_route (story v) q g0 -> on_route (os ++ story v) q g0).
    { intros q g0. clear Hs Hnew. induction os as [|o os IH]; [trivial|]. intros H.
      cbn [app]. apply on_route_more.
      - intros q0 n r t E. exfalso. apply (Hos o (list_elem_of_here _ _) q0 n r t E).
      - apply IH; [|exact H]. intros o' Ho'. apply Hos. now right. }
    assert (Hvis : forall q, stations_visited q (os ++ story v) = stations_visited q (story v)).
    { intros q. clear Hs Hnew Hmore. induction os as [|o os IH]; [reflexivity|].
      cbn [app]. rewrite stations_visited_other.
      - apply IH. intros o' Ho'. apply Hos. now right.
      - intros q0 n r t E. exfalso. apply (Hos o (list_elem_of_here _ _) q0 n r t E). }
    specialize (Hlt Hp). split; [|split].
    - intros q Hq. rewrite Hg, fn_lookup_insert_ne by lia. apply Hu. lia.
    - intros q Hq. rewrite Hs, Hvis. apply Hn. lia.
    - intros q. rewrite Hs, Hg. destruct (decide (p = q)) as [<-|Hne].
      + now rewrite fn_lookup_insert.
      + rewrite fn_lookup_insert_ne by exact Hne. apply Hmore, Hr. }
  (* a step that starts a process as well *)
  assert (Hstep2 : forall o g g0,
            story v' = o :: story v ->
            (forall q n r t, o <> ObsVisit q n r t) ->
            (forall q, gens v' q = <[p := g]> (<[fresh v := g0]> (gens v)) q) ->
            (fresh v < fresh v')%nat -> gens v p <> Finished ->
            on_route (o :: story v) p g -> on_route (o :: story v) (fresh v) g0 ->
            route_inv v').
  { intros o g g0 Hs Ho Hg Hf Hp Hnew Hnew0. specialize (Hlt Hp). split; [|split].
    - intros q Hq. rewrite Hg, !fn_lookup_insert_ne by lia. apply Hu. lia.
    - intros q Hq. rewrite Hs, stations_visited_other.
      + apply Hn. lia.
      + intros q0 n r t E. now apply Ho in E.
    - intros q. rewrite Hs, Hg. destruct (decide (p = q)) as [<-|Hne].
      + now rewrite fn_lookup_insert.
      + rewrite fn_lookup_insert_ne by exact Hne.
        destruct (decide (fresh v = q)) as [<-|Hne'].
        * now rewrite fn_lookup_insert.
        * rewrite fn_lookup_insert_ne by exact Hne'. apply on_route_more; [|apply Hr].
          intros q0 n r t E. now apply Ho in E. }
  pose proof (Hr p) as Hp.
  destruct M as [i Hg Hi Hs Hgs Hf|i Hg Hi Hs Hgs Hf|cid pw Hg Hs Hgs Hf|Hg Hs Hgs Hf
                |Hg Hs Hgs Hf|n rest t Hg Hs Hgs Hf|n rest a r w sv Hg Hs Hgs Hf
                |n rest a r w Hg Hs Hgs Hf|n rest w sv r Hg Hs Hgs Hf];
    rewrite Hg in Hp; unfold on_route in Hp; cbn [remaining] in Hp.
  - (* a customer is created *)
    apply (Hstep2 (ObsSpawn i) (Arrivals (S i)) (Pathway_start i));
      [exact Hs | discriminate | exact Hgs | exact Hf | rewrite Hg; discriminate | |].
    + apply on_route_more; [discriminate|]. exact Hp.
    + unfold on_route. cbn [remaining]. left.
      rewrite stations_visited_other by discriminate. apply Hn. lia.
  - apply (Hstep [] Finished);
      [exact Hs | | exact Hgs | exact Hf | rewrite Hg; discriminate | exact Hp].
    intros o Ho. now apply elem_of_nil in Ho.
  - (* a path is built *)
    apply (Hstep2 (ObsPath p pw) Pathway_wait (Customer_loop pw));
      [exact Hs | discriminate | exact Hgs | exact Hf | rewrite Hg; discriminate | |].
    + apply on_route_more; [discriminate|]. exact Hp.
    + unfold on_route. cbn [remaining]. exists pw. split.
      * unfold paths_of. cbn [flat_map]. now left.
      * rewrite stations_visited_other by discriminate. rewrite Hn by lia. reflexivity.
  - apply (Hstep [] Finished);
      [exact Hs | | exact Hgs | exact Hf | rewrite Hg; discriminate | exact Hp].
    intros o Ho. now apply elem_of_nil in Ho.
  - (* the path is at its end *)
    apply (Hstep [] Finished);
      [exact Hs | | exact Hgs | exact Hf | rewrite Hg; discriminate |].
    + intros o Ho. now apply elem_of_nil in Ho.
    + destruct Hp as (pw & Hin & E). rewrite app_nil_r in E.
      unfold on_route. cbn [remaining app]. right. exists pw. auto.
  - (* a visit begins *)
    assert (Hplt : (p < fresh v)%nat) by (apply Hlt; rewrite Hg; discriminate).
    split; [|split].
    + intros q Hq. rewrite Hgs, fn_lookup_insert_ne by lia. apply Hu. lia.
    + intros q Hq. rewrite Hs, stations_visited_visit, decide_False by lia.
      rewrite app_nil_r. apply Hn. lia.
    + intros q. rewrite Hs, Hgs. destruct (decide (p = q)) as [<-|Hne].
      * rewrite fn_lookup_insert. unfold on_route. cbn [remaining].
        destruct Hp as (pw & Hin & E). exists pw. split.
        -- unfold paths_of in *. exact Hin.
        -- rewrite stations_visited_visit, decide_True by reflexivity.
           now rewrite <- app_assoc.
      * rewrite fn_lookup_insert_ne by exact Hne. apply on_route_more; [|apply Hr].
        intros q0 n0 r0 t0 [= <- _ _ _]. exact Hne.
  - (* service begins *)
    apply (Hstep [] (Customer_service n rest w sv r));
      [exact Hs | | exact Hgs | exact Hf | rewrite Hg; discriminate | exact Hp].
    intros o Ho. now apply elem_of_nil in Ho.
  - (* the customer gives up *)
    apply (Hstep [ObsAbandon p n r w] Finished);
      [exact Hs | | exact Hgs | exact Hf | rewrite Hg; discriminate |].
    + intros o Ho. apply list_elem_of_singleton in Ho. subst o. discriminate.
    + destruct Hp as (pw & Hin & E).
      unfold on_route. cbn [remaining app]. right. exists pw. split.
      * unfold paths_of in *. exact Hin.
      * right. rewrite stations_visited_other by discriminate. split.
        -- exists rest. now rewrite E.
        -- unfold abandoned_by. cbn [existsb]. now rewrite Nat.eqb_refl.
  - (* service is over *)
    apply (Hstep [ObsServed p n r w sv] (Customer_loop rest));
      [exact Hs | | exact Hgs | exact Hf | rewrite Hg; discriminate |].
    + intros o Ho. apply list_elem_of_singleton in Ho. subst o. discriminate.
    + destruct Hp as (pw & Hin & E).
      unfold on_route. cbn [remaining app]. exists pw. split.
      * unfold paths_of in *. exact Hin.
      * now rewrite stations_visited_other by discriminate.
Qed.

Lemma route_reachable cfg exps unifs s :
  reachable cfg exps unifs s -> route_inv (view s).
Proof.
  revert s. apply (reachable_ind_simple cfg exps unifs (fun s => route_inv (view s))).
  - intros s H. destruct (view_setup cfg exps unifs s H) as (Hs & Hf & Hg). split; [|split].
    + intros q Hq. rewrite Hg, fn_lookup_insert_ne by lia. reflexivity.
    + intros q _. now rewrite Hs.
    + intros p. rewrite Hs, Hg. unfold on_route.
      destruct (decide (0%nat = p)) as [<-|Hq].
      * rewrite fn_lookup_insert. now left.
      * rewrite fn_lookup_insert_ne by exact Hq. now left.
  - intros s x q P _. apply (route_inv_idles (view s)); [apply pop_idles | exact P].
  - intros e cb s s' P H.
    assert (Hk : (forall p, cb <> Resume p) -> route_inv (view s')).
    { intros Hcb. exact (route_inv_idles _ _ (run_callback_idles cfg cb e s s' Hcb H) P). }
    destruct cb as [p|c|c|n|n]; try (apply Hk; intros; discriminate). clear Hk.
    cbn [run_callback] in H. destruct (resume_moves cfg p e s s' H) as [M|(vm & M1 & M2)].
    + exact (route_inv_moves cfg p _ _ M P).
    + exact (route_inv_moves cfg p _ _ M2 (route_inv_moves cfg p _ _ M1 P)).
Qed.

(** X19: a customer keeps to its path.  At every moment of a run the
    stations a process has begun a visit at, in the order of the visits,
    are the beginning of one of the paths [customer_pathway] has built;
    and if the process has ended without abandoning a visit, they are that
    whole path. *)
Theorem visits_follow_the_path cfg exps unifs s p :
  reachable cfg exps unifs s ->
  stations_visited p (trace s) = [] \/
  exists pw,
    pw ∈ paths_of (trace s) /\
    stations_visited p (trace s) `prefix_of` pw /\
    (gen (procs s p) = Finished -> abandoned_by p (trace s) = false ->
     stations_visited p (trace s) = pw).
Proof.
  intros Hs. destruct (route_reachable cfg exps unifs s Hs) as (_ & _ & Hr).
  specialize (Hr p). unfold on_route in Hr. cbn [view story gens] in Hr.
  rewrite stations_visited_story, paths_of_story, abandoned_by_story in Hr.
  destruct (gen (procs s p)) eqn:Hg; cbn [remaining] in Hr.
  1-3, 7: destruct Hr as [E|(pw & Hin & [E|[E A]])]; [now left|right; exists pw..];
    (split; [exact Hin|]); (split; [try exact E; rewrite E; reflexivity|]);
    intros _ Ha; congruence.
  all: destruct Hr as (pw & Hin & E); right; exists pw; (split; [exact Hin|]);
    (split; [eexists; symmetry; exact E | discriminate]).
Qed.

Lemma visits_follow_the_path_witness :
  let s := final_state eleven_run in
  stations_visited 5 (trace s) = [] \/
  exists pw,
    pw ∈ paths_of (trace s) /\
    stations_visited 5 (trace s) `prefix_of` pw /\
    (gen (procs s 5%nat) = Finished -> abandoned_by 5 (trace s) = false ->
     stations_visited 5 (trace s) = pw).
Proof.
  apply (visits_follow_the_path eleven_customers eleven_expo eleven_unif).
  apply (simulate_reachable eleven_customers eleven_expo eleven_unif 1000).
  apply succeeded_final. vm_compute. reflexivity.
Defined.

(** ** Servers are given back *)

Lemma aside_refl s : aside s s.
Proof. split; [reflexivity|]. split; [lia|]. intros e _. now split. Qed.

Lemma aside_trans s1 s2 s3 : aside s1 s2 -> aside s2 s3 -> aside s1 s3.
Proof.
  intros (N1 & L1 & E1) (N2 & L2 & E2). split; [intros n; now rewrite N2|].
  split; [lia|]. intros e He.
  destruct (E1 e He) as [K1 T1], (E2 e ltac:(lia)) as [K2 T2].
  split; [congruence|]. intros Hr. rewrite T2, T1; auto. now rewrite K1.
Qed.

Lemma aside_events s s' :
  (forall n, nodes s' n = nodes s n) -> (next_event s <= next_event s')%nat ->
  (forall e, (e < next_event s)%nat ->
     kind (events s' e) = kind (events s e)
     /\ triggered (events s' e) = triggered (events s e)) ->
  aside s s'.
Proof.
  intros N L E. split; [exact N|]. split; [exact L|].
  intros e He. destruct (E e He) as [K T]. now split.
Qed.

Ltac aside_same :=
  apply aside_events; [intros; reflexivity | cbn; lia | intros; split; reflexivity].

Lemma aside_upd_event x f s :
  (forall ev, kind (f ev) = kind ev) ->
  (is_request (kind (events s x)) = true ->
   triggered (f (events s x)) = triggered (events s x)) ->
  aside s (upd_event x f s).
Proof.
  intros Hk Ht. split; [reflexivity|]. split; [cbn; lia|]. intros e _.
  cbn [upd_event events set_events]. destruct (decide (x = e)) as [->|Hne].
  - rewrite fn_lookup_alter. split; [apply Hk | exact Ht].
  - rewrite fn_lookup_alter_ne by exact Hne. now split.
Qed.

Lemma aside_new_event kd b s : aside s (snd (new_event kd b s)).
Proof.
  apply aside_events; [reflexivity | cbn; lia|]. intros e He.
  cbn [new_event snd events set_events set_next_event].
  rewrite fn_lookup_insert_ne by lia. now split.
Qed.

Lemma aside_add_callback x cb s : aside s (add_callback x cb s).
Proof.
  apply aside_events; [reflexivity | cbn; lia|]. intros e _.
  rewrite events_add_callback. destruct (decide (x = e)); now split.
Qed.

Lemma aside_schedule ev prio d s : aside s (schedule ev prio d s).
Proof. aside_same. Qed.

Lemma aside_succeed x s s' :
  is_request (kind (events s x)) = false -> succeed x s = Ok s' -> aside s s'.
Proof.
  intros Hx. unfold succeed. destruct (triggered (events s x)); [discriminate|].
  intros H. apply Ok_inj in H. subst s'.
  eapply aside_trans; [|apply aside_schedule].
  apply aside_upd_event; [reflexivity|]. rewrite Hx. discriminate.
Qed.

Lemma aside_check c s s' :
  is_request (kind (events s c)) = false -> check c s = Ok s' -> aside s s'.
Proof.
  intros Hc. unfold check. destruct (triggered (events s c)).
  - intros H. apply Ok_inj in H. subst. apply aside_refl.
  - now apply aside_succeed.
Qed.

Lemma aside_remove_check c x s : aside s (upd_event x (remove_check c) s).
Proof.
  apply aside_events; [reflexivity | cbn; lia|]. intros e _.
  cbn [upd_event events set_events]. destruct (decide (x = e)) as [->|Hne].
  - rewrite fn_lookup_alter. destruct (remove_check_spec c (events s e)) as (K & T & _).
    now split.
  - rewrite fn_lookup_alter_ne by exact Hne. now split.
Qed.

Lemma aside_build_value c s : aside s (build_value c s).
Proof.
  assert (Hfold : forall l s0,
             aside s0 (foldl (fun s' ev => upd_event ev (remove_check c) s') s0 l)).
  { induction l as [|x l IH]; intros s0; cbn [foldl]; [apply aside_refl|].
    eapply aside_trans; [apply aside_remove_check | apply IH]. }
  unfold build_value, remove_check_callbacks.
  eapply aside_trans; [apply Hfold|]. now apply aside_upd_event.
Qed.

Lemma aside_timeout d s t s' : timeout d s = Ok (t, s') -> aside s s'.
Proof.
  unfold timeout. destruct (Qltb d 0); [discriminate|].
  intros H. cbn in H. injection H as <- <-.
  eapply aside_trans; [apply (aside_new_event KTimeout true s) | apply aside_schedule].
Qed.

Lemma aside_yield p ev g s : aside s (yield p ev g s).
Proof.
  unfold yield. eapply aside_trans; [|apply aside_add_callback]. aside_same.
Qed.

Lemma aside_process g s : aside s (snd (process g s)).
Proof.
  rewrite process_eq. cbn [snd].
  eapply aside_trans; [apply (aside_new_event KProcess false s)|].
  eapply aside_trans; [apply (aside_new_event KInitialize true)|].
  eapply aside_trans; [apply aside_schedule | apply aside_yield].
Qed.

Lemma aside_finish p s :
  is_request (kind (events s p)) = false -> aside s (finish p s).
Proof.
  intros Hp. unfold finish. eapply aside_trans; [|apply aside_schedule].
  eapply aside_trans; [|apply aside_upd_event; [reflexivity|]].
  - aside_same.
  - cbn [set_procs events]. rewrite Hp. discriminate.
Qed.

Lemma aside_expovariate lambd s x s' : expovariate lambd s = Ok (x, s') -> aside s s'.
Proof.
  unfold expovariate. destruct (Qeq_bool lambd 0); [discriminate|].
  destruct (expo s); [discriminate|]. intros [= <- <-]. aside_same.
Qed.

Lemma aside_record_stats cfg n w sv s s' :
  record_stats cfg n w sv s = Ok s' -> aside s s'.
Proof.
  unfold record_stats. intros H. apply bind_Ok in H. destruct H as (prm & _ & H).
  apply bind_Ok in H. destruct H as (ns & _ & H). apply Ok_inj in H. subst.
  aside_same.
Qed.

Lemma held_aside s s' n r : aside s s' -> (held s' n r <-> held s n r).
Proof. intros (N & _). unfold held. now rewrite N. Qed.

Lemma desk_inv_aside s s' : aside s s' -> desk_inv s -> desk_inv s'.
Proof.
  intros A D. pose proof A as (N & L & E). constructor.
  - intros n. rewrite N. apply (di_get _ D).
  - intros n. rewrite N. apply (di_nodup _ D).
  - intros n r Hh. apply (held_aside _ _ _ _ A) in Hh.
    destruct (di_kind _ D n r Hh) as [K Hr]. destruct (E r Hr) as [K' _].
    split; [congruence | lia].
  - intros n r Hr. rewrite N in Hr.
    destruct (di_kind _ D n r (or_introl Hr)) as [K Hlt]. destruct (E r Hlt) as [_ T].
    rewrite T by now rewrite K. apply (di_users _ D n r Hr).
  - intros n r Hr. rewrite N in Hr.
    destruct (di_kind _ D n r (or_intror Hr)) as [K Hlt]. destruct (E r Hlt) as [_ T].
    rewrite T by now rewrite K. apply (di_queue _ D n r Hr).
Qed.

(** *** The books of the stations *)

Lemma release_spec n r s s' :
  get_queue (nodes s n) = [] -> release n r s = Ok s' ->
  users (nodes s' n) = remove_first r (users (nodes s n)) /\
  put_queue (nodes s' n) = put_queue (nodes s n) /\
  get_queue (nodes s' n) = [] /\
  (forall m, m <> n -> nodes s' m = nodes s m) /\
  next_event s' = S (next_event s) /\
  (forall e, e <> next_event s -> events s' e = events s e).
Proof.
  intros Hg. rewrite release_eq.
  set (g := next_event s).
  set (s4 := add_callback g (TriggerPut n)
               (upd_node n (fun res => with_get_queue (get_queue res ++ [g]) res)
                  (snd (new_event (KRelease n r) false s)))).
  assert (E4 : events s4 g = {| kind := KRelease n r; callbacks := Some [TriggerPut n];
                                triggered := false; value := [] |}).
  { unfold s4. rewrite events_add_callback, decide_True by reflexivity.
    cbn [upd_node new_event snd events set_nodes set_events set_next_event].
    fold g. now rewrite fn_lookup_insert. }
  assert (N4 : nodes s4 n = with_get_queue [g] (nodes s n)).
  { unfold s4. cbn [add_callback upd_event upd_node new_event snd nodes set_nodes set_events
                    set_next_event]. rewrite fn_lookup_alter. now rewrite Hg. }
  assert (O4 : forall m, m <> n -> nodes s4 m = nodes s m).
  { intros m Hm. unfold s4. cbn [add_callback upd_event upd_node new_event snd nodes
                                 set_nodes set_events set_next_event].
    now rewrite fn_lookup_alter_ne by congruence. }
  assert (V4 : forall e, e <> g -> events s4 e = events s e).
  { intros e He. unfold s4. rewrite events_add_callback, decide_False by congruence.
    cbn [upd_node new_event snd events set_nodes set_events set_next_event].
    fold g. now rewrite fn_lookup_insert_ne by congruence. }
  assert (X4 : next_event s4 = S g) by reflexivity.
  clearbody s4. unfold trigger_get. rewrite N4. cbn [with_get_queue get_queue].
  unfold do_get, release_request. rewrite E4. cbn [kind].
  unfold succeed. cbn [upd_node events set_nodes]. rewrite E4. cbn [triggered bind].
  cbn [schedule upd_event events set_eid set_queue set_events set_nodes].
  rewrite fn_lookup_alter. cbn [with_triggered triggered].
  intros H. apply Ok_inj in H. subst s'.
  cbn [schedule upd_node upd_event nodes events next_event set_nodes set_eid set_queue set_events].
  rewrite !fn_lookup_alter, N4. cbn [with_get_queue with_users users put_queue get_queue tail].
  repeat split.
  - intros m Hm. rewrite !fn_lookup_alter_ne by congruence. now apply O4.
  - exact X4.
  - intros e He. rewrite fn_lookup_alter_ne by congruence. now apply V4.
Qed.

Lemma remove_first_gone {A} `{EqDecision A} (x : A) (l : list A) :
  NoDup l -> x ∉ remove_first x l.
Proof.
  induction 1 as [|y l Hy Hl IH]; cbn [remove_first]; [apply not_elem_of_nil|].
  destruct (decide (x = y)) as [->|Hne]; [exact Hy|].
  intros Hin. apply elem_of_cons in Hin. destruct Hin as [E|Hin]; [congruence | now apply IH].
Qed.

Lemma remove_first_elem {A} `{EqDecision A} (x y : A) (l : list A) :
  y ∈ remove_first x l -> y ∈ l.
Proof. intros H. eapply elem_of_sublist; [exact H | apply remove_first_sublist]. Qed.

(** The books stay in order when requests are struck off. *)
Lemma desk_inv_strike s s' :
  desk_inv s ->
  (forall m, get_queue (nodes s' m) = []) ->
  (forall m, sublist (users (nodes s' m)) (users (nodes s m))) ->
  (forall m, sublist (put_queue (nodes s' m)) (put_queue (nodes s m))) ->
  (next_event s <= next_event s')%nat ->
  (forall e, (e < next_event s)%nat -> events s' e = events s e) ->
  desk_inv s'.
Proof.
  intros D G U Q' L E. constructor.
  - exact G.
  - intros m. apply (sublist_NoDup _ (users (nodes s m) ++ put_queue (nodes s m)));
      [apply (di_nodup _ D m) | apply sublist_app; auto].
  - intros m r [Hr|Hr].
    + pose proof (elem_of_sublist _ _ _ Hr (U m)) as Hr'.
      destruct (di_kind _ D m r (or_introl Hr')) as [K Hlt]. rewrite E by exact Hlt.
      split; [exact K | lia].
    + pose proof (elem_of_sublist _ _ _ Hr (Q' m)) as Hr'.
      destruct (di_kind _ D m r (or_intror Hr')) as [K Hlt]. rewrite E by exact Hlt.
      split; [exact K | lia].
  - intros m r Hr. pose proof (elem_of_sublist _ _ _ Hr (U m)) as Hr'.
    destruct (di_kind _ D m r (or_introl Hr')) as [_ Hlt]. rewrite E by exact Hlt.
    now apply (di_users _ D m).
  - intros m r Hr. pose proof (elem_of_sublist _ _ _ Hr (Q' m)) as Hr'.
    destruct (di_kind _ D m r (or_intror Hr')) as [_ Hlt]. rewrite E by exact Hlt.
    now apply (di_queue _ D m).
Qed.

Lemma di_nodup_users s n : desk_inv s -> NoDup (users (nodes s n)).
Proof. intros D. pose proof (di_nodup _ D n) as H. now apply NoDup_app in H as (H & _). Qed.

Lemma di_nodup_queue s n : desk_inv s -> NoDup (put_queue (nodes s n)).
Proof. intros D. pose proof (di_nodup _ D n) as H. now apply NoDup_app in H as (_ & _ & H). Qed.

(** [Request.__exit__]: the request leaves the books of the station. *)
Lemma desk_exit_request n r s s' :
  desk_inv s -> exit_request n r s = Ok s' ->
  desk_inv s' /\
  (forall m r', held s' m r' -> held s m r' /\ (m, r') <> (n, r)) /\
  next_event s' = S (next_event s) /\
  (forall e, (e < next_event s)%nat -> events s' e = events s e).
Proof.
  intros D H. unfold exit_request in H. apply bind_Ok in H. destruct H as (s1 & E & H).
  assert (H1 : desk_inv s1 /\ next_event s1 = next_event s /\ events s1 = events s /\
               (forall m, sublist (users (nodes s1 m)) (users (nodes s m))) /\
               (forall m, sublist (put_queue (nodes s1 m)) (put_queue (nodes s m))) /\
               (r ∉ put_queue (nodes s1 n)) /\
               (triggered (events s r) = false -> r ∉ users (nodes s1 n))).
  { destruct (triggered (events s r)) eqn:Ht.
    - apply Ok_inj in E. subst s1.
      split; [exact D|]. split; [reflexivity|]. split; [reflexivity|].
      split; [intros m; reflexivity|]. split; [intros m; reflexivity|].
      split; [|discriminate].
      intros Hin. apply (di_queue _ D n r) in Hin. congruence.
    - destruct (decide (r ∈ put_queue (nodes s n))) as [Hin|]; [|discriminate].
      apply Ok_inj in E. subst s1.
      assert (Hu : forall m, users (nodes (upd_node n (fun res => with_put_queue
                       (remove_first r (put_queue res)) res) s) m) = users (nodes s m)).
      { intros m. cbn [upd_node nodes set_nodes]. destruct (decide (n = m)) as [->|Hne].
        - now rewrite fn_lookup_alter.
        - now rewrite fn_lookup_alter_ne. }
      assert (Hq : forall m, sublist (put_queue (nodes (upd_node n (fun res => with_put_queue
                       (remove_first r (put_queue res)) res) s) m)) (put_queue (nodes s m))).
      { intros m. cbn [upd_node nodes set_nodes]. destruct (decide (n = m)) as [->|Hne].
        - rewrite fn_lookup_alter. apply remove_first_sublist.
        - now rewrite fn_lookup_alter_ne. }
      split; [|split; [reflexivity|split; [reflexivity|split; [|split; [exact Hq|split]]]]].
      + apply (desk_inv_strike s); auto.
        * intros m. cbn [upd_node nodes set_nodes]. destruct (decide (n = m)) as [->|Hne].
          -- rewrite fn_lookup_alter. apply (di_get _ D).
          -- rewrite fn_lookup_alter_ne by exact Hne. apply (di_get _ D).
        * intros m. now rewrite Hu.
      + intros m. now rewrite Hu.
      + cbn [upd_node nodes set_nodes]. rewrite fn_lookup_alter. cbn [with_put_queue put_queue].
        apply remove_first_gone. now apply di_nodup_queue.
      + intros _. rewrite Hu. intros Hin'. apply (di_users _ D n r) in Hin'. congruence. }
  destruct H1 as (D1 & N1 & E1 & U1 & Q1 & Hnq & Hnu).
  destruct (release_spec n r s1 s' (di_get _ D1 n) H) as (Ru & Rq & Rg & Ro & Rn & Re).
  assert (Us : forall m, sublist (users (nodes s' m)) (users (nodes s1 m))).
  { intros m. destruct (decide (m = n)) as [->|Hne].
    - rewrite Ru. apply remove_first_sublist.
    - now rewrite Ro. }
  assert (Qs : forall m, put_queue (nodes s' m) = put_queue (nodes s1 m)).
  { intros m. destruct (decide (m = n)) as [->|Hne]; [exact Rq | now rewrite Ro]. }
  split; [|split; [|split]].
  - apply (desk_inv_strike s1); auto.
    + intros m. destruct (decide (m = n)) as [->|Hne]; [exact Rg|].
      rewrite Ro by exact Hne. apply (di_get _ D1).
    + intros m. now rewrite Qs.
    + lia.
    + intros e He. apply Re. lia.
  - intros m r' Hh. split.
    + destruct Hh as [Hh|Hh]; [left | right].
      * eapply elem_of_sublist; [|apply U1]. eapply elem_of_sublist; [exact Hh | apply Us].
      * rewrite Qs in Hh. eapply elem_of_sublist; [exact Hh | apply Q1].
    + intros [= -> ->]. destruct Hh as [Hh|Hh].
      * rewrite Ru in Hh.
        apply (remove_first_gone r (users (nodes s1 n))); [|exact Hh].
        now apply di_nodup_users.
      * rewrite Qs in Hh. contradiction.
  - lia.
  - intros e He. rewrite Re by lia. now rewrite E1.
Qed.

(** [BaseResource._trigger_put]: the head of the queue is given a server,
    if there is one. *)
Lemma desk_trigger_put n s s' :
  desk_inv s -> trigger_put n s = Ok s' ->
  desk_inv s' /\ (forall m r, held s' m r <-> held s m r) /\
  next_event s' = next_event s /\ (forall e, kind (events s' e) = kind (events s e)).
Proof.
  intros D. unfold trigger_put. destruct (put_queue (nodes s n)) as [|r q] eqn:Hq.
  { intros H. apply Ok_inj in H. subst.
    split; [exact D|]. split; [intros; reflexivity|]. split; [reflexivity | intros; reflexivity]. }
  intros H. apply bind_Ok in H. destruct H as (s1 & E & H).
  assert (Hr0 : triggered (events s r) = false).
  { apply (di_queue _ D n). rewrite Hq. now left. }
  unfold do_put in E. destruct (_ <? _)%Z.
  2:{ apply Ok_inj in E. subst s1. rewrite Hr0 in H. apply Ok_inj in H. subst.
      split; [exact D|]. split; [intros; reflexivity|].
      split; [reflexivity | intros; reflexivity]. }
  unfold succeed in E. cbn [observe upd_node events set_nodes] in E. rewrite Hr0 in E.
  apply Ok_inj in E. subst s1.
  cbn [schedule upd_event observe upd_node events set_events set_eid set_queue set_nodes] in H.
  rewrite fn_lookup_alter in H. cbn [with_triggered triggered] in H.
  apply Ok_inj in H.
  assert (Hn : forall m, nodes s' m
             = if decide (n = m)
               then {| capacity := capacity (nodes s n);
                       users := users (nodes s n) ++ [r]; put_queue := q;
                       get_queue := get_queue (nodes s n) |}
               else nodes s m).
  { intros m. subst s'. cbn [schedule upd_event observe upd_node nodes set_nodes set_events set_eid set_queue].
    destruct (decide (n = m)) as [->|Hne].
    - rewrite !fn_lookup_alter. cbn [with_users with_put_queue put_queue users capacity
                                     get_queue]. now rewrite Hq.
    - now rewrite !fn_lookup_alter_ne by exact Hne. }
  assert (He : forall e, events s' e
             = if decide (r = e) then with_triggered true (events s e) else events s e).
  { intros e. subst s'. cbn [schedule upd_event observe upd_node events set_nodes set_events set_eid set_queue].
    destruct (decide (r = e)) as [->|Hne].
    - now rewrite fn_lookup_alter.
    - now rewrite fn_lookup_alter_ne. }
  assert (Hx : next_event s' = next_event s) by now subst s'.
  clear H.
  assert (Hk : forall e, kind (events s' e) = kind (events s e)).
  { intros e. rewrite He. now destruct (decide (r = e)). }
  assert (Hh : forall m r', held s' m r' <-> held s m r').
  { intros m r'. unfold held. rewrite Hn. destruct (decide (n = m)) as [<-|Hne]; [|tauto].
    cbn [users put_queue]. rewrite Hq, elem_of_app, list_elem_of_singleton, elem_of_cons.
    tauto. }
  pose proof (di_nodup _ D n) as Hnd. rewrite Hq in Hnd.
  assert (Hrq : r ∉ q).
  { pose proof (di_nodup_queue s n D) as Hd. rewrite Hq in Hd.
    now apply NoDup_cons in Hd as [Hd _]. }
  split; [|split; [exact Hh|split; [exact Hx | exact Hk]]].
  constructor.
  - intros m. rewrite Hn. destruct (decide (n = m)) as [<-|Hne]; apply (di_get _ D).
  - intros m. rewrite Hn. destruct (decide (n = m)) as [<-|Hne]; [|apply (di_nodup _ D)].
    cbn [users put_queue]. now rewrite <- app_assoc.
  - intros m r' Hh'. apply Hh in Hh'. destruct (di_kind _ D m r' Hh') as [K Hlt].
    rewrite Hk, Hx. now split.
  - intros m r' Hin. rewrite He. destruct (decide (r = r')) as [<-|Hne]; [reflexivity|].
    apply (di_users _ D m). rewrite Hn in Hin.
    destruct (decide (n = m)) as [<-|Hnm]; [|exact Hin].
    cbn [users] in Hin. apply elem_of_app in Hin. destruct Hin as [Hin|Hin]; [exact Hin|].
    apply list_elem_of_singleton in Hin. congruence.
  - intros m r' Hin. rewrite He. rewrite Hn in Hin.
    destruct (decide (n = m)) as [<-|Hnm].
    + cbn [put_queue] in Hin. rewrite decide_False by (intros ->; contradiction).
      apply (di_queue _ D n). rewrite Hq. now right.
    + rewrite decide_False.
      * now apply (di_queue _ D m).
      * intros <-. destruct (di_kind _ D m r (or_intror Hin)) as [K1 _].
        destruct (di_kind _ D n r) as [K2 _]; [right; rewrite Hq; now left|]. congruence.
Qed.

Lemma desk_trigger_get n s s' : desk_inv s -> trigger_get n s = Ok s' -> s' = s.
Proof.
  intros D. unfold trigger_get. rewrite (di_get _ D n). intros H. now apply Ok_inj in H.
Qed.

(** [resource.request()]: the request joins the queue, and is given a
    server at once if there is one. *)
Lemma desk_request n s r s' :
  desk_inv s -> request n s = Ok (r, s') ->
  r = next_event s /\ desk_inv s' /\
  (forall m r', held s' m r' <-> held s m r' \/ (m, r') = (n, r)) /\
  next_event s' = S r /\
  (forall e, (e < r)%nat -> kind (events s' e) = kind (events s e)).
Proof.
  intros D. rewrite request_eq. cbn zeta. intros H.
  apply bind_Ok in H. destruct H as (s4 & E & H). injection H as <- <-.
  set (r := next_event s) in *.
  set (s3 := add_callback r (TriggerGet n)
               (upd_node n (fun res => with_put_queue (put_queue res ++ [r]) res)
                  (snd (new_event (KRequest n) false s)))) in *.
  assert (E3 : forall e, events s3 e
             = if decide (r = e)
               then {| kind := KRequest n; callbacks := Some [TriggerGet n];
                       triggered := false; value := [] |}
               else events s e).
  { intros e. unfold s3. rewrite events_add_callback.
    cbn [upd_node new_event snd events set_nodes set_events set_next_event]. fold r.
    destruct (decide (r = e)) as [->|Hne].
    - now rewrite fn_lookup_insert.
    - now rewrite fn_lookup_insert_ne. }
  assert (N3 : forall m, nodes s3 m
             = if decide (n = m)
               then with_put_queue (put_queue (nodes s n) ++ [r]) (nodes s n)
               else nodes s m).
  { intros m. unfold s3. cbn [add_callback upd_event upd_node new_event snd nodes set_nodes
                              set_events set_next_event].
    destruct (decide (n = m)) as [->|Hne].
    - now rewrite fn_lookup_alter.
    - now rewrite fn_lookup_alter_ne. }
  assert (X3 : next_event s3 = S r) by reflexivity.
  clearbody s3.
  assert (Hfresh : forall m, ~ held s m r).
  { intros m Hh. destruct (di_kind _ D m r Hh) as [_ Hlt]. unfold r in Hlt. lia. }
  assert (H3 : forall m r', held s3 m r' <-> held s m r' \/ (m, r') = (n, r)).
  { intros m r'. unfold held. rewrite N3. destruct (decide (n = m)) as [<-|Hne].
    - cbn [with_put_queue users put_queue]. rewrite elem_of_app, list_elem_of_singleton.
      split; [intros [?|[?| ->]]; auto | intros [[?|?]|[= ->]]; auto].
    - split; [auto|]. intros [?|[= -> ->]]; [assumption | contradiction]. }
  assert (D3 : desk_inv s3).
  { constructor.
    - intros m. rewrite N3. destruct (decide (n = m)) as [<-|Hne]; apply (di_get _ D).
    - intros m. rewrite N3. destruct (decide (n = m)) as [<-|Hne]; [|apply (di_nodup _ D)].
      cbn [with_put_queue users put_queue]. rewrite app_assoc. apply NoDup_app.
      split; [apply (di_nodup _ D)|]. split; [|apply NoDup_singleton].
      intros x Hx Hx'. apply list_elem_of_singleton in Hx'. subst x.
      apply (Hfresh n). apply elem_of_app in Hx. exact Hx.
    - intros m r' Hh. apply H3 in Hh. rewrite E3, X3. destruct Hh as [Hh|[= -> ->]].
      + destruct (di_kind _ D m r' Hh) as [K Hlt]. fold r in Hlt.
        rewrite decide_False by lia. split; [exact K | lia].
      + rewrite decide_True by reflexivity. split; [reflexivity | lia].
    - intros m r' Hin. assert (Hin' : r' ∈ users (nodes s m)).
      { rewrite N3 in Hin. now destruct (decide (n = m)) as [<-|Hne]. }
      rewrite E3, decide_False; [now apply (di_users _ D m)|].
      intros <-. apply (Hfresh m). now left.
    - intros m r' Hin. rewrite E3. destruct (decide (r = r')) as [<-|Hne]; [reflexivity|].
      apply (di_queue _ D m). rewrite N3 in Hin.
      destruct (decide (n = m)) as [<-|Hnm]; [|exact Hin].
      cbn [with_put_queue put_queue] in Hin. apply elem_of_app in Hin.
      destruct Hin as [Hin|Hin]; [exact Hin|].
      apply list_elem_of_singleton in Hin. congruence. }
  destruct (desk_trigger_put n s3 s4 D3 E) as (D4 & H4 & X4 & K4).
  split; [reflexivity|]. split; [exact D4|]. split; [|split].
  - intros m r'. now rewrite H4, H3.
  - now rewrite X4.
  - intros e He. now rewrite K4, E3, decide_False by lia.
Qed.

Lemma aside_any_of evs s c s' : any_of evs s = Ok (c, s') -> aside s s'.
Proof.
  unfold any_of.
  change (new_event (KCondition evs) false s)
    with (next_event s, snd (new_event (KCondition evs) false s)).
  cbn iota beta. intros H.
  pose proof (aside_new_event (KCondition evs) false s) as T1.
  assert (K1 : is_request (kind (events (snd (new_event (KCondition evs) false s))
                                   (next_event s))) = false).
  { cbn [new_event snd events set_events set_next_event]. now rewrite fn_lookup_insert. }
  assert (X1 : (next_event s < next_event (snd (new_event (KCondition evs) false s)))%nat)
    by (cbn; lia).
  revert T1 K1 X1 H. generalize (snd (new_event (KCondition evs) false s)) as s1.
  intros s1 T1 K1 X1 H.
  apply bind_Ok in H. destruct H as (s2 & E & H). injection H as <- <-.
  eapply aside_trans; [exact T1|]. eapply aside_trans; [|apply aside_add_callback].
  clear T1. revert s1 K1 X1 E.
  induction evs as [|ev evs IH]; intros s1 K1 X1 E; cbn [foldl] in E.
  - apply Ok_inj in E. subst. apply aside_refl.
  - cbn [bind] in E.
    assert (Hnext : forall s3, aside s1 s3 ->
              foldl (fun acc ev0 =>
                       let* s'0 := acc in
                       if processed (events s'0 ev0) then check (next_event s) s'0
                       else Ok (add_callback ev0 (Check (next_event s)) s'0))
                (Ok s3) evs = Ok s2 -> aside s1 s2).
    { intros s3 A3 E3. eapply aside_trans; [exact A3|].
      destruct A3 as (_ & L3 & E3'). destruct (E3' (next_event s) X1) as [K3 _].
      apply (IH s3); [now rewrite K3 | lia | exact E3]. }
    destruct (processed (events s1 ev)).
    + destruct (check (next_event s) s1) as [s3| |] eqn:Hc.
      * apply (Hnext s3); [|exact E]. now apply (aside_check (next_event s)).
      * exfalso. clear -E. induction evs; cbn in E; [discriminate | auto].
      * exfalso. clear -E. induction evs; cbn in E; [discriminate | auto].
    + apply (Hnext (add_callback ev (Check (next_event s)) s1)); [|exact E].
      apply aside_add_callback.
Qed.

Section Desk.

Variable cfg : Config.

Lemma desk_customer_loop p pw s s' :
  desk_inv s -> is_request (kind (events s p)) = false -> (p < next_event s)%nat ->
  customer_loop cfg p pw s = Ok s' ->
  desk_inv s' /\
  (forall m r', held s' m r' -> held s m r' \/ visiting (gen (procs s' p)) = Some (m, r')) /\
  (next_event s <= next_event s')%nat /\
  (forall e, (e < next_event s)%nat -> kind (events s' e) = kind (events s e)).
Proof.
  intros D Hp Hlt H. destruct pw as [|n rest].
  - cbn [customer_loop] in H. apply Ok_inj in H. subst s'.
    pose proof (aside_finish p s Hp) as A. split; [exact (desk_inv_aside _ _ A D)|].
    split; [intros m r' Hh; left; now apply (held_aside _ _ _ _ A)|].
    destruct A as (_ & L & E). split; [exact L|]. intros e He. now apply E.
  - destruct (customer_loop_race cfg p n rest s s' H) as (P & _).
    cbn [customer_loop] in H.
    apply bind_Ok in H. destruct H as (prm & _ & H).
    apply bind_Ok in H. destruct H as ([r0 s0] & Hreq & H).
    apply bind_Ok in H. destruct H as ([t s2] & Htmo & H).
    apply bind_Ok in H. destruct H as ([c0 s3] & Hany & H).
    apply Ok_inj in H. subst s'.
    destruct (desk_request n s r0 s0 D Hreq) as (-> & D0 & H0 & X0 & K0).
    assert (A : aside s0 (yield p c0 (Customer_race n rest (now s) (next_event s)) s3)).
    { eapply aside_trans; [|apply aside_yield].
      eapply aside_trans; [|exact (aside_any_of _ _ _ _ Hany)].
      eapply aside_trans; [|exact (aside_timeout _ _ _ _ Htmo)]. aside_same. }
    split; [exact (desk_inv_aside _ _ A D0)|]. split; [|split].
    + intros m r' Hh. apply (held_aside _ _ _ _ A), H0 in Hh.
      destruct Hh as [Hh|[= -> ->]]; [now left | right]. now rewrite P.
    + destruct A as (_ & L & _). lia.
    + intros e He. destruct A as (_ & _ & E). destruct (E e ltac:(lia)) as [-> _].
      now apply K0.
Qed.

(** Who owns the requests after a step of process [p]. *)
Lemma owned_step p s s' :
  owned s ->
  (forall q, q <> p -> visiting (gen (procs s q)) <> None -> procs s' q = procs s q) ->
  (forall m r', held s' m r' ->
     (held s m r' /\ visiting (gen (procs s p)) <> Some (m, r'))
     \/ visiting (gen (procs s' p)) = Some (m, r')) ->
  owned s'.
Proof.
  intros O F Hh m r' Hheld. destruct (Hh m r' Hheld) as [[Hold Hne]|Hnew]; [|now exists p].
  destruct (O m r' Hold) as (q & Hq). exists q.
  rewrite F; [exact Hq | congruence | congruence].
Qed.

(** A step of process [p] keeps the books of the stations in order, and
    leaves no request without its customer. *)
Lemma desk_resume p ev s s' :
  desk_inv s -> owned s ->
  kind (events s p) = KProcess -> (p < next_event s)%nat ->
  (forall q, (next_event s <= q)%nat -> procs s q = idle) ->
  resume cfg p ev s = Ok s' ->
  desk_inv s' /\ owned s'.
Proof.
  intros D O Hk Hlt Hfresh H.
  assert (Hp : is_request (kind (events s p)) = false) by now rewrite Hk.
  destruct (resume_frame cfg _ _ _ _ H) as (_ & F & _).
  assert (Hother : forall q, q <> p -> visiting (gen (procs s q)) <> None ->
                             procs s' q = procs s q).
  { intros q Hq Hv. destruct (F q Hq) as [E|[-> _]]; [exact E|].
    rewrite Hfresh in Hv by lia. now destruct Hv. }
  (* code that leaves the stations alone *)
  assert (Haside : aside s s' ->
            visiting (gen (procs s' p)) = visiting (gen (procs s p))
            \/ visiting (gen (procs s p)) = None ->
            desk_inv s' /\ owned s').
  { intros A Hv. split; [exact (desk_inv_aside _ _ A D)|].
    apply (owned_step p s s' O Hother). intros m r' Hh.
    apply (held_aside _ _ _ _ A) in Hh.
    destruct (decide (visiting (gen (procs s p)) = Some (m, r'))) as [E|E].
    - right. destruct Hv as [Hv|Hv]; congruence.
    - now left. }
  (* the loop of the customer, after the stations have been left alone
     or a request has been struck off *)
  assert (Hloop : forall s0 pw,
            desk_inv s0 -> (next_event s <= next_event s0)%nat ->
            (forall e, (e < next_event s)%nat -> kind (events s0 e) = kind (events s e)) ->
            (forall m r', held s0 m r' ->
               held s m r' /\ visiting (gen (procs s p)) <> Some (m, r')) ->
            customer_loop cfg p pw s0 = Ok s' ->
            desk_inv s' /\ owned s').
  { intros s0 pw D0 L0 K0 H0 Hl.
    destruct (desk_customer_loop p pw s0 s' D0) as (D' & Hh & _); [| |exact Hl|].
    - now rewrite K0.
    - lia.
    - split; [exact D'|]. apply (owned_step p s s' O Hother). intros m r' Hheld.
      destruct (Hh m r' Hheld) as [Hold|Hnew]; [left; now apply H0 | now right]. }
  unfold resume in H.
  destruct (gen (procs s p)) as [i|cid| |pw|n rest a r|n rest w sv r|] eqn:Hg.
  - (* customer_arrivals *)
    destruct (i <? TOTAL_CUSTOMERS cfg)%nat.
    + destruct (process (Pathway_start i) (observe (ObsSpawn i) s)) as [p' s1] eqn:Hpr.
      apply bind_Ok in H. destruct H as ([ia s2] & Hex & H).
      apply bind_Ok in H. destruct H as ([t s3] & Htmo & H). apply Ok_inj in H. subst s'.
      pose proof (aside_process (Pathway_start i) (observe (ObsSpawn i) s)) as A1.
      rewrite Hpr in A1. cbn [snd] in A1.
      apply Haside; [|now right].
      eapply aside_trans; [|apply aside_yield].
      eapply aside_trans; [|exact (aside_timeout _ _ _ _ Htmo)].
      eapply aside_trans; [|exact (aside_expovariate _ _ _ _ Hex)].
      eapply aside_trans; [|exact A1]. aside_same.
    + apply Ok_inj in H. subst s'. apply Haside; [now apply aside_finish | now right].
  - (* customer_pathway starts *)
    apply bind_Ok in H. destruct H as ([pathway draws] & Hbp & H).
    destruct (process _ _) as [pc s2] eqn:Hpr in H. apply Ok_inj in H. subst s'.
    match type of Hpr with
    | process ?g ?s0 = _ =>
        pose proof (aside_process g s0) as A1; rewrite Hpr in A1; cbn [snd] in A1
    end.
    apply Haside; [|now right].
    eapply aside_trans; [|apply aside_yield]. eapply aside_trans; [|exact A1]. aside_same.
  - (* customer_pathway ends *)
    apply Ok_inj in H. subst s'. apply Haside; [now apply aside_finish | now right].
  - (* customer starts *)
    apply (Hloop s pw); [exact D | lia | intros; reflexivity | | exact H].
    intros m r' Hh. split; [exact Hh | discriminate].
  - (* the race is decided *)
    destruct (decide (r ∈ value (events s ev))).
    + apply bind_Ok in H. destruct H as (prm & _ & H).
      destruct (Qeq_bool (mu prm) 0); [discriminate|].
      apply bind_Ok in H. destruct H as ([x s1] & Hex & H).
      apply bind_Ok in H. destruct H as ([t s2] & Htmo & H).
      apply Ok_inj in H. subst s'. apply Haside.
      * eapply aside_trans; [|apply aside_yield].
        eapply aside_trans; [|exact (aside_timeout _ _ _ _ Htmo)].
        exact (aside_expovariate _ _ _ _ Hex).
      * left. now rewrite procs_yield, decide_True.
    + apply bind_Ok in H. destruct H as (prm & _ & H).
      apply bind_Ok in H. destruct H as (s2 & Hrec & H).
      apply bind_Ok in H. destruct H as (s3 & Hex & H).
      apply Ok_inj in H. subst s'.
      match type of Hex with
      | exit_request _ _ ?s0 = _ =>
          assert (A0 : aside s s0)
            by (eapply aside_trans; [|apply (aside_events s2 s0);
                                       [intros; reflexivity | cbn; lia
                                        | intros; split; reflexivity]];
                eapply aside_trans; [|exact (aside_record_stats _ _ _ _ _ _ Hrec)];
                aside_same);
          destruct (desk_exit_request n r s0 s3 (desk_inv_aside _ _ A0 D) Hex)
            as (D3 & H3 & X3 & E3)
      end.
      assert (Hp3 : is_request (kind (events s3 p)) = false).
      { destruct A0 as (_ & L0 & K0). rewrite E3 by lia. now destruct (K0 p Hlt) as [-> _]. }
      pose proof (aside_finish p s3 Hp3) as A3.
      split; [exact (desk_inv_aside _ _ A3 D3)|].
      apply (owned_step p s _ O Hother). intros m r' Hh. left.
      apply (held_aside _ _ _ _ A3), H3 in Hh. destruct Hh as [Hh Hne].
      apply (held_aside _ _ _ _ A0) in Hh. split; [exact Hh|].
      rewrite ?Hg. cbn [visiting]. congruence.
  - (* service is over *)
    apply bind_Ok in H. destruct H as (s1 & Hrec & H).
    apply bind_Ok in H. destruct H as (s2 & Hex & H).
    match type of Hex with
    | exit_request _ _ ?s0 = _ =>
        assert (A0 : aside s s0)
          by (eapply aside_trans; [exact (aside_record_stats _ _ _ _ _ _ Hrec)|];
              aside_same);
        destruct (desk_exit_request n r s0 s2 (desk_inv_aside _ _ A0 D) Hex)
          as (D2 & H2 & X2 & E2)
    end.
    pose proof A0 as (_ & L0 & K0).
    apply (Hloop s2 rest); [exact D2 | | | | exact H].
    + lia.
    + intros e He. rewrite E2 by lia. now destruct (K0 e He) as [-> _].
    + intros m r' Hh. apply H2 in Hh. destruct Hh as [Hh Hne].
      apply (held_aside _ _ _ _ A0) in Hh. split; [exact Hh|].
      rewrite ?Hg. cbn [visiting]. congruence.
  - discriminate.
Qed.

End Desk.

(** *** Checks are registered for conditions only *)

Lemma checks_refl C s : checks C s s.
Proof. intros e l' c H Hc. left. now exists l'. Qed.

Lemma checks_trans C s1 s2 s3 : checks C s1 s2 -> checks C s2 s3 -> checks C s1 s3.
Proof.
  intros H12 H23 e l' c Hl Hc.
  destruct (H23 e l' c Hl Hc) as [(l & Hl2 & Hc2)|H]; [|now right].
  exact (H12 e l c Hl2 Hc2).
Qed.

Lemma checks_weaken (C C' : nat -> Prop) s s' :
  (forall c, C c -> C' c) -> checks C s s' -> checks C' s s'.
Proof.
  intros HC H e l' c Hl Hc. destruct (H e l' c Hl Hc) as [Hold|Hnew]; [now left|].
  right. now apply HC.
Qed.

Lemma tidy_checks C d s s' : (forall k, tidy k d s s') -> checks C s s'.
Proof.
  intros H e l' c Hl Hc. destruct (H (S (e + c))) as (_ & _ & T).
  destruct (T e l' c Hl Hc) as [Hold|[Hk _]]; [now left | lia].
Qed.

Lemma checks_same C s s' :
  (forall e, callbacks (events s' e) = callbacks (events s e)) -> checks C s s'.
Proof. intros H e l' c Hl Hc. left. exists l'. now rewrite <- H. Qed.

Lemma checks_timeout C d s t s' : timeout d s = Ok (t, s') -> checks C s s'.
Proof.
  unfold timeout. destruct (Qltb d 0); [discriminate|].
  intros H. cbn in H. injection H as <- <-.
  eapply checks_trans; [apply (tidy_checks C 0); intros k; apply tidy_new_event|].
  now apply checks_same.
Qed.

Lemma checks_add_callback (C : nat -> Prop) x cb s :
  (forall c, cb = Check c -> C c) -> checks C s (add_callback x cb s).
Proof.
  intros Hcb e l' c Hl Hc. rewrite events_add_callback in Hl.
  destruct (decide (x = e)) as [->|Hne]; [|left; now exists l'].
  cbn [with_callbacks callbacks] in Hl.
  destruct (callbacks (events s e)) as [l|] eqn:E; [|discriminate].
  cbn [option_map] in Hl. injection Hl as <-. apply elem_of_app in Hc.
  destruct Hc as [Hc|Hc].
  - left. now exists l.
  - apply list_elem_of_singleton in Hc. right. now apply Hcb.
Qed.

Lemma checks_any_of (C : nat -> Prop) evs s c s' :
  any_of evs s = Ok (c, s') -> C c -> checks C s s'.
Proof.
  intros H HC. destruct (next_any_of _ _ _ _ H) as [-> _]. revert H. unfold any_of.
  change (new_event (KCondition evs) false s)
    with (next_event s, snd (new_event (KCondition evs) false s)).
  cbn iota beta. intros H.
  assert (T1 : checks C s (snd (new_event (KCondition evs) false s)))
    by (apply (tidy_checks C 0); intros k; apply tidy_new_event).
  revert T1 H. generalize (snd (new_event (KCondition evs) false s)) as s1.
  intros s1 T1 H.
  apply bind_Ok in H. destruct H as (s2 & E & H). injection H as <-.
  eapply checks_trans; [|apply checks_add_callback; intros; discriminate].
  revert s1 T1 E. induction evs as [|ev evs IH]; intros s1 T1 E; cbn [foldl] in E.
  - apply Ok_inj in E. now subst.
  - cbn [bind] in E. destruct (processed (events s1 ev)).
    + destruct (check (next_event s) s1) as [s3| |] eqn:Hc.
      * apply (IH s3); [|exact E]. eapply checks_trans; [exact T1|].
        apply (tidy_checks C 0). intros k. eapply tidy_check; eauto.
      * exfalso. clear -E. induction evs; cbn in E; [discriminate | auto].
      * exfalso. clear -E. induction evs; cbn in E; [discriminate | auto].
    + apply (IH (add_callback ev (Check (next_event s)) s1)); [|exact E].
      eapply checks_trans; [exact T1|]. apply checks_add_callback.
      now intros c1 [= <-].
Qed.

Section Checks.

Variable cfg : Config.

Lemma checks_customer_loop p pw s s' :
  customer_loop cfg p pw s = Ok s' ->
  checks (fun c => is_request (kind (events s' c)) = false) s s'.
Proof.
  intros H. destruct pw as [|n rest].
  - cbn [customer_loop] in H. apply Ok_inj in H. subst s'.
    apply (tidy_checks _ 0). intros k. apply tidy_finish.
  - destruct (customer_loop_race cfg p n rest s s' H) as (_ & Kc & _).
    cbn zeta in Kc. cbn [customer_loop] in H.
    apply bind_Ok in H. destruct H as (prm & _ & H).
    apply bind_Ok in H. destruct H as ([r0 s0] & Hreq & H).
    apply bind_Ok in H. destruct H as ([t s2] & Htmo & H).
    apply bind_Ok in H. destruct H as ([c0 s3] & Hany & H).
    apply Ok_inj in H. subst s'.
    destruct (next_request _ _ _ _ Hreq) as [-> N0].
    destruct (next_timeout _ _ _ _ Htmo) as [Et N2]. cbn [observe next_event] in Et.
    rewrite N0 in Et. subst t.
    destruct (next_any_of _ _ _ _ Hany) as [Ec _]. rewrite N2 in Ec. subst c0.
    set (C := fun c => is_request (kind (events (yield p (S (S (next_event s)))
                         (Customer_race n rest (now s) (next_event s)) s3) c)) = false).
    eapply checks_trans; [|apply (tidy_checks C 0); intros k; apply tidy_yield].
    eapply checks_trans; [|apply (checks_any_of C _ _ _ _ Hany); unfold C; now rewrite Kc].
    eapply checks_trans; [|exact (checks_timeout C _ _ _ _ Htmo)].
    eapply checks_trans; [|apply checks_same; reflexivity].
    apply (tidy_checks C 0). intros k. exact (tidy_request k 0 _ _ _ _ Hreq).
Qed.

Lemma checks_resume p ev s s' :
  resume cfg p ev s = Ok s' ->
  checks (fun c => is_request (kind (events s' c)) = false) s s'.
Proof.
  unfold resume. intros H.
  set (C := fun c => is_request (kind (events s' c)) = false).
  assert (Hk : forall s1 s2, (forall k, tidy k 0 s1 s2) -> checks C s1 s2)
    by (intros s1 s2; apply tidy_checks).
  destruct (gen (procs s p)) as [i|cid| |pw|n rest a r|n rest w sv r|] eqn:Hg.
  - destruct (i <? TOTAL_CUSTOMERS cfg)%nat.
    + destruct (process (Pathway_start i) (observe (ObsSpawn i) s)) as [p' s1] eqn:Hpr.
      apply bind_Ok in H. destruct H as ([ia s2] & Hex & H).
      apply bind_Ok in H. destruct H as ([t s3] & Htmo & H). apply Ok_inj in H.
      assert (T1 : forall k, tidy k 0 (observe (ObsSpawn i) s) s1).
      { intros k. pose proof (tidy_process k 0 (Pathway_start i) (observe (ObsSpawn i) s))
          as T. now rewrite Hpr in T. }
      eapply checks_trans; [apply (checks_same C s (observe (ObsSpawn i) s)); reflexivity|].
      eapply checks_trans; [exact (Hk _ _ T1)|].
      eapply checks_trans;
        [apply Hk; intros k; exact (tidy_expovariate k 0 _ _ _ _ Hex)|].
      eapply checks_trans; [exact (checks_timeout C _ _ _ _ Htmo)|].
      rewrite <- H. apply Hk. intros k. apply tidy_yield.
    + apply Ok_inj in H. rewrite <- H. apply Hk. intros k. apply tidy_finish.
  - apply bind_Ok in H. destruct H as ([pathway draws] & Hbp & H).
    destruct (process _ _) as [pc s2] eqn:Hpr in H. apply Ok_inj in H.
    match type of Hpr with
    | process ?g ?s0 = _ =>
        assert (T1 : forall k, tidy k 0 s0 s2)
          by (intros k; pose proof (tidy_process k 0 g s0) as T; now rewrite Hpr in T);
        eapply checks_trans; [apply (checks_same C s s0); reflexivity|]
    end.
    eapply checks_trans; [exact (Hk _ _ T1)|].
    rewrite <- H. apply Hk. intros k. apply tidy_yield.
  - apply Ok_inj in H. rewrite <- H. apply Hk. intros k. apply tidy_finish.
  - now apply (checks_customer_loop p pw).
  - destruct (decide (r ∈ value (events s ev))).
    + apply bind_Ok in H. destruct H as (prm & _ & H).
      destruct (Qeq_bool (mu prm) 0); [discriminate|].
      apply bind_Ok in H. destruct H as ([x s1] & Hex & H).
      apply bind_Ok in H. destruct H as ([t s2] & Htmo & H).
      apply Ok_inj in H.
      eapply checks_trans;
        [apply Hk; intros k; exact (tidy_expovariate k 0 _ _ _ _ Hex)|].
      eapply checks_trans; [exact (checks_timeout C _ _ _ _ Htmo)|].
      rewrite <- H. apply Hk. intros k. apply tidy_yield.
    + apply bind_Ok in H. destruct H as (prm & _ & H).
      apply bind_Ok in H. destruct H as (s2 & Hrec & H).
      apply bind_Ok in H. destruct H as (s3 & Hex & H).
      apply Ok_inj in H.
      eapply checks_trans; [|rewrite <- H; apply Hk; intros k; apply tidy_finish].
      eapply checks_trans;
        [|apply Hk; intros k; exact (tidy_exit_request k 0 _ _ _ _ Hex)].
      eapply checks_trans; [|apply checks_same; reflexivity].
      eapply checks_trans;
        [|apply Hk; intros k; exact (tidy_record_stats cfg k 0 _ _ _ _ _ Hrec)].
      now apply checks_same.
  - apply bind_Ok in H. destruct H as (s1 & Hrec & H).
    apply bind_Ok in H. destruct H as (s2 & Hex & H).
    eapply checks_trans; [|exact (checks_customer_loop p rest _ _ H)].
    eapply checks_trans;
      [|apply Hk; intros k; exact (tidy_exit_request k 0 _ _ _ _ Hex)].
    eapply checks_trans; [|apply checks_same; reflexivity].
    apply Hk. intros k. exact (tidy_record_stats cfg k 0 _ _ _ _ _ Hrec).
  - discriminate.
Qed.

Lemma checks_run_callback cb ev s s' :
  (forall p, cb <> Resume p) -> run_callback cfg cb ev s = Ok s' ->
  checks (fun _ => False) s s'.
Proof.
  intros Hcb H. apply (tidy_checks _ 0). intros k.
  destruct cb as [p|c|c|n|n]; cbn [run_callback] in H.
  - now destruct (Hcb p).
  - eapply tidy_check; eauto.
  - apply Ok_inj in H. subst. apply tidy_build_value.
  - eapply tidy_trigger_get; eauto.
  - eapply tidy_trigger_put; eauto.
Qed.

End Checks.

Lemma checks_inv_step (C : nat -> Prop) e cb l s s' :
  wake_inv (Some (e, cb :: l)) s -> checks_inv (Some (e, cb :: l)) s ->
  checks C s s' -> (forall c, C c -> is_request (kind (events s' c)) = false) ->
  (forall x, (x < next_event s)%nat -> kind (events s' x) = kind (events s x)) ->
  checks_inv (Some (e, l)) s'.
Proof.
  intros W K Hc HC Hk e' l' c Hl Hin.
  assert (Hold : has_callback (Some (e, cb :: l)) s e' (Check c) ->
                 is_request (kind (events s' c)) = false).
  { intros (l0 & Hl0 & Hin0).
    destruct (wi_callbacks _ _ W e' l0 Hl0) as [_ Hok]. specialize (Hok _ Hin0).
    cbn [callback_ok] in Hok. destruct Hok as [_ Hlt].
    rewrite Hk by exact Hlt. exact (K e' l0 c Hl0 Hin0). }
  cbn [pending_callbacks] in Hl. destruct (decide (e' = e)) as [->|Hne].
  - injection Hl as <-. apply Hold. exists (cb :: l).
    split; [apply pending_callbacks_cursor | now right].
  - destruct (Hc e' l' c Hl Hin) as [(l0 & Hl0 & Hin0)|HCc]; [|now apply HC].
    apply Hold. exists l0. split; [now rewrite pending_callbacks_other | exact Hin0].
Qed.

Lemma aside_pop x q s : aside s (pop x q s).
Proof.
  apply aside_events; [reflexivity | cbn; lia|]. intros e _.
  cbn [pop upd_event events set_events set_now set_queue].
  destruct (decide (e_ev x = e)) as [->|Hne].
  - rewrite fn_lookup_alter. now split.
  - rewrite fn_lookup_alter_ne by exact Hne. now split.
Qed.

Lemma owned_same s s' :
  (forall n, nodes s' n = nodes s n) -> procs s' = procs s -> owned s -> owned s'.
Proof.
  intros N P O n r Hh. unfold held in Hh. rewrite N in Hh. rewrite P. now apply O.
Qed.

Section DeskReachable.

Variable cfg : Config.
Variables exps unifs : list Q.

(** In every state between two events the books of the stations are in
    order and every request in them belongs to a customer at the
    station. *)
Lemma desk_reachable s :
  reachable cfg exps unifs s -> desk_inv s /\ owned s.
Proof.
  intros Hs.
  enough (H : wake_inv None s /\ checks_inv None s /\ desk_inv s /\ owned s)
    by (now destruct H as (_ & _ & H)).
  revert s Hs.
  apply (reachable_callbacks_ind cfg exps unifs
           (fun cur s => wake_inv cur s /\ checks_inv cur s /\ desk_inv s /\ owned s)).
  - intros s H. pose proof (reachable_setup cfg exps unifs s H) as Hs.
    split; [exact (wake_inv_reachable cfg exps unifs s Hs)|].
    unfold setup in H. destruct (capacities_ok cfg); [|discriminate].
    apply Ok_inj in H. subst s.
    assert (D0 : desk_inv (empty_state cfg exps unifs)).
    { constructor; cbn [empty_state nodes new_resource users put_queue get_queue app].
      - reflexivity.
      - intros n. constructor.
      - intros n r [Hh|Hh]; cbn [empty_state nodes new_resource users put_queue] in Hh;
          now apply elem_of_nil in Hh.
      - intros n r Hh. now apply elem_of_nil in Hh.
      - intros n r Hh. now apply elem_of_nil in Hh. }
    pose proof (aside_process (Arrivals 0) (empty_state cfg exps unifs)) as A.
    split; [|split].
    + intros e l c Hl Hc. cbn [pending_callbacks] in Hl.
      destruct (tidy_process (S (e + c)) 0 (Arrivals 0) (empty_state cfg exps unifs))
        as (_ & _ & T).
      destruct (T e l c Hl Hc) as [(l0 & Hl0 & _)|[Hk _]]; [discriminate | lia].
    + exact (desk_inv_aside _ _ A D0).
    + intros n r Hh. apply (held_aside _ _ _ _ A) in Hh.
      destruct Hh as [Hh|Hh]; cbn [empty_state nodes new_resource users put_queue] in Hh;
        now apply elem_of_nil in Hh.
  - intros s x q (W & K & D & O) Hq.
    split; [now apply wake_inv_pop|]. split; [|split].
    + intros e l c Hl Hc.
      change (kind (events (pop x q s) c)) with
        (kind (alter (with_callbacks None) (e_ev x) (events s) c)).
      assert (Hkc : kind (alter (with_callbacks None) (e_ev x) (events s) c)
                    = kind (events s c)).
      { destruct (decide (e_ev x = c)) as [->|Hne].
        - now rewrite fn_lookup_alter.
        - now rewrite fn_lookup_alter_ne. }
      rewrite Hkc. cbn [pending_callbacks] in Hl.
      destruct (decide (e = e_ev x)) as [->|Hne].
      * injection Hl as <-. destruct (callbacks (events s (e_ev x))) as [l0|] eqn:E.
        -- exact (K (e_ev x) l0 c E Hc).
        -- cbn [default] in Hc. now apply elem_of_nil in Hc.
      * cbn [pop upd_event events set_events set_now set_queue] in Hl.
        rewrite fn_lookup_alter_ne in Hl by congruence. exact (K e l c Hl Hc).
    + exact (desk_inv_aside _ _ (aside_pop x q s) D).
    + now apply (owned_same s).
  - intros e cb l s s' (W & K & D & O) H.
    split; [exact (wake_inv_run_callback cfg e cb l s s' W H)|].
    destruct (wi_callbacks _ _ W e _ (pending_callbacks_cursor _ _ _)) as [_ Hok].
    specialize (Hok cb (list_elem_of_here _ _)).
    destruct (classic_callback cb) as [[p ->]|Hcb].
    + cbn [run_callback] in H. cbn [callback_ok] in Hok.
      destruct (resume_frame cfg _ _ _ _ H) as (Kp & _).
      split.
      * apply (checks_inv_step _ e (Resume p) l s s' W K (checks_resume cfg p e s s' H)).
        -- auto.
        -- intros x Hx. now destruct (Kp x Hx).
      * pose proof (wi_procs _ _ W p) as Hp. rewrite Hok in Hp.
        destruct Hp as (_ & Hkp & _).
        apply (desk_resume cfg p e s s' D O Hkp); [| |exact H].
        -- apply (process_allocated _ _ _ W). now rewrite Hok.
        -- intros q0 Hq0. now destruct (wi_fresh _ _ W q0 Hq0).
    + destruct (run_callback_keeps cfg (next_event s) cb e s s' Hcb H) as (Kp & Pq & _).
      split.
      * apply (checks_inv_step _ e cb l s s' W K (checks_run_callback cfg cb e s s' Hcb H)).
        -- intros c [].
        -- intros x Hx. now destruct (Kp x Hx).
      * destruct cb as [p|c|c|n|n]; cbn [run_callback] in H.
        -- now destruct (Hcb p).
        -- assert (A : aside s s').
           { apply (aside_check c); [|exact H].
             exact (K e _ c (pending_callbacks_cursor _ _ _) (list_elem_of_here _ _)). }
           split; [exact (desk_inv_aside _ _ A D)|].
           destruct A as (N & _). now apply (owned_same s).
        -- apply Ok_inj in H. subst s'. pose proof (aside_build_value c s) as A.
           split; [exact (desk_inv_aside _ _ A D)|].
           destruct A as (N & _). now apply (owned_same s).
        -- apply (desk_trigger_get n s s' D) in H. subst s'. now split.
        -- destruct (desk_trigger_put n s s' D H) as (D' & Hh & _).
           split; [exact D'|]. intros m r Hheld. apply Hh in Hheld.
           rewrite Pq. now apply O.
  - intros e s (W & K & D & O).
    split; [now apply (wake_inv_end e)|]. split; [|now split].
    intros e' l c Hl Hc. apply (K e' l c); [|exact Hc].
    cbn [pending_callbacks] in *. destruct (decide (e' = e)) as [->|Hne]; [|exact Hl].
    destruct (wi_cursor _ _ W e [] eq_refl) as [Hnone _]. congruence.
Qed.

End DeskReachable.

(** X20: when [env.run()] returns every server is free again and every
    queue is empty: on every way out of the [with] block of [customer] the
    request is withdrawn or the server released. *)
Theorem servers_are_given_back cfg exps unifs s n :
  reachable cfg exps unifs s -> completed s ->
  users (nodes s n) = [] /\ put_queue (nodes s n) = [] /\ get_queue (nodes s n) = [].
Proof.
  intros Hs Hdone. destruct (desk_reachable cfg exps unifs s Hs) as [D O].
  pose proof (completed_all_finished cfg exps unifs s Hs Hdone) as Hidle.
  assert (Hnone : forall r, ~ held s n r).
  { intros r Hh. destruct (O n r Hh) as (p & Hp). rewrite Hidle in Hp. discriminate. }
  split; [|split; [|apply (di_get _ D)]].
  - destruct (users (nodes s n)) as [|r l] eqn:E; [reflexivity|].
    exfalso. apply (Hnone r). left. rewrite E. now left.
  - destruct (put_queue (nodes s n)) as [|r l] eqn:E; [reflexivity|].
    exfalso. apply (Hnone r). right. rewrite E. now left.
Qed.

(** X21: at every moment of a run a server of a station is held by a
    customer that is at this station, waiting for the outcome of its
    request or in service, and so is every place in the queue; no request
    is listed twice, the requests that hold a server have been granted and
    those in the queue have not. *)
Theorem servers_are_held_by_visitors cfg exps unifs s n :
  reachable cfg exps unifs s ->
  NoDup (users (nodes s n) ++ put_queue (nodes s n)) /\
  (forall r, r ∈ users (nodes s n) ->
     triggered (events s r) = true /\ kind (events s r) = KRequest n /\
     exists p, visiting (gen (procs s p)) = Some (n, r)) /\
  (forall r, r ∈ put_queue (nodes s n) ->
     triggered (events s r) = false /\ kind (events s r) = KRequest n /\
     exists p, visiting (gen (procs s p)) = Some (n, r)).
Proof.
  intros Hs. destruct (desk_reachable cfg exps unifs s Hs) as [D O].
  split; [apply (di_nodup _ D)|]. split.
  - intros r Hr. split; [now apply (di_users _ D n)|].
    split; [now apply (di_kind _ D n r (or_introl Hr))|]. apply O. now left.
  - intros r Hr. split; [now apply (di_queue _ D n)|].
    split; [now apply (di_kind _ D n r (or_intror Hr))|]. apply O. now right.
Qed.

Lemma servers_are_given_back_witness :
  let s := final_state eleven_run in
  users (nodes s CRS) = [] /\ put_queue (nodes s CRS) = [] /\ get_queue (nodes s CRS) = [].
Proof.
  apply (servers_are_given_back eleven_customers eleven_expo eleven_unif);
    apply (simulate_reachable eleven_customers eleven_expo eleven_unif 1000);
    apply succeeded_final; vm_compute; reflexivity.
Defined.

Lemma servers_are_held_by_visitors_witness :
  let s := final_state tie_lost_race in
  NoDup (users (nodes s CRS) ++ put_queue (nodes s CRS)) /\
  (forall r, r ∈ users (nodes s CRS) ->
     triggered (events s r) = true /\ kind (events s r) = KRequest CRS /\
     exists p, visiting (gen (procs s p)) = Some (CRS, r)) /\
  (forall r, r ∈ put_queue (nodes s CRS) ->
     triggered (events s r) = false /\ kind (events s r) = KRequest CRS /\
     exists p, visiting (gen (procs s p)) = Some (CRS, r)).
Proof.
  apply (servers_are_held_by_visitors (one_desk 2) [1; 12 # 10; 1] [1 # 2; 1 # 2]).
  apply (simulate_events_reachable _ 15). apply succeeded_final. vm_compute. reflexivity.
Defined.

(** ** The lifecycles started by the arrival generator *)

Lemma pathway_procs_story tr : pathway_procs (story_of tr) = pathway_procs tr.
Proof.
  induction tr as [|o tr IH]; [reflexivity|]. unfold story_of in *.
  destruct o; cbn [List.filter is_grant negb pathway_procs flat_map] in *;
    fold (pathway_procs tr) in *;
    fold (pathway_procs (List.filter (fun o => negb (is_grant o)) tr)) in *;
    now rewrite ?IH.
Qed.

Lemma pathway_procs_length tr : length (pathway_procs tr) = length (paths_of tr).
Proof.
  induction tr as [|o tr IH]; [reflexivity|].
  destruct o; cbn [pathway_procs paths_of flat_map app length] in *;
    fold (pathway_procs tr) in *; fold (paths_of tr) in *; now rewrite ?IH.
Qed.

Lemma count_upto_listed (f : nat -> bool) (l : list nat) (k : nat) :
  NoDup l -> (forall q, q ∈ l -> (q < k)%nat /\ f q = false) ->
  count_upto (fun q => f q || bool_decide (q ∈ l)) k = (count_upto f k + length l)%nat.
Proof.
  induction 1 as [|x l Hx Hl IH]; intros Hb.
  - cbn [length]. rewrite Nat.add_0_r. apply count_upto_ext. intros q _.
    rewrite bool_decide_eq_false_2; [now rewrite orb_false_r|]. apply not_elem_of_nil.
  - destruct (Hb x (list_elem_of_here _ _)) as [Hxk Hfx].
    assert (Hext : forall q, q <> x ->
              f q || bool_decide (q ∈ x :: l) = f q || bool_decide (q ∈ l)).
    { intros q Hq. f_equal. apply bool_decide_ext. rewrite elem_of_cons. tauto. }
    pose proof (count_upto_set (fun q => f q || bool_decide (q ∈ l))
                  (fun q => f q || bool_decide (q ∈ x :: l)) x k Hxk Hext) as H.
    cbv beta in H. rewrite Hfx in H. cbn [orb] in H.
    rewrite (bool_decide_eq_false_2 _ Hx) in H.
    rewrite bool_decide_eq_true_2 in H by apply list_elem_of_here.
    rewrite IH in H by (intros q Hq; apply Hb; now apply list_elem_of_further).
    cbn [length]. lia.
Qed.

Lemma started_inv_idles v v' : idles v v' -> started_inv v -> started_inv v'.
Proof.
  intros (Hs & Hg & Hf) [N B]. split; rewrite Hs; [exact N|].
  intros q Hq. destruct (B q Hq) as [Hlt Hst]. rewrite Hg. split; [lia | exact Hst].
Qed.

Lemma started_inv_moves cfg p v v' :
  moves cfg p v v' ->
  (forall q, (fresh v <= q)%nat -> gens v q = Finished) ->
  started_inv v ->
  started_inv v' /\
  forall q, q ∈ pathway_procs (story v') -> q ∈ pathway_procs (story v) \/ q = p.
Proof.
  intros M Hu [N B].
  assert (Hold : forall g g0,
            is_start g = false ->
            (forall q, gens v' q = <[p := g]> (gens v) q
                       \/ gens v' q = <[p := g]> (<[fresh v := g0]> (gens v)) q) ->
            (fresh v <= fresh v')%nat ->
            forall q, q ∈ pathway_procs (story v) ->
                      (q < fresh v')%nat /\ is_start (gens v' q) = false).
  { intros g g0 Hg Hgs Hf q Hq. destruct (B q Hq) as [Hlt Hst]. split; [lia|].
    destruct (decide (q = p)) as [->|Hne].
    - destruct (Hgs p) as [-> | ->]; now rewrite fn_lookup_insert.
    - destruct (Hgs q) as [-> | ->]; rewrite fn_lookup_insert_ne by congruence;
        [exact Hst|]. rewrite fn_lookup_insert_ne by lia. exact Hst. }
  destruct M as [i Hg Hi Hs Hgs Hf|i Hg Hi Hs Hgs Hf|cid pw Hg Hs Hgs Hf|Hg Hs Hgs Hf
                |Hg Hs Hgs Hf|n rest t Hg Hs Hgs Hf|n rest a r w sv Hg Hs Hgs Hf
                |n rest a r w Hg Hs Hgs Hf|n rest w sv r Hg Hs Hgs Hf].
  3: { assert (Hp : (p < fresh v)%nat).
       { destruct (Nat.lt_ge_cases p (fresh v)) as [|Hge]; [assumption|].
         rewrite (Hu p Hge) in Hg. discriminate. }
       assert (Hnew : p ∉ pathway_procs (story v)).
       { intros Hin. destruct (B p Hin) as [_ Hst]. rewrite Hg in Hst. discriminate. }
       unfold started_inv. rewrite Hs. cbn [pathway_procs flat_map app].
       fold (pathway_procs (story v)). split; [split|].
       - now constructor.
       - intros q Hq. apply elem_of_cons in Hq. destruct Hq as [->|Hq].
         + split; [lia|]. now rewrite Hgs, fn_lookup_insert.
         + apply (Hold Pathway_wait (Customer_loop pw));
             [reflexivity | intros q0; now right | lia | exact Hq].
       - intros q Hq. apply elem_of_cons in Hq. destruct Hq as [->|Hq]; auto. }
  all: unfold started_inv; rewrite Hs; cbn [pathway_procs flat_map app];
    fold (pathway_procs (story v));
    (split; [split; [exact N|] | now left]).
  - apply (Hold (Arrivals (S i)) (Pathway_start i));
      [reflexivity | intros q0; now right | lia].
  - apply (Hold Finished Finished); [reflexivity | intros q0; now left | lia].
  - apply (Hold Finished Finished); [reflexivity | intros q0; now left | lia].
  - apply (Hold Finished Finished); [reflexivity | intros q0; now left | lia].
  - apply (Hold (Customer_race n rest t (fresh v)) Finished);
      [reflexivity | intros q0; now left | lia].
  - apply (Hold (Customer_service n rest w sv r) Finished);
      [reflexivity | intros q0; now left | lia].
  - apply (Hold Finished Finished); [reflexivity | intros q0; now left | lia].
  - apply (Hold (Customer_loop rest) Finished); [reflexivity | intros q0; now left | lia].
Qed.

Lemma lifecycles_count s :
  paths_inv (view s) -> started_inv (view s) ->
  lifecycles s = length (spawns_of (trace s)).
Proof.
  intros [_ Hc] [N B]. cbn [view story gens fresh] in *.
  rewrite paths_of_story, spawns_of_story in Hc. rewrite pathway_procs_story in N, B.
  unfold lifecycles, lifecycle.
  rewrite (count_upto_listed (fun q => is_start (gen (procs s q)))
             (pathway_procs (trace s)) (next_event s) N B).
  rewrite pathway_procs_length, <- Hc. unfold pathless. cbn [view gens fresh]. lia.
Qed.

Lemma kind_pop x q s e : kind (events (pop x q s) e) = kind (events s e).
Proof.
  change (kind (events (pop x q s) e)) with
    (kind (alter (with_callbacks None) (e_ev x) (events s) e)).
  destruct (decide (e_ev x = e)) as [->|Hne].
  - now rewrite fn_lookup_alter.
  - now rewrite fn_lookup_alter_ne.
Qed.
Section Lifecycles.

Variable cfg : Config.
Variables exps unifs : list Q.

(** In every state between two events: no process has run
    [customer_pathway] twice, and every one that has run it is a process
    event of the environment. *)
Lemma started_reachable s :
  reachable cfg exps unifs s ->
  started_inv (view s) /\
  forall q, q ∈ pathway_procs (trace s) -> kind (events s q) = KProcess.
Proof.
  intros Hs.
  enough (H : wake_inv None s /\ paths_inv (view s) /\ started_inv (view s) /\
              forall q, q ∈ pathway_procs (trace s) -> kind (events s q) = KProcess)
    by (now destruct H as (_ & _ & H)).
  revert s Hs.
  apply (reachable_callbacks_ind cfg exps unifs
           (fun cur s => wake_inv cur s /\ paths_inv (view s) /\ started_inv (view s) /\
              forall q, q ∈ pathway_procs (trace s) -> kind (events s q) = KProcess)).
  - intros s H. pose proof (reachable_setup cfg exps unifs s H) as Hs.
    split; [exact (wake_inv_reachable cfg exps unifs s Hs)|].
    split; [exact (paths_reachable cfg exps unifs s Hs)|].
    destruct (view_setup cfg exps unifs s H) as (Hst & _).
    assert (E : pathway_procs (trace s) = []).
    { rewrite <- pathway_procs_story. cbn [view story] in Hst. now rewrite Hst. }
    split.
    + split; cbn [view story]; rewrite pathway_procs_story, E; [constructor|].
      intros q Hq. now apply elem_of_nil in Hq.
    + rewrite E. intros q Hq. now apply elem_of_nil in Hq.
  - intros s x q (W & P & S & K) Hq.
    split; [now apply wake_inv_pop|].
    split; [exact (paths_inv_idles _ _ (pop_idles x q s) P)|].
    split; [exact (started_inv_idles _ _ (pop_idles x q s) S)|].
    intros q0 Hq0. rewrite kind_pop. apply K.
    rewrite <- pathway_procs_story in Hq0 |- *.
    now rewrite <- (quiet_story _ _ (quiet_pop x q s)).
  - intros e cb l s s' (W & P & S & K) H.
    split; [exact (wake_inv_run_callback cfg e cb l s s' W H)|].
    destruct (wi_callbacks _ _ W e _ (pending_callbacks_cursor _ _ _)) as [_ Hok].
    specialize (Hok cb (list_elem_of_here _ _)).
    destruct (classic_callback cb) as [[p ->]|Hcb].
    + cbn [run_callback] in H. cbn [callback_ok] in Hok.
      destruct (resume_frame cfg _ _ _ _ H) as (Kp & _).
      pose proof (wi_procs _ _ W p) as Hp. rewrite Hok in Hp.
      destruct Hp as (_ & Hkp & _).
      assert (Hlt : (p < next_event s)%nat).
      { apply (process_allocated _ _ _ W). now rewrite Hok. }
      assert (Hres : paths_inv (view s') /\ started_inv (view s') /\
                     forall q, q ∈ pathway_procs (story (view s')) ->
                               q ∈ pathway_procs (story (view s)) \/ q = p).
      { destruct (resume_moves cfg p e s s' H) as [M|(vm & M1 & M2)].
        - split; [exact (paths_inv_moves cfg p _ _ M P)|].
          exact (started_inv_moves cfg p _ _ M (proj1 P) S).
        - pose proof (paths_inv_moves cfg p _ _ M1 P) as P1.
          destruct (started_inv_moves cfg p _ _ M1 (proj1 P) S) as [S1 I1].
          destruct (started_inv_moves cfg p _ _ M2 (proj1 P1) S1) as [S2 I2].
          split; [exact (paths_inv_moves cfg p _ _ M2 P1)|]. split; [exact S2|].
          intros q Hq. destruct (I2 q Hq) as [Hq1|Hq1]; [exact (I1 q Hq1) | now right]. }
      destruct Hres as (P' & S' & I). split; [exact P'|]. split; [exact S'|].
      intros q Hq. cbn [view story] in I. rewrite !pathway_procs_story in I.
      destruct (I q Hq) as [Hold| ->].
      * destruct S as [_ B]. cbn [view story fresh] in B.
        rewrite pathway_procs_story in B. destruct (B q Hold) as [Hq0 _].
        destruct (Kp q Hq0) as [-> _]. now apply K.
      * destruct (Kp p Hlt) as [-> _]. exact Hkp.
    + destruct (run_callback_keeps cfg (next_event s) cb e s s' Hcb H) as (Kp & _ & _).
      pose proof (run_callback_idles cfg cb e s s' Hcb H) as Hi.
      split; [exact (paths_inv_idles _ _ Hi P)|].
      split; [exact (started_inv_idles _ _ Hi S)|].
      intros q Hq. destruct Hi as (Hst & _). cbn [view story] in Hst.
      rewrite <- pathway_procs_story, Hst, pathway_procs_story in Hq.
      destruct S as [_ B]. cbn [view story fresh] in B.
      rewrite pathway_procs_story in B. destruct (B q Hq) as [Hq0 _].
      destruct (Kp q Hq0) as [-> _]. now apply K.
  - intros e s (W & P & S & K).
    split; [now apply (wake_inv_end e)|]. now split.
Qed.

End Lifecycles.

(** C9: whatever variates are drawn, at every moment of a run the customer
    lifecycles, that is the processes [env.process] has been given a
    [customer_pathway] generator for, are process events of the
    environment, one for each customer number the loop of
    [customer_arrivals] has passed and in this order; the loop counter of
    the arrival generator, which is process 0, is their number, and it
    never exceeds [TOTAL_CUSTOMERS].  When the arrival generator has
    finished, and so when [env.run()] returns, there are exactly
    [TOTAL_CUSTOMERS] of them; when [env.run()] returns every one of them
    has run [customer_pathway] and all processes have come to their end. *)
Theorem arrivals_create_every_lifecycle cfg exps unifs s :
  reachable cfg exps unifs s ->
  (forall q, lifecycle s q = true ->
             (q < next_event s)%nat /\ kind (events s q) = KProcess) /\
  lifecycles s = length (spawns_of (trace s)) /\
  spawns_of (trace s) = rev (seq 0 (lifecycles s)) /\
  (lifecycles s <= TOTAL_CUSTOMERS cfg)%nat /\
  (gen (procs s 0%nat) = Arrivals (lifecycles s) \/
   gen (procs s 0%nat) = Finished /\ lifecycles s = TOTAL_CUSTOMERS cfg) /\
  (completed s ->
   lifecycles s = TOTAL_CUSTOMERS cfg /\
   (forall q, lifecycle s q = true -> q ∈ pathway_procs (trace s)) /\
   forall p, gen (procs s p) = Finished).
Proof.
  intros Hs.
  destruct (started_reachable cfg exps unifs s Hs) as [S K].
  pose proof (paths_reachable cfg exps unifs s Hs) as P.
  pose proof (wake_inv_reachable cfg exps unifs s Hs) as W.
  pose proof (lifecycles_count s P S) as Hn.
  destruct (customers_reachable cfg exps unifs s Hs) as [(_ & _ & A) _].
  cbn [view story gens] in A. rewrite spawns_of_story in A.
  assert (Hfin : gen (procs s 0%nat) = Finished -> lifecycles s = TOTAL_CUSTOMERS cfg).
  { intros E. rewrite E in A. now rewrite Hn, A, length_rev, length_seq. }
  split; [|split; [exact Hn|]].
  { intros q Hq. unfold lifecycle in Hq. apply orb_true_iff in Hq.
    destruct Hq as [Hq|Hq].
    - pose proof (wi_procs _ _ W q) as Hp.
      destruct (target (procs s q)) as [e|] eqn:Ht.
      + destruct Hp as (_ & Hk & _). split; [|exact Hk].
        apply (process_allocated _ _ _ W). now rewrite Ht.
      + rewrite Hp in Hq. discriminate.
    - apply bool_decide_eq_true_1 in Hq. split; [|now apply K].
      destruct S as [_ B]. cbn [view story fresh] in B.
      rewrite pathway_procs_story in B. now destruct (B q Hq). }
  destruct (gen (procs s 0%nat)) as [i| | | | | |] eqn:E; try contradiction.
  - destruct A as [A Hi].
    assert (Hl : lifecycles s = i) by now rewrite Hn, A, length_rev, length_seq.
    rewrite Hl. split; [exact A|]. split; [exact Hi|]. split; [now left|].
    intros Hdone. pose proof (completed_all_finished cfg exps unifs s Hs Hdone 0%nat) as F.
    rewrite F in E. discriminate.
  - specialize (Hfin eq_refl). rewrite Hfin.
    split; [exact A|]. split; [lia|]. split; [now right|].
    intros Hdone. pose proof (completed_all_finished cfg exps unifs s Hs Hdone) as F.
    split; [reflexivity|]. split.
    + intros q Hq. unfold lifecycle in Hq. rewrite F in Hq. cbn [idle gen is_start orb] in Hq.
      now apply bool_decide_eq_true_1 in Hq.
    + intros p. now rewrite F.
Qed.

Lemma arrivals_create_every_lifecycle_witness :
  let s := final_state eleven_run in
  (forall q, lifecycle s q = true ->
             (q < next_event s)%nat /\ kind (events s q) = KProcess) /\
  lifecycles s = length (spawns_of (trace s)) /\
  spawns_of (trace s) = rev (seq 0 (lifecycles s)) /\
  (lifecycles s <= 11)%nat /\
  (gen (procs s 0%nat) = Arrivals (lifecycles s) \/
   gen (procs s 0%nat) = Finished /\ lifecycles s = 11%nat) /\
  (completed s ->
   lifecycles s = 11%nat /\
   (forall q, lifecycle s q = true -> q ∈ pathway_procs (trace s)) /\
   forall p, gen (procs s p) = Finished).
Proof.
  apply (arrivals_create_every_lifecycle eleven_customers eleven_expo eleven_unif).
  apply (simulate_reachable eleven_customers eleven_expo eleven_unif 1000).
  apply succeeded_final. vm_compute. reflexivity.
Defined.

(** ** An entry station that resolves every call *)

Lemma spec_classify_singletons (pws : list (list node)) :
  Forall (fun pw => pw = [CRS]) pws ->
  foldr spec_classify GeneStats_init pws
  = {| first_call_resolution_count := Z.of_nat (length pws); transfer_count := 0 |}.
Proof.
  induction 1 as [|pw pws -> _ IH]; [reflexivity|].
  cbn [foldr]. rewrite IH. unfold spec_classify.
  cbn [length Nat.eqb first_call_resolution_count transfer_count]. f_equal. lia.
Qed.

(** C3 on the code: when the entry station routes to the terminal outcome
    with probability 1.0, every constructed path is the entry station
    alone, as the specification says, and there is one path for every
    customer.  The specification's classification of these paths gives
    first_call_resolution_count = TOTAL_CUSTOMERS and transfer_count = 0.
    The code tests [len(pathway) == 2] and otherwise adds
    [len(pathway) - 2]: after the run its first_call_resolution_count is 0
    and its transfer_count is minus TOTAL_CUSTOMERS, so that with at least
    one customer the two counters differ from what the specification
    requires. *)
Theorem entry_resolves_miscounted cfg exps unifs s :
  entry_resolves cfg -> unit_draws unifs ->
  reachable cfg exps unifs s -> completed s ->
  let pws := paths_of (trace s) in
  Forall (fun pw => pw = [CRS] /\ length pw = 1%nat) pws /\
  length pws = TOTAL_CUSTOMERS cfg /\
  first_call_resolution_count (foldr spec_classify GeneStats_init pws)
  = Z.of_nat (TOTAL_CUSTOMERS cfg) /\
  transfer_count (foldr spec_classify GeneStats_init pws) = 0%Z /\
  first_call_resolution_count (gene_stats s) = 0%Z /\
  transfer_count (gene_stats s) = (- Z.of_nat (TOTAL_CUSTOMERS cfg))%Z /\
  ((0 < TOTAL_CUSTOMERS cfg)%nat ->
   first_call_resolution_count (gene_stats s) <> Z.of_nat (TOTAL_CUSTOMERS cfg) /\
   transfer_count (gene_stats s) <> 0%Z).
Proof.
  intros He Hu Hs Hdone pws.
  destruct (entry_paths_reachable cfg exps unifs He Hu s Hs) as [_ Hp].
  destruct (paths_and_spawns cfg exps unifs s Hs) as (_ & _ & Hn).
  specialize (Hn Hdone). fold pws in Hp, Hn.
  destruct (books_inv_reachable _ _ _ _ Hs) as [Hg _]. fold pws in Hg.
  assert (Hf : first_call_resolution_count (gene_stats s) = 0%Z).
  { rewrite Hg, classify_all_fcr. clear -Hp.
    induction Hp as [|pw l -> _ IH]; [reflexivity | exact IH]. }
  assert (Ht : transfer_count (gene_stats s) = (- Z.of_nat (TOTAL_CUSTOMERS cfg))%Z).
  { rewrite (entry_resolves_transfers cfg exps unifs s He Hu Hs). fold pws. now rewrite Hn. }
  split; [eapply List.Forall_impl; [|exact Hp]; now intros pw ->|].
  split; [exact Hn|].
  rewrite (spec_classify_singletons pws Hp), Hn.
  cbn [first_call_resolution_count transfer_count].
  split; [reflexivity|]. split; [reflexivity|]. split; [exact Hf|]. split; [exact Ht|].
  intros Hpos. rewrite Hf, Ht. lia.
Qed.

Lemma entry_resolves_miscounted_witness :
  let s := final_state tie_lost_run in
  let pws := paths_of (trace s) in
  Forall (fun pw => pw = [CRS] /\ length pw = 1%nat) pws /\
  length pws = 2%nat /\
  first_call_resolution_count (foldr spec_classify GeneStats_init pws) = 2%Z /\
  transfer_count (foldr spec_classify GeneStats_init pws) = 0%Z /\
  first_call_resolution_count (gene_stats s) = 0%Z /\
  transfer_count (gene_stats s) = (- 2)%Z /\
  ((0 < 2)%nat ->
   first_call_resolution_count (gene_stats s) <> 2%Z /\
   transfer_count (gene_stats s) <> 0%Z).
Proof.
  apply (entry_resolves_miscounted (one_desk 2) [1; 12 # 10; 1] [1 # 2; 1 # 2]).
  - exists [(Completed_Support, 1)], 1. split; [reflexivity|].
    split; [apply list_elem_of_singleton; reflexivity | reflexivity].
  - repeat constructor; vm_compute; congruence.
  - apply (simulate_reachable _ _ _ 100). apply succeeded_final.
    vm_compute. reflexivity.
  - vm_compute. reflexivity.
Defined.
